(** * LowerTypes: lowering of FIRRTL aggregate types

    A shallow embedding of [lib/Dialect/FIRRTL/Transforms/LowerTypes.cpp]:
    the type peeler, the annotation filter, the connect / subaccess
    visitors working on an explicit IR store, the rewiring of the users
    of a lowered producer, the lowering of the ports of an external
    module, and the update of the hierarchical paths.

    Conventions.  Sizes, indices and operation identities are [nat];
    integer attributes are [Z].  A C++ function that fills an output
    parameter and returns a flag returns here the pair of the flag and
    the filled vector.  [llvm_unreachable], failed assertions and failed
    type inference at operation creation are the outcome [Fatal]. *)

From stdpp Require Import base option list strings gmap stringmap pretty.

(** ** FIRRTL types *)

(** Modelled from the spec: the FIRRTL type classes (FIRRTLTypes, outside
    of the sources).  A ground type is represented by its kind and by the
    width [firrtl::getBitWidth] reports for it, [None] when it reports
    none (a width that is not inferred yet). *)
Inductive GroundKind := Clock | Reset | AsyncReset | SInt | UInt | Analog.

Record BundleElement (T : Type) := mkBundleElement
  { name : string; isFlip : bool; eltType : T }.
Arguments mkBundleElement {T} _ _ _.
Arguments name {T} _.
Arguments isFlip {T} _.
Arguments eltType {T} _.

#[warnings="-register-all"]
Inductive FIRRTLType :=
| GroundType (kind : GroundKind) (bitWidth : option N)
| BundleType (elements : list (BundleElement FIRRTLType))
| FVectorType (elementType : FIRRTLType) (numElements : nat).

#[global] Instance GroundKind_eq_dec : EqDecision GroundKind.
Proof. solve_decision. Defined.

(** Structural size, used for recursion on the elements of a bundle. *)
Fixpoint typeSize (type : FIRRTLType) : nat :=
  match type with
  | GroundType _ _ => 1
  | BundleType elements =>
      S ((fix go (elts : list (BundleElement FIRRTLType)) : nat :=
            match elts with
            | [] => 0
            | elt :: rest => typeSize (eltType elt) + go rest
            end) elements)
  | FVectorType elementType _ => S (typeSize elementType)
  end.

(** [FIRRTLType::isGround]. *)
Definition isGround (type : FIRRTLType) : bool :=
  match type with
  | GroundType _ _ => true
  | _ => false
  end.

(** [firrtl::getBitWidth] on a ground type. *)
Definition getBitWidth (type : FIRRTLType) : option N :=
  match type with
  | GroundType _ bitWidth => bitWidth
  | _ => None
  end.

(** Modelled from the spec: [FIRRTLType::isPassive], a type with no
    flipped (direction-inverted) component. *)
Fixpoint isPassive (type : FIRRTLType) : bool :=
  match type with
  | GroundType _ _ => true
  | BundleType elements =>
      (fix go (elts : list (BundleElement FIRRTLType)) : bool :=
         match elts with
         | [] => true
         | elt :: rest =>
             negb (isFlip elt) && isPassive (eltType elt) && go rest
         end) elements
  | FVectorType elementType _ => isPassive elementType
  end.

(** Modelled from the spec: [FIRRTLType::containsAnalog], a type with an
    analog component. *)
Fixpoint containsAnalog (type : FIRRTLType) : bool :=
  match type with
  | GroundType kind _ => bool_decide (kind = Analog)
  | BundleType elements =>
      (fix go (elts : list (BundleElement FIRRTLType)) : bool :=
         match elts with
         | [] => false
         | elt :: rest => containsAnalog (eltType elt) || go rest
         end) elements
  | FVectorType elementType _ => containsAnalog elementType
  end.

(** Modelled from the spec: the dense enumeration of field IDs of an
    aggregate ([getMaxFieldID], [BundleType::getFieldID],
    [FVectorType::getFieldID]); 0 addresses the whole value, every
    element takes one ID for itself and one for each of its own nodes. *)
Fixpoint getMaxFieldID (type : FIRRTLType) : nat :=
  match type with
  | GroundType _ _ => 0
  | BundleType elements =>
      (fix go (elts : list (BundleElement FIRRTLType)) : nat :=
         match elts with
         | [] => 0
         | elt :: rest => S (getMaxFieldID (eltType elt)) + go rest
         end) elements
  | FVectorType elementType numElements =>
      numElements * S (getMaxFieldID elementType)
  end.

Fixpoint bundleFieldID (elements : list (BundleElement FIRRTLType))
    (i : nat) : nat :=
  match i, elements with
  | 0, _ => 1
  | S j, elt :: rest => S (getMaxFieldID (eltType elt)) + bundleFieldID rest j
  | S _, [] => 1
  end.

Definition vectorFieldID (elementType : FIRRTLType) (i : nat) : nat :=
  1 + i * S (getMaxFieldID elementType).

(** ** The type peeler *)

(** This represents a flattened bundle field element. *)
Record FlatBundleFieldEntry := mkFlatBundleFieldEntry
  { type : FIRRTLType;
    index : nat;
    fieldID : nat;
    suffix : string;
    isOutput : bool }.

(** [hasZeroBitWidth]. *)
Fixpoint hasZeroBitWidth (type : FIRRTLType) : bool :=
  match type with
  | BundleType elements =>
      (fix loop (elts : list (BundleElement FIRRTLType)) : bool :=
         match elts with
         | [] => bool_decide (length elements = 0)
         | elt :: rest =>
             if hasZeroBitWidth (eltType elt) then true else loop rest
         end) elements
  | FVectorType elementType numElements =>
      if bool_decide (numElements = 0) then true
      else hasZeroBitWidth elementType
  | groundType => bool_decide (default 0%N (getBitWidth groundType) = 0%N)
  end.

(** [isPreservableAggregateType]. *)
Definition isPreservableAggregateType (type : FIRRTLType) : bool :=
  isPassive type && negb (containsAnalog type) && negb (hasZeroBitWidth type).

(** [peelType]: one layer of an aggregate type, appended to [fields]. *)
Definition peelType (type : FIRRTLType) (fields : list FlatBundleFieldEntry)
    (allowedToPreserveAggregate : bool) : bool * list FlatBundleFieldEntry :=
  if allowedToPreserveAggregate && isPreservableAggregateType type
  then (false, fields)
  else
    match type with
    | BundleType elements =>
        (true,
         fields ++
         imap (fun i elt =>
                 mkFlatBundleFieldEntry (eltType elt) i
                   (bundleFieldID elements i) ("_" +:+ name elt) (isFlip elt))
              elements)
    | FVectorType elementType numElements =>
        (true,
         fields ++
         map (fun i =>
                mkFlatBundleFieldEntry elementType i
                  (vectorFieldID elementType i) ("_" +:+ pretty i) false)
             (seq 0 numElements))
    | _ => (false, fields)
    end.

(** ** Module-level policy *)

(** What the pass reads of a module-like operation. *)
Record FModuleLike := mkFModuleLike
  { moduleName : string;
    isExtModule : bool;   (* isa<FExtModuleOp> *)
    isPublic : bool }.    (* hw::HWModuleLike::isPublic *)

(** The two configuration switches held by [TypeLoweringVisitor]. *)
Record LowerTypesOptions := mkLowerTypesOptions
  { preserveAggregate : bool;
    preservePublicTypes : bool }.

(** [TypeLoweringVisitor::isModuleAllowedToPreserveAggregate]. *)
Definition isModuleAllowedToPreserveAggregate (opts : LowerTypesOptions)
    (module : FModuleLike) : bool :=
  if negb (preserveAggregate opts) then false
  else if negb (preservePublicTypes opts) then true
  else if isExtModule module then false
  else negb (isPublic module).

(** ** Attributes and annotations *)

(** The attributes the pass reads and writes.  [IntegerAttr] carries the
    width of its integer type. *)
Inductive Attribute :=
| IntegerAttr (width : N) (value : Z)
| StringAttr (value : string)
| FlatSymbolRefAttr (sym : string)
| InnerRefAttr (module : string) (sym : string)
| UnitAttr.

#[global] Instance Attribute_eq_dec : EqDecision Attribute.
Proof. solve_decision. Defined.

(** An annotation is a dictionary attribute: a finite map from member
    names to attributes. *)
Abbreviation Annotation := (gmap string Attribute).

(** [DictionaryAttr::getAs<IntegerAttr>(key)], read with [getInt]. *)
Definition getAsInteger (anno : Annotation) (key : string) : option Z :=
  match anno !! key with
  | Some (IntegerAttr _ value) => Some value
  | _ => None
  end.

(** [DictionaryAttr::getAs<FlatSymbolRefAttr>(key)]. *)
Definition getAsFlatSymbolRef (anno : Annotation) (key : string)
    : option string :=
  match anno !! key with
  | Some (FlatSymbolRefAttr sym) => Some sym
  | _ => None
  end.

(** [Annotation::getClass]: the [class] member, empty when absent. *)
Definition getClass (anno : Annotation) : string :=
  match anno !! "class" with
  | Some (StringAttr value) => value
  | _ => ""
  end.

(** [isAnnotationSensitiveToFieldID]. *)
Definition isAnnotationSensitiveToFieldID (anno : Annotation) : bool :=
  bool_decide
    (getClass anno = "sifive.enterprise.grandcentral.SignalDriverAnnotation").

(** The conversions to [unsigned] and to [int32_t], both of 32 bits. *)
Definition toUnsigned (x : Z) : Z := (x mod 2 ^ 32)%Z.

Definition toInt32 (x : Z) : Z := ((x + 2 ^ 31) mod 2 ^ 32 - 2 ^ 31)%Z.

(** [getMember<IntegerAttr>(key).getValue().getZExtValue()]: the value
    of the attribute read as an unsigned integer of its width. *)
Definition getAsZExt (anno : Annotation) (key : string) : option Z :=
  match anno !! key with
  | Some (IntegerAttr width value) => Some (value mod 2 ^ Z.of_N width)%Z
  | _ => None
  end.

(** [updateAnnotationFieldID].  [fieldID] is an [unsigned]: the sum with
    the existing field ID wraps around at 32 bits. *)
Definition updateAnnotationFieldID (attr : Annotation) (fieldID : nat)
    : Annotation :=
  if bool_decide (fieldID = 0) then attr
  else if negb (isAnnotationSensitiveToFieldID attr) then attr
  else
    let fieldID' :=
      match getAsZExt attr "fieldID" with
      | Some existingFieldID => toUnsigned (Z.of_nat fieldID + existingFieldID)
      | None => Z.of_nat fieldID
      end in
    <["fieldID" := IntegerAttr 64 fieldID']> attr.

(** The upper bound of the range test of [filterAnnotations],
    [field.fieldID + field.type.getMaxFieldID()]: a sum of two
    [unsigned], which wraps around at 32 bits. *)
Definition maxFieldIDOf (field : FlatBundleFieldEntry) : Z :=
  toUnsigned (Z.of_nat (fieldID field) + Z.of_nat (getMaxFieldID (type field))).

(** One iteration of the loop of [filterAnnotations] over the
    annotation [opAttr]; [retval] and [needsSym] are the accumulated
    result vector and the caller's flag.  The field ID of the annotation
    is an [int64_t], the one of the field an [unsigned] that is converted
    to [int64_t] in the comparisons and in the difference; the
    difference is stored through [getI32IntegerAttr], as an [int32_t]. *)
Definition filterAnnotation (field : FlatBundleFieldEntry)
    (acc : list Annotation * bool) (opAttr : Annotation)
    : list Annotation * bool :=
  let '(retval, needsSym) := acc in
  let isGroundType := isGround (type field) in
  let maybeFieldID := getAsInteger opAttr "circt.fieldID" in
  let annotation :=
    match maybeFieldID with
    | Some _ => delete "circt.fieldID" opAttr
    | None => opAttr
    end in
  match maybeFieldID with
  | None =>
      (retval ++ [updateAnnotationFieldID opAttr (fieldID field)], needsSym)
  | Some fieldID' =>
      if bool_decide (fieldID' ≠ 0%Z) &&
         negb (bool_decide (Z.of_nat (fieldID field) ≤ fieldID')%Z &&
               bool_decide (fieldID' ≤ maxFieldIDOf field)%Z)
      then (retval, needsSym)
      else if bool_decide (fieldID' = 0%Z)
      then (retval ++ [annotation], needsSym)
      else
        let newFieldID := (fieldID' - Z.of_nat (fieldID field))%Z in
        if bool_decide (newFieldID ≠ 0%Z)
        then
          (retval ++
             [<["circt.fieldID" := IntegerAttr 32 (toInt32 newFieldID)]>
                annotation],
           needsSym)
        else if bool_decide
                  (getClass opAttr = "firrtl.transforms.DontTouchAnnotation")
        then (retval, true)
        else
          (retval ++ [annotation],
           isGroundType &&
           bool_decide (is_Some (getAsFlatSymbolRef annotation "circt.nonlocal")))
  end.

(** [TypeLoweringVisitor::filterAnnotations].  [annotations] is [None]
    for a null array attribute; [needsSym] is the flag passed by
    reference, returned as the second component. *)
Definition filterAnnotations (annotations : option (list Annotation))
    (srcType : FIRRTLType) (field : FlatBundleFieldEntry) (needsSym : bool)
    (sym : string) : list Annotation * bool :=
  match annotations with
  | None | Some [] => ([], needsSym)
  | Some annotations => foldl (filterAnnotation field) ([], needsSym) annotations
  end.

(** ** The IR store *)

#[global] Instance FIRRTLType_eq_dec : EqDecision FIRRTLType.
Proof.
  unfold EqDecision, Decision. fix IH 1.
  intros [k w|es|t n] [k' w'|es'|t' n']; try (right; discriminate).
  - destruct (decide (k = k')); [|right; congruence].
    destruct (decide (w = w')); [left|right]; congruence.
  - assert ({es = es'} + {es ≠ es'}) as [->|];
      [|left; reflexivity|right; congruence].
    revert es'.
    induction es as [|[n f t] es IHes]; intros [|[n' f' t'] es'];
      try (right; discriminate); [left; reflexivity|].
    destruct (decide (n = n')); [|right; congruence].
    destruct (decide (f = f')); [|right; congruence].
    destruct (IH t t'); [|right; congruence].
    destruct (IHes es'); [left|right]; congruence.
  - destruct (IH t t'); [|right; congruence].
    destruct (decide (n = n')); [left|right]; congruence.
Defined.

(** An SSA value: a block argument or a result of an operation.  As in
    MLIR the value carries its type. *)
Inductive ValueDef :=
| BlockArgument (argNumber : nat)
| OpResult (owner : nat) (resultNumber : nat).

Record Value := mkValue { valueDef : ValueDef; getType : FIRRTLType }.

#[global] Instance ValueDef_eq_dec : EqDecision ValueDef.
Proof. solve_decision. Defined.
#[global] Instance Value_eq_dec : EqDecision Value.
Proof. solve_decision. Defined.

(** The operations the modelled visitors lower, create or inspect; the
    attributes that select the accessed element are part of the name.
    [OtherOp] is an operation the visitor has no method for.  (The
    instance, memory, mux, cast and module operations, which have
    visitors of their own, are not part of the modelled fragment.) *)
Inductive OpName :=
| ConstantOp (value : Z)
| InvalidValueOp
| SubfieldOp (fieldIndex : nat)
| SubindexOp (index : nat)
| SubaccessOp
| MultibitMuxOp
| EQPrimOp
| WireOp
| NodeOp
| RegOp
| RegResetOp
| ConnectOp
| StrictConnectOp
| WhenOp
| OtherOp (mnemonic : string).

#[global] Instance OpName_eq_dec : EqDecision OpName.
Proof. solve_decision. Defined.

Inductive NameKindEnum := DroppableName | InterestingName.

(** The attributes of an operation that the pass reads or sets: [name],
    [nameKind], [inner_sym] and [annotations]; [None] is an attribute
    that is not present. *)
Record OpAttrs := mkOpAttrs
  { nameAttr : option string;
    nameKindAttr : option NameKindEnum;
    innerSymAttr : option string;
    annotationsAttr : option (list Annotation) }.

Definition noAttrs : OpAttrs := mkOpAttrs None None None None.

(** An operation: operands, result types, the blocks of its regions
    (lists of operation identities, first operation first) and its
    attributes. *)
Record Operation := mkOperation
  { opName : OpName;
    operands : list Value;
    resultTypes : list FIRRTLType;
    regions : list (list nat);
    attrs : OpAttrs }.

Definition setOperands (op : Operation) (args : list Value) : Operation :=
  mkOperation (opName op) args (resultTypes op) (regions op) (attrs op).

Definition setRegions (op : Operation) (blocks : list (list nat))
    : Operation :=
  mkOperation (opName op) (operands op) (resultTypes op) blocks (attrs op).

Definition setAttrs (op : Operation) (a : OpAttrs) : Operation :=
  mkOperation (opName op) (operands op) (resultTypes op) (regions op) a.

(** [AnnoTarget]: an operation, or a port of a module. *)
Inductive AnnoTarget :=
| OpAnnoTarget (op : nat)
| PortAnnoTarget (module : string) (portNo : nat).

#[global] Instance AnnoTarget_eq_dec : EqDecision AnnoTarget.
Proof. solve_decision. Defined.

(** The members of [TypeLoweringVisitor] that change during the walk:
    the counter of [uniqueName], the renames of inner references (keyed
    by the module and the original inner symbol) and the disjoint sets
    of renamed symbols, each symbol mapped to the leader of its set. *)
Record VisitorState := mkVisitorState
  { uniqueIdx : nat;
    innerRefRenames : gmap (string * string) (list AnnoTarget);
    origSymbols : gmap string string }.

(** The store of live operations together with the state of the
    builder (the next fresh identity and the operations created at the
    insertion point so far, oldest first) and of the visitor. *)
Record IRState := mkIRState
  { ops : gmap nat Operation;
    nextId : nat;
    inserted : list nat;
    visitor : VisitorState }.

Definition setOps (s : IRState) (m : gmap nat Operation) : IRState :=
  mkIRState m (nextId s) (inserted s) (visitor s).

Definition setInserted (s : IRState) (l : list nat) : IRState :=
  mkIRState (ops s) (nextId s) l (visitor s).

Definition setVisitor (s : IRState) (v : VisitorState) : IRState :=
  mkIRState (ops s) (nextId s) (inserted s) v.

(** How a run of the pass over the store ends. *)
Inductive Outcome (A : Type) :=
| Ok (a : A)
| Fatal (msg : string)
| OutOfFuel.
Arguments Ok {A} _.
Arguments Fatal {A} _.
Arguments OutOfFuel {A}.

Definition M (A : Type) : Type := IRState → Outcome (A * IRState).

#[global] Instance M_ret : MRet M := λ A a s, Ok (a, s).
#[global] Instance M_bind : MBind M := λ A B f m s,
  match m s with
  | Ok (a, s') => f a s'
  | Fatal msg => Fatal msg
  | OutOfFuel => OutOfFuel
  end.

Definition fatal {A} (msg : string) : M A := λ _, Fatal msg.
Definition outOfFuel {A} : M A := λ _, OutOfFuel.
Definition getState : M IRState := λ s, Ok (s, s).

(** The [i]-th result of operation [id]. *)
Definition opResult (id : nat) (op : Operation) (i : nat) : option Value :=
  mkValue (OpResult id i) <$> resultTypes op !! i.

(** [Value::getDefiningOp], in the store [store]. *)
Definition getDefiningOp (store : gmap nat Operation) (v : Value)
    : option (nat * Operation) :=
  match valueDef v with
  | OpResult owner _ => (λ op, (owner, op)) <$> store !! owner
  | BlockArgument _ => None
  end.

(** [OpBuilder::create]: the operation gets a fresh identity and is
    put at the insertion point. *)
Definition createOp (op : Operation) : M nat := λ s,
  Ok (nextId s,
      mkIRState (<[nextId s := op]> (ops s)) (S (nextId s))
        (inserted s ++ [nextId s]) (visitor s)).

(** Creation of an operation with one result of type [ty]. *)
Definition createValue (opname : OpName) (args : list Value)
    (ty : FIRRTLType) : M Value :=
  id ← createOp (mkOperation opname args [ty] [] noAttrs);
  mret (mkValue (OpResult id 0) ty).

(** [Value::replaceAllUsesWith]: every operand that is the value
    defined by [old] becomes [new]. *)
Definition replaceUses (old : ValueDef) (new : Value) (op : Operation)
    : Operation :=
  setOperands op
    ((λ v, if decide (valueDef v = old) then new else v) <$> operands op).

Definition replaceAllUsesWith (old : ValueDef) (new : Value) : M unit := λ s,
  Ok ((), setOps s (replaceUses old new <$> ops s)).

(** [Operation::erase]. *)
Definition eraseOp (id : nat) : M unit := λ s,
  Ok ((), setOps s (delete id (ops s))).

(** [Operation::eraseOperands(0, 2)] on a connect. *)
Definition eraseOperands (id : nat) (start len : nat) : M unit := λ s,
  Ok ((),
      setOps s
        (alter (λ op,
                  setOperands op
                    (take start (operands op) ++
                     drop (start + len) (operands op))) id (ops s))).

(** The operations having a result of [id] among their operands. *)
Definition usesResultOf (id : nat) (op : Operation) : Prop :=
  Exists (λ v, ∃ i, valueDef v = OpResult id i) (operands op).

#[global] Instance usesResultOf_dec id op : Decision (usesResultOf id op).
Proof.
  apply Exists_dec. intros v. destruct (valueDef v) as [|owner i].
  - right. intros [? ?]. discriminate.
  - destruct (decide (owner = id)) as [->|].
    + left. eauto.
    + right. intros [? ?]. congruence.
Defined.

(** [Operation::use_empty]. *)
Definition use_empty (s : IRState) (id : nat) : bool :=
  bool_decide (map_Forall (λ _ op, ¬ usesResultOf id op) (ops s)).

(** [Value::getUsers]: the operations with the value defined by [val]
    among their operands (in the order of the store; the order of the
    use list of the source is not modelled). *)
Definition getUsers (s : IRState) (val : ValueDef) : list (nat * Operation) :=
  filter (λ p, val ∈ valueDef <$> operands p.2) (map_to_list (ops s)).

(** Loops of the builder. *)
Fixpoint forEachM {A} (f : A → M unit) (l : list A) : M unit :=
  match l with
  | [] => mret ()
  | x :: rest => f x;; forEachM f rest
  end.

Fixpoint mapEachM {A B} (f : A → M B) (l : list A) : M (list B) :=
  match l with
  | [] => mret []
  | x :: rest => y ← f x; ys ← mapEachM f rest; mret (y :: ys)
  end.

Fixpoint foldEachM {A B} (f : B → A → M B) (b : B) (l : list A) : M B :=
  match l with
  | [] => mret b
  | x :: rest => b' ← f b x; foldEachM f b' rest
  end.

(** Dereference of an operation pointer. *)
Definition getOp (id : nat) : M Operation := λ s,
  match ops s !! id with
  | Some op => Ok (op, s)
  | None => Fatal "use of an erased operation"
  end.

(** [Operation::getOperand]. *)
Definition getOperand (op : Operation) (i : nat) : M Value :=
  match operands op !! i with
  | Some v => mret v
  | None => fatal "operand index out of range"
  end.

(** [Type::cast<FVectorType>]. *)
Definition castFVectorType (ty : FIRRTLType) : M (FIRRTLType * nat) :=
  match ty with
  | FVectorType elementType numElements => mret (elementType, numElements)
  | _ => fatal "cast<FVectorType>() argument of incompatible type"
  end.

Definition UIntType (width : N) : FIRRTLType := GroundType UInt (Some width).

(** ** Creation of operations

    The result type of an expression operation is inferred from its
    operands (FIRRTLExprOp, InferTypeOpInterface); a failed inference
    is fatal. *)

Definition inferFailed {A} : M A := fatal "Failed to infer result type(s).".

(** [builder->create<SubfieldOp>(input, fieldIndex)]. *)
Definition createSubfieldOp (input : Value) (fieldIndex : nat) : M Value :=
  match getType input with
  | BundleType elements =>
      match elements !! fieldIndex with
      | Some elt => createValue (SubfieldOp fieldIndex) [input] (eltType elt)
      | None => inferFailed
      end
  | _ => inferFailed
  end.

(** [builder->create<SubindexOp>(input, index)]. *)
Definition createSubindexOp (input : Value) (index : nat) : M Value :=
  match getType input with
  | FVectorType elementType numElements =>
      if bool_decide (index < numElements)
      then createValue (SubindexOp index) [input] elementType
      else inferFailed
  | _ => inferFailed
  end.

(** [builder->create<SubaccessOp>(input, index)]. *)
Definition createSubaccessOp (input index : Value) : M Value :=
  match getType input with
  | FVectorType elementType _ =>
      createValue SubaccessOp [input; index] elementType
  | _ => inferFailed
  end.

(** [builder->create<MultibitMuxOp>(index, inputs)]. *)
Definition createMultibitMuxOp (index : Value) (inputs : list Value)
    : M Value :=
  match inputs with
  | [] => inferFailed
  | first :: rest =>
      if bool_decide (Forall (λ v, getType v = getType first) rest)
      then createValue MultibitMuxOp (index :: inputs) (getType first)
      else inferFailed
  end.

(** [builder->create<InvalidValueOp>(type)]. *)
Definition createInvalidValueOp (ty : FIRRTLType) : M Value :=
  createValue InvalidValueOp [] ty.

(** [builder->createOrFold<ConstantOp>(type, APInt(width, value))]: an
    [APInt] of [width] bits holds [value] modulo [2 ^ width]. *)
Definition createConstantOp (width : N) (value : Z) : M Value :=
  createValue (ConstantOp (value mod 2 ^ Z.of_N width)) [] (UIntType width).

(** [builder->create<EQPrimOp>(lhs, rhs)]. *)
Definition createEQPrimOp (lhs rhs : Value) : M Value :=
  createValue EQPrimOp [lhs; rhs] (UIntType 1).

(** [builder->create<WhenOp>(condition, false, thenCtor)]: the body is
    built in the then block, then the operation is put at the
    insertion point. *)
Definition createWhenOp (condition : Value) (thenCtor : M unit) : M nat :=
  λ s,
    match thenCtor (setInserted s []) with
    | Ok (_, s1) =>
        createOp (mkOperation WhenOp [condition] [] [inserted s1] noAttrs)
          (setInserted s1 (inserted s))
    | Fatal msg => Fatal msg
    | OutOfFuel => OutOfFuel
    end.

(** [builder->create<StrictConnectOp>(dest, src)]. *)
Definition createStrictConnectOp (dest src : Value) : M unit :=
  createOp (mkOperation StrictConnectOp [dest; src] [] [] noAttrs);; mret ().

(** Modelled from the spec: [emitConnect] (FIRRTLUtils, outside of the
    sources) emits the direct assignment of [src] to [dest], recorded as
    one connect operation. *)
Definition emitConnect (dest src : Value) : M unit :=
  createOp (mkOperation ConnectOp [dest; src] [] [] noAttrs);; mret ().

(** [llvm::Log2_64_Ceil]: [64 - countLeadingZeros(Value - 1)] on 64-bit
    words. *)
Definition countLeadingZeros64 (x : Z) : Z :=
  if bool_decide (x = 0)%Z then 64%Z else (64 - (Z.log2 x + 1))%Z.

Definition Log2_64_Ceil (value : Z) : Z :=
  (64 - countLeadingZeros64 ((value - 1) mod 2 ^ 64))%Z.

(** ** Accessors and write paths *)

(** [TypeLoweringVisitor::getSubWhatever]. *)
Definition getSubWhatever (val : Value) (index : nat) : M Value :=
  match getType val with
  | BundleType _ => createSubfieldOp val index
  | FVectorType _ _ => createSubindexOp val index
  | _ => fatal "Unknown aggregate type"
  end.

(** [isa<ConstantOp>] on the operation defining [v], if any. *)
Definition definedByConstant (store : gmap nat Operation) (v : Value)
    : option Z :=
  match getDefiningOp store v with
  | Some (_, op) =>
      match opName op with
      | ConstantOp value => Some value
      | _ => None
      end
  | None => None
  end.

(** [isNotSubAccess]. *)
Definition isNotSubAccess (op : Operation) : M bool :=
  match opName op with
  | SubaccessOp =>
      s ← getState;
      idx ← getOperand op 1;
      match definedByConstant (ops s) idx with
      | Some _ =>
          input ← getOperand op 0;
          '(_, numElements) ← castFVectorType (getType input);
          mret (bool_decide (numElements ≠ 0))
      | None => mret false
      end
  | _ => mret true
  end.

(** [isa<SubfieldOp, SubindexOp, SubaccessOp>]. *)
Definition isAccessor (opname : OpName) : bool :=
  match opname with
  | SubfieldOp _ | SubindexOp _ | SubaccessOp => true
  | _ => false
  end.

(** The first loop of [getSAWritePath]: the accessors met when going
    from [v] to the operations defining their first operand.  The loop
    of the source runs as long as it meets accessors; [fuel] bounds the
    number of iterations. *)
Fixpoint collectAccessors (fuel : nat) (v : Value) : M (list nat) :=
  s ← getState;
  match getDefiningOp (ops s) v with
  | Some (id, defOp) =>
      if isAccessor (opName defOp) then
        match fuel with
        | 0 => outOfFuel
        | S fuel' =>
            v' ← getOperand defOp 0;
            rest ← collectAccessors fuel' v';
            mret (id :: rest)
        end
      else mret []
  | None => mret []
  end.

(** The second loop of [getSAWritePath], on the reversed path: pop the
    back while it is not a subaccess. *)
Fixpoint trimToSubaccess (reversed : list nat) : M (list nat) :=
  match reversed with
  | [] => mret []
  | back :: rest =>
      op ← getOp back;
      notSA ← isNotSubAccess op;
      if (notSA : bool) then trimToSubaccess rest else mret reversed
  end.

(** [getSAWritePath].  A chain of defining operations visits every live
    operation at most once, so the size of the store is fuel enough. *)
Definition getSAWritePath (op : Operation) : M (list nat) :=
  dest ← getOperand op 0;
  s ← getState;
  retval ← collectAccessors (size (ops s)) dest;
  trimmed ← trimToSubaccess (rev retval);
  mret (rev trimmed).

(** [cloneAccess]. *)
Definition cloneAccess (opId : nat) (rhs : Value) : M Value :=
  op ← getOp opId;
  match opName op with
  | SubfieldOp fieldIndex => createSubfieldOp rhs fieldIndex
  | SubindexOp index => createSubindexOp rhs index
  | SubaccessOp => idx ← getOperand op 1; createSubaccessOp rhs idx
  | _ => fatal "Unknown accessor"
  end.

(** [TypeLoweringVisitor::lowerSAWritePath]. *)
Definition lowerSAWritePath (op : Operation) (writePath : list nat)
    : M unit :=
  match last writePath with
  | None => fatal "back() of an empty path"
  | Some saoId =>
      sao ← getOp saoId;
      if negb (bool_decide (opName sao = SubaccessOp))
      then fatal "cast<SubaccessOp>() argument of incompatible type"
      else
        saoInput ← getOperand sao 0;
        saoIndex ← getOperand sao 1;
        '(_, numElements) ← castFVectorType (getType saoInput);
        let selectWidth := Z.to_N (Log2_64_Ceil (Z.of_nat numElements)) in
        forEachM
          (λ index,
             constant ← createConstantOp selectWidth (Z.of_nat index);
             cond ← createEQPrimOp saoIndex constant;
             createWhenOp cond
               (leaf ← createSubindexOp saoInput index;
                leaf ← foldEachM (λ leaf accessor, cloneAccess accessor leaf)
                         leaf (rev (removelast writePath));
                src ← getOperand op 1;
                emitConnect leaf src);;
             mret ())
          (seq 0 numElements)
  end.

(** The loop at the end of [processSAPath]: erase the accessors of the
    path from the connect upwards until one has a use left. *)
Fixpoint eraseUnused (writePath : list nat) : M unit :=
  match writePath with
  | [] => mret ()
  | id :: rest =>
      s ← getState;
      if use_empty s id then eraseOp id;; eraseUnused rest else mret ()
  end.

(** [TypeLoweringVisitor::processSAPath]. *)
Definition processSAPath (opId : nat) : M bool :=
  op ← getOp opId;
  writePath ← getSAWritePath op;
  match writePath with
  | [] => mret false
  | _ =>
      lowerSAWritePath op writePath;;
      eraseOperands opId 0 2;;
      eraseUnused writePath;;
      mret true
  end.

(** ** The visitors

    Every visitor returns [true] if the visited operation is to be
    deleted.  [opts] stands for the visitor object. *)

(** The loop "over the leaf aggregates" shared by the two connect
    visitors; [connect] emits the connect of one field. *)
Definition expandConnect (connect : Value → Value → M unit)
    (opSrc opDest : Value) (fields : list FlatBundleFieldEntry) : M unit :=
  forEachM
    (λ field : nat * FlatBundleFieldEntry,
       src ← getSubWhatever opSrc field.1;
       dest ← getSubWhatever opDest field.1;
       if isOutput field.2 then connect src dest else connect dest src)
    (imap (λ i f, (i, f)) fields).

(** [TypeLoweringVisitor::visitStmt(ConnectOp)]. *)
Definition visitStmt_ConnectOp (opts : LowerTypesOptions) (opId : nat)
    : M bool :=
  expanded ← processSAPath opId;
  if (expanded : bool) then mret true
  else
    op ← getOp opId;
    opDest ← getOperand op 0;
    opSrc ← getOperand op 1;
    let '(peeled, fields) := peelType (getType opDest) [] false in
    if negb peeled then mret false
    else expandConnect emitConnect opSrc opDest fields;; mret true.

(** [TypeLoweringVisitor::visitStmt(StrictConnectOp)]. *)
Definition visitStmt_StrictConnectOp (opts : LowerTypesOptions) (opId : nat)
    : M bool :=
  expanded ← processSAPath opId;
  if (expanded : bool) then mret true
  else
    op ← getOp opId;
    opDest ← getOperand op 0;
    opSrc ← getOperand op 1;
    let '(peeled, fields) := peelType (getType opDest) [] false in
    if negb peeled then mret false
    else expandConnect createStrictConnectOp opSrc opDest fields;; mret true.

(** [TypeLoweringVisitor::visitExpr(SubaccessOp)].  The builder of
    [SubindexOp] takes the index as an [uint32_t]: the value of the
    constant ([getExtValue], an [int64_t]) is narrowed to 32 bits.  The
    counter of the loop over the elements is an [int] that starts at the
    number of elements minus one, converted to [int], and goes down to
    zero. *)
Definition visitExpr_SubaccessOp (opts : LowerTypesOptions) (opId : nat)
    : M bool :=
  op ← getOp opId;
  input ← getOperand op 0;
  '(elementType, numElements) ← castFVectorType (getType input);
  if bool_decide (numElements = 0) then
    inv ← createInvalidValueOp elementType;
    replaceAllUsesWith (OpResult opId 0) inv;;
    mret true
  else
    opIndex ← getOperand op 1;
    s ← getState;
    match definedByConstant (ops s) opIndex with
    | Some value =>
        sio ← createSubindexOp input (Z.to_nat (toUnsigned value));
        replaceAllUsesWith (OpResult opId 0) sio;;
        mret true
    | None =>
        let start := toInt32 (Z.of_nat numElements - 1) in
        inputs ← mapEachM (λ index, createSubindexOp input index)
                   (rev (seq 0 (Z.to_nat (start + 1))));
        multibitMux ← createMultibitMuxOp opIndex inputs;
        replaceAllUsesWith (OpResult opId 0) multibitMux;;
        mret true
    end.

(** The body of the loop of [processUsers] for one user. *)
Definition processUser (mapping : list Value) (user : nat * Operation)
    : M unit :=
  match opName user.2 with
  | SubindexOp index =>
      match mapping !! index with
      | Some repl =>
          replaceAllUsesWith (OpResult user.1 0) repl;; eraseOp user.1
      | None => fatal "Invalid index!"
      end
  | SubfieldOp fieldIndex =>
      match mapping !! fieldIndex with
      | Some repl =>
          replaceAllUsesWith (OpResult user.1 0) repl;; eraseOp user.1
      | None => fatal "Invalid index!"
      end
  | _ => fatal "Unknown aggregate user"
  end.

(** [TypeLoweringVisitor::processUsers]. *)
Definition processUsers (val : ValueDef) (mapping : list Value) : M unit :=
  s ← getState;
  forEachM (processUser mapping) (getUsers s val).

(** ** Lowering of producers *)

(** [TypeLoweringVisitor::uniqueName]. *)
Definition uniqueName : M string := λ s,
  let v := visitor s in
  Ok ("__GEN_" +:+ pretty (uniqueIdx v),
      setVisitor s
        (mkVisitorState (S (uniqueIdx v)) (innerRefRenames v) (origSymbols v))).

(** [llvm::EquivalenceClasses]: [findLeader] and [unionSets], which
    inserts both values and keeps the leader of the first. *)
Definition findLeader (classes : gmap string string) (x : string) : string :=
  default x (classes !! x).

Definition unionSets (classes : gmap string string) (v1 v2 : string)
    : gmap string string :=
  let l1 := findLeader classes v1 in
  let l2 := findLeader classes v2 in
  let both := <[v1 := l1]> (<[v2 := l2]> classes) in
  if decide (l1 = l2) then both
  else (λ l, if decide (l = l2) then l1 else l) <$> both.

(** The update of [origSymbols] and [innerRefRenames] for the new
    operation [newOp] of a producer whose inner symbol is [innerSym]. *)
Definition recordRename (module innerSym newName : string)
    (isGroundField : bool) (newOp : nat) : M unit := λ s,
  let v := visitor s in
  let classes := unionSets (origSymbols v) innerSym newName in
  let renames :=
    if isGroundField then
      let key := (module, findLeader classes innerSym) in
      <[key := default [] (innerRefRenames v !! key) ++ [OpAnnoTarget newOp]]>
        (innerRefRenames v)
    else innerRefRenames v in
  Ok ((), setVisitor s (mkVisitorState (uniqueIdx v) renames classes)).

(** In-place update of the operation [id]. *)
Definition updateOp (id : nat) (f : Operation → Operation) : M unit := λ s,
  Ok ((), setOps s (alter f id (ops s))).

(** [Operation::setAttr] through a function on the attributes. *)
Definition updateAttrs (id : nat) (f : OpAttrs → OpAttrs) : M unit :=
  updateOp id (λ op, setAttrs op (f (attrs op))).

(** [builder->setInsertionPoint]: nothing is inserted there yet. *)
Definition setInsertionPoint : M unit := λ s, Ok ((), setInserted s []).

Definition isEmpty (str : string) : bool := bool_decide (str = "").

(** The body of the loop of [lowerProducer] over the fields. *)
Definition lowerField (module : string) (op : Operation)
    (clone : FlatBundleFieldEntry → list Annotation → M nat)
    (srcType : FIRRTLType) (baseName baseSymName : string)
    (field : FlatBundleFieldEntry) : M Value :=
  let loweredName :=
    if isEmpty baseName then "" else baseName +:+ suffix field in
  let loweredSymName :=
    if isEmpty baseSymName then "" else baseSymName +:+ suffix field in
  let '(loweredAttrs, needsSym) :=
    filterAnnotations (annotationsAttr (attrs op)) srcType field false
      loweredSymName in
  newOp ← clone field loweredAttrs;
  (if negb (isEmpty loweredName)
   then updateAttrs newOp
          (λ a, mkOpAttrs (Some loweredName) (nameKindAttr a)
                  (innerSymAttr a) (annotationsAttr a))
   else mret ());;
  (match nameKindAttr (attrs op) with
   | Some kind =>
       updateAttrs newOp
         (λ a, mkOpAttrs (nameAttr a) (Some kind) (innerSymAttr a)
                 (annotationsAttr a))
   | None => mret ()
   end);;
  (if needsSym || bool_decide (is_Some (innerSymAttr (attrs op)))
   then
     updateAttrs newOp
       (λ a, mkOpAttrs (nameAttr a) (nameKindAttr a) (Some loweredSymName)
               (annotationsAttr a));;
     (if isEmpty loweredSymName then fatal "!loweredSymName.empty()"
      else mret ());;
     match innerSymAttr (attrs op) with
     | Some innerSym =>
         recordRename module innerSym loweredSymName (isGround (type field))
           newOp
     | None => mret ()
     end
   else mret ());;
  newOpNow ← getOp newOp;
  match opResult newOp newOpNow 0 with
  | Some result => mret result
  | None => fatal "result index out of range"
  end.

(** [TypeLoweringVisitor::lowerProducer]; [module] is the name of the
    module that holds the operation. *)
Definition lowerProducer (opts : LowerTypesOptions) (module : string)
    (opId : nat) (clone : FlatBundleFieldEntry → list Annotation → M nat)
    : M bool :=
  op ← getOp opId;
  match resultTypes op !! 0 with
  | None => fatal "result index out of range"
  | Some srcType =>
      let '(peeled, fieldTypes) :=
        peelType srcType [] (preserveAggregate opts) in
      if negb peeled then mret false
      else
        let loweredName := default "" (nameAttr (attrs op)) in
        let loweredSymName := default "" (innerSymAttr (attrs op)) in
        let loweredSymName :=
          if isEmpty loweredSymName then loweredName else loweredSymName in
        loweredSymName ←
          (if isEmpty loweredSymName then uniqueName else mret loweredSymName);
        lowered ← mapEachM
                    (lowerField module op clone srcType loweredName
                       loweredSymName)
                    fieldTypes;
        processUsers (OpResult opId 0) lowered;;
        mret true
  end.

(** The fresh declaration built by the [clone] lambdas: no name, a
    droppable name kind, the filtered annotations, no inner symbol. *)
Definition cloneAttrs (annotations : list Annotation) : OpAttrs :=
  mkOpAttrs (Some "") (Some DroppableName) None (Some annotations).

(** [visitDecl(WireOp)]. *)
Definition visitDecl_WireOp (opts : LowerTypesOptions) (module : string)
    (opId : nat) : M bool :=
  lowerProducer opts module opId
    (λ field annotations,
       createOp (mkOperation WireOp [] [type field] []
                   (cloneAttrs annotations))).

(** [visitDecl(RegOp)]. *)
Definition visitDecl_RegOp (opts : LowerTypesOptions) (module : string)
    (opId : nat) : M bool :=
  lowerProducer opts module opId
    (λ field annotations,
       op ← getOp opId;
       clockVal ← getOperand op 0;
       createOp (mkOperation RegOp [clockVal] [type field] []
                   (cloneAttrs annotations))).

(** [visitDecl(RegResetOp)]. *)
Definition visitDecl_RegResetOp (opts : LowerTypesOptions) (module : string)
    (opId : nat) : M bool :=
  lowerProducer opts module opId
    (λ field annotations,
       op ← getOp opId;
       resetValue ← getOperand op 2;
       resetVal ← getSubWhatever resetValue (index field);
       clockVal ← getOperand op 0;
       resetSignal ← getOperand op 1;
       createOp (mkOperation RegResetOp [clockVal; resetSignal; resetVal]
                   [type field] [] (cloneAttrs annotations))).

(** [visitDecl(NodeOp)]. *)
Definition visitDecl_NodeOp (opts : LowerTypesOptions) (module : string)
    (opId : nat) : M bool :=
  lowerProducer opts module opId
    (λ field annotations,
       op ← getOp opId;
       opInput ← getOperand op 0;
       input ← getSubWhatever opInput (index field);
       createOp (mkOperation NodeOp [input] [type field] []
                   (cloneAttrs annotations))).

(** [visitExpr(InvalidValueOp)]. *)
Definition visitExpr_InvalidValueOp (opts : LowerTypesOptions)
    (module : string) (opId : nat) : M bool :=
  lowerProducer opts module opId
    (λ field annotations,
       createOp (mkOperation InvalidValueOp [] [type field] [] noAttrs)).

(** [visitExpr(MultibitMuxOp)]. *)
Definition visitExpr_MultibitMuxOp (opts : LowerTypesOptions)
    (module : string) (opId : nat) : M bool :=
  lowerProducer opts module opId
    (λ field annotations,
       op ← getOp opId;
       opIndex ← getOperand op 0;
       newInputs ← mapEachM (λ input, getSubWhatever input (index field))
                     (drop 1 (operands op));
       mux ← createMultibitMuxOp opIndex newInputs;
       match valueDef mux with
       | OpResult id _ => mret id
       | BlockArgument _ => fatal "not an operation result"
       end).

(** ** The walk over a block *)

(** [TypeLoweringVisitor::visitStmt(WhenOp)]; [lowerBlock] is applied to
    the then block, and to the else block if there is one. *)
Definition visitStmt_WhenOp (lowerBlock : list nat → M (list nat))
    (opId : nat) : M bool :=
  op ← getOp opId;
  blocks ← mapEachM lowerBlock (regions op);
  updateOp opId (λ o, setRegions o blocks);;
  mret false.

(** [dispatchVisitor]: the visitor method of the operation, and [false]
    for an operation without one. *)
Definition dispatchVisitor (lowerBlock : list nat → M (list nat))
    (opts : LowerTypesOptions) (module : string) (opId : nat) : M bool :=
  op ← getOp opId;
  match opName op with
  | WireOp => visitDecl_WireOp opts module opId
  | NodeOp => visitDecl_NodeOp opts module opId
  | RegOp => visitDecl_RegOp opts module opId
  | RegResetOp => visitDecl_RegResetOp opts module opId
  | InvalidValueOp => visitExpr_InvalidValueOp opts module opId
  | MultibitMuxOp => visitExpr_MultibitMuxOp opts module opId
  | SubaccessOp => visitExpr_SubaccessOp opts opId
  | ConnectOp => visitStmt_ConnectOp opts opId
  | StrictConnectOp => visitStmt_StrictConnectOp opts opId
  | WhenOp => visitStmt_WhenOp lowerBlock opId
  | ConstantOp _ | SubfieldOp _ | SubindexOp _ | EQPrimOp | OtherOp _ =>
      mret false
  end.

(** The body of the loop of [lowerBlock] for the operation [iop]: set
    the insertion point before it, visit it, and erase it if the visitor
    says so.  Returns the flag and the operations the visit inserted
    before [iop]. *)
Definition lowerOp (lowerBlock : list nat → M (list nat))
    (opts : LowerTypesOptions) (module : string) (iop : nat)
    : M (bool * list nat) :=
  setInsertionPoint;;
  removeOp ← dispatchVisitor lowerBlock opts module iop;
  s ← getState;
  (if (removeOp : bool) then eraseOp iop else mret ());;
  setInsertionPoint;;
  mret (removeOp, inserted s).

(** [TypeLoweringVisitor::lowerBlock]: the operations are visited bottom
    up; the operations a visit inserts stand immediately above the
    visited operation and are visited next.  [worklist] holds the
    operations still to visit, last operation of the block first, and
    [done] the visited operations that stay, in block order.  An
    operation that an earlier visit erased is no longer in the block.
    The result is the block after the walk.  [fuel] bounds the number of
    visits. *)
Fixpoint lowerBlockFrom (fuel : nat) (opts : LowerTypesOptions)
    (module : string) (worklist done : list nat) : M (list nat) :=
  match fuel with
  | 0 => outOfFuel
  | S fuel' =>
      match worklist with
      | [] =>
          s ← getState;
          mret (filter (λ id, is_Some (ops s !! id)) done)
      | iop :: rest =>
          s ← getState;
          match ops s !! iop with
          | None => lowerBlockFrom fuel' opts module rest done
          | Some _ =>
              '(removeOp, new) ←
                lowerOp (λ block, lowerBlockFrom fuel' opts module (rev block) [])
                  opts module iop;
              lowerBlockFrom fuel' opts module (rev new ++ rest)
                (if (removeOp : bool) then done else iop :: done)
          end
      end
  end.

Definition lowerBlock (fuel : nat) (opts : LowerTypesOptions)
    (module : string) (block : list nat) : M (list nat) :=
  lowerBlockFrom fuel opts module (rev block) [].

(** ** Hierarchical paths *)

(** [HierPathOp]: a symbol name and a name path whose elements are
    inner references (a module and a symbol inside it). *)
Record HierPathOp := mkHierPathOp
  { sym_name : string;
    namepath : list Attribute }.

#[global] Instance HierPathOp_eq_dec : EqDecision HierPathOp.
Proof. solve_decision. Defined.

(** What the path update reads and writes of a target: the name of the
    module it lives in ([target.getModule().moduleNameAttr()]), its inner
    symbol ([getInnerSymName], [getPortSymbolAttr]) and its annotations. *)
Record Entity := mkEntity
  { entModule : string;
    entSym : string;
    entAnnotations : list Annotation }.

(** The circuit-level state of [LowerTypesPass::runOnOperation] after
    the modules are lowered.

    Modelled from the spec: the symbol table of the circuit, the table
    of hierarchical paths per module ([NLATable]) and the name allocator
    ([CircuitNamespace]) are services of the surrounding compiler. *)
Record Circuit := mkCircuit
  { nlaTable : gmap string (list HierPathOp);
    symTbl : gmap string HierPathOp;
    circtNamespace : gset string;
    opTargets : gmap nat Entity;
    portTargets : gmap (string * nat) Entity }.

(** The module an element of a name path goes through. *)
Definition namepathModule (a : Attribute) : option string :=
  match a with
  | InnerRefAttr module _ => Some module
  | FlatSymbolRefAttr module => Some module
  | _ => None
  end.

(** Modelled from the spec: [NLATable::lookup], the paths that go
    through a module. *)
Definition nlaLookup (table : gmap string (list HierPathOp))
    (module : string) : list HierPathOp :=
  default [] (table !! module).

(** Modelled from the spec: [NLATable::addNLA]. *)
Definition nlaAdd (path : HierPathOp) (table : gmap string (list HierPathOp))
    : gmap string (list HierPathOp) :=
  foldl (λ t module, <[module := nlaLookup t module ++ [path]]> t) table
    (omap namepathModule (namepath path)).

(** Modelled from the spec: [NLATable::erase(path, &symTbl)], which
    removes the path from the table and from the symbol table. *)
Definition nlaErase (path : HierPathOp) (c : Circuit) : Circuit :=
  mkCircuit (filter (λ p, p ≠ path) <$> nlaTable c)
    (delete (sym_name path) (symTbl c)) (circtNamespace c)
    (opTargets c) (portTargets c).

(** Modelled from the spec: [CircuitNamespace::newName], a name built on
    [base] that is not in use, which becomes in use. *)
Definition newName (base : string) (c : Circuit) : string * Circuit :=
  let fresh := fresh_string_of_set base (circtNamespace c) in
  (fresh,
   mkCircuit (nlaTable c) (symTbl c) ({[fresh]} ∪ circtNamespace c)
     (opTargets c) (portTargets c)).

(** The lambda [updateNLASymbol]: [Some] of the redirected annotation
    when the annotation refers to [oldSym], [None] when it is left. *)
Definition updateNLASymbol (oldSym newSym : string) (anno : Annotation)
    : option Annotation :=
  match getAsFlatSymbolRef anno "circt.nonlocal" with
  | Some sym =>
      if decide (sym = oldSym)
      then Some (<["circt.nonlocal" := FlatSymbolRefAttr newSym]> anno)
      else None
  | None => None
  end.

(** [annotations.removeAnnotations(updateNLASymbol)] followed by
    [annotations.addAnnotations(newAnnotations)]. *)
Definition redirectAnnotations (oldSym newSym : string)
    (annotations : list Annotation) : list Annotation :=
  filter (λ anno, updateNLASymbol oldSym newSym anno = None) annotations ++
  omap (updateNLASymbol oldSym newSym) annotations.

Definition redirectEntity (oldSym newSym : string) (ent : Entity) : Entity :=
  mkEntity (entModule ent) (entSym ent)
    (redirectAnnotations oldSym newSym (entAnnotations ent)).

Definition lookupTarget (c : Circuit) (target : AnnoTarget) : option Entity :=
  match target with
  | OpAnnoTarget op => opTargets c !! op
  | PortAnnoTarget module portNo => portTargets c !! (module, portNo)
  end.

Definition storeTarget (target : AnnoTarget) (ent : Entity) (c : Circuit)
    : Circuit :=
  match target with
  | OpAnnoTarget op =>
      mkCircuit (nlaTable c) (symTbl c) (circtNamespace c)
        (<[op := ent]> (opTargets c)) (portTargets c)
  | PortAnnoTarget module portNo =>
      mkCircuit (nlaTable c) (symTbl c) (circtNamespace c)
        (opTargets c) (<[(module, portNo) := ent]> (portTargets c))
  end.

(** [nlaTable->addNLA(newPath); symTbl.insert(newPath)]. *)
Definition registerPath (newPath : HierPathOp) (c : Circuit) : Circuit :=
  mkCircuit (nlaAdd newPath (nlaTable c))
    (<[sym_name newPath := newPath]> (symTbl c)) (circtNamespace c)
    (opTargets c) (portTargets c).

(** The state of the loop over the new targets of one path: the
    circuit, the vector [newNamepath] and [oldSym] (unset at first). *)
Record SplitState := mkSplitState
  { splitCircuit : Circuit;
    newNamepath : list Attribute;
    oldSym : option string }.

(** The body of the loop [for (auto &target : newRefs)]. *)
Definition splitPathStep (path : HierPathOp) (st : SplitState)
    (target : AnnoTarget) : Outcome SplitState :=
  let popped := removelast (newNamepath st) in
  let '(old, newSym, c1) :=
    match oldSym st with
    | None => (sym_name path, sym_name path, nlaErase path (splitCircuit st))
    | Some old =>
        let '(fresh, c) := newName old (splitCircuit st) in (old, fresh, c)
    end in
  match lookupTarget c1 target with
  | None => Fatal "use of an erased operation"
  | Some ent =>
      let pushed := popped ++ [InnerRefAttr (entModule ent) (entSym ent)] in
      let newPath := mkHierPathOp newSym pushed in
      let c2 := storeTarget target (redirectEntity old newSym ent) c1 in
      Ok (mkSplitState (registerPath newPath c2) pushed (Some old))
  end.

Fixpoint splitPathLoop (path : HierPathOp) (st : SplitState)
    (newRefs : list AnnoTarget) : Outcome SplitState :=
  match newRefs with
  | [] => Ok st
  | target :: rest =>
      match splitPathStep path st target with
      | Ok st' => splitPathLoop path st' rest
      | Fatal msg => Fatal msg
      | OutOfFuel => OutOfFuel
      end
  end.

(** The body of the loop over the paths of the module of [oldRef]. *)
Definition updatePath (oldRef : Attribute) (newRefs : list AnnoTarget)
    (c : Circuit) (path : HierPathOp) : Outcome Circuit :=
  if bool_decide (last (namepath path) ≠ Some oldRef) then Ok c
  else
    match newRefs with
    | [] => Fatal "LowerTypes should not delete InnerRefAttrs"
    | _ =>
        match splitPathLoop path (mkSplitState c (namepath path) None)
                newRefs with
        | Ok st => Ok (splitCircuit st)
        | Fatal msg => Fatal msg
        | OutOfFuel => OutOfFuel
        end
    end.

Fixpoint foldOutcome {A B} (f : B → A → Outcome B) (b : B) (l : list A)
    : Outcome B :=
  match l with
  | [] => Ok b
  | x :: rest =>
      match f b x with
      | Ok b' => foldOutcome f b' rest
      | Fatal msg => Fatal msg
      | OutOfFuel => OutOfFuel
      end
  end.

(** The body of the loop [for (auto pair : innerRefRenames)]: the paths
    of the module are copied before the loop over them. *)
Definition updateRename (c : Circuit)
    (pair : string * string * list AnnoTarget) : Outcome Circuit :=
  let '(module, sym, newRefs) := pair in
  foldOutcome (updatePath (InnerRefAttr module sym) newRefs) c
    (nlaLookup (nlaTable c) module).

(** The last part of [LowerTypesPass::runOnOperation]: update all the
    hierarchical paths based on the [innerRefRenames] map (visited in
    the order of the map). *)
Definition updateHierPaths
    (innerRefRenames : gmap (string * string) (list AnnoTarget))
    (c : Circuit) : Outcome Circuit :=
  foldOutcome updateRename c (map_to_list innerRefRenames).

(** ** Ports of external modules *)

(** Modelled from the spec: [Direction] (FIRRTLOps, outside of the
    sources), the direction of a port, [In] being 0 and [Out] being 1. *)
Module Direction.
Inductive Direction := In | Out.
End Direction.

#[global] Instance Direction_eq_dec : EqDecision Direction.Direction.
Proof. solve_decision. Defined.

(** [(Direction)((unsigned)direction ^ isOutput)]. *)
Definition flipDirection (direction : Direction.Direction) (isOutput : bool)
    : Direction.Direction :=
  match direction, isOutput with
  | Direction.In, false | Direction.Out, true => Direction.In
  | Direction.In, true | Direction.Out, false => Direction.Out
  end.

(** [PortInfo]; [portSym] is [None] for a null attribute. *)
Record PortInfo := mkPortInfo
  { portName : string;
    portType : FIRRTLType;
    portDirection : Direction.Direction;
    portSym : option string;
    portAnnotations : list Annotation }.

#[global] Instance PortInfo_eq_dec : EqDecision PortInfo.
Proof. solve_decision. Defined.

(** [SmallVector::insert] before the position [i]. *)
Definition insertAt {A} (i : nat) (x : A) (l : list A) : list A :=
  take i l ++ x :: drop i l.

(** The update of [origSymbols] and [innerRefRenames] in [addArg] for a
    port that had the inner symbol [oldSym]. *)
Definition recordPortRename (module oldSym newSym : string)
    (isGroundField : bool) (insertPt insertPtOffset : nat) : M unit := λ s,
  let v := visitor s in
  let classes := unionSets (origSymbols v) oldSym newSym in
  if isGroundField then
    let key := (module, findLeader classes oldSym) in
    if decide (insertPtOffset + 1 ≤ insertPt) then
      let value := PortAnnoTarget module (insertPt - 1 - insertPtOffset) in
      Ok ((), setVisitor s
                (mkVisitorState (uniqueIdx v)
                   (<[key := default [] (innerRefRenames v !! key) ++ [value]]>
                      (innerRefRenames v))
                   classes))
    else Fatal "insertPtOffset is too large"
  else
    Ok ((), setVisitor s
              (mkVisitorState (uniqueIdx v) (innerRefRenames v) classes)).

(** [TypeLoweringVisitor::addArg] for an external module, which has no
    block of arguments: the new port. *)
Definition addArg (module : string) (insertPt insertPtOffset : nat)
    (srcType : FIRRTLType) (field : FlatBundleFieldEntry) (oldArg : PortInfo)
    : M PortInfo :=
  let name := portName oldArg +:+ suffix field in
  let oldArgHadSym :=
    match portSym oldArg with
    | Some sym => negb (isEmpty sym)
    | None => false
    end in
  let sym :=
    if oldArgHadSym then default "" (portSym oldArg) +:+ suffix field
    else name in
  let '(newAnnotations, needsSym) :=
    filterAnnotations (Some (portAnnotations oldArg)) srcType field false
      sym in
  let direction := flipDirection (portDirection oldArg) (isOutput field) in
  let newSym := if needsSym || oldArgHadSym then Some sym else None in
  (if oldArgHadSym
   then recordPortRename module (default "" (portSym oldArg)) sym
          (isGround (type field)) insertPt insertPtOffset
   else mret ());;
  mret (mkPortInfo name (type field) direction newSym newAnnotations).

(** [TypeLoweringVisitor::lowerArg] for an external module; the port
    list [newArgs], passed by reference, is returned. *)
Definition lowerArg (opts : LowerTypesOptions) (module : FModuleLike)
    (argIndex argsRemoved : nat) (newArgs : list PortInfo)
    : M (bool * list PortInfo) :=
  match newArgs !! argIndex with
  | None => fatal "index out of range"
  | Some arg =>
      let srcType := portType arg in
      let '(peeled, fieldTypes) :=
        peelType srcType [] (isModuleAllowedToPreserveAggregate opts module) in
      if negb peeled then mret (false, newArgs)
      else
        newArgs ←
          foldEachM
            (λ newArgs (field : nat * FlatBundleFieldEntry),
               match newArgs !! argIndex with
               | None => fatal "index out of range"
               | Some oldArg =>
                   newValue ← addArg (moduleName module)
                                (1 + argIndex + field.1) argsRemoved srcType
                                field.2 oldArg;
                   mret (insertAt (1 + argIndex + field.1) newValue newArgs)
               end)
            newArgs (imap pair fieldTypes);
        mret (true, newArgs)
  end.

(** The loop of [visitDecl(FExtModuleOp)] over the ports, from
    [argIndex] on; [fuel] bounds the number of iterations. *)
Fixpoint lowerArgsFrom (fuel : nat) (opts : LowerTypesOptions)
    (module : FModuleLike) (argIndex argsRemoved : nat)
    (newArgs : list PortInfo) (argsToRemove : list nat)
    : M (list PortInfo * list nat) :=
  match fuel with
  | 0 => outOfFuel
  | S fuel' =>
      if decide (argIndex < length newArgs) then
        '(lowered, newArgs) ← lowerArg opts module argIndex argsRemoved newArgs;
        if (lowered : bool)
        then lowerArgsFrom fuel' opts module (S argIndex) (S argsRemoved)
               newArgs (argsToRemove ++ [argIndex])
        else lowerArgsFrom fuel' opts module (S argIndex) argsRemoved
               newArgs argsToRemove
      else mret (newArgs, argsToRemove)
  end.

(** The removal of the lowered ports, last one first. *)
Definition eraseArgs (newArgs : list PortInfo) (argsToRemove : list nat)
    : list PortInfo :=
  foldl (λ args ii, delete ii args) newArgs (reverse argsToRemove).

(** The port attributes of a module. *)
Record PortAttrs := mkPortAttrs
  { portDirections : list Direction.Direction;
    portNames : list string;
    portTypes : list FIRRTLType;
    portSyms : list string;
    portAnnotationsAttr : list (list Annotation) }.

(** [visitDecl(FExtModuleOp)] on a module with the ports [ports]: the
    port attributes the module gets; its other attributes stay. *)
Definition visitDecl_FExtModuleOp (fuel : nat) (opts : LowerTypesOptions)
    (extModule : FModuleLike) (ports : list PortInfo) : M PortAttrs :=
  '(newArgs, argsToRemove) ← lowerArgsFrom fuel opts extModule 0 0 ports [];
  let newArgs := eraseArgs newArgs argsToRemove in
  mret (mkPortAttrs (portDirection <$> newArgs) (portName <$> newArgs)
          (portType <$> newArgs)
          ((λ port, default "" (portSym port)) <$> newArgs)
          (portAnnotations <$> newArgs)).

(** * Vocabulary of the statements *)

(** ** Types *)

(** The components a type reaches: itself, the types of the fields of a
    bundle, the element type of a vector that has elements, and what
    these reach in turn. *)
Inductive Reaches : FIRRTLType → FIRRTLType → Prop :=
| Reaches_refl ty : Reaches ty ty
| Reaches_field elements elt ty :
    elt ∈ elements → Reaches (eltType elt) ty →
    Reaches (BundleType elements) ty
| Reaches_element elementType numElements ty :
    numElements ≠ 0 → Reaches elementType ty →
    Reaches (FVectorType elementType numElements) ty.

(** A leaf of zero (or unknown) width, or an aggregate without elements. *)
Definition zeroWidthNode (ty : FIRRTLType) : Prop :=
  match ty with
  | GroundType _ bitWidth => default 0%N bitWidth = 0%N
  | BundleType elements => elements = []
  | FVectorType _ numElements => numElements = 0
  end.

(** The ground types a type reaches. *)
Definition isLeafOf (ty leaf : FIRRTLType) : Prop :=
  Reaches ty leaf ∧ isGround leaf = true.

(** "Every reachable leaf of [ty] has zero width, or [ty] itself has zero
    elements". *)
Definition zeroWidthAsClaimed (ty : FIRRTLType) : Prop :=
  (∀ leaf, isLeafOf ty leaf → zeroWidthNode leaf) ∨
  match ty with
  | BundleType elements => length elements = 0
  | FVectorType _ numElements => numElements = 0
  | GroundType _ _ => False
  end.

(** ** Annotations *)

(** What one iteration of the loop appends for [opAttr]. *)
Definition retainedFor (field : FlatBundleFieldEntry) (opAttr : Annotation)
    : list Annotation :=
  (filterAnnotation field ([], false) opAttr).1.

(** The annotations for which an iteration assigns [needsSym] if it
    keeps them: the annotation addresses exactly the field and is not a
    DontTouchAnnotation. *)
Definition assignsNeedsSym (field : FlatBundleFieldEntry)
    (opAttr : Annotation) : Prop :=
  getAsInteger opAttr "circt.fieldID" = Some (Z.of_nat (fieldID field)) ∧
  fieldID field ≠ 0 ∧
  getClass opAttr ≠ "firrtl.transforms.DontTouchAnnotation".

(** ** The IR *)

(** Every live operation has an identity below the next fresh one. *)
Definition wfIds (s : IRState) : Prop :=
  map_Forall (λ id _, id < nextId s) (ops s).

(** The store after the creation of [op] at the insertion point. *)
Definition withOp (s : IRState) (op : Operation) : IRState :=
  mkIRState (<[nextId s := op]> (ops s)) (S (nextId s))
    (inserted s ++ [nextId s]) (visitor s).

(** The store after the creation of the operations [created], in order:
    the [j]-th one gets the identity [nextId s + j]. *)
Definition emit (s : IRState) (created : list Operation) : IRState :=
  foldl withOp s created.

(** The number of elements of an aggregate type. *)
Definition numElements (ty : FIRRTLType) : nat :=
  match ty with
  | BundleType elements => length elements
  | FVectorType _ n => n
  | GroundType _ _ => 0
  end.

(** The static accessor of element [i] of an aggregate value: a
    subfield of a bundle, a subindex of a vector. *)
Definition accessorName (ty : FIRRTLType) (i : nat) : OpName :=
  match ty with
  | BundleType _ => SubfieldOp i
  | _ => SubindexOp i
  end.

Definition elementTypeAt (ty : FIRRTLType) (i : nat) : FIRRTLType :=
  match ty with
  | BundleType elements => default ty (eltType <$> elements !! i)
  | FVectorType elementType _ => elementType
  | GroundType _ _ => ty
  end.

Definition accessorOp (base : Value) (i : nat) : Operation :=
  mkOperation (accessorName (getType base) i) [base]
    [elementTypeAt (getType base) i] [] noAttrs.

(** The value defined by the accessor of element [i] of [base] when the
    accessor is the operation [id]. *)
Definition accessorValue (id : nat) (base : Value) (i : nat) : Value :=
  mkValue (OpResult id 0) (elementTypeAt (getType base) i).

(** The three operations that stand for field [i] of a connect of [src]
    to [dest], created from identity [base] on: the sub-element of the
    source, the sub-element of the destination, and the connect of the
    two, source and destination swapped for a flipped field. *)
Definition perFieldConnect (connect : OpName) (src dest : Value) (base : nat)
    (i : nat) (field : FlatBundleFieldEntry) : list Operation :=
  let subSrc := accessorValue (base + 3 * i) src i in
  let subDest := accessorValue (base + 3 * i + 1) dest i in
  [accessorOp src i; accessorOp dest i;
   mkOperation connect
     (if isOutput field then [subSrc; subDest] else [subDest; subSrc])
     [] [] noAttrs].

(** A computation that only reads the store. *)
Definition readOnly {A} (m : M A) : Prop :=
  ∀ s a s', m s = Ok (a, s') → s' = s.

(** The accessors met when going from a value to the operations that
    define their first operand: [AccessChain store v path] holds when
    [path] lists them in order, the one defining [v] first, up to a
    value that no accessor defines. *)
Inductive AccessChain (store : gmap nat Operation)
    : Value → list nat → Prop :=
| AccessChain_end v :
    (∀ id op, getDefiningOp store v = Some (id, op) →
              isAccessor (opName op) = false) →
    AccessChain store v []
| AccessChain_step v id op v' path :
    getDefiningOp store v = Some (id, op) →
    isAccessor (opName op) = true →
    operands op !! 0 = Some v' →
    AccessChain store v' path →
    AccessChain store v (id :: path).

(** A static accessor: a subfield, a subindex, or a subaccess of a
    vector with elements by a constant index. *)
Definition staticAccess (store : gmap nat Operation) (id : nat) : Prop :=
  ∃ op, store !! id = Some op ∧
    match opName op with
    | SubfieldOp _ | SubindexOp _ => True
    | SubaccessOp =>
        ∃ input idx elementType numElements,
          operands op !! 0 = Some input ∧ operands op !! 1 = Some idx ∧
          is_Some (definedByConstant store idx) ∧
          getType input = FVectorType elementType numElements ∧
          numElements ≠ 0
    | _ => False
    end.

(** A dynamic vector access: a subaccess of the vector [input] by the
    index [idx] that is not a constant (or, the vector being empty, by
    any index). *)
Definition dynamicAccess (store : gmap nat Operation) (id : nat)
    (input idx : Value) (elementType : FIRRTLType) (numElements : nat)
    : Prop :=
  ∃ op, store !! id = Some op ∧ opName op = SubaccessOp ∧
    operands op !! 0 = Some input ∧ operands op !! 1 = Some idx ∧
    getType input = FVectorType elementType numElements ∧
    (definedByConstant store idx = None ∨ numElements = 0).

(** ** Example stores *)

Definition uint1 : FIRRTLType := GroundType UInt (Some 1%N).

(** [{a : flip UInt<1>, b : UInt<1>}]. *)
Definition exampleBundle : FIRRTLType :=
  BundleType [mkBundleElement "a" true uint1; mkBundleElement "b" false uint1].

(** [{a : {x : UInt<1>, y : UInt<1>}}]. *)
Definition exampleInner : FIRRTLType :=
  BundleType [mkBundleElement "x" false uint1; mkBundleElement "y" false uint1].

Definition exampleNested : FIRRTLType :=
  BundleType [mkBundleElement "a" false exampleInner].

Definition exampleWire (wireName : string) (ty : FIRRTLType) : Operation :=
  mkOperation WireOp [] [ty] []
    (mkOpAttrs (Some wireName) (Some InterestingName) None None).

Definition noVisitorState : VisitorState := mkVisitorState 0 ∅ ∅.

(** Two wires [w] and [v] of type [ty] and the connect [connect] of [v]
    to [w]. *)
Definition exampleConnectStore (connect : OpName) (ty : FIRRTLType)
    : IRState :=
  mkIRState
    (list_to_map
       [(0, exampleWire "w" ty); (1, exampleWire "v" ty);
        (2, mkOperation connect
              [mkValue (OpResult 0 0) ty; mkValue (OpResult 1 0) ty] [] []
              noAttrs)])
    3 [] noVisitorState.

Definition noLowerBlock : list nat → M (list nat) := λ block, mret block.

Definition exampleOptions : LowerTypesOptions := mkLowerTypesOptions false false.

(** [{a : UInt<1>, b : UInt<1>}], a passive bundle. *)
Definition examplePassive : FIRRTLType :=
  BundleType [mkBundleElement "a" false uint1; mkBundleElement "b" false uint1].

Definition preservingOptions : LowerTypesOptions := mkLowerTypesOptions true false.

(** The store after every use of the result of [opId] is replaced by
    [repl]. *)
Definition replaced (s : IRState) (opId : nat) (repl : Value) : IRState :=
  setOps s (replaceUses (OpResult opId 0) repl <$> ops s).

(** The store when the walk is done with an operation that is to be
    deleted. *)
Definition afterErase (s : IRState) (opId : nat) : IRState :=
  mkIRState (delete opId (ops s)) (nextId s) [] (visitor s).

Definition subindexOf (input : Value) (elementType : FIRRTLType)
    (index : nat) : Operation :=
  mkOperation (SubindexOp index) [input] [elementType] [] noAttrs.

(** The static accesses to the elements of [input], last element first. *)
Definition descendingElements (input : Value) (elementType : FIRRTLType)
    (numElements : nat) : list Operation :=
  subindexOf input elementType <$> rev (seq 0 numElements).

(** The results of [count] operations created from identity [base] on. *)
Definition resultsFrom (base : nat) (ty : FIRRTLType) (count : nat)
    : list Value :=
  (λ k, mkValue (OpResult (base + k) 0) ty) <$> seq 0 count.

(** The multiplexer keyed on [idx] over the results of the operations
    [base .. base + numElements - 1]. *)
Definition muxOfElements (idx : Value) (elementType : FIRRTLType)
    (numElements base : nat) : Operation :=
  mkOperation MultibitMuxOp
    (idx :: resultsFrom base elementType numElements) [elementType] []
    noAttrs.

(** [UInt<1>[4]]. *)
Definition exampleVector : FIRRTLType := FVectorType uint1 4.

(** A wire [vec] of four elements, a wire [i], the read [vec[i]] and a
    node that uses it. *)
Definition exampleReadStore : IRState :=
  mkIRState
    (list_to_map
       [(0, exampleWire "vec" exampleVector);
        (1, exampleWire "i" (UIntType 2));
        (2, mkOperation SubaccessOp
              [mkValue (OpResult 0 0) exampleVector;
               mkValue (OpResult 1 0) (UIntType 2)] [uint1] [] noAttrs);
        (3, mkOperation NodeOp [mkValue (OpResult 2 0) uint1] [uint1] []
              (mkOpAttrs (Some "n") (Some InterestingName) None None))])
    4 [] noVisitorState.

(** A wire [vec] of three elements, the constant [UInt<2>(3)], the read
    of [vec] at this constant and a node that uses it. *)
Definition exampleConstantReadStore : IRState :=
  mkIRState
    (list_to_map
       [(0, exampleWire "vec" (FVectorType uint1 3));
        (1, mkOperation (ConstantOp 3) [] [UIntType 2] [] noAttrs);
        (2, mkOperation SubaccessOp
              [mkValue (OpResult 0 0) (FVectorType uint1 3);
               mkValue (OpResult 1 0) (UIntType 2)] [uint1] [] noAttrs);
        (3, mkOperation NodeOp [mkValue (OpResult 2 0) uint1] [uint1] []
              (mkOpAttrs (Some "n") (Some InterestingName) None None))])
    4 [] noVisitorState.

(** ** Consumers of a lowered producer *)

(** The element a static field or index accessor selects. *)
Definition staticAccessorIndex (op : Operation) : option nat :=
  match opName op with
  | SubindexOp i | SubfieldOp i => Some i
  | _ => None
  end.

(** [user] consumes the value defined by [val]. *)
Definition consumes (val : ValueDef) (user : Operation) : Prop :=
  val ∈ valueDef <$> operands user.

#[global] Instance consumes_dec val user : Decision (consumes val user).
Proof. unfold consumes. apply _. Defined.

(** The new leaf value that corresponds to an accessor. *)
Definition leafFor (mapping : list Value) (user : Operation) : option Value :=
  i ← staticAccessorIndex user; mapping !! i.

(** The value that stands for [v] once the consumers of [val] are
    rewired: the result of an accessor that consumes [val] becomes the
    corresponding new leaf. *)
Definition rewire (store : gmap nat Operation) (val : ValueDef)
    (mapping : list Value) (v : Value) : Value :=
  match valueDef v with
  | OpResult id 0 =>
      match store !! id with
      | Some user =>
          if decide (consumes val user)
          then default v (leafFor mapping user)
          else v
      | None => v
      end
  | _ => v
  end.

(** The store once the consumers of [val] are rewired and deleted. *)
Definition rewired (s : IRState) (val : ValueDef) (mapping : list Value)
    : IRState :=
  setOps s
    ((λ op, setOperands op (rewire (ops s) val mapping <$> operands op)) <$>
     filter (λ p, ¬ consumes val p.2) (ops s)).

(** The effect of the loop of [processUsers] on the store, consumer by
    consumer, and the substitution it amounts to. *)
Definition stepUser (mapping : list Value) (store : gmap nat Operation)
    (user : nat * Operation) : gmap nat Operation :=
  match leafFor mapping user.2 with
  | Some repl =>
      delete user.1 (replaceUses (OpResult user.1 0) repl <$> store)
  | None => store
  end.

Fixpoint substUsers (mapping : list Value) (users : list (nat * Operation))
    (v : Value) : Value :=
  match users with
  | [] => v
  | user :: rest =>
      if decide (valueDef v = OpResult user.1 0)
      then default v (leafFor mapping user.2)
      else substUsers mapping rest v
  end.

(** Every accessor among the consumers of [val] selects an element that
    has a new leaf. *)
Definition accessorsInRange (val : ValueDef) (mapping : list Value)
    (store : gmap nat Operation) : Prop :=
  map_Forall (λ _ user, consumes val user →
                        is_Some (staticAccessorIndex user) →
                        is_Some (leafFor mapping user)) store.

(** No new leaf is the result of a consumer of [val]. *)
Definition leavesFresh (val : ValueDef) (mapping : list Value)
    (store : gmap nat Operation) : Prop :=
  map_Forall (λ id user, consumes val user →
                         Forall (λ repl, valueDef repl ≠ OpResult id 0) mapping)
    store.

(** All the consumers of [val] are static field or index accessors. *)
Definition allStaticAccessors (val : ValueDef) (store : gmap nat Operation)
    : Prop :=
  map_Forall (λ _ user, consumes val user → is_Some (staticAccessorIndex user))
    store.

(** The wire [w] of type [{a : flip UInt<1>, b : UInt<1>}], the
    accessors [w.a] and [w.b], a connect of the two, and the wires [w_a]
    and [w_b] that replace [w]. *)
Definition exampleUsersStore : IRState :=
  mkIRState
    (list_to_map
       [(0, exampleWire "w" exampleBundle);
        (1, mkOperation (SubfieldOp 0)
              [mkValue (OpResult 0 0) exampleBundle] [uint1] [] noAttrs);
        (2, mkOperation (SubfieldOp 1)
              [mkValue (OpResult 0 0) exampleBundle] [uint1] [] noAttrs);
        (3, mkOperation ConnectOp
              [mkValue (OpResult 1 0) uint1; mkValue (OpResult 2 0) uint1]
              [] [] noAttrs);
        (4, exampleWire "w_a" uint1);
        (5, exampleWire "w_b" uint1)])
    6 [] noVisitorState.

Definition exampleLeaves : list Value :=
  [mkValue (OpResult 4 0) uint1; mkValue (OpResult 5 0) uint1].

(** The same store with a node that reads the whole of [w]. *)
Definition exampleNode : Operation :=
  mkOperation NodeOp [mkValue (OpResult 0 0) exampleBundle] [exampleBundle] []
    (mkOpAttrs (Some "n") (Some InterestingName) None None).

Definition exampleOtherUserStore : IRState :=
  setOps exampleUsersStore (<[6 := exampleNode]> (ops exampleUsersStore)).

(** ** Dynamic vector writes *)

(** The result type inferred for the accessor [opname] on an input of
    type [ty]. *)
Definition accessType (opname : OpName) (ty : FIRRTLType)
    : option FIRRTLType :=
  match opname, ty with
  | SubfieldOp i, BundleType elements => eltType <$> elements !! i
  | SubindexOp i, FVectorType elementType n =>
      if bool_decide (i < n) then Some elementType else None
  | SubaccessOp, FVectorType elementType _ => Some elementType
  | _, _ => None
  end.

(** The type of the value reached from a value of type [ty] through the
    accessors [path], the first one applied first. *)
Fixpoint pathType (ty : FIRRTLType) (path : list Operation)
    : option FIRRTLType :=
  match path with
  | [] => Some ty
  | op :: rest => ty' ← accessType (opName op) ty; pathType ty' rest
  end.

(** The clone of the accessor [op] on the value [rhs], with a result of
    type [ty]: a dynamic access keeps its index. *)
Definition cloneOf (op : Operation) (rhs : Value) (ty : FIRRTLType)
    : Operation :=
  mkOperation (opName op)
    (match opName op with
     | SubaccessOp => rhs :: take 1 (drop 1 (operands op))
     | _ => [rhs]
     end) [ty] [] noAttrs.

(** The clones of the accessors [path], the first one on the result (of
    type [ty]) of the operation [base], every other one on the result of
    the clone before it; the clones get the identities after [base]. *)
Fixpoint clones (base : nat) (ty : FIRRTLType) (path : list Operation)
    : list Operation :=
  match path with
  | [] => []
  | op :: rest =>
      match accessType (opName op) ty with
      | Some ty' =>
          cloneOf op (mkValue (OpResult base 0) ty) ty' ::
          clones (S base) ty' rest
      | None => []
      end
  end.

(** The operations that stand for the write of [src] to element [k] of
    the vector [input] (of [n] elements of type [elementType]) indexed by
    [idx], [belowOps] being the accessors between the dynamic access and
    the destination (of type [destType]), the nearest to the destination
    first.  With [m] such accessors, the operations get the identities
    [b .. b + m + 4]: the constant [k], the test of [idx] against it,
    and then, in the region of the conditional block (which comes last),
    the element, the clones of the accessors and the connect. *)
Definition writeElement (src idx input : Value)
    (elementType destType : FIRRTLType) (n : nat)
    (belowOps : list Operation) (b k : nat) : list Operation :=
  let m := length belowOps in
  let width := Z.to_N (Log2_64_Ceil (Z.of_nat n)) in
  [mkOperation (ConstantOp (Z.of_nat k)) [] [UIntType width] [] noAttrs;
   mkOperation EQPrimOp [idx; mkValue (OpResult b 0) (UIntType width)]
     [UIntType 1] [] noAttrs;
   subindexOf input elementType k] ++
  clones (b + 2) elementType (rev belowOps) ++
  [mkOperation ConnectOp
     [mkValue (OpResult (b + 2 + m) 0) destType; src] [] [] noAttrs;
   mkOperation WhenOp [mkValue (OpResult (b + 1) 0) (UIntType 1)] []
     [seq (b + 2) (m + 2)] noAttrs].

(** The operations of [writeElement] that stand in the block of the
    connect: the constant, the test and the conditional block. *)
Definition writeElementTop (m b : nat) : list nat := [b; b + 1; b + m + 4].

(** The operations that stand for the write to each of the [n] elements
    in turn, created from identity [base] on, and those of them that
    stand in the block of the connect. *)
Definition writeElements (src idx input : Value)
    (elementType destType : FIRRTLType) (n : nat)
    (belowOps : list Operation) (base : nat) (indices : list nat)
    : list Operation :=
  concat ((λ k, writeElement src idx input elementType destType n belowOps
                  (base + (length belowOps + 5) * k) k) <$> indices).

Definition writeElementsTop (m base : nat) (indices : list nat) : list nat :=
  concat ((λ k, writeElementTop m (base + (m + 5) * k)) <$> indices).

(** The accessors [below], which are the operations [belowOps], are
    live in [t]. *)
Definition stable (below : list nat) (belowOps : list Operation)
    (t : IRState) : Prop :=
  Forall2 (λ id op, ops t !! id = Some op ∧ id < nextId t) below belowOps.

(** The store after the deletion of the operations [erased]. *)
Definition deleteAll (erased : list nat) (store : gmap nat Operation)
    : gmap nat Operation :=
  foldl (λ m id, delete id m) store erased.

(** A wire [vec] of two elements of type [{a : flip UInt<1>, b :
    UInt<1>}], a wire [i], the destination [vec[i].b], a wire [x] and
    the connect of [x] to [vec[i].b]. *)
Definition exampleWriteVector : FIRRTLType := FVectorType exampleBundle 2.

Definition exampleWriteStore : IRState :=
  mkIRState
    (list_to_map
       [(0, exampleWire "vec" exampleWriteVector);
        (1, exampleWire "i" (UIntType 1));
        (2, mkOperation SubaccessOp
              [mkValue (OpResult 0 0) exampleWriteVector;
               mkValue (OpResult 1 0) (UIntType 1)] [exampleBundle] []
              noAttrs);
        (3, mkOperation (SubfieldOp 1)
              [mkValue (OpResult 2 0) exampleBundle] [uint1] [] noAttrs);
        (4, exampleWire "x" uint1);
        (5, mkOperation ConnectOp
              [mkValue (OpResult 3 0) uint1; mkValue (OpResult 4 0) uint1]
              [] [] noAttrs)])
    6 [] noVisitorState.

(** [UInt<1>[2][3]]: a vector of three vectors of two elements. *)
Definition exampleMatrix : FIRRTLType := FVectorType (FVectorType uint1 2) 3.

(** A wire [v] of that type, the wires [i] and [j], the accesses [v[i]]
    and [v[i][j]], a wire [x] and the connect of [x] to [v[i][j]]. *)
Definition exampleNestedWriteStore : IRState :=
  mkIRState
    (list_to_map
       [(0, exampleWire "v" exampleMatrix);
        (1, exampleWire "i" (UIntType 2));
        (2, exampleWire "j" (UIntType 1));
        (3, mkOperation SubaccessOp
              [mkValue (OpResult 0 0) exampleMatrix;
               mkValue (OpResult 1 0) (UIntType 2)] [FVectorType uint1 2] []
              noAttrs);
        (4, mkOperation SubaccessOp
              [mkValue (OpResult 3 0) (FVectorType uint1 2);
               mkValue (OpResult 2 0) (UIntType 1)] [uint1] [] noAttrs);
        (5, exampleWire "x" uint1);
        (6, mkOperation ConnectOp
              [mkValue (OpResult 4 0) uint1; mkValue (OpResult 5 0) uint1]
              [] [] noAttrs)])
    7 [] noVisitorState.

(** ** Split of a hierarchical path *)

(** The inner reference to a target. *)
Definition targetRef (ent : Entity) : Attribute :=
  InnerRefAttr (entModule ent) (entSym ent).

(** The paths that replace [path], one per new target: they keep the
    elements of [path] but the last, which becomes the reference to the
    target. *)
Definition splitPaths (path : HierPathOp) (names : list string)
    (ents : list Entity) : list HierPathOp :=
  zip_with
    (λ nm ent,
       mkHierPathOp nm (removelast (namepath path) ++ [targetRef ent]))
    names ents.

(** The annotation is non-local and refers to the path named [sym]. *)
Definition refersTo (sym : string) (anno : Annotation) : Prop :=
  getAsFlatSymbolRef anno "circt.nonlocal" = Some sym.

#[global] Instance refersTo_dec sym anno : Decision (refersTo sym anno).
Proof. unfold refersTo. apply _. Defined.

(** The modules a path goes through. *)
Definition pathModules (path : HierPathOp) : list string :=
  omap namepathModule (namepath path).

(** The path [nla] from [Top] through the instance [child] to the wire
    [w] of [Child], and a circuit in which [w] has been lowered to the
    wires [w_a] and [w_b], each with an annotation that refers to
    [nla]. *)
Definition examplePath : HierPathOp :=
  mkHierPathOp "nla" [InnerRefAttr "Top" "child"; InnerRefAttr "Child" "w"].

Definition exampleNonLocal (sym : string) : Annotation :=
  <["circt.nonlocal" := FlatSymbolRefAttr sym]>
    {[ "class" := StringAttr "Mark" ]}.

Definition exampleCircuit : Circuit :=
  mkCircuit
    (<["Top" := [examplePath]]> {[ "Child" := [examplePath] ]})
    {[ "nla" := examplePath ]}
    (list_to_set ["nla"; "Top"; "Child"])
    (<[0 := mkEntity "Child" "w_a" [exampleNonLocal "nla"]]>
       {[ 1 := mkEntity "Child" "w_b" [exampleNonLocal "nla"] ]})
    ∅.

(** The entity [ent] of [target] after the loop over the targets
    [newRefs] whose paths are named [names]: its annotations are
    redirected from [old] to the name of the path at every entry of the
    list that is [target], in turn. *)
Definition redirectedBy (old : string) (target : AnnoTarget)
    (newRefs : list AnnoTarget) (names : list string) (ent : Entity)
    : Entity :=
  foldl (λ e p, if decide (p.1 = target) then redirectEntity old p.2 e else e)
    ent (zip newRefs names).

(** What the path update reads of an operation of [module]: its inner
    symbol and its annotations. *)
Definition entityOf (module : string) (op : Operation) : Entity :=
  mkEntity module (default "" (innerSymAttr (attrs op)))
    (default [] (annotationsAttr (attrs op))).

(** [{a : {x : UInt<1>, y : UInt<1>}, b : flip UInt<1>}]: the type of
    the field [a] is passive, the bundle is not. *)
Definition examplePartlyPassive : FIRRTLType :=
  BundleType [mkBundleElement "a" false exampleInner;
              mkBundleElement "b" true uint1].

(** The wire [w] of [Child], of that type, with the inner symbol [w]
    and an annotation that refers to the path [nla]. *)
Definition exampleAnnotatedStore : IRState :=
  mkIRState
    {[ 0 := mkOperation WireOp [] [examplePartlyPassive] []
              (mkOpAttrs (Some "w") (Some InterestingName) (Some "w")
                 (Some [exampleNonLocal "nla"])) ]}
    1 [] noVisitorState.

(** The circuit of the path [nla] once that wire is lowered with the
    preserve-aggregate switch on: the wires [w_a] (operation 1, of the
    preserved type [{x : UInt<1>, y : UInt<1>}]) and [w_b] (operation
    2), each with the annotation of [w]. *)
Definition examplePreservedCircuit : Circuit :=
  mkCircuit
    (<["Top" := [examplePath]]> {[ "Child" := [examplePath] ]})
    {[ "nla" := examplePath ]}
    (list_to_set ["nla"; "Top"; "Child"])
    (<[1 := mkEntity "Child" "w_a" [exampleNonLocal "nla"]]>
       {[ 2 := mkEntity "Child" "w_b" [exampleNonLocal "nla"] ]})
    ∅.

(** ** Vocabulary of the further properties *)

(** Two annotations that differ at most in the members [circt.fieldID]
    and [fieldID]. *)
Definition sameButFieldIDs (new old : Annotation) : Prop :=
  ∀ key, key ≠ "circt.fieldID" → key ≠ "fieldID" → new !! key = old !! key.

(** The types [lowerProducer] leaves in place: the ground types and,
    with the preserve-aggregate switch on, the preservable ones. *)
Definition intactType (opts : LowerTypesOptions) (ty : FIRRTLType) : Prop :=
  isGround ty = true ∨
  (preserveAggregate opts = true ∧ isPreservableAggregateType ty = true).

(** [[UInt<1>; 2]]. *)
Definition examplePair : FIRRTLType := FVectorType uint1 2.

(** [{v : UInt<1>[2]}]. *)
Definition exampleOuter : FIRRTLType :=
  BundleType [mkBundleElement "v" false examplePair].


(** An operation the walk has nothing to do for: an operation without a
    visitor, a producer whose type stays, a connect of ground type
    whose destination goes through static accessors only. *)
Definition settled (opts : LowerTypesOptions) (store : gmap nat Operation)
    (id : nat) : Prop :=
  ∃ op, store !! id = Some op ∧
    match opName op with
    | ConstantOp _ | SubfieldOp _ | SubindexOp _ | EQPrimOp | OtherOp _ =>
        True
    | WireOp | NodeOp | RegOp | RegResetOp | InvalidValueOp
    | MultibitMuxOp =>
        ∃ ty, resultTypes op !! 0 = Some ty ∧ intactType opts ty
    | ConnectOp | StrictConnectOp =>
        ∃ dest src path,
          operands op = [dest; src] ∧ AccessChain store dest path ∧
          Forall (staticAccess store) path ∧ isGround (getType dest) = true
    | SubaccessOp | WhenOp => False
    end.


(** ** Lowered declarations *)

(** The base of the inner symbols of the fields of a producer: its inner
    symbol, else its name, else a generated name. *)
Definition baseSymName (op : Operation) (v : VisitorState) : string :=
  let name := default "" (nameAttr (attrs op)) in
  let sym := default "" (innerSymAttr (attrs op)) in
  let sym := if isEmpty sym then name else sym in
  if isEmpty sym then "__GEN_" +:+ pretty (uniqueIdx v) else sym.

(** The attributes [lowerProducer] gives to the declaration that stands
    for the field [field] of the producer [op] of type [srcType],
    [symBase] being the base of the inner symbols: the name of [op] with
    the suffix of the field, the name kind of [op], the annotations
    [filterAnnotations] keeps for the field, and an inner symbol if an
    annotation needs one or [op] has one. *)
Definition loweredAttrs (op : Operation) (srcType : FIRRTLType)
    (symBase : string) (field : FlatBundleFieldEntry) : OpAttrs :=
  let base := default "" (nameAttr (attrs op)) in
  let loweredName := if isEmpty base then "" else base +:+ suffix field in
  let loweredSymName := symBase +:+ suffix field in
  let filtered :=
    filterAnnotations (annotationsAttr (attrs op)) srcType field false
      loweredSymName in
  mkOpAttrs (Some loweredName)
    (Some (default DroppableName (nameKindAttr (attrs op))))
    (if filtered.2 || bool_decide (is_Some (innerSymAttr (attrs op)))
     then Some loweredSymName else None)
    (Some filtered.1).

(** The wire that stands for the field [field] of the wire [op]. *)
Definition loweredWire (op : Operation) (srcType : FIRRTLType)
    (symBase : string) (field : FlatBundleFieldEntry) : Operation :=
  mkOperation WireOp [] [type field] []
    (loweredAttrs op srcType symBase field).

(** The two operations that stand for the field [field], the [i]-th one,
    of the node [op] that reads [input], created from identity [base]
    on: the accessor of the element of [input], and the node that reads
    it. *)
Definition loweredNode (op : Operation) (srcType : FIRRTLType)
    (symBase : string) (input : Value) (base i : nat)
    (field : FlatBundleFieldEntry) : list Operation :=
  [accessorOp input (index field);
   mkOperation NodeOp [accessorValue (base + 2 * i) input (index field)]
     [type field] [] (loweredAttrs op srcType symBase field)].

(** The values of the nodes of the fields, created from [base] on. *)
Definition nodeValues (base : nat) (fields : list FlatBundleFieldEntry)
    : list Value :=
  imap (λ i field, mkValue (OpResult (base + 2 * i + 1) 0) (type field))
    fields.

(** The values of the wires of the fields, created from [base] on. *)
Definition fieldValues (base : nat) (fields : list FlatBundleFieldEntry)
    : list Value :=
  imap (λ i field, mkValue (OpResult (base + i) 0) (type field)) fields.

(** ** Flattened ports *)

(** The port that stands for the field [field] of the port [port]: its
    name is the name of [port] with the suffix of the field, its
    direction the one of [port], inverted for a flipped field. *)
Definition childPort (port : PortInfo) (field : FlatBundleFieldEntry)
    : PortInfo :=
  let hadSym := negb (isEmpty (default "" (portSym port))) in
  let sym :=
    (if hadSym then default "" (portSym port) else portName port)
    +:+ suffix field in
  let filtered :=
    filterAnnotations (Some (portAnnotations port)) (portType port) field
      false sym in
  mkPortInfo (portName port +:+ suffix field) (type field)
    (flipDirection (portDirection port) (isOutput field))
    (if filtered.2 || hadSym then Some sym else None)
    filtered.1.

(** The ports that stand for [port] once all that [peelType] decomposes
    is decomposed: [port] itself when its type stays, else the ports of
    its fields, in order. *)
#[warnings="-register-all"]
Inductive Flattens (allowed : bool) : PortInfo → list PortInfo → Prop :=
| Flattens_stays port :
    (peelType (portType port) [] allowed).1 = false →
    Flattens allowed port [port]
| Flattens_peels port fields leaves :
    peelType (portType port) [] allowed = (true, fields) →
    Forall2 (λ field l, Flattens allowed (childPort port field) l)
      fields leaves →
    Flattens allowed port (concat leaves).

(** The number of nodes of a type, which bounds the number of ports the
    loop visits for a port of the type. *)
Fixpoint typeNodes (ty : FIRRTLType) : nat :=
  match ty with
  | GroundType _ _ => 1
  | BundleType elements =>
      S ((fix go (elts : list (BundleElement FIRRTLType)) : nat :=
            match elts with
            | [] => 0
            | elt :: rest => typeNodes (eltType elt) + go rest
            end) elements)
  | FVectorType elementType numElements =>
      S (numElements * typeNodes elementType)
  end.

Definition portNodes (ports : list PortInfo) : nat :=
  sum_list_with (typeNodes ∘ portType) ports.

(** The ports [p : {a : flip UInt<1>, b : UInt<1>}] with the inner
    symbol [s], and [q : UInt<1>\[2\]]. *)
Definition examplePorts : list PortInfo :=
  [mkPortInfo "p" exampleBundle Direction.In (Some "s") [];
   mkPortInfo "q" (FVectorType uint1 2) Direction.Out None []].

Definition exampleExtModule : FModuleLike := mkFModuleLike "Ext" true true.

(** ** A node to lower *)

(** The wire [w] of type [{a : flip UInt<1>, b : UInt<1>}], the node
    [n] that reads it, the accessors [n.a] and [n.b], and a connect of
    the two. *)
Definition exampleNodeStore : IRState :=
  mkIRState
    (list_to_map
       [(0, exampleWire "w" exampleBundle);
        (1, mkOperation NodeOp [mkValue (OpResult 0 0) exampleBundle]
              [exampleBundle] []
              (mkOpAttrs (Some "n") (Some InterestingName) None None));
        (2, mkOperation (SubfieldOp 0)
              [mkValue (OpResult 1 0) exampleBundle] [uint1] [] noAttrs);
        (3, mkOperation (SubfieldOp 1)
              [mkValue (OpResult 1 0) exampleBundle] [uint1] [] noAttrs);
        (4, mkOperation ConnectOp
              [mkValue (OpResult 2 0) uint1; mkValue (OpResult 3 0) uint1]
              [] [] noAttrs)])
    5 [] noVisitorState.

(** ** A block with a wire to lower *)

(** The operations left once the wire [opId] of type [srcType] is
    replaced by the wires of its fields: the wires of the fields are
    created, the accessors of the wire are deleted and their uses
    rewired, the wire is erased. *)
Definition wireLowered (s : IRState) (opId : nat) (op : Operation)
    (srcType : FIRRTLType) (fields : list FlatBundleFieldEntry)
    : gmap nat Operation :=
  delete opId
    (ops (rewired
            (emit s (loweredWire op srcType (baseSymName op (visitor s))
                       <$> fields))
            (OpResult opId 0) (fieldValues (nextId s) fields))).

(** ** Blocks with connects to lower *)
(** The number of ground leaves of a type. *)
Fixpoint typeLeaves (ty : FIRRTLType) : nat :=
  match ty with
  | GroundType _ _ => 1
  | BundleType elements =>
      (fix go (elts : list (BundleElement FIRRTLType)) : nat :=
         match elts with
         | [] => 0
         | elt :: rest => typeLeaves (eltType elt) + go rest
         end) elements
  | FVectorType elementType numElements =>
      numElements * typeLeaves elementType
  end.

(** A block argument, or a result of an operation with an identity
    below [bound]. *)
Definition valueBelow (bound : nat) (v : Value) : Prop :=
  match valueDef v with
  | OpResult owner _ => owner < bound
  | BlockArgument _ => True
  end.

(** No operand of a live operation refers to an operation that is yet
    to be created. *)
Definition wfOperands (s : IRState) : Prop :=
  map_Forall (λ _ op, Forall (valueBelow (nextId s)) (operands op)) (ops s).

Definition isConnect (op : Operation) : bool :=
  match opName op with
  | ConnectOp | StrictConnectOp => true
  | _ => false
  end.

(** A value reached from its root through static accessors only. *)
Definition staticOperand (store : gmap nat Operation) (v : Value) : Prop :=
  ∃ path, AccessChain store v path ∧ Forall (staticAccess store) path.

(** A connect (strict or not) of two values of the same type, both
    reached through static accessors only. *)
Definition expandableConnect (store : gmap nat Operation) (id : nat) : Prop :=
  ∃ op dest src,
    store !! id = Some op ∧ isConnect op = true ∧
    operands op = [dest; src] ∧ getType src = getType dest ∧
    staticOperand store dest ∧ staticOperand store src.

(** A connect (strict or not) whose destination is of aggregate type. *)
Definition aggregateConnect (store : gmap nat Operation) (id : nat) : Prop :=
  ∃ op dest src,
    store !! id = Some op ∧ isConnect op = true ∧
    operands op = [dest; src] ∧ isGround (getType dest) = false.

(** The operations of a block in which only connects are left to lower. *)
Definition walkable (opts : LowerTypesOptions) (store : gmap nat Operation)
    (id : nat) : Prop :=
  settled opts store id ∨ expandableConnect store id.

Definition connectType (store : gmap nat Operation) (id : nat)
    : option FIRRTLType :=
  op ← store !! id;
  if isConnect op then getType <$> operands op !! 0 else None.

(** The number of visits the walk makes for the operation [id]: one,
    and for a connect one for the connect and three for every field of
    the type of its destination, at every level. *)
Definition visitsOf (store : gmap nat Operation) (id : nat) : nat :=
  match connectType store id with
  | Some ty => 3 * typeNodes ty - 2
  | None => 1
  end.

(** The number of ground leaves of the type of the destination of the
    connect [id]. *)
Definition leavesOf (store : gmap nat Operation) (id : nat) : nat :=
  match connectType store id with
  | Some ty => typeLeaves ty
  | None => 0
  end.

Definition isConnectAt (store : gmap nat Operation) (id : nat) : bool :=
  bool_decide (is_Some (connectType store id)).

(** The stores reached from [s] by creating operations and erasing
    connects: an operation of [s] is still there, unless it is a connect
    that is erased. *)
Definition extends (s : IRState) (store' : gmap nat Operation) : Prop :=
  ∀ id, id < nextId s →
    store' !! id = ops s !! id ∨
    (store' !! id = None ∧ ∃ op, ops s !! id = Some op ∧ isConnect op = true).

(** The operations the visit of a connect creates: those of
    [perFieldConnect] for every field, in order. *)
Definition perFieldConnects (connect : OpName) (src dest : Value) (base : nat)
    (fields : list FlatBundleFieldEntry) : list Operation :=
  concat (imap (perFieldConnect connect src dest base) fields).

#[global] Instance valueBelow_dec bound v : Decision (valueBelow bound v).
Proof. unfold valueBelow. destruct (valueDef v); apply _. Defined.

(** * Properties *)

(** ** Induction on types *)

Lemma FIRRTLType_ind_nested (P : FIRRTLType → Prop) :
  (∀ kind bitWidth, P (GroundType kind bitWidth)) →
  (∀ elements, Forall (λ elt, P (eltType elt)) elements →
               P (BundleType elements)) →
  (∀ elementType numElements, P elementType →
                              P (FVectorType elementType numElements)) →
  ∀ ty, P ty.
Proof.
  intros Hg Hb Hv. fix IH 1. intros [k w|es|t n].
  - apply Hg.
  - apply Hb. induction es as [|e es IHes]; constructor; [apply IH|exact IHes].
  - apply Hv, IH.
Qed.

(** ** Zero bit-width *)

Lemma hasZeroBitWidth_bundle_loop elements
    (all : list (BundleElement FIRRTLType)) :
  (fix loop (elts : list (BundleElement FIRRTLType)) : bool :=
     match elts with
     | [] => bool_decide (length all = 0)
     | elt :: rest =>
         if hasZeroBitWidth (eltType elt) then true else loop rest
     end) elements = true ↔
  Exists (λ elt, hasZeroBitWidth (eltType elt) = true) elements ∨ all = [].
Proof.
  induction elements as [|e es IH].
  - rewrite bool_decide_eq_true, Exists_nil, length_zero_iff_nil. tauto.
  - rewrite Exists_cons. destruct (hasZeroBitWidth (eltType e)); [tauto|].
    rewrite IH. intuition discriminate.
Qed.

Lemma hasZeroBitWidth_bundle elements :
  hasZeroBitWidth (BundleType elements) = true ↔
  Exists (λ elt, hasZeroBitWidth (eltType elt) = true) elements ∨
  elements = [].
Proof. apply hasZeroBitWidth_bundle_loop. Qed.

Lemma hasZeroBitWidth_vector elementType numElements :
  hasZeroBitWidth (FVectorType elementType numElements) = true ↔
  numElements = 0 ∨ hasZeroBitWidth elementType = true.
Proof.
  simpl. case_bool_decide; [tauto|]. intuition congruence.
Qed.

Lemma hasZeroBitWidth_reaches ty :
  hasZeroBitWidth ty = true ↔ ∃ ty', Reaches ty ty' ∧ zeroWidthNode ty'.
Proof.
  induction ty as [k w|es IH|t n IH] using FIRRTLType_ind_nested.
  - simpl. rewrite bool_decide_eq_true. split.
    + intros Hw. exists (GroundType k w). split; [constructor|exact Hw].
    + intros (ty' & Hr & Hz). inversion Hr; subst. exact Hz.
  - rewrite hasZeroBitWidth_bundle. split.
    + intros [Hex| ->].
      * apply Exists_exists in Hex as (e & Hin & He).
        rewrite Forall_forall in IH. apply IH in He as (ty' & Hr & Hz); [|done].
        exists ty'. split; [|done]. by eapply Reaches_field.
      * exists (BundleType []). split; [constructor|done].
    + intros (ty' & Hr & Hz). inversion Hr as [|? e ? Hin Hr'|]; subst.
      * right. exact Hz.
      * left. apply Exists_exists. exists e. split; [done|].
        rewrite Forall_forall in IH. apply IH; eauto.
  - rewrite hasZeroBitWidth_vector. split.
    + intros [->|Hz].
      * exists (FVectorType t 0). split; [constructor|done].
      * destruct (decide (n = 0)) as [->|Hn].
        -- exists (FVectorType t 0). split; [constructor|done].
        -- apply IH in Hz as (ty' & Hr & Hz). exists ty'.
           split; [|done]. by constructor.
    + intros (ty' & Hr & Hz). inversion Hr; subst.
      * left. exact Hz.
      * right. apply IH. eauto.
Qed.

Lemma zeroWidthAsClaimed_sufficient ty :
  zeroWidthAsClaimed ty → hasZeroBitWidth ty = true.
Proof.
  induction ty as [k w|es IH|t n IH] using FIRRTLType_ind_nested;
    intros [Hleaves|Hempty].
  - simpl. apply bool_decide_eq_true.
    apply (Hleaves (GroundType k w)). split; [constructor|done].
  - done.
  - apply hasZeroBitWidth_bundle. destruct es as [|e es]; [by right|left].
    apply Exists_cons_hd. apply Forall_cons in IH as [IHe _]. apply IHe.
    left. intros leaf [Hr Hg]. apply Hleaves. split; [|done].
    eapply Reaches_field; [apply list_elem_of_here|done].
  - apply hasZeroBitWidth_bundle. right. by apply length_zero_iff_nil.
  - apply hasZeroBitWidth_vector. destruct (decide (n = 0)); [by left|right].
    apply IH. left. intros leaf [Hr Hg]. apply Hleaves. split; [|done].
    by constructor.
  - apply hasZeroBitWidth_vector. by left.
Qed.

(** C2 (counterexample): the bundle [{a : UInt<0>, b : UInt<1>}] is
    reported to have zero bit-width although its leaf [b] has width 1
    and the bundle has two elements. *)
Lemma hasZeroBitWidth_not_every_leaf :
  let ty := BundleType [mkBundleElement "a" false (GroundType UInt (Some 0%N));
                        mkBundleElement "b" false (GroundType UInt (Some 1%N))] in
  hasZeroBitWidth ty = true ∧ ¬ zeroWidthAsClaimed ty.
Proof.
  split; [reflexivity|]. intros [Hleaves|Hempty]; [|discriminate].
  specialize (Hleaves (GroundType UInt (Some 1%N))). simpl in Hleaves.
  assert (1%N = 0%N) as Habs; [|discriminate].
  apply Hleaves. split; [|done].
  apply (Reaches_field _ (mkBundleElement "b" false (GroundType UInt (Some 1%N))));
    [|apply Reaches_refl].
  apply list_elem_of_further, list_elem_of_here.
Qed.

(** C2 (amended): [hasZeroBitWidth] reports zero bit-width exactly when
    the type reaches, transitively through nested aggregates, a component
    of zero width: a leaf whose width is zero or not known, or an
    aggregate (the type itself included) with zero elements.  In
    particular it does so when every reachable leaf has zero width or
    the type itself has zero elements. *)
Theorem hasZeroBitWidth_contains_zero_width :
  ∀ ty,
    (hasZeroBitWidth ty = true ↔ ∃ ty', Reaches ty ty' ∧ zeroWidthNode ty') ∧
    (zeroWidthAsClaimed ty → hasZeroBitWidth ty = true).
Proof.
  intros ty. split.
  - apply hasZeroBitWidth_reaches.
  - apply zeroWidthAsClaimed_sufficient.
Qed.

(** ** Preservation and peeling *)

Lemma isPassive_bundle elements :
  isPassive (BundleType elements) = true ↔
  Forall (λ elt, isFlip elt = false ∧ isPassive (eltType elt) = true) elements.
Proof.
  simpl. induction elements as [|e es IH].
  - split; [constructor|done].
  - rewrite Forall_cons, <-IH, !andb_true_iff, negb_true_iff. tauto.
Qed.

Lemma containsAnalog_bundle elements :
  containsAnalog (BundleType elements) = false ↔
  Forall (λ elt, containsAnalog (eltType elt) = false) elements.
Proof.
  simpl. induction elements as [|e es IH].
  - split; [constructor|done].
  - rewrite Forall_cons, <-IH, orb_false_iff. tauto.
Qed.

(** A passive type reaches no flipped field. *)
Lemma isPassive_reaches ty elements elt :
  isPassive ty = true → Reaches ty (BundleType elements) →
  elt ∈ elements → isFlip elt = false.
Proof.
  intros Hp Hr. revert Hp.
  remember (BundleType elements) as target eqn:Ht.
  induction Hr as [ty|es e ty Hin Hr IH|t n ty Hn Hr IH]; intros Hp Helt.
  - subst ty. apply isPassive_bundle in Hp.
    rewrite Forall_forall in Hp. by apply Hp.
  - apply IH; [done| |done]. apply isPassive_bundle in Hp.
    rewrite Forall_forall in Hp. by apply Hp.
  - by apply IH.
Qed.

(** A type without analog reaches no analog leaf. *)
Lemma containsAnalog_reaches ty bitWidth :
  containsAnalog ty = false → ¬ Reaches ty (GroundType Analog bitWidth).
Proof.
  intros Hc Hr. revert Hc.
  remember (GroundType Analog bitWidth) as target eqn:Ht.
  induction Hr as [ty|es e ty Hin Hr IH|t n ty Hn Hr IH]; intros Hc.
  - subst ty. simpl in Hc. discriminate.
  - apply IH; [done|]. apply containsAnalog_bundle in Hc.
    rewrite Forall_forall in Hc. by apply Hc.
  - by apply IH.
Qed.

Lemma peelType_intact ty fields allowed :
  (peelType ty fields allowed).1 = false ↔
  isGround ty = true ∨ (allowed = true ∧ isPreservableAggregateType ty = true).
Proof.
  unfold peelType.
  destruct allowed, (isPreservableAggregateType ty), ty; simpl;
    intuition discriminate.
Qed.

(** C7: an aggregate type is left intact by the peeler only if
    preservation is allowed and the type is passive (it reaches no
    flipped field), contains no analog and does not have zero
    bit-width; and when [preservePublicTypes] forces the decomposition
    of public types, the ports of an external module and of a public
    module are peeled whatever [preserveAggregate] says. *)
Theorem preserved_only_if_eligible (opts : LowerTypesOptions)
    (module : FModuleLike) (ty : FIRRTLType) :
  isGround ty = false →
  (∀ allowed fields,
     (peelType ty fields allowed).1 = false →
     allowed = true ∧
     isPassive ty = true ∧ containsAnalog ty = false ∧
     hasZeroBitWidth ty = false ∧
     (∀ elements elt, Reaches ty (BundleType elements) →
                      elt ∈ elements → isFlip elt = false) ∧
     (∀ bitWidth, ¬ Reaches ty (GroundType Analog bitWidth))) ∧
  (preservePublicTypes opts = true →
   isExtModule module = true ∨ isPublic module = true →
   isModuleAllowedToPreserveAggregate opts module = false ∧
   ∀ fields,
     (peelType ty fields (isModuleAllowedToPreserveAggregate opts module)).1
     = true).
Proof.
  intros Hagg. split.
  - intros allowed fields Hintact.
    apply peelType_intact in Hintact as [Hg|[-> Hpres]]; [congruence|].
    unfold isPreservableAggregateType in Hpres.
    apply andb_true_iff in Hpres as [Hpres Hz].
    apply andb_true_iff in Hpres as [Hp Ha].
    apply negb_true_iff in Ha, Hz. repeat split; try done.
    + intros. by eapply isPassive_reaches.
    + intros. by apply containsAnalog_reaches.
  - intros Hforce Hvisible.
    assert (isModuleAllowedToPreserveAggregate opts module = false) as Hno.
    { unfold isModuleAllowedToPreserveAggregate. rewrite Hforce.
      destruct (preserveAggregate opts); simpl; [|done].
      destruct Hvisible as [-> | ->]; [done|].
      by destruct (isExtModule module). }
    split; [done|]. intros fields. rewrite Hno.
    destruct (peelType ty fields false).1 eqn:Hpeel; [done|].
    apply peelType_intact in Hpeel as [?|[? _]]; congruence.
Qed.

Lemma preserved_only_if_eligible_witness :
  let opts := mkLowerTypesOptions true true in
  let module := mkFModuleLike "Top" false true in
  let ty := BundleType [mkBundleElement "a" false (GroundType UInt (Some 1%N))] in
  (peelType ty [] true).1 = false ∧
  isModuleAllowedToPreserveAggregate opts module = false ∧
  (peelType ty [] (isModuleAllowedToPreserveAggregate opts module)).1 = true.
Proof.
  intros opts module ty.
  destruct (preserved_only_if_eligible opts module ty eq_refl) as [_ Hports].
  destruct (Hports eq_refl (or_intror eq_refl)) as [Hno Hpeel].
  split; [reflexivity|]. split; [exact Hno|exact (Hpeel [])].
Defined.

(** C8: the peeler reports "no decomposition" exactly when the type is a
    ground type, or preservation is allowed and the type is preservable;
    a ground type is never decomposed, whatever the flag, and a bundle or
    a vector with zero elements is decomposed into an empty field list. *)
Theorem peelType_no_decomposition :
  ∀ (ty : FIRRTLType) (allowedToPreserveAggregate : bool),
    ((peelType ty [] allowedToPreserveAggregate).1 = false ↔
     isGround ty = true ∨
     (allowedToPreserveAggregate = true ∧
      isPreservableAggregateType ty = true)) ∧
    (∀ kind bitWidth,
       peelType (GroundType kind bitWidth) [] allowedToPreserveAggregate
       = (false, [])) ∧
    peelType (BundleType []) [] allowedToPreserveAggregate = (true, []) ∧
    (∀ elementType,
       peelType (FVectorType elementType 0) [] allowedToPreserveAggregate
       = (true, [])).
Proof.
  intros ty allowed. split; [apply peelType_intact|]. split; [|split].
  - intros kind bitWidth. unfold peelType.
    by destruct (allowed && _).
  - destruct allowed; reflexivity.
  - intros elementType. unfold peelType, isPreservableAggregateType. simpl.
    by rewrite !andb_false_r.
Qed.

(** ** The annotation filter *)

Lemma filterAnnotation_retained field retval needsSym opAttr :
  (filterAnnotation field (retval, needsSym) opAttr).1
  = retval ++ retainedFor field opAttr.
Proof.
  unfold retainedFor, filterAnnotation.
  destruct (getAsInteger opAttr "circt.fieldID") as [f|]; simpl; [|done].
  repeat (case_match; simpl; try done); by rewrite app_nil_r.
Qed.

Lemma foldl_filterAnnotation_retained field annotations retval needsSym :
  (foldl (filterAnnotation field) (retval, needsSym) annotations).1
  = retval ++ concat (retainedFor field <$> annotations).
Proof.
  revert retval needsSym.
  induction annotations as [|a l IH]; intros retval needsSym.
  - simpl. by rewrite app_nil_r.
  - cbn [foldl fmap list_fmap concat].
    destruct (filterAnnotation field (retval, needsSym) a) as [rv ns] eqn:Hstep.
    rewrite IH. pose proof (filterAnnotation_retained field retval needsSym a) as H.
    rewrite Hstep in H. simpl in H. rewrite H. by rewrite <-app_assoc.
Qed.

Lemma filterAnnotations_retained annotations srcType field needsSym sym :
  (filterAnnotations (Some annotations) srcType field needsSym sym).1
  = concat (retainedFor field <$> annotations).
Proof.
  unfold filterAnnotations. destruct annotations as [|a l]; [done|].
  by rewrite foldl_filterAnnotation_retained.
Qed.

Lemma filterAnnotations_flag annotations srcType field needsSym sym :
  (filterAnnotations (Some annotations) srcType field needsSym sym).2
  = (foldl (filterAnnotation field) ([], needsSym) annotations).2.
Proof. by destruct annotations. Qed.

Lemma foldl_filterAnnotation_flag_app field before after acc :
  foldl (filterAnnotation field) acc (before ++ after)
  = foldl (filterAnnotation field) (foldl (filterAnnotation field) acc before)
      after.
Proof. apply foldl_app. Qed.

(** Once set, the flag stays set as long as no later iteration assigns
    it. *)
Lemma foldl_filterAnnotation_flag_kept field annotations retval :
  Forall (λ a, ¬ assignsNeedsSym field a) annotations →
  (foldl (filterAnnotation field) (retval, true) annotations).2 = true.
Proof.
  revert retval. induction annotations as [|a l IH]; intros retval Hall;
    [done|].
  apply Forall_cons in Hall as [Ha Hl]. cbn [foldl].
  destruct (filterAnnotation field (retval, true) a) as [rv ns] eqn:Hstep.
  assert (ns = true) as ->; [|by apply IH].
  unfold filterAnnotation in Hstep.
  destruct (getAsInteger a "circt.fieldID") as [f|] eqn:Hf;
    [|by inversion Hstep].
  repeat (case_match; simplify_eq/=; try done).
  exfalso. apply Ha. unfold assignsNeedsSym. rewrite Hf.
  repeat match goal with
         | H : bool_decide _ = false |- _ => apply bool_decide_eq_false in H
         | H : bool_decide _ = true |- _ => apply bool_decide_eq_true in H
         | H : _ && _ = false |- _ => apply andb_false_iff in H as [H|H]
         | H : _ && _ = true |- _ => apply andb_true_iff in H as [? ?]
         | H : negb _ = false |- _ => apply negb_false_iff in H
         end; [lia|].
  assert (f = Z.of_nat (fieldID field)) as -> by lia.
  split; [done|]. split; [lia|done].
Qed.

Lemma retainedFor_unqualified field opAttr :
  getAsInteger opAttr "circt.fieldID" = None →
  retainedFor field opAttr = [updateAnnotationFieldID opAttr (fieldID field)].
Proof. intros H. unfold retainedFor, filterAnnotation. by rewrite H. Qed.

Lemma retainedFor_out_of_range field opAttr id :
  getAsInteger opAttr "circt.fieldID" = Some id → id ≠ 0%Z →
  (id < Z.of_nat (fieldID field) ∨ maxFieldIDOf field < id)%Z →
  retainedFor field opAttr = [].
Proof.
  intros H Hnz Hout. unfold retainedFor, filterAnnotation. rewrite H.
  rewrite (bool_decide_eq_true_2 (id ≠ 0%Z)) by done. simpl.
  destruct Hout.
  - rewrite (bool_decide_eq_false_2 (_ ≤ id)%Z) by lia. done.
  - rewrite (bool_decide_eq_false_2 (id ≤ _)%Z) by lia.
    by rewrite andb_false_r.
Qed.

Lemma retainedFor_whole field opAttr :
  getAsInteger opAttr "circt.fieldID" = Some 0%Z →
  retainedFor field opAttr = [delete "circt.fieldID" opAttr].
Proof. intros H. unfold retainedFor, filterAnnotation. by rewrite H. Qed.

Lemma filterAnnotation_in_range field acc opAttr id :
  getAsInteger opAttr "circt.fieldID" = Some id → id ≠ 0%Z →
  (Z.of_nat (fieldID field) ≤ id ≤ maxFieldIDOf field)%Z →
  filterAnnotation field acc opAttr =
  let annotation := delete "circt.fieldID" opAttr in
  let newFieldID := (id - Z.of_nat (fieldID field))%Z in
  if bool_decide (newFieldID ≠ 0%Z)
  then (acc.1 ++
          [<["circt.fieldID" := IntegerAttr 32 (toInt32 newFieldID)]>
             annotation],
        acc.2)
  else if bool_decide
            (getClass opAttr = "firrtl.transforms.DontTouchAnnotation")
  then (acc.1, true)
  else (acc.1 ++ [annotation],
        isGround (type field) &&
        bool_decide (is_Some (getAsFlatSymbolRef annotation "circt.nonlocal"))).
Proof.
  intros H Hnz [Hlo Hhi]. destruct acc as [retval needsSym].
  unfold filterAnnotation. rewrite H.
  rewrite (bool_decide_eq_true_2 (id ≠ 0%Z)) by done.
  rewrite (bool_decide_eq_true_2 (_ ≤ id)%Z) by done.
  rewrite (bool_decide_eq_true_2 (id ≤ _)%Z) by done.
  rewrite (bool_decide_eq_false_2 (id = 0%Z)) by done. done.
Qed.

(** C3 (counterexample): an annotation whose field ID is 0 is not always
    retained unmodified.  A SignalDriverAnnotation without field ID gets
    the field ID of the produced field as its [fieldID] member, and an
    annotation with an explicit [circt.fieldID] of 0 loses that member. *)
Lemma filterAnnotations_modifies_whole_value_annotation :
  let field := mkFlatBundleFieldEntry (GroundType UInt (Some 1%N)) 0 1 "_a" false in
  let srcType :=
    BundleType [mkBundleElement "a" false (GroundType UInt (Some 1%N))] in
  let driver : Annotation :=
    {[ "class" :=
         StringAttr "sifive.enterprise.grandcentral.SignalDriverAnnotation" ]} in
  let explicit : Annotation :=
    <[ "circt.fieldID" := IntegerAttr 32 0 ]> {[ "class" := StringAttr "Mark" ]} in
  getAsInteger driver "circt.fieldID" = None ∧
  (filterAnnotations (Some [driver]) srcType field false "w_a").1
  = [<["fieldID" := IntegerAttr 64 1]> driver] ∧
  (filterAnnotations (Some [driver]) srcType field false "w_a").1 ≠ [driver] ∧
  getAsInteger explicit "circt.fieldID" = Some 0%Z ∧
  (filterAnnotations (Some [explicit]) srcType field false "w_a").1
  = [{[ "class" := StringAttr "Mark" ]}] ∧
  (filterAnnotations (Some [explicit]) srcType field false "w_a").1 ≠ [explicit].
Proof.
  intros field srcType driver explicit.
  split; [reflexivity|]. split; [reflexivity|]. split.
  { intros H. apply (f_equal (λ l, l !! 0 ≫= (.!! "fieldID"))) in H.
    vm_compute in H. discriminate. }
  split; [reflexivity|]. split; [by vm_compute|].
  intros H. apply (f_equal (λ l, l !! 0 ≫= (.!! "circt.fieldID"))) in H.
  vm_compute in H. discriminate.
Qed.

(** C3 (amended): for every annotation [opAttr] of the list attached to
    the lowered value and every flat field entry [field], the filter
    keeps the annotations in order and
    - drops [opAttr] if it carries a nonzero field ID outside of
      [[fieldID, hi]], where [hi] is [fieldID + maxFieldID (type)]
      computed on 32 bits (the sum itself when it is below [2 ^ 32]);
    - if it carries no field ID, retains it on every produced field,
      unmodified unless its class is the field-ID-sensitive
      SignalDriverAnnotation and the ID of the field is not 0: then
      its [fieldID] member becomes the ID of the field plus the
      member it had, the sum taken on 32 bits;
    - if its field ID is an explicit 0, retains it on every produced
      field with the [circt.fieldID] member erased;
    - if its field ID is in the range and the residual (field ID minus
      [fieldID]) is nonzero, retains it with [circt.fieldID] rebased to
      the residual, stored as a 32-bit integer (the residual itself
      when it is below [2 ^ 31]);
    - if it is a DontTouchAnnotation whose residual is zero, does not
      copy it and sets the needs-symbol flag; the flag is returned set
      provided that no later annotation of the list addresses exactly
      the field without being a DontTouchAnnotation.  (What the flag is
      when one does is not part of the statement.) *)
Theorem filterAnnotations_per_annotation
    (before after : list Annotation) (opAttr : Annotation)
    (srcType : FIRRTLType) (field : FlatBundleFieldEntry) (needsSym : bool)
    (sym : string) :
  let result :=
    filterAnnotations (Some (before ++ opAttr :: after)) srcType field
      needsSym sym in
  let lo := Z.of_nat (fieldID field) in
  let hi := maxFieldIDOf field in
  let annoID := getAsInteger opAttr "circt.fieldID" in
  result.1
  = (filterAnnotations (Some before) srcType field needsSym sym).1 ++
    retainedFor field opAttr ++
    (filterAnnotations (Some after) srcType field needsSym sym).1 ∧
  ((lo + Z.of_nat (getMaxFieldID (type field)) < 2 ^ 32)%Z →
   hi = (lo + Z.of_nat (getMaxFieldID (type field)))%Z) ∧
  (∀ id, annoID = Some id → id ≠ 0%Z → (id < lo ∨ hi < id)%Z →
         retainedFor field opAttr = []) ∧
  (annoID = None →
   (isAnnotationSensitiveToFieldID opAttr = false ∨ fieldID field = 0 →
    retainedFor field opAttr = [opAttr]) ∧
   (isAnnotationSensitiveToFieldID opAttr = true → fieldID field ≠ 0 →
    retainedFor field opAttr
    = [<["fieldID" :=
           IntegerAttr 64
             (match getAsZExt opAttr "fieldID" with
              | Some existing => toUnsigned (lo + existing)
              | None => lo
              end)]> opAttr])) ∧
  (annoID = Some 0%Z →
   retainedFor field opAttr = [delete "circt.fieldID" opAttr]) ∧
  (∀ id, annoID = Some id → id ≠ 0%Z → (lo ≤ id ≤ hi)%Z → (id - lo ≠ 0)%Z →
         retainedFor field opAttr
         = [<["circt.fieldID" := IntegerAttr 32 (toInt32 (id - lo))]> opAttr] ∧
         ((id - lo < 2 ^ 31)%Z → toInt32 (id - lo) = (id - lo)%Z)) ∧
  (annoID = Some lo → lo ≠ 0%Z → (lo ≤ hi)%Z →
   getClass opAttr = "firrtl.transforms.DontTouchAnnotation" →
   retainedFor field opAttr = [] ∧
   (Forall (λ a, ¬ assignsNeedsSym field a) after → result.2 = true)).
Proof.
  intros result lo hi annoID. subst result.
  split; [|split; [|split; [|split; [|split; [|split]]]]].
  - rewrite !filterAnnotations_retained, fmap_app, concat_app. done.
  - intros Hfit. unfold hi, maxFieldIDOf, toUnsigned. fold lo.
    apply Z.mod_small. lia.
  - intros id Hid Hnz Hout. by eapply retainedFor_out_of_range.
  - intros Hnone. rewrite retainedFor_unqualified by done.
    unfold updateAnnotationFieldID. split.
    + intros [Hsens| ->]; [|done]. rewrite Hsens.
      by destruct (bool_decide (fieldID field = 0)).
    + intros Hsens Hnz. rewrite Hsens.
      by rewrite (bool_decide_eq_false_2 (fieldID field = 0)).
  - apply retainedFor_whole.
  - intros id Hid Hnz Hrange Hres. split.
    + unfold retainedFor.
      rewrite (filterAnnotation_in_range _ _ _ id) by done. cbn zeta.
      rewrite (bool_decide_eq_true_2 (_ ≠ 0%Z)) by done.
      simpl. by rewrite insert_delete_eq.
    + intros Hsmall. unfold toInt32.
      rewrite Z.mod_small by lia. lia.
  - intros Hid Hnz Hhi Hclass.
    assert (lo ≤ lo ≤ hi)%Z as Hrange by lia.
    split.
    + unfold retainedFor.
      rewrite (filterAnnotation_in_range _ _ _ lo) by done. cbn zeta.
      rewrite (bool_decide_eq_false_2 (_ ≠ 0%Z)) by lia.
      by rewrite (bool_decide_eq_true_2 _ Hclass).
    + intros Hafter. rewrite filterAnnotations_flag.
      rewrite foldl_filterAnnotation_flag_app. cbn [foldl].
      rewrite (filterAnnotation_in_range _ _ _ lo) by done. cbn zeta.
      rewrite (bool_decide_eq_false_2 (_ ≠ 0%Z)) by lia.
      rewrite (bool_decide_eq_true_2 _ Hclass).
      by apply foldl_filterAnnotation_flag_kept.
Qed.

(** The annotations of a wire of the two-field bundle
    [{a : UInt<1>, b : UInt<1>}], for the field [b] (field ID 2): a
    DontTouchAnnotation on [b] between an annotation on [a] and one on
    the whole value. *)
Lemma filterAnnotations_per_annotation_witness :
  let field := mkFlatBundleFieldEntry (GroundType UInt (Some 1%N)) 1 2 "_b" false in
  let srcType :=
    BundleType [mkBundleElement "a" false (GroundType UInt (Some 1%N));
                mkBundleElement "b" false (GroundType UInt (Some 1%N))] in
  let onA : Annotation :=
    <[ "circt.fieldID" := IntegerAttr 32 1 ]> {[ "class" := StringAttr "Mark" ]} in
  let dontTouch : Annotation :=
    <[ "circt.fieldID" := IntegerAttr 32 2 ]>
      {[ "class" := StringAttr "firrtl.transforms.DontTouchAnnotation" ]} in
  let whole : Annotation := {[ "class" := StringAttr "Mark" ]} in
  retainedFor field dontTouch = [] ∧
  (filterAnnotations (Some ([onA] ++ dontTouch :: [whole])) srcType field
     false "w_b").2 = true.
Proof.
  intros field srcType onA dontTouch whole.
  destruct (filterAnnotations_per_annotation [onA] [whole] dontTouch srcType
              field false "w_b") as (_ & _ & _ & _ & _ & _ & Hdt).
  destruct (Hdt eq_refl ltac:(done) ltac:(vm_compute; discriminate) eq_refl)
    as [Hnone Hflag].
  split; [exact Hnone|]. apply Hflag.
  repeat constructor. intros [Hid _]. vm_compute in Hid. discriminate.
Defined.

(** ** The needs-symbol flag is assigned, not accumulated *)

(** The flag that [filterAnnotations] returns is the one assigned for
    the last annotation of the list when that annotation addresses
    exactly the field, is not a DontTouchAnnotation and passes the range
    test (which it does unless the upper bound of the range, a sum on 32
    bits, wraps around below the ID of the field): the field is of
    ground type and the annotation is non-local.  What the caller passed
    and what an earlier DontTouchAnnotation set are lost.  When the
    annotation does not pass the range test it is dropped, and the flag
    is the one of the annotations before it. *)
Theorem filterAnnotations_flag_assigned
    (before : list Annotation) (final : Annotation) (srcType : FIRRTLType)
    (field : FlatBundleFieldEntry) (needsSym : bool) (sym : string) :
  assignsNeedsSym field final →
  let flag :=
    (filterAnnotations (Some (before ++ [final])) srcType field needsSym
       sym).2 in
  let lo := Z.of_nat (fieldID field) in
  ((lo + Z.of_nat (getMaxFieldID (type field)) < 2 ^ 32)%Z →
   (lo ≤ maxFieldIDOf field)%Z) ∧
  ((lo ≤ maxFieldIDOf field)%Z →
   flag = isGround (type field) &&
          bool_decide (is_Some (getAsFlatSymbolRef final "circt.nonlocal"))) ∧
  ((maxFieldIDOf field < lo)%Z →
   flag = (filterAnnotations (Some before) srcType field needsSym sym).2).
Proof.
  intros (Hid & Hnz & Hclass) flag lo. subst flag.
  rewrite !filterAnnotations_flag, foldl_app. cbn [foldl].
  destruct (foldl (filterAnnotation field) ([], needsSym) before)
    as [retval flag].
  unfold filterAnnotation. rewrite Hid. fold lo.
  rewrite (bool_decide_eq_true_2 (_ ≠ 0)%Z) by lia.
  rewrite (bool_decide_eq_true_2 (lo ≤ lo)%Z) by lia.
  split; [|split].
  - intros Hfit. unfold maxFieldIDOf, toUnsigned. fold lo.
    rewrite Z.mod_small by lia. lia.
  - intros Hhi. rewrite (bool_decide_eq_true_2 (_ ≤ _)%Z) by lia.
    cbn [andb negb].
    rewrite (bool_decide_eq_false_2 (_ = 0)%Z) by lia.
    rewrite (bool_decide_eq_false_2 (_ ≠ 0)%Z) by lia.
    rewrite (bool_decide_eq_false_2 (getClass final = _)) by done.
    cbn [snd]. f_equal. unfold getAsFlatSymbolRef.
    by rewrite lookup_delete_ne.
  - intros Hhi. rewrite (bool_decide_eq_false_2 (_ ≤ _)%Z) by lia. done.
Qed.

(** A DontTouchAnnotation on the field [b] followed by a local
    annotation on [b]: the flag is returned unset. *)
Lemma filterAnnotations_flag_assigned_witness :
  let field := mkFlatBundleFieldEntry uint1 1 2 "_b" false in
  let dontTouch : Annotation :=
    <[ "circt.fieldID" := IntegerAttr 32 2 ]>
      {[ "class" := StringAttr "firrtl.transforms.DontTouchAnnotation" ]} in
  let mark : Annotation :=
    <[ "circt.fieldID" := IntegerAttr 32 2 ]> {[ "class" := StringAttr "Mark" ]} in
  (filterAnnotations (Some ([dontTouch] ++ [mark])) exampleBundle field false
     "w_b").2 = false ∧
  (filterAnnotations (Some [dontTouch]) exampleBundle field false "w_b").2
  = true.
Proof.
  intros field dontTouch mark. split; [|reflexivity].
  destruct (filterAnnotations_flag_assigned [dontTouch] mark exampleBundle
              field false "w_b") as (_ & Hflag & _).
  - split; [reflexivity|]. split; [simpl; lia|].
    intros Hclass. vm_compute in Hclass. discriminate Hclass.
  - rewrite Hflag; [reflexivity|]. vm_compute. discriminate.
Defined.

(** ** The builder *)

Lemma bind_Ok {A B} (m : M A) (f : A → M B) s a s' :
  m s = Ok (a, s') → (m ≫= f) s = f a s'.
Proof. intros H. unfold mbind, M_bind. by rewrite H. Qed.

Lemma bind_Fatal {A B} (m : M A) (f : A → M B) s msg :
  m s = Fatal msg → (m ≫= f) s = Fatal msg.
Proof. intros H. unfold mbind, M_bind. by rewrite H. Qed.

Lemma createOp_withOp op s : createOp op s = Ok (nextId s, withOp s op).
Proof. done. Qed.

Lemma createValue_withOp opname args ty s :
  createValue opname args ty s
  = Ok (mkValue (OpResult (nextId s) 0) ty,
        withOp s (mkOperation opname args [ty] [] noAttrs)).
Proof. done. Qed.

Lemma emit_app s l1 l2 : emit s (l1 ++ l2) = emit (emit s l1) l2.
Proof. apply foldl_app. Qed.

Lemma emit_nextId s created :
  nextId (emit s created) = nextId s + length created.
Proof.
  revert s. induction created as [|op l IH]; intros s; simpl; [lia|].
  rewrite IH. simpl. lia.
Qed.

Lemma emit_inserted s created :
  inserted (emit s created)
  = inserted s ++ seq (nextId s) (length created).
Proof.
  revert s. induction created as [|op l IH]; intros s; simpl.
  - by rewrite app_nil_r.
  - rewrite IH. simpl. by rewrite <-app_assoc.
Qed.

Lemma emit_visitor s created : visitor (emit s created) = visitor s.
Proof.
  revert s. induction created as [|op l IH]; intros s; simpl; [done|].
  by rewrite IH.
Qed.

Lemma emit_lookup_old s created id :
  id < nextId s → ops (emit s created) !! id = ops s !! id.
Proof.
  revert s. induction created as [|op l IH]; intros s Hid; simpl; [done|].
  rewrite IH by (simpl; lia). simpl. apply lookup_insert_ne. lia.
Qed.

Lemma emit_lookup_new s created j op :
  created !! j = Some op → ops (emit s created) !! (nextId s + j) = Some op.
Proof.
  revert s j. induction created as [|op' l IH]; intros s j Hj; [done|].
  destruct j as [|j]; simpl in *.
  - simplify_eq. rewrite emit_lookup_old by (simpl; lia). simpl.
    rewrite Nat.add_0_r. apply lookup_insert_eq.
  - specialize (IH (withOp s op') j Hj). simpl in IH.
    by replace (nextId s + S j) with (S (nextId s) + j) by lia.
Qed.

Lemma emit_lookup_inv s created id op :
  ops (emit s created) !! id = Some op →
  ops s !! id = Some op ∨
  ∃ j, id = nextId s + j ∧ created !! j = Some op.
Proof.
  revert s. induction created as [|op' l IH]; intros s H; simpl in *; [by left|].
  apply IH in H as [H|(j & -> & Hj)].
  - simpl in H. apply lookup_insert_Some in H as [[<- <-]|[_ H]].
    + right. exists 0. split; [lia|done].
    + by left.
  - right. exists (S j). split; [simpl; lia|done].
Qed.

Lemma emit_wfIds s created : wfIds s → wfIds (emit s created).
Proof.
  intros Hwf id op Hop. apply emit_lookup_inv in Hop as [Hop|(j & -> & Hj)].
  - apply Hwf in Hop. rewrite emit_nextId. simpl in *. lia.
  - rewrite emit_nextId. apply lookup_lt_Some in Hj. lia.
Qed.

Lemma readOnly_ret {A} (a : A) : readOnly (mret a : M A).
Proof. intros s a' s' H. by inversion H. Qed.

Lemma readOnly_bind {A B} (m : M A) (f : A → M B) :
  readOnly m → (∀ a, readOnly (f a)) → readOnly (m ≫= f).
Proof.
  intros Hm Hf s b s' H. unfold mbind, M_bind in H.
  destruct (m s) as [[a s1]| |] eqn:Hms; [|done..].
  apply Hm in Hms as ->. by eapply Hf.
Qed.

Lemma readOnly_fatal {A} msg : readOnly (fatal msg : M A).
Proof. by intros s a s' H. Qed.

Lemma readOnly_outOfFuel {A} : readOnly (outOfFuel : M A).
Proof. by intros s a s' H. Qed.

Lemma readOnly_getState : readOnly getState.
Proof. intros s a s' H. by inversion H. Qed.

Lemma readOnly_getOp id : readOnly (getOp id).
Proof.
  intros s a s' H. unfold getOp in H. destruct (ops s !! id); by inversion H.
Qed.

Lemma readOnly_getOperand op i : readOnly (getOperand op i).
Proof.
  unfold getOperand. destruct (operands op !! i);
    [apply readOnly_ret|apply readOnly_fatal].
Qed.

Lemma readOnly_castFVectorType ty : readOnly (castFVectorType ty).
Proof.
  destruct ty; first [apply readOnly_ret|apply readOnly_fatal].
Qed.

Create HintDb readonly.

#[local] Hint Resolve readOnly_ret readOnly_fatal readOnly_outOfFuel
  readOnly_getState readOnly_getOp readOnly_getOperand
  readOnly_castFVectorType : readonly.

Lemma readOnly_isNotSubAccess op : readOnly (isNotSubAccess op).
Proof.
  unfold isNotSubAccess. destruct (opName op); auto with readonly.
  apply readOnly_bind; [auto with readonly|]. intros s.
  apply readOnly_bind; [auto with readonly|]. intros idx.
  destruct (definedByConstant (ops s) idx); [|auto with readonly].
  apply readOnly_bind; [auto with readonly|]. intros input.
  apply readOnly_bind; [auto with readonly|]. intros [? ?].
  auto with readonly.
Qed.

Lemma readOnly_collectAccessors fuel v : readOnly (collectAccessors fuel v).
Proof.
  revert v. induction fuel as [|fuel IH]; intros v; simpl.
  - apply readOnly_bind; [auto with readonly|]. intros s.
    destruct (getDefiningOp (ops s) v) as [[id defOp]|];
      [|auto with readonly].
    destruct (isAccessor (opName defOp)); auto with readonly.
  - apply readOnly_bind; [auto with readonly|]. intros s.
    destruct (getDefiningOp (ops s) v) as [[id defOp]|];
      [|auto with readonly].
    destruct (isAccessor (opName defOp)); [|auto with readonly].
    apply readOnly_bind; [auto with readonly|]. intros v'.
    apply readOnly_bind; [apply IH|]. intros rest. auto with readonly.
Qed.

Lemma readOnly_trimToSubaccess reversed : readOnly (trimToSubaccess reversed).
Proof.
  induction reversed as [|back rest IH]; simpl; [auto with readonly|].
  apply readOnly_bind; [auto with readonly|]. intros op.
  apply readOnly_bind; [apply readOnly_isNotSubAccess|]. intros [|];
    auto with readonly.
Qed.

Lemma readOnly_getSAWritePath op : readOnly (getSAWritePath op).
Proof.
  unfold getSAWritePath.
  apply readOnly_bind; [auto with readonly|]. intros dest.
  apply readOnly_bind; [auto with readonly|]. intros s.
  apply readOnly_bind; [apply readOnly_collectAccessors|]. intros retval.
  apply readOnly_bind; [apply readOnly_trimToSubaccess|]. intros trimmed.
  auto with readonly.
Qed.

(** ** Connects *)

Lemma getSubWhatever_accessor val i s :
  i < numElements (getType val) →
  getSubWhatever val i s
  = Ok (accessorValue (nextId s) val i, withOp s (accessorOp val i)).
Proof.
  unfold getSubWhatever, accessorValue, accessorOp, accessorName,
    elementTypeAt, numElements, createSubfieldOp, createSubindexOp.
  destruct (getType val) as [k w|es|t n]; intros Hi; [lia| |].
  - destruct (lookup_lt_is_Some_2 es i Hi) as [e He]. by rewrite He.
  - by rewrite bool_decide_eq_true_2.
Qed.

Lemma peelType_length ty fields :
  peelType ty [] false = (true, fields) → length fields = numElements ty.
Proof.
  unfold peelType. simpl. destruct ty as [k w|es|t n]; intros H;
    simplify_eq; simpl.
  - by rewrite length_imap.
  - by rewrite length_map, length_seq.
Qed.

Lemma peelType_field ty fields i field :
  peelType ty [] false = (true, fields) → fields !! i = Some field →
  index field = i ∧ type field = elementTypeAt ty i ∧
  match ty with
  | BundleType elements =>
      ∃ elt, elements !! i = Some elt ∧ isOutput field = isFlip elt ∧
             suffix field = "_" +:+ name elt
  | _ => isOutput field = false
  end.
Proof.
  unfold peelType. simpl. destruct ty as [k w|es|t n]; intros H Hi;
    simplify_eq; simpl in *.
  - rewrite list_lookup_imap in Hi.
    destruct (es !! i) as [e|] eqn:He; simplify_eq/=.
    split; [done|]. split; [done|]. eauto.
  - rewrite list_lookup_fmap in Hi.
    destruct (seq 0 n !! i) as [j|] eqn:Hj; simplify_eq/=.
    apply lookup_seq in Hj as [-> _]. done.
Qed.

Lemma expandConnect_emit_from connect nm src dest base :
  (∀ d x s, connect d x s
            = Ok ((), withOp s (mkOperation nm [d; x] [] [] noAttrs))) →
  ∀ fields k s,
    nextId s = base + 3 * k →
    k + length fields ≤ numElements (getType src) →
    k + length fields ≤ numElements (getType dest) →
    forEachM
      (λ field : nat * FlatBundleFieldEntry,
         src' ← getSubWhatever src field.1;
         dest' ← getSubWhatever dest field.1;
         if isOutput field.2 then connect src' dest' else connect dest' src')
      (imap (λ i f, (k + i, f)) fields) s
    = Ok ((), emit s (concat (imap (λ i f, perFieldConnect nm src dest base
                                             (k + i) f) fields))).
Proof.
  intros Hconnect fields. induction fields as [|f l IH]; intros k s Hn Hs Hd.
  - done.
  - rewrite !imap_cons. cbn [forEachM concat]. simpl in Hs, Hd.
    rewrite emit_app.
    rewrite (imap_ext _ (λ i f, (S k + i, f)))
      by (intros; simpl; f_equal; lia).
    rewrite (imap_ext (_ ∘ S) (λ i f, perFieldConnect nm src dest base
                                        (S k + i) f))
      by (intros; simpl; f_equal; lia).
    rewrite <-IH; [|simpl; lia..].
    unfold mbind at 1, M_bind at 1.
    unfold mbind at 1, M_bind at 1.
    rewrite getSubWhatever_accessor by (simpl; lia).
    unfold mbind at 1, M_bind at 1.
    rewrite getSubWhatever_accessor by (simpl; lia).
    cbn [fst snd]. rewrite Nat.add_0_r.
    assert (emit s (perFieldConnect nm src dest base k f)
            = withOp (withOp (withOp s (accessorOp src k)) (accessorOp dest k))
                (mkOperation nm
                   (if isOutput f
                    then [accessorValue (nextId s) src k;
                          accessorValue (S (nextId s)) dest k]
                    else [accessorValue (S (nextId s)) dest k;
                          accessorValue (nextId s) src k]) [] [] noAttrs))
      as ->.
    { unfold perFieldConnect, emit. simpl. rewrite Hn.
      by replace (S (base + 3 * k)) with (base + 3 * k + 1) by lia. }
    destruct (isOutput f); rewrite Hconnect; done.
Qed.

Lemma expandConnect_emit connect nm src dest fields s :
  (∀ d x s, connect d x s
            = Ok ((), withOp s (mkOperation nm [d; x] [] [] noAttrs))) →
  length fields ≤ numElements (getType src) →
  length fields ≤ numElements (getType dest) →
  expandConnect connect src dest fields s
  = Ok ((), emit s (concat (imap (perFieldConnect nm src dest (nextId s))
                              fields))).
Proof.
  intros Hconnect Hs Hd. unfold expandConnect.
  rewrite (imap_ext (λ i f, (i, f)) (λ i f, (0 + i, f))) by done.
  rewrite (expandConnect_emit_from connect nm src dest (nextId s));
    [done|done|lia|simpl; lia..].
Qed.

(** ** Write paths *)

Lemma AccessChain_deterministic store v path1 path2 :
  AccessChain store v path1 → AccessChain store v path2 → path1 = path2.
Proof.
  intros H1. revert path2.
  induction H1 as [v Hend|v id op v' path Hdef Hacc Hop H1 IH];
    intros path2 H2; inversion H2 as [? Hend2|? id2 op2 v2 p2 Hdef2 Hacc2 Hop2 H2'];
    subst; try done.
  - apply Hend in Hdef2. congruence.
  - apply Hend2 in Hdef. congruence.
  - simplify_eq. f_equal. by apply IH.
Qed.

Lemma AccessChain_suffix store v path1 id path2 :
  AccessChain store v (path1 ++ id :: path2) →
  ∃ op v', store !! id = Some op ∧ operands op !! 0 = Some v' ∧
           isAccessor (opName op) = true ∧ AccessChain store v' path2.
Proof.
  revert v. induction path1 as [|id1 path1 IH]; intros v H;
    inversion H as [|? ? op v' ? Hdef Hacc Hop Hrest]; subst.
  - exists op, v'. split; [|done]. unfold getDefiningOp in Hdef.
    destruct (valueDef v); [done|].
    destruct (store !! owner) eqn:?; simplify_eq/=. done.
  - by apply IH in Hrest.
Qed.

Lemma AccessChain_NoDup store v path :
  AccessChain store v path → NoDup path.
Proof.
  induction 1 as [v Hend|v id op v' path Hdef Hacc Hop Hchain IH];
    constructor; [|done].
  intros Hin. apply list_elem_of_split in Hin as (l1 & l2 & ->).
  pose proof (AccessChain_suffix _ _ _ _ _ Hchain)
    as (op' & v'' & Hop' & Hv'' & _ & Hchain').
  assert (op' = op) as ->.
  { unfold getDefiningOp in Hdef. destruct (valueDef v); [done|].
    destruct (store !! owner) eqn:?; simplify_eq/=. congruence. }
  assert (v'' = v') as -> by congruence.
  pose proof (AccessChain_deterministic _ _ _ _ Hchain Hchain') as Heq.
  apply (f_equal length) in Heq. rewrite length_app in Heq. simpl in Heq. lia.
Qed.

Lemma AccessChain_live store v path id :
  AccessChain store v path → id ∈ path → is_Some (store !! id).
Proof.
  intros Hchain Hin. apply list_elem_of_split in Hin as (l1 & l2 & ->).
  apply AccessChain_suffix in Hchain as (op & ? & -> & _). eauto.
Qed.

Lemma AccessChain_length store v path :
  AccessChain store v path → length path ≤ size store.
Proof.
  intros Hchain. rewrite <-size_dom.
  rewrite <-(size_list_to_set (C:=gset nat) path)
    by by eapply AccessChain_NoDup.
  apply subseteq_size. intros id Hin. apply elem_of_list_to_set in Hin.
  apply elem_of_dom. by eapply AccessChain_live.
Qed.

Lemma collectAccessors_chain fuel v path s :
  AccessChain (ops s) v path → length path ≤ fuel →
  collectAccessors fuel v s = Ok (path, s).
Proof.
  intros Hchain. revert fuel.
  induction Hchain as [v Hend|v id op v' path Hdef Hacc Hop Hchain IH];
    intros fuel Hfuel.
  - destruct fuel; simpl; unfold mbind, M_bind, getState;
      (destruct (getDefiningOp (ops s) v) as [[id op]|] eqn:Hdef; [|done]);
      by rewrite (Hend _ _ eq_refl).
  - destruct fuel as [|fuel]; [simpl in Hfuel; lia|].
    simpl. unfold mbind at 1, M_bind at 1, getState. rewrite Hdef, Hacc.
    unfold mbind at 1, M_bind at 1, getOperand. rewrite Hop. simpl.
    unfold mbind at 1, M_bind at 1. rewrite IH by (simpl in Hfuel; lia).
    done.
Qed.

Lemma isNotSubAccess_static s id op :
  ops s !! id = Some op → staticAccess (ops s) id →
  isNotSubAccess op s = Ok (true, s).
Proof.
  intros Hop (op' & Hop' & Hstatic). simplify_eq.
  unfold isNotSubAccess. destruct (opName op); try done.
  destruct Hstatic as (input & idx & elt & n & Hin & Hidx & [c Hc] & Hty & Hn).
  unfold mbind, M_bind, getState, getOperand. rewrite Hidx. simpl.
  rewrite Hc, Hin. simpl. rewrite Hty. simpl.
  by rewrite bool_decide_eq_true_2.
Qed.

Lemma isNotSubAccess_dynamic s id op input idx elt n :
  ops s !! id = Some op → dynamicAccess (ops s) id input idx elt n →
  isNotSubAccess op s = Ok (false, s).
Proof.
  intros Hop (op' & Hop' & Hname & Hin & Hidx & Hty & Hdyn). simplify_eq.
  unfold isNotSubAccess. rewrite Hname.
  unfold mbind, M_bind, getState, getOperand. rewrite Hidx. simpl.
  destruct Hdyn as [-> | ->]; [done|].
  destruct (definedByConstant (ops s) idx); [|done].
  rewrite Hin. simpl. rewrite Hty. done.
Qed.

Lemma trimToSubaccess_static s reversed :
  Forall (staticAccess (ops s)) reversed →
  trimToSubaccess reversed s = Ok ([], s).
Proof.
  induction 1 as [|id l Hstatic Hl IH]; [done|]. simpl.
  destruct Hstatic as (op & Hop & Hstatic).
  unfold mbind at 1, M_bind at 1, getOp. rewrite Hop.
  unfold mbind at 1, M_bind at 1.
  rewrite (isNotSubAccess_static s id op) by (done || by exists op). done.
Qed.

Lemma trimToSubaccess_dynamic s above id below input idx elt n :
  Forall (staticAccess (ops s)) above →
  dynamicAccess (ops s) id input idx elt n →
  trimToSubaccess (above ++ id :: below) s = Ok (id :: below, s).
Proof.
  intros Habove Hdyn. induction Habove as [|id' l Hstatic Hl IH]; simpl.
  - pose proof Hdyn as (op & Hop & _).
    unfold mbind at 1, M_bind at 1, getOp. rewrite Hop.
    unfold mbind at 1, M_bind at 1.
    by rewrite (isNotSubAccess_dynamic s id op input idx elt n).
  - destruct Hstatic as (op & Hop & Hstatic).
    unfold mbind at 1, M_bind at 1, getOp. rewrite Hop.
    unfold mbind at 1, M_bind at 1.
    rewrite (isNotSubAccess_static s id' op) by (done || by exists op). done.
Qed.

(** A destination whose accessors are all static has no write path
    through a subaccess. *)
Lemma getSAWritePath_static s op dest path :
  operands op !! 0 = Some dest →
  AccessChain (ops s) dest path → Forall (staticAccess (ops s)) path →
  getSAWritePath op s = Ok ([], s).
Proof.
  intros Hdest Hchain Hstatic. unfold getSAWritePath.
  unfold mbind at 1, M_bind at 1, getOperand. rewrite Hdest. simpl.
  unfold mbind at 1, M_bind at 1, getState.
  unfold mbind at 1, M_bind at 1.
  rewrite (collectAccessors_chain _ _ path)
    by (done || by eapply AccessChain_length).
  unfold mbind at 1, M_bind at 1.
  rewrite trimToSubaccess_static by by apply Forall_rev. done.
Qed.

(** A destination that goes through the dynamic access [saoId], with
    static accessors only above it, has the write path that ends at
    [saoId]. *)
Lemma getSAWritePath_dynamic s op dest below saoId above input idx elt n :
  operands op !! 0 = Some dest →
  AccessChain (ops s) dest (below ++ saoId :: above) →
  dynamicAccess (ops s) saoId input idx elt n →
  Forall (staticAccess (ops s)) above →
  getSAWritePath op s = Ok (below ++ [saoId], s).
Proof.
  intros Hdest Hchain Hdyn Hstatic. unfold getSAWritePath.
  unfold mbind at 1, M_bind at 1, getOperand. rewrite Hdest. simpl.
  unfold mbind at 1, M_bind at 1, getState.
  unfold mbind at 1, M_bind at 1.
  rewrite (collectAccessors_chain _ _ (below ++ saoId :: above))
    by (done || by eapply AccessChain_length).
  unfold mbind at 1, M_bind at 1. cbn beta iota.
  rewrite rev_app_distr. simpl. rewrite <-app_assoc. simpl.
  rewrite (trimToSubaccess_dynamic s (rev above) saoId (rev below) input idx
             elt n) by (done || by apply Forall_rev).
  simpl. by rewrite rev_involutive.
Qed.

Lemma emit_setInserted_ops s l created :
  ops (emit (setInserted s l) created) = ops (emit s created) ∧
  nextId (emit (setInserted s l) created) = nextId (emit s created) ∧
  visitor (emit (setInserted s l) created) = visitor (emit s created).
Proof.
  revert s l. induction created as [|op c IH]; intros s l; [done|].
  simpl. apply (IH (withOp s op) (l ++ [nextId s])).
Qed.

Lemma concat_imap_lookup {A B} (f : nat → A → list B) (l : list A) n i j x :
  (∀ i x, length (f i x) = n) → l !! i = Some x → j < n →
  concat (imap f l) !! (n * i + j) = f i x !! j.
Proof.
  intros Hlen. revert f Hlen i.
  induction l as [|y l IH]; intros f Hlen i Hi Hj; [done|].
  rewrite imap_cons. simpl. destruct i as [|i]; simpl in *.
  - simplify_eq. rewrite Nat.mul_0_r. simpl.
    rewrite lookup_app_l by (rewrite Hlen; lia). done.
  - rewrite lookup_app_r by (rewrite Hlen; lia). rewrite Hlen.
    replace (n * S i + j - n) with (n * i + j) by lia.
    apply (IH (f ∘ S)); [intros; apply Hlen|done|done].
Qed.

Lemma concat_imap_length {A B} (f : nat → A → list B) (l : list A) n :
  (∀ i x, length (f i x) = n) → length (concat (imap f l)) = n * length l.
Proof.
  intros Hlen. revert f Hlen. induction l as [|y l IH]; intros f Hlen.
  - simpl. lia.
  - rewrite imap_cons. simpl. rewrite length_app, Hlen, (IH (f ∘ S)); [lia|].
    intros. apply Hlen.
Qed.

Lemma processSAPath_static s opId op dest path :
  ops s !! opId = Some op → operands op !! 0 = Some dest →
  AccessChain (ops s) dest path → Forall (staticAccess (ops s)) path →
  processSAPath opId s = Ok (false, s).
Proof.
  intros Hop Hdest Hchain Hstatic. unfold processSAPath.
  unfold mbind at 1, M_bind at 1, getOp. rewrite Hop.
  unfold mbind at 1, M_bind at 1.
  by rewrite (getSAWritePath_static s op dest path).
Qed.

Lemma emitConnect_withOp d x s :
  emitConnect d x s
  = Ok ((), withOp s (mkOperation ConnectOp [d; x] [] [] noAttrs)).
Proof. done. Qed.

Lemma createStrictConnectOp_withOp d x s :
  createStrictConnectOp d x s
  = Ok ((), withOp s (mkOperation StrictConnectOp [d; x] [] [] noAttrs)).
Proof. done. Qed.

(** The visit of a connect whose destination goes through static
    accessors only: the operations of [perFieldConnect] are created. *)
Lemma dispatch_connect_emit lb opts module s opId op dest src path fields :
  ops s !! opId = Some op →
  opName op = ConnectOp ∨ opName op = StrictConnectOp →
  operands op = [dest; src] →
  AccessChain (ops s) dest path → Forall (staticAccess (ops s)) path →
  peelType (getType dest) [] false = (true, fields) →
  length fields ≤ numElements (getType src) →
  dispatchVisitor lb opts module opId s
  = Ok (true,
        emit s (concat (imap (perFieldConnect (opName op) src dest (nextId s))
                          fields))).
Proof.
  intros Hop Hname Hoperands Hchain Hstatic Hpeel Hsrc.
  pose proof (peelType_length _ _ Hpeel) as Hlen.
  assert (processSAPath opId s = Ok (false, s)) as Hsa.
  { eapply processSAPath_static; [done| |done..]. by rewrite Hoperands. }
  unfold dispatchVisitor.
  unfold mbind at 1, M_bind at 1, getOp. rewrite Hop.
  destruct Hname as [Hname|Hname]; rewrite Hname.
  - unfold visitStmt_ConnectOp, mbind, M_bind, mret, M_ret.
    rewrite Hsa. cbn beta iota. unfold getOp. rewrite Hop.
    unfold getOperand. rewrite Hoperands. simpl. rewrite Hpeel. simpl.
    rewrite (expandConnect_emit _ ConnectOp)
      by (apply emitConnect_withOp || lia). done.
  - unfold visitStmt_StrictConnectOp, mbind, M_bind, mret, M_ret.
    rewrite Hsa. cbn beta iota. unfold getOp. rewrite Hop.
    unfold getOperand. rewrite Hoperands. simpl. rewrite Hpeel. simpl.
    rewrite (expandConnect_emit _ StrictConnectOp)
      by (apply createStrictConnectOp_withOp || lia). done.
Qed.

Lemma perFieldConnect_length connect src dest base i field :
  length (perFieldConnect connect src dest base i field) = 3.
Proof. done. Qed.

(** C1 (amended): for every connect statement (strict or not) whose
    destination type peels into the fields [f_0 .. f_(n-1)] and whose
    destination goes through static accessors only, the walk deletes the
    connect and emits for every field, in order, the sub-element of the
    source, the sub-element of the destination and one connect between
    the two (a strict connect for a strict connect, the connect that
    [emitConnect] emits otherwise), with source and destination swapped
    exactly for the fields whose polarity flag [isOutput] is set: [n]
    per-field connects in all.  The connect of field [i] is between
    values of the type of [f_i], so it is ground-level exactly when that
    field is of ground type. *)
Theorem connect_lowered_per_field
    (lowerBlock : list nat → M (list nat)) (opts : LowerTypesOptions)
    (module : string) (s : IRState) (opId : nat) (op : Operation)
    (dest src : Value) (path : list nat)
    (fields : list FlatBundleFieldEntry) :
  ops s !! opId = Some op →
  opName op = ConnectOp ∨ opName op = StrictConnectOp →
  operands op = [dest; src] →
  AccessChain (ops s) dest path → Forall (staticAccess (ops s)) path →
  peelType (getType dest) [] false = (true, fields) →
  length fields ≤ numElements (getType src) →
  opId < nextId s →
  ∃ s',
    lowerOp lowerBlock opts module opId s
    = Ok ((true, seq (nextId s) (3 * length fields)), s') ∧
    ops s' !! opId = None ∧
    ∀ i field, fields !! i = Some field →
      let subSrc := accessorValue (nextId s + 3 * i) src i in
      let subDest := accessorValue (nextId s + 3 * i + 1) dest i in
      ops s' !! (nextId s + 3 * i) = Some (accessorOp src i) ∧
      ops s' !! (nextId s + 3 * i + 1) = Some (accessorOp dest i) ∧
      ops s' !! (nextId s + 3 * i + 2)
      = Some (mkOperation (opName op)
                (if isOutput field then [subSrc; subDest]
                 else [subDest; subSrc]) [] [] noAttrs) ∧
      getType subDest = type field ∧
      (isGround (type field) = true ↔ isGround (getType subDest) = true).
Proof.
  intros Hop Hname Hoperands Hchain Hstatic Hpeel Hsrc Hid.
  set (created := concat (imap (perFieldConnect (opName op) src dest
                                  (nextId s)) fields)).
  assert (length created = 3 * length fields) as Hcreated
    by (apply concat_imap_length; intros; apply perFieldConnect_length).
  pose proof (emit_setInserted_ops s [] created) as (Hops & Hnext & Hvis).
  eexists. split; [|split].
  - unfold lowerOp, mbind, M_bind, mret, M_ret, setInsertionPoint.
    rewrite (dispatch_connect_emit _ _ _ _ _ op dest src path fields)
      by done.
    unfold getState, eraseOp. simpl.
    fold created. rewrite emit_inserted. simpl.
    rewrite Hcreated. reflexivity.
  - simpl. apply lookup_delete_eq.
  - intros i field Hfield. cbv zeta. cbn [ops].
    fold created. rewrite Hops.
    assert (∀ j opj, perFieldConnect (opName op) src dest (nextId s) i field
                     !! j = Some opj →
                     delete opId (ops (emit s created))
                     !! (nextId s + 3 * i + j) = Some opj) as Hnew.
    { intros j opj Hj. rewrite lookup_delete_ne by lia.
      rewrite <-Nat.add_assoc. apply emit_lookup_new.
      pose proof (lookup_lt_Some _ _ _ Hj) as Hlt.
      rewrite perFieldConnect_length in Hlt.
      unfold created.
      by rewrite (concat_imap_lookup _ _ 3 i j field)
        by (done || intros; apply perFieldConnect_length). }
    pose proof (peelType_field _ _ _ _ Hpeel Hfield) as (_ & Hty & _).
    split; [|split; [|split; [|split]]].
    + rewrite <-(Nat.add_0_r (nextId s + 3 * i)). by apply Hnew.
    + by apply Hnew.
    + by apply Hnew.
    + done.
    + by rewrite Hty.
Qed.

(** C1 (counterexample): the type [{a : {x : UInt<1>, y : UInt<1>}}]
    peels into one field, [a].  The visit of the strict connect of two
    wires of that type emits one connect, between values of the bundle
    type [{x : UInt<1>, y : UInt<1>}], which is not ground-level; and
    the walk over the whole block, which visits the emitted connect in
    turn, ends with two ground-level connects (of the lowered wires
    [w_a_x], [v_a_x] and [w_a_y], [v_a_y]), not one. *)
Lemma strict_connect_of_nested_bundle_not_ground :
  let s := exampleConnectStore StrictConnectOp exampleNested in
  let ground id := mkValue (OpResult id 0) uint1 in
  length (peelType exampleNested [] false).2 = 1 ∧
  (∃ s',
     lowerOp noLowerBlock exampleOptions "Top" 2 s
     = Ok ((true, [3; 4; 5]), s') ∧
     ops s' !! 5
     = Some (mkOperation StrictConnectOp
               [mkValue (OpResult 4 0) exampleInner;
                mkValue (OpResult 3 0) exampleInner] [] [] noAttrs) ∧
     isGround exampleInner = false) ∧
  (∃ s',
     lowerBlock 100 exampleOptions "Top" [0; 1; 2] s
     = Ok ([16; 17; 13; 14; 8; 11], s') ∧
     (opName <$> ops s' !! 16) = Some WireOp ∧
     (opName <$> ops s' !! 17) = Some WireOp ∧
     (opName <$> ops s' !! 13) = Some WireOp ∧
     (opName <$> ops s' !! 14) = Some WireOp ∧
     ops s' !! 8
     = Some (mkOperation StrictConnectOp [ground 16; ground 13] [] []
               noAttrs) ∧
     ops s' !! 11
     = Some (mkOperation StrictConnectOp [ground 17; ground 14] [] []
               noAttrs)).
Proof.
  intros s ground. split; [reflexivity|]. split.
  - eexists. split; [vm_compute; reflexivity|].
    split; [vm_compute; reflexivity|reflexivity].
  - eexists. split; [vm_compute; reflexivity|].
    repeat split; vm_compute; reflexivity.
Qed.

Lemma connect_lowered_per_field_witness :
  ∃ s',
    lowerOp noLowerBlock exampleOptions "Top" 2
      (exampleConnectStore ConnectOp exampleBundle)
    = Ok ((true, [3; 4; 5; 6; 7; 8]), s') ∧
    ops s' !! 2 = None ∧
    ops s' !! 5
    = Some (mkOperation ConnectOp
              [mkValue (OpResult 3 0) uint1; mkValue (OpResult 4 0) uint1]
              [] [] noAttrs) ∧
    ops s' !! 8
    = Some (mkOperation ConnectOp
              [mkValue (OpResult 7 0) uint1; mkValue (OpResult 6 0) uint1]
              [] [] noAttrs).
Proof.
  pose (s := exampleConnectStore ConnectOp exampleBundle).
  pose (w := mkValue (OpResult 0 0) exampleBundle).
  pose (v := mkValue (OpResult 1 0) exampleBundle).
  destruct (connect_lowered_per_field noLowerBlock exampleOptions "Top" s 2
              (mkOperation ConnectOp [w; v] [] [] noAttrs) w v []
              (peelType exampleBundle [] false).2)
    as (s' & Hrun & Herased & Hfields).
  - reflexivity.
  - by left.
  - reflexivity.
  - apply AccessChain_end. intros id op Hdef. vm_compute in Hdef.
    by inversion Hdef.
  - constructor.
  - reflexivity.
  - simpl. lia.
  - simpl. lia.
  - exists s'. split; [exact Hrun|]. split; [exact Herased|].
    destruct (Hfields 0 _ eq_refl) as (_ & _ & Ha & _).
    destruct (Hfields 1 _ eq_refl) as (_ & _ & Hb & _).
    split; [exact Ha|exact Hb].
Defined.

Lemma bind_Ok_inv {A B} (m : M A) (f : A → M B) s b s' :
  (m ≫= f) s = Ok (b, s') →
  ∃ a s1, m s = Ok (a, s1) ∧ f a s1 = Ok (b, s').
Proof.
  unfold mbind, M_bind. destruct (m s) as [[a s1]| |]; [eauto|done..].
Qed.

Lemma ret_Ok_inv {A} (a b : A) s s' :
  (mret a : M A) s = Ok (b, s') → b = a ∧ s' = s.
Proof. intros H. by inversion H. Qed.

Lemma processSAPath_not_expanded opId s s' :
  processSAPath opId s = Ok (false, s') → s' = s.
Proof.
  unfold processSAPath. intros H.
  apply bind_Ok_inv in H as (op & s1 & Hop & H).
  apply readOnly_getOp in Hop as ->.
  apply bind_Ok_inv in H as (writePath & s1 & Hpath & H).
  apply readOnly_getSAWritePath in Hpath as ->.
  destruct writePath; [by apply ret_Ok_inv in H as [_ ->]|].
  apply bind_Ok_inv in H as (? & ? & _ & H).
  apply bind_Ok_inv in H as (? & ? & _ & H).
  apply bind_Ok_inv in H as (? & ? & _ & H).
  by apply ret_Ok_inv in H as [? _].
Qed.

Lemma visit_connect_removes (connect : Value → Value → M unit) opId s op
    dest src removeOp s' :
  ops s !! opId = Some op → operands op = [dest; src] →
  isGround (getType dest) = false →
  (expanded ← processSAPath opId;
   if (expanded : bool) then mret true
   else
     op ← getOp opId;
     opDest ← getOperand op 0;
     opSrc ← getOperand op 1;
     let '(peeled, fields) := peelType (getType opDest) [] false in
     if negb peeled then mret false
     else expandConnect connect opSrc opDest fields;; mret true) s
  = Ok (removeOp, s') →
  removeOp = true.
Proof.
  intros Hop Hoperands Hagg H.
  apply bind_Ok_inv in H as ([|] & s1 & Hsa & H).
  { by apply ret_Ok_inv in H as [-> _]. }
  apply processSAPath_not_expanded in Hsa as ->.
  unfold mbind at 1, M_bind at 1, getOp in H. rewrite Hop in H.
  unfold mbind at 1, M_bind at 1, getOperand in H. rewrite Hoperands in H.
  simpl in H.
  destruct (peelType (getType dest) [] false) as [peeled fields] eqn:Hpeel.
  destruct peeled; simpl in H.
  - apply bind_Ok_inv in H as (? & ? & _ & H).
    apply bind_Ok_inv in H as (? & ? & _ & H).
    by apply ret_Ok_inv in H as [-> _].
  - assert ((peelType (getType dest) [] false).1 = false) as Hno
      by by rewrite Hpeel.
    apply peelType_intact in Hno as [?|[? _]]; congruence.
Qed.

(** ** The walk over a block with connects to lower *)

Lemma lowerOp_erases lb opts module opId s s1 :
  dispatchVisitor lb opts module opId (setInserted s []) = Ok (true, s1) →
  lowerOp lb opts module opId s
  = Ok ((true, inserted s1), afterErase s1 opId).
Proof.
  intros Hvisit. unfold lowerOp, mbind, M_bind, mret, M_ret, setInsertionPoint.
  rewrite Hvisit. done.
Qed.

Lemma typeNodes_pos ty : 0 < typeNodes ty.
Proof. destruct ty; simpl; lia. Qed.

Lemma lowerProducer_stays opts module opId clone s op ty :
  ops s !! opId = Some op → resultTypes op !! 0 = Some ty →
  intactType opts ty →
  lowerProducer opts module opId clone s = Ok (false, s).
Proof.
  intros Hop Hty Hintact. unfold lowerProducer.
  unfold mbind at 1, M_bind at 1, getOp. rewrite Hop, Hty.
  apply (peelType_intact ty [] (preserveAggregate opts)) in Hintact.
  destruct (peelType ty [] (preserveAggregate opts)) as [peeled fields].
  simpl in Hintact. by subst peeled.
Qed.

Lemma visit_ground_connect (connect : Value → Value → M unit) opId s op
    dest src path :
  ops s !! opId = Some op → operands op = [dest; src] →
  AccessChain (ops s) dest path → Forall (staticAccess (ops s)) path →
  isGround (getType dest) = true →
  (expanded ← processSAPath opId;
   if (expanded : bool) then mret true
   else
     op ← getOp opId;
     opDest ← getOperand op 0;
     opSrc ← getOperand op 1;
     let '(peeled, fields) := peelType (getType opDest) [] false in
     if negb peeled then mret false
     else expandConnect connect opSrc opDest fields;; mret true) s
  = Ok (false, s).
Proof.
  intros Hop Hoperands Hchain Hstatic Hground.
  unfold mbind at 1, M_bind at 1.
  rewrite (processSAPath_static s opId op dest path)
    by (done || by rewrite Hoperands).
  unfold mbind at 1, M_bind at 1, getOp. rewrite Hop.
  unfold mbind at 1, M_bind at 1, getOperand. rewrite Hoperands. simpl.
  by destruct (getType dest).
Qed.

Lemma dispatchVisitor_settled lb opts module id s :
  settled opts (ops s) id →
  dispatchVisitor lb opts module id s = Ok (false, s).
Proof.
  intros (op & Hop & Hkind). unfold dispatchVisitor.
  unfold mbind at 1, M_bind at 1, getOp. rewrite Hop.
  destruct (opName op); try done;
    try (destruct Hkind as (ty & Hty & Hintact);
         by eapply lowerProducer_stays).
  - destruct Hkind as (dest & src & path & Hoperands & Hchain & Hstatic & Hg).
    by eapply (visit_ground_connect emitConnect).
  - destruct Hkind as (dest & src & path & Hoperands & Hchain & Hstatic & Hg).
    by eapply (visit_ground_connect createStrictConnectOp).
Qed.

Lemma lowerOp_settled lb opts module id s :
  settled opts (ops s) id →
  lowerOp lb opts module id s = Ok ((false, []), setInserted s []).
Proof.
  intros Hsettled. unfold lowerOp, mbind, M_bind, setInsertionPoint.
  rewrite (dispatchVisitor_settled lb opts module id (setInserted s []))
    by done.
  done.
Qed.

Lemma lowerBlockFrom_visit fuel opts module iop rest done s op :
  ops s !! iop = Some op →
  lowerBlockFrom (S fuel) opts module (iop :: rest) done s
  = ('(removeOp, new) ←
       lowerOp (λ block, lowerBlockFrom fuel opts module (rev block) [])
         opts module iop;
     lowerBlockFrom fuel opts module (rev new ++ rest)
       (if (removeOp : bool) then done else iop :: done)) s.
Proof.
  intros Hop. cbn [lowerBlockFrom]. unfold mbind at 1, M_bind at 1, getState.
  by rewrite Hop.
Qed.

Lemma rev_reverse {A} (l : list A) : rev l = reverse l.
Proof. by rewrite rev_alt. Qed.

Lemma sum_fields_bundle (g : FIRRTLType → nat)
    (entry : nat → BundleElement FIRRTLType → FlatBundleFieldEntry) elts :
  (∀ i elt, type (entry i elt) = eltType elt) →
  sum_list_with (g ∘ type) (imap entry elts)
  = (fix go (elts : list (BundleElement FIRRTLType)) : nat :=
       match elts with
       | [] => 0
       | elt :: rest => g (eltType elt) + go rest
       end) elts.
Proof.
  revert entry. induction elts as [|elt elts IH]; intros entry Hentry; [done|].
  rewrite imap_cons. cbn [sum_list_with].
  rewrite IH by (intros i e; apply Hentry).
  unfold compose at 1. by rewrite Hentry.
Qed.

Lemma sum_fields_vector (g : FIRRTLType → nat)
    (entry : nat → FlatBundleFieldEntry) elementType (indices : list nat) :
  (∀ i, type (entry i) = elementType) →
  sum_list_with (g ∘ type) (map entry indices)
  = length indices * g elementType.
Proof.
  intros Hentry. induction indices as [|i indices IH]; [done|].
  rewrite map_cons. cbn [sum_list_with]. rewrite IH.
  unfold compose at 1. simpl. by rewrite Hentry.
Qed.

Lemma peelType_typeNodes ty fields :
  peelType ty [] false = (true, fields) →
  S (sum_list_with (typeNodes ∘ type) fields) = typeNodes ty.
Proof.
  unfold peelType. simpl.
  destruct ty as [kind width|elements|elementType n]; intros H;
    simplify_eq; cbn [app].
  - by rewrite sum_fields_bundle by done.
  - rewrite (sum_fields_vector _ _ elementType) by done.
    by rewrite length_seq.
Qed.

Lemma peelType_typeLeaves ty fields :
  peelType ty [] false = (true, fields) →
  sum_list_with (typeLeaves ∘ type) fields = typeLeaves ty.
Proof.
  unfold peelType. simpl.
  destruct ty as [kind width|elements|elementType n]; intros H;
    simplify_eq; cbn [app].
  - by rewrite sum_fields_bundle by done.
  - rewrite (sum_fields_vector _ _ elementType) by done.
    by rewrite length_seq.
Qed.
Lemma isAccessor_not_connect op :
  isAccessor (opName op) = true → isConnect op = false.
Proof. unfold isConnect. by destruct (opName op). Qed.

Lemma valueBelow_mono bound bound' v :
  bound ≤ bound' → valueBelow bound v → valueBelow bound' v.
Proof. unfold valueBelow. destruct (valueDef v); [done|lia]. Qed.

Lemma extends_kept s store' id op :
  wfIds s → extends s store' → ops s !! id = Some op →
  isConnect op = false → store' !! id = Some op.
Proof.
  intros Hwf Hext Hop Hno.
  destruct (Hext id (Hwf _ _ Hop)) as [->|(_ & op' & Hop' & Hc)]; [done|].
  congruence.
Qed.

Lemma getDefiningOp_Some store v id op :
  getDefiningOp store v = Some (id, op) ↔
  (∃ r, valueDef v = OpResult id r) ∧ store !! id = Some op.
Proof.
  unfold getDefiningOp. destruct (valueDef v) as [|owner r].
  - split; [done|]. by intros [[? ?] _].
  - split.
    + destruct (store !! owner) as [op'|] eqn:Hop; simpl; [|done].
      intros ?; simplify_eq. eauto.
    + intros [[r' ?] Hop]; simplify_eq. by rewrite Hop.
Qed.

Lemma getDefiningOp_extends s store' v id op :
  wfIds s → extends s store' →
  getDefiningOp (ops s) v = Some (id, op) → isConnect op = false →
  getDefiningOp store' v = Some (id, op).
Proof.
  intros Hwf Hext Hdef Hno. apply getDefiningOp_Some in Hdef as [Hv Hop].
  apply getDefiningOp_Some. split; [done|]. by eapply extends_kept.
Qed.

Lemma AccessChain_extends s store' v path :
  wfIds s → wfOperands s → extends s store' →
  valueBelow (nextId s) v →
  AccessChain (ops s) v path → AccessChain store' v path.
Proof.
  intros Hwf Hwo Hext Hv Hchain.
  induction Hchain as [v Hend|v id op v' path Hdef Hacc Hop Hchain IH].
  - apply AccessChain_end. intros id op Hdef.
    apply getDefiningOp_Some in Hdef as [[r Hr] Hop].
    unfold valueBelow in Hv. rewrite Hr in Hv.
    destruct (Hext id Hv) as [Heq|[Hnone _]]; [|congruence].
    apply (Hend id op). apply getDefiningOp_Some. split; [eauto|congruence].
  - eapply AccessChain_step; [|done|done|].
    + eapply getDefiningOp_extends; [done..|].
      by apply isAccessor_not_connect.
    + apply IH. apply getDefiningOp_Some in Hdef as [_ Hid].
      apply Hwo in Hid. simpl in Hid.
      by eapply (Forall_lookup_1 _ _ 0).
Qed.

Lemma definedByConstant_extends s store' idx c :
  wfIds s → extends s store' →
  definedByConstant (ops s) idx = Some c →
  definedByConstant store' idx = Some c.
Proof.
  intros Hwf Hext. unfold definedByConstant.
  destruct (getDefiningOp (ops s) idx) as [[id op]|] eqn:Hdef; [|done].
  destruct (opName op) eqn:Hname; try done. intros ?; simplify_eq.
  rewrite (getDefiningOp_extends s store' idx id op) by
    (done || by unfold isConnect; rewrite Hname).
  by rewrite Hname.
Qed.

Lemma staticAccess_extends s store' id :
  wfIds s → extends s store' →
  staticAccess (ops s) id → staticAccess store' id.
Proof.
  intros Hwf Hext (op & Hop & Hkind). exists op.
  assert (isConnect op = false) as Hno
    by (unfold isConnect; by destruct (opName op)).
  split; [by eapply extends_kept|].
  destruct (opName op); try done.
  destruct Hkind as (input & idx & elt & n & Hin & Hidx & [c Hc] & Hty & Hn).
  exists input, idx, elt, n. split; [done|]. split; [done|].
  split; [|done]. exists c. by eapply definedByConstant_extends.
Qed.

Lemma staticOperand_extends s store' v :
  wfIds s → wfOperands s → extends s store' →
  valueBelow (nextId s) v →
  staticOperand (ops s) v → staticOperand store' v.
Proof.
  intros Hwf Hwo Hext Hv (path & Hchain & Hstatic). exists path. split.
  - by eapply AccessChain_extends.
  - eapply Forall_impl; [exact Hstatic|]. intros id Hid.
    by eapply staticAccess_extends.
Qed.

Lemma settled_extends opts s store' id :
  wfIds s → wfOperands s → extends s store' →
  store' !! id = ops s !! id →
  settled opts (ops s) id → settled opts store' id.
Proof.
  intros Hwf Hwo Hext Hsame (op & Hop & Hkind). exists op.
  split; [congruence|].
  destruct (opName op); try done.
  - destruct Hkind as (dest & src & path & Hoperands & Hchain & Hstatic & Hg).
    exists dest, src, path. split; [done|].
    assert (valueBelow (nextId s) dest) as Hdest.
    { apply Hwo in Hop. simpl in Hop. rewrite Hoperands in Hop.
      by apply Forall_cons in Hop as [? _]. }
    split; [by eapply AccessChain_extends|]. split; [|done].
    eapply Forall_impl; [exact Hstatic|]. intros k Hk.
    by eapply staticAccess_extends.
  - destruct Hkind as (dest & src & path & Hoperands & Hchain & Hstatic & Hg).
    exists dest, src, path. split; [done|].
    assert (valueBelow (nextId s) dest) as Hdest.
    { apply Hwo in Hop. simpl in Hop. rewrite Hoperands in Hop.
      by apply Forall_cons in Hop as [? _]. }
    split; [by eapply AccessChain_extends|]. split; [|done].
    eapply Forall_impl; [exact Hstatic|]. intros k Hk.
    by eapply staticAccess_extends.
Qed.

Lemma expandableConnect_extends s store' id :
  wfIds s → wfOperands s → extends s store' →
  store' !! id = ops s !! id →
  expandableConnect (ops s) id → expandableConnect store' id.
Proof.
  intros Hwf Hwo Hext Hsame
    (op & dest & src & Hop & Hc & Hoperands & Hty & Hdest & Hsrc).
  exists op, dest, src. split; [congruence|]. split; [done|].
  split; [done|]. split; [done|].
  pose proof (Hwo _ _ Hop) as Hbelow. simpl in Hbelow.
  rewrite Hoperands in Hbelow.
  apply Forall_cons in Hbelow as [Hd Hbelow].
  apply Forall_cons in Hbelow as [Hs _].
  split; by eapply staticOperand_extends.
Qed.

Lemma walkable_extends opts s store' id :
  wfIds s → wfOperands s → extends s store' →
  store' !! id = ops s !! id →
  walkable opts (ops s) id → walkable opts store' id.
Proof.
  intros Hwf Hwo Hext Hsame [Hsettled|Hexp].
  - left. by eapply settled_extends.
  - right. by eapply expandableConnect_extends.
Qed.

Lemma connectType_same store store' id :
  store' !! id = store !! id → connectType store' id = connectType store id.
Proof. unfold connectType. by intros ->. Qed.
Lemma perFieldConnects_length nm src dest base fields :
  length (perFieldConnects nm src dest base fields) = 3 * length fields.
Proof. apply concat_imap_length. intros. apply perFieldConnect_length. Qed.

Lemma perFieldConnects_lookup nm src dest base fields i field j :
  fields !! i = Some field → j < 3 →
  perFieldConnects nm src dest base fields !! (3 * i + j)
  = perFieldConnect nm src dest base i field !! j.
Proof.
  intros Hfield Hj. unfold perFieldConnects.
  by rewrite (concat_imap_lookup _ _ 3 i j field)
    by (done || intros; apply perFieldConnect_length).
Qed.

Lemma perFieldConnects_lookup_inv nm src dest base fields k op :
  perFieldConnects nm src dest base fields !! k = Some op →
  ∃ i field j, fields !! i = Some field ∧ j < 3 ∧ k = 3 * i + j ∧
               perFieldConnect nm src dest base i field !! j = Some op.
Proof.
  intros Hk. pose proof (lookup_lt_Some _ _ _ Hk) as Hlt.
  rewrite perFieldConnects_length in Hlt.
  assert (k `div` 3 < length fields) as Hi
    by (apply Nat.Div0.div_lt_upper_bound; lia).
  destruct (lookup_lt_is_Some_2 fields (k `div` 3) Hi) as [field Hfield].
  pose proof (Nat.mod_upper_bound k 3 ltac:(lia)) as Hj.
  pose proof (Nat.div_mod_eq k 3) as Hdiv.
  exists (k `div` 3), field, (k `mod` 3). split; [done|]. split; [done|].
  split; [done|].
  rewrite <-(perFieldConnects_lookup nm src dest base fields) by done.
  by rewrite <-Hdiv.
Qed.

Lemma lowerOp_connect lb opts module s opId op dest src path fields :
  ops s !! opId = Some op →
  opName op = ConnectOp ∨ opName op = StrictConnectOp →
  operands op = [dest; src] →
  AccessChain (ops s) dest path → Forall (staticAccess (ops s)) path →
  peelType (getType dest) [] false = (true, fields) →
  length fields ≤ numElements (getType src) →
  lowerOp lb opts module opId s
  = Ok ((true, seq (nextId s) (3 * length fields)),
        afterErase
          (emit s (perFieldConnects (opName op) src dest (nextId s) fields))
          opId).
Proof.
  intros Hop Hname Hoperands Hchain Hstatic Hpeel Hsrc.
  set (created := perFieldConnects (opName op) src dest (nextId s) fields).
  rewrite (lowerOp_erases _ _ _ _ _ (emit (setInserted s []) created)).
  - rewrite emit_inserted. simpl. unfold created.
    rewrite perFieldConnects_length. do 2 f_equal.
    destruct (emit_setInserted_ops s [] created) as (Hops & Hnext & Hvis).
    unfold afterErase. fold created. by rewrite Hops, Hnext, Hvis.
  - by rewrite (dispatch_connect_emit _ _ _ _ _ op dest src path fields).
Qed.

Lemma step_extends s created opId op :
  ops s !! opId = Some op → isConnect op = true →
  extends s (ops (afterErase (emit s created) opId)).
Proof.
  intros Hop Hc id Hid. unfold afterErase. cbn [ops].
  destruct (decide (id = opId)) as [->|Hne].
  - right. split; [apply lookup_delete_eq|eauto].
  - left. rewrite lookup_delete_ne by done. by apply emit_lookup_old.
Qed.

Lemma step_lookup_old s created opId id :
  id < nextId s → id ≠ opId →
  ops (afterErase (emit s created) opId) !! id = ops s !! id.
Proof.
  intros Hid Hne. unfold afterErase. cbn [ops].
  rewrite lookup_delete_ne by done. by apply emit_lookup_old.
Qed.

Lemma step_lookup_new s created opId j op' :
  opId < nextId s → created !! j = Some op' →
  ops (afterErase (emit s created) opId) !! (nextId s + j) = Some op'.
Proof.
  intros Hid Hj. unfold afterErase. cbn [ops].
  rewrite lookup_delete_ne by lia. by apply emit_lookup_new.
Qed.

Lemma step_wfIds s created opId :
  wfIds s → wfIds (afterErase (emit s created) opId).
Proof.
  intros Hwf id op Hop. unfold afterErase in *. cbn [ops nextId] in *.
  apply lookup_delete_Some in Hop as [_ Hop].
  by apply (emit_wfIds s created Hwf) in Hop.
Qed.

Lemma step_wfOperands s created opId :
  wfOperands s →
  Forall (λ op, Forall (valueBelow (nextId s + length created)) (operands op))
    created →
  wfOperands (afterErase (emit s created) opId).
Proof.
  intros Hwo Hcreated id op Hop. unfold afterErase in *.
  cbn [ops nextId] in *. rewrite emit_nextId.
  apply lookup_delete_Some in Hop as [_ Hop].
  apply emit_lookup_inv in Hop as [Hop|(j & -> & Hj)].
  - apply Hwo in Hop. simpl in Hop.
    eapply Forall_impl; [exact Hop|]. intros v.
    apply valueBelow_mono. lia.
  - by eapply (Forall_lookup_1 _ _ _ _ Hcreated).
Qed.

Lemma perFieldConnects_below nm src dest base fields bound :
  valueBelow bound src → valueBelow bound dest →
  base + 3 * length fields ≤ bound →
  Forall (λ op, Forall (valueBelow bound) (operands op))
    (perFieldConnects nm src dest base fields).
Proof.
  intros Hsrc Hdest Hbound. apply Forall_lookup. intros k op Hk.
  apply perFieldConnects_lookup_inv in Hk
    as (i & field & j & Hfield & Hj & -> & Hop).
  apply lookup_lt_Some in Hfield.
  destruct j as [|[|[|j]]]; [| | |lia]; simpl in Hop; simplify_eq; simpl.
  - by repeat constructor.
  - by repeat constructor.
  - destruct (isOutput field); repeat constructor;
      unfold valueBelow; simpl; lia.
Qed.

Lemma sum_seq3 {A} (g : nat → nat) (h : A → nat) (l : list A) : ∀ base,
  (∀ i x, l !! i = Some x →
          g (base + 3 * i) + g (base + 3 * i + 1) + g (base + 3 * i + 2)
          = h x) →
  sum_list_with g (seq base (3 * length l)) = sum_list_with h l.
Proof.
  induction l as [|x l IH]; intros base Hg; [done|].
  replace (3 * length (x :: l)) with (S (S (S (3 * length l))))
    by (simpl; lia).
  cbn [seq sum_list_with]. rewrite (IH (S (S (S base)))).
  - specialize (Hg 0 x eq_refl).
    replace (base + 3 * 0) with base in Hg by lia.
    replace (base + 1) with (S base) in Hg by lia.
    replace (base + 2) with (S (S base)) in Hg by lia. lia.
  - intros i y Hi. rewrite <-(Hg (S i) y Hi). f_equal; [f_equal|]; f_equal; lia.
Qed.
Lemma accessorOp_settled opts store id base i :
  store !! id = Some (accessorOp base i) → settled opts store id.
Proof.
  intros Hop. exists (accessorOp base i). split; [done|].
  unfold accessorOp, accessorName. simpl. by destruct (getType base).
Qed.

Lemma accessorValue_static store id base i :
  store !! id = Some (accessorOp base i) →
  staticOperand store base → staticOperand store (accessorValue id base i).
Proof.
  intros Hop (path & Hchain & Hstatic). exists (id :: path). split.
  - eapply (AccessChain_step _ _ id (accessorOp base i) base); [| |done|done].
    + apply getDefiningOp_Some. split; [by exists 0|done].
    + unfold accessorOp, accessorName. simpl. by destruct (getType base).
  - constructor; [|done]. exists (accessorOp base i). split; [done|].
    unfold accessorOp, accessorName. simpl. by destruct (getType base).
Qed.

Section connect_step.
Context (opts : LowerTypesOptions) (s : IRState) (opId : nat)
  (op : Operation) (dest src : Value) (fields : list FlatBundleFieldEntry).
Hypothesis Hwf : wfIds s.
Hypothesis Hwo : wfOperands s.
Hypothesis Hop : ops s !! opId = Some op.
Hypothesis Hc : isConnect op = true.
Hypothesis Hoperands : operands op = [dest; src].
Hypothesis Hty : getType src = getType dest.
Hypothesis Hdest : staticOperand (ops s) dest.
Hypothesis Hsrc : staticOperand (ops s) src.
Hypothesis Hpeel : peelType (getType dest) [] false = (true, fields).

Let created := perFieldConnects (opName op) src dest (nextId s) fields.
Let s1 := afterErase (emit s created) opId.

Lemma step_operands_below :
  valueBelow (nextId s) dest ∧ valueBelow (nextId s) src.
Proof.
  pose proof (Hwo _ _ Hop) as Hbelow. simpl in Hbelow.
  rewrite Hoperands in Hbelow.
  apply Forall_cons in Hbelow as [Hd Hbelow].
  by apply Forall_cons in Hbelow as [Hs _].
Qed.

Lemma step_field_ops i field :
  fields !! i = Some field →
  ops s1 !! (nextId s + 3 * i) = Some (accessorOp src i) ∧
  ops s1 !! (nextId s + 3 * i + 1) = Some (accessorOp dest i) ∧
  ops s1 !! (nextId s + 3 * i + 2)
  = Some (mkOperation (opName op)
            (if isOutput field
             then [accessorValue (nextId s + 3 * i) src i;
                   accessorValue (nextId s + 3 * i + 1) dest i]
             else [accessorValue (nextId s + 3 * i + 1) dest i;
                   accessorValue (nextId s + 3 * i) src i]) [] [] noAttrs).
Proof.
  intros Hfield. pose proof (Hwf _ _ Hop) as Hid. simpl in Hid.
  assert (∀ j op', perFieldConnect (opName op) src dest (nextId s) i field
                   !! j = Some op' →
                   ops s1 !! (nextId s + 3 * i + j) = Some op') as Hnew.
  { intros j op' Hj. rewrite <-Nat.add_assoc. apply step_lookup_new; [done|].
    pose proof (lookup_lt_Some _ _ _ Hj) as Hlt.
    rewrite perFieldConnect_length in Hlt. unfold created.
    by rewrite (perFieldConnects_lookup _ _ _ _ _ i field j). }
  split; [|split].
  - rewrite <-(Nat.add_0_r (nextId s + 3 * i)). by apply Hnew.
  - by apply Hnew.
  - by apply Hnew.
Qed.

Lemma step_static_operands :
  staticOperand (ops s1) dest ∧ staticOperand (ops s1) src.
Proof.
  destruct step_operands_below as [Hd Hs].
  pose proof (step_extends s created opId op Hop Hc) as Hext.
  split; by eapply staticOperand_extends.
Qed.

Lemma step_new_walkable k :
  k ∈ seq (nextId s) (3 * length fields) → walkable opts (ops s1) k.
Proof.
  intros Hk. apply elem_of_seq in Hk as [Hlo Hhi].
  assert (k - nextId s < length created) as Hlt
    by (unfold created; rewrite perFieldConnects_length; lia).
  destruct (lookup_lt_is_Some_2 _ _ Hlt) as [op' Hop'].
  apply perFieldConnects_lookup_inv in Hop'
    as (i & field & j & Hfield & Hj & Hk & Hop').
  replace k with (nextId s + 3 * i + j) by lia. clear Hk Hlo Hhi Hlt k.
  destruct (step_field_ops i field Hfield) as (Ha & Hb & Hconn).
  destruct step_static_operands as [Hd1 Hs1].
  destruct j as [|[|[|j]]]; [| | |lia].
  - left. rewrite Nat.add_0_r. by eapply accessorOp_settled.
  - left. by eapply accessorOp_settled.
  - right.
    pose proof (accessorValue_static _ _ _ _ Ha Hs1) as HsubSrc.
    pose proof (accessorValue_static _ _ _ _ Hb Hd1) as HsubDest.
    destruct (isOutput field);
      (eexists _, _, _; split; [exact Hconn|]; split; [exact Hc|];
       split; [reflexivity|]; split; [simpl; by rewrite Hty|done]).
Qed.

Lemma step_connectType i field :
  fields !! i = Some field →
  connectType (ops s1) (nextId s + 3 * i) = None ∧
  connectType (ops s1) (nextId s + 3 * i + 1) = None ∧
  connectType (ops s1) (nextId s + 3 * i + 2) = Some (type field).
Proof.
  intros Hfield.
  destruct (step_field_ops i field Hfield) as (Ha & Hb & Hconn).
  pose proof (peelType_field _ _ _ _ Hpeel Hfield) as (_ & Htype & _).
  unfold connectType. rewrite Ha, Hb, Hconn. simpl.
  assert (∀ base, isConnect (accessorOp base i) = false) as Hacc.
  { intros base. unfold isConnect, accessorOp, accessorName. simpl.
    by destruct (getType base). }
  rewrite !Hacc. split; [done|]. split; [done|].
  unfold isConnect in *. simpl. rewrite Hc.
  destruct (isOutput field); simpl; by rewrite ?Hty, Htype.
Qed.

Lemma step_visits :
  S (sum_list_with (visitsOf (ops s1)) (seq (nextId s) (3 * length fields)))
  = visitsOf (ops s) opId.
Proof.
  rewrite (sum_seq3 _ (λ field, 3 * typeNodes (type field)) fields).
  - assert (visitsOf (ops s) opId = 3 * typeNodes (getType dest) - 2) as ->.
    { unfold visitsOf, connectType. rewrite Hop. simpl.
      by rewrite Hc, Hoperands. }
    rewrite <-(peelType_typeNodes _ _ Hpeel).
    assert (sum_list_with (λ field, 3 * typeNodes (type field)) fields
            = 3 * sum_list_with (typeNodes ∘ type) fields) as ->; [|lia].
    clear. induction fields as [|f l IH]; [done|].
    cbn [sum_list_with]. rewrite IH. unfold compose at 2. lia.
  - intros i field Hfield.
    destruct (step_connectType i field Hfield) as (Ha & Hb & Hconn).
    unfold visitsOf. rewrite Ha, Hb, Hconn.
    pose proof (typeNodes_pos (type field)). lia.
Qed.

Lemma step_leaves :
  sum_list_with (leavesOf (ops s1)) (seq (nextId s) (3 * length fields))
  = leavesOf (ops s) opId.
Proof.
  rewrite (sum_seq3 _ (typeLeaves ∘ type) fields).
  - rewrite (peelType_typeLeaves _ _ Hpeel).
    unfold leavesOf, connectType. rewrite Hop. simpl.
    by rewrite Hc, Hoperands.
  - intros i field Hfield.
    destruct (step_connectType i field Hfield) as (Ha & Hb & Hconn).
    unfold leavesOf. rewrite Ha, Hb, Hconn. done.
Qed.

Lemma step_wf : wfIds s1 ∧ wfOperands s1.
Proof.
  split; [by apply step_wfIds|]. apply step_wfOperands; [done|].
  destruct step_operands_below as [Hd Hs].
  apply perFieldConnects_below.
  - eapply valueBelow_mono; [|exact Hs]. lia.
  - eapply valueBelow_mono; [|exact Hd]. lia.
  - unfold created. rewrite perFieldConnects_length. lia.
Qed.
End connect_step.
Lemma visitsOf_pos store id : 0 < visitsOf store id.
Proof.
  unfold visitsOf. destruct (connectType store id) as [ty|]; [|lia].
  pose proof (typeNodes_pos ty). lia.
Qed.

Lemma settled_live opts store id :
  settled opts store id → is_Some (store !! id).
Proof. intros (op & Hop & _). eauto. Qed.

Lemma settled_not_aggregate opts store id :
  settled opts store id → ¬ aggregateConnect store id.
Proof.
  intros (op & Hop & Hkind) (op' & dest & src & Hop' & Hc & Hoperands & Hagg).
  rewrite Hop in Hop'. injection Hop' as <-. unfold isConnect in Hc.
  destruct (opName op); try done;
    destruct Hkind as (dest' & src' & path & Hoperands' & _ & _ & Hg);
    congruence.
Qed.

Lemma walkable_cases opts store id :
  walkable opts store id →
  settled opts store id ∨
  (expandableConnect store id ∧ aggregateConnect store id).
Proof.
  intros [Hsettled|Hexp]; [by left|].
  pose proof Hexp as
    (op & dest & src & Hop & Hc & Hoperands & Hty & (path & Hchain & Hstatic)
     & Hsrc).
  destruct (isGround (getType dest)) eqn:Hground.
  - left. exists op. split; [done|]. unfold isConnect in Hc.
    destruct (opName op); try done; by exists dest, src, path.
  - right. split; [done|]. by exists op, dest, src.
Qed.

Lemma sum_list_with_ext_in {A} (f g : A → nat) (l : list A) :
  (∀ x, x ∈ l → f x = g x) → sum_list_with f l = sum_list_with g l.
Proof.
  induction l as [|x l IH]; intros Hfg; [done|]. cbn [sum_list_with].
  rewrite (Hfg x) by left. rewrite IH; [done|].
  intros y Hy. apply Hfg. by right.
Qed.

Lemma lowerBlockFrom_connects opts module : ∀ fuel worklist done s,
  wfIds s → wfOperands s → NoDup worklist →
  Forall (walkable opts (ops s)) worklist →
  Forall (settled opts (ops s)) done →
  sum_list_with (visitsOf (ops s)) worklist < fuel →
  ∃ block' s',
    lowerBlockFrom fuel opts module worklist done s = Ok (block', s') ∧
    Forall (settled opts (ops s')) block' ∧
    (∀ id, id ∈ worklist ∨ id ∈ done → settled opts (ops s) id →
           id ∈ block' ∧ ops s' !! id = ops s !! id) ∧
    (∀ id, id < nextId s → ops s !! id = None → ops s' !! id = None) ∧
    (∀ id, id ∈ worklist → aggregateConnect (ops s) id →
           ops s' !! id = None) ∧
    sum_list_with (leavesOf (ops s')) block'
    = sum_list_with (leavesOf (ops s)) worklist
      + sum_list_with (leavesOf (ops s)) done.
Proof.
  induction fuel as [|fuel IH];
    intros worklist done s Hwf Hwo Hnodup Hwalk Hdone Hfuel; [lia|].
  destruct worklist as [|iop rest].
  - exists done, s. split; [|split; [done|split; [|split; [done|split]]]].
    + simpl. unfold mbind, M_bind, getState, mret, M_ret. do 2 f_equal.
      clear -Hdone. induction Hdone as [|id l Hid Hl IHl]; [done|].
      rewrite filter_cons_True by by eapply settled_live. by rewrite IHl.
    + intros id [Hid|Hid] _; [by apply elem_of_nil in Hid|done].
    + intros id Hid. by apply elem_of_nil in Hid.
    + done.
  - apply Forall_cons in Hwalk as [Hiop Hrest].
    apply NoDup_cons in Hnodup as [Hnotin Hnodup].
    cbn [sum_list_with] in Hfuel.
    destruct (walkable_cases _ _ _ Hiop) as [Hsettled|[Hexp Hagg]].
    + (* nothing to do for [iop] *)
      destruct (settled_live _ _ _ Hsettled) as [op Hop].
      rewrite (lowerBlockFrom_visit _ _ _ _ _ _ _ op) by done.
      unfold mbind at 1, M_bind at 1. rewrite lowerOp_settled by done.
      cbn [rev app].
      destruct (IH rest (iop :: done) (setInserted s []))
        as (block' & s' & Hrun & Hall & Hstay & Hdead & Hgone & Hleaves);
        [done|done|done|done|by constructor| |].
      { pose proof (visitsOf_pos (ops s) iop). simpl. lia. }
      exists block', s'. split; [exact Hrun|]. split; [done|].
      split; [|split; [done|split]].
      * intros id Hid. apply Hstay. rewrite elem_of_cons in Hid.
        rewrite elem_of_cons. tauto.
      * intros id Hid Hagg. apply elem_of_cons in Hid as [->|Hid].
        -- by apply settled_not_aggregate in Hsettled.
        -- by apply Hgone.
      * rewrite Hleaves. cbn [sum_list_with ops setInserted]. lia.
    + (* [iop] is a connect of aggregate type *)
      destruct Hexp
        as (op & dest & src & Hop & Hc & Hoperands & Hty & Hdest & Hsrc).
      pose proof Hdest as (path & Hchain & Hstatic).
      assert (isGround (getType dest) = false) as Hground.
      { destruct Hagg as (? & ? & ? & ? & _ & ? & ?). congruence. }
      destruct (peelType (getType dest) [] false) as [peeled fields] eqn:Hpeel.
      assert (peeled = true) as ->.
      { destruct peeled; [done|].
        assert ((peelType (getType dest) [] false).1 = false) as Hno
          by by rewrite Hpeel.
        apply peelType_intact in Hno as [?|[? _]]; congruence. }
      pose proof (peelType_length _ _ Hpeel) as Hlen.
      rewrite (lowerBlockFrom_visit _ _ _ _ _ _ _ op) by done.
      unfold mbind at 1, M_bind at 1.
      rewrite (lowerOp_connect _ _ _ _ _ op dest src path fields);
        [|done| |done|done|done|done|rewrite Hty; lia].
      2:{ unfold isConnect in Hc. destruct (opName op); try done; auto. }
      cbn beta iota.
      set (s1 := afterErase
                   (emit s (perFieldConnects (opName op) src dest (nextId s)
                              fields)) iop).
      pose proof (step_extends s
                    (perFieldConnects (opName op) src dest (nextId s) fields)
                    iop op Hop Hc) as Hext.
      fold s1 in Hext.
      destruct (step_wf s iop op dest src fields Hwf Hwo Hop Hoperands)
        as [Hwf1 Hwo1]. fold s1 in Hwf1, Hwo1.
      pose proof (Hwf _ _ Hop) as Hid. simpl in Hid.
      assert (∀ id, is_Some (ops s !! id) → id ≠ iop →
                    ops s1 !! id = ops s !! id) as Hold.
      { intros id [op' Hop'] Hne. apply step_lookup_old; [|done].
        by apply Hwf in Hop'. }
      assert (∀ id, id ∈ rest → is_Some (ops s !! id) ∧ id ≠ iop) as Hinrest.
      { intros id Hin. split; [|by intros ->].
        rewrite Forall_forall in Hrest.
        destruct (Hrest id Hin) as [Hs|(? & ? & ? & ? & _)];
          [by eapply settled_live|eauto]. }
      assert (∀ id, id ∈ done → is_Some (ops s !! id) ∧ id ≠ iop) as Hindone.
      { intros id Hin. rewrite Forall_forall in Hdone.
        split; [by eapply settled_live, Hdone|]. intros ->.
        by apply (settled_not_aggregate opts (ops s) iop (Hdone _ Hin)). }
      destruct (IH (rev (seq (nextId s) (3 * length fields)) ++ rest) done s1)
        as (block' & s' & Hrun & Hall & Hstay & Hdead & Hgone & Hleaves);
        [done|done| | | | |].
      { apply NoDup_app. split; [|split; [|done]].
        - rewrite rev_reverse, reverse_Permutation. apply NoDup_seq.
        - intros k Hk Hin. rewrite rev_reverse, elem_of_reverse in Hk.
          apply elem_of_seq in Hk as [Hk _].
          destruct (Hinrest k Hin) as [[op' Hop'] _].
          apply Hwf in Hop'. simpl in Hop'. lia. }
      { apply Forall_app. split.
        - apply Forall_forall. intros k Hk.
          rewrite rev_reverse, elem_of_reverse in Hk.
          by eapply (step_new_walkable opts s iop op dest src fields).
        - apply Forall_forall. intros id Hin.
          destruct (Hinrest id Hin) as [Hlive Hne].
          apply (walkable_extends opts s (ops s1)); [done|done|exact Hext|by apply Hold|].
          rewrite Forall_forall in Hrest. by apply Hrest. }
      { apply Forall_forall. intros id Hin.
        destruct (Hindone id Hin) as [Hlive Hne].
        apply (settled_extends opts s (ops s1)); [done|done|exact Hext|by apply Hold|].
        rewrite Forall_forall in Hdone. by apply Hdone. }
      { rewrite sum_list_with_app, rev_reverse, sum_list_with_reverse.
        pose proof (step_visits s iop op dest src fields Hwf Hop Hc Hoperands
                      Hty Hpeel) as Hvisits.
        fold s1 in Hvisits.
        rewrite (sum_list_with_ext_in (visitsOf (ops s1)) (visitsOf (ops s))
                   rest).
        - lia.
        - intros id Hin. unfold visitsOf.
          rewrite (connectType_same (ops s) (ops s1)); [done|].
          apply Hold; by apply Hinrest. }
      exists block', s'. split; [exact Hrun|]. split; [done|].
      split; [|split; [|split]].
      * intros id Hin Hsettled.
        assert (is_Some (ops s !! id) ∧ id ≠ iop) as [Hlive Hne].
        { split; [by eapply settled_live|]. intros ->.
          by apply (settled_not_aggregate opts (ops s) iop). }
        rewrite <-(Hold id Hlive Hne). apply Hstay.
        -- rewrite elem_of_app. rewrite elem_of_cons in Hin.
           destruct Hin as [[?|?]|?]; [done|auto..].
        -- apply (settled_extends opts s (ops s1)); [done|done|exact Hext|by apply Hold|done].
      * intros id Hlt Hnone. apply Hdead.
        -- unfold s1, afterErase. simpl. rewrite emit_nextId. lia.
        -- destruct (Hext id Hlt) as [->|[? _]]; done.
      * intros id Hin Hagg'. apply elem_of_cons in Hin as [->|Hin].
        -- apply Hdead.
           ++ unfold s1, afterErase. simpl. rewrite emit_nextId. lia.
           ++ unfold s1, afterErase. simpl. apply lookup_delete_eq.
        -- apply Hgone; [apply elem_of_app; by right|].
           destruct Hagg' as (op' & d' & x' & Hop' & Hrest').
           exists op', d', x'. split; [|done].
           rewrite Hold; [done|by apply Hinrest..].
      * rewrite Hleaves.
        rewrite sum_list_with_app, rev_reverse, sum_list_with_reverse.
        pose proof (step_leaves s iop op dest src fields Hwf Hop Hc Hoperands
                      Hty Hpeel) as Hl.
        fold s1 in Hl. rewrite Hl. cbn [sum_list_with].
        rewrite (sum_list_with_ext_in (leavesOf (ops s1)) (leavesOf (ops s))
                   rest).
        2:{ intros id Hin. unfold leavesOf.
            rewrite (connectType_same (ops s) (ops s1)); [done|].
            apply Hold; by apply Hinrest. }
        rewrite (sum_list_with_ext_in (leavesOf (ops s1)) (leavesOf (ops s))
                   done); [lia|].
        intros id Hin. unfold leavesOf.
        rewrite (connectType_same (ops s) (ops s1)); [done|].
        apply Hold; by apply Hindone.
Qed.
Lemma settled_leaves opts store block :
  Forall (settled opts store) block →
  sum_list_with (leavesOf store) block
  = length (filter (λ id, isConnectAt store id) block).
Proof.
  induction 1 as [|id l (op & Hop & Hkind) Hl IH]; [done|].
  cbn [sum_list_with]. rewrite IH.
  assert (connectType store id = None ∨
          ∃ ty, connectType store id = Some ty ∧ isGround ty = true)
    as [Hnone|(ty & Hsome & Hg)].
  { unfold connectType. rewrite Hop. simpl. unfold isConnect.
    destruct (opName op); try (by left);
      destruct Hkind as (dest & src & path & -> & _ & _ & Hg);
      right; by exists (getType dest). }
  - rewrite filter_cons_False.
    + unfold leavesOf. by rewrite Hnone.
    + unfold isConnectAt. rewrite Hnone. intros Hb.
      apply bool_decide_unpack in Hb. by destruct Hb.
  - rewrite filter_cons_True.
    + unfold leavesOf. rewrite Hsome. by destruct ty.
    + unfold isConnectAt. rewrite Hsome. apply bool_decide_pack.
      by eexists.
Qed.



(** ** Dynamic vector reads *)

Lemma mapEachM_createSubindexOp input elt n indices s :
  getType input = FVectorType elt n →
  Forall (λ index, index < n) indices →
  mapEachM (λ index, createSubindexOp input index) indices s
  = Ok (resultsFrom (nextId s) elt (length indices),
        emit s (subindexOf input elt <$> indices)).
Proof.
  intros Hty Hall. revert s.
  induction Hall as [|index l Hindex Hl IH]; intros s; [done|].
  cbn [mapEachM]. unfold mbind, M_bind, mret, M_ret.
  unfold createSubindexOp at 1. rewrite Hty.
  rewrite bool_decide_eq_true_2 by done. rewrite createValue_withOp.
  cbn beta iota. rewrite IH. cbn beta iota. f_equal. f_equal.
  unfold resultsFrom. simpl. rewrite Nat.add_0_r. f_equal.
  rewrite <-fmap_S_seq, <-list_fmap_compose.
  apply list_fmap_ext. intros _ k _. simpl. do 2 f_equal. lia.
Qed.

Lemma rev_lookup {A} (l : list A) i :
  i < length l → rev l !! i = l !! (length l - S i).
Proof.
  intros Hi. rewrite rev_alt. change (rev_append l []) with (reverse l).
  by apply reverse_lookup.
Qed.

Lemma descendingElements_lookup input elt n k :
  k < n →
  descendingElements input elt n !! k
  = Some (subindexOf input elt (n - 1 - k)).
Proof.
  intros Hk. unfold descendingElements.
  rewrite list_lookup_fmap, rev_lookup by (rewrite length_seq; lia).
  rewrite length_seq.
  assert (seq 0 n !! (n - S k) = Some (n - 1 - k)) as ->; [|done].
  apply lookup_seq. lia.
Qed.

Lemma replaceAllUsesWith_replaced opId repl s :
  replaceAllUsesWith (OpResult opId 0) repl s = Ok ((), replaced s opId repl).
Proof. done. Qed.

Lemma resultsFrom_types base ty count :
  Forall (λ v, getType v = ty) (resultsFrom base ty count).
Proof.
  unfold resultsFrom. apply Forall_fmap, Forall_forall. done.
Qed.

(** The three cases of [visitExpr(SubaccessOp)]. *)
Lemma visitExpr_SubaccessOp_cases opts s opId op input idx elt n :
  ops s !! opId = Some op → operands op = [input; idx] →
  getType input = FVectorType elt n →
  (n = 0 →
   visitExpr_SubaccessOp opts opId s
   = Ok (true,
         replaced (emit s [mkOperation InvalidValueOp [] [elt] [] noAttrs])
           opId (mkValue (OpResult (nextId s) 0) elt))) ∧
  (n ≠ 0 → ∀ c, definedByConstant (ops s) idx = Some c →
   ((toUnsigned c < Z.of_nat n)%Z →
    visitExpr_SubaccessOp opts opId s
    = Ok (true,
          replaced (emit s [subindexOf input elt (Z.to_nat (toUnsigned c))])
            opId (mkValue (OpResult (nextId s) 0) elt))) ∧
   ((Z.of_nat n ≤ toUnsigned c)%Z →
    visitExpr_SubaccessOp opts opId s
    = Fatal "Failed to infer result type(s).")) ∧
  (n ≠ 0 → (Z.of_nat n ≤ 2 ^ 31)%Z → definedByConstant (ops s) idx = None →
   visitExpr_SubaccessOp opts opId s
   = Ok (true,
         replaced
           (emit s (descendingElements input elt n ++
                    [muxOfElements idx elt n (nextId s)]))
           opId (mkValue (OpResult (nextId s + n) 0) elt))).
Proof.
  intros Hop Hoperands Hty.
  assert (visitExpr_SubaccessOp opts opId s
          = (if bool_decide (n = 0)
             then
               inv ← createInvalidValueOp elt;
               replaceAllUsesWith (OpResult opId 0) inv;; mret true
             else
               s0 ← getState;
               match definedByConstant (ops s0) idx with
               | Some value =>
                   sio ← createSubindexOp input (Z.to_nat (toUnsigned value));
                   replaceAllUsesWith (OpResult opId 0) sio;; mret true
               | None =>
                   inputs ← mapEachM (λ index, createSubindexOp input index)
                              (rev (seq 0
                                      (Z.to_nat
                                         (toInt32 (Z.of_nat n - 1) + 1))));
                   multibitMux ← createMultibitMuxOp idx inputs;
                   replaceAllUsesWith (OpResult opId 0) multibitMux;;
                   mret true
               end) s) as ->.
  { unfold visitExpr_SubaccessOp.
    unfold mbind at 1, M_bind at 1, getOp. rewrite Hop.
    unfold mbind at 1, M_bind at 1, getOperand. rewrite Hoperands.
    cbn [lookup list_lookup]. unfold mret at 1, M_ret at 1.
    rewrite Hty. unfold mbind at 1, M_bind at 1, castFVectorType.
    unfold mret at 1, M_ret at 1. cbn beta iota.
    destruct (bool_decide (n = 0)); [done|].
    unfold mbind at 1, M_bind at 1. done. }
  assert (toUnsigned 0 = 0%Z) as Hzero by done.
  split; [|split].
  - intros ->. done.
  - intros Hn c Hc. rewrite bool_decide_eq_false_2 by done.
    unfold mbind, M_bind, mret, M_ret, getState. rewrite Hc.
    unfold createSubindexOp. rewrite Hty.
    assert (0 ≤ toUnsigned c)%Z as Hpos
      by (unfold toUnsigned; apply Z.mod_pos_bound; lia).
    split; intros Hrange.
    + rewrite bool_decide_eq_true_2 by lia. done.
    + rewrite bool_decide_eq_false_2 by lia. done.
  - intros Hn Hsmall Hc. rewrite bool_decide_eq_false_2 by done.
    unfold mbind, M_bind, mret, M_ret, getState. rewrite Hc.
    assert (Z.to_nat (toInt32 (Z.of_nat n - 1) + 1) = n) as ->.
    { unfold toInt32. rewrite Z.mod_small by lia. lia. }
    assert (Forall (λ index, index < n) (rev (seq 0 n))) as Hall.
    { apply Forall_forall. intros index Hin.
      apply list_elem_of_In, in_rev, list_elem_of_In, elem_of_seq in Hin.
      lia. }
    rewrite (mapEachM_createSubindexOp input elt n) by done.
    rewrite length_rev, length_seq.
    unfold createMultibitMuxOp.
    destruct (resultsFrom (nextId s) elt n) as [|first rest] eqn:Hres.
    { apply (f_equal length) in Hres. unfold resultsFrom in Hres.
      rewrite length_fmap, length_seq in Hres. simpl in Hres. lia. }
    pose proof (resultsFrom_types (nextId s) elt n) as Htypes.
    rewrite Hres in Htypes. apply Forall_cons in Htypes as [Hfirst Hrest].
    rewrite bool_decide_eq_true_2
      by (eapply Forall_impl; [exact Hrest|]; simpl; congruence).
    rewrite createValue_withOp, Hfirst. cbn beta iota.
    rewrite replaceAllUsesWith_replaced.
    rewrite emit_app. unfold muxOfElements. rewrite Hres.
    fold (descendingElements input elt n).
    rewrite emit_nextId. unfold descendingElements at 2.
    rewrite length_fmap, length_rev, length_seq. done.
Qed.

Lemma afterErase_replaced_emit s l created opId repl :
  afterErase (replaced (emit (setInserted s l) created) opId repl) opId
  = afterErase (replaced (emit s created) opId repl) opId.
Proof.
  destruct (emit_setInserted_ops s l created) as (Hops & Hnext & Hvis).
  unfold afterErase, replaced. simpl. by rewrite Hops, Hnext, Hvis.
Qed.

(** C5: a dynamic vector access used as a read expression is deleted
    and every use of it is replaced: by an invalid value of the element
    type if the vector has zero elements; else, if the index is a
    constant whose value read as an unsigned number of 32 bits is [c],
    by the static access to element [c] when [c] is below the number
    [n] of elements, while the creation of that access stops the pass
    with a fatal error when it is not; else, for a vector of at most
    [2 ^ 31] elements, by a multiplexer keyed on the index whose inputs
    are the static accesses to all the [n] elements in descending
    order, input [k] being element [n - 1 - k], so that element 0 comes
    last. *)
Theorem subaccess_read_lowered
    (lowerBlock : list nat → M (list nat)) (opts : LowerTypesOptions)
    (module : string) (s : IRState) (opId : nat) (op : Operation)
    (input idx : Value) (elementType : FIRRTLType) (n : nat) :
  ops s !! opId = Some op →
  opName op = SubaccessOp →
  operands op = [input; idx] →
  getType input = FVectorType elementType n →
  let lowered created repl :=
    lowerOp lowerBlock opts module opId s
    = Ok ((true, seq (nextId s) (length created)),
          afterErase (replaced (emit s created) opId repl) opId) in
  (n = 0 →
   lowered [mkOperation InvalidValueOp [] [elementType] [] noAttrs]
     (mkValue (OpResult (nextId s) 0) elementType)) ∧
  (n ≠ 0 →
   ∀ value, definedByConstant (ops s) idx = Some value →
     let c := toUnsigned value in
     ((0 ≤ value < 2 ^ 32)%Z → c = value) ∧
     ((c < Z.of_nat n)%Z →
      lowered [subindexOf input elementType (Z.to_nat c)]
        (mkValue (OpResult (nextId s) 0) elementType)) ∧
     ((Z.of_nat n ≤ c)%Z →
      lowerOp lowerBlock opts module opId s
      = Fatal "Failed to infer result type(s).")) ∧
  (n ≠ 0 → (Z.of_nat n ≤ 2 ^ 31)%Z →
   definedByConstant (ops s) idx = None →
   lowered
     (descendingElements input elementType n ++
      [muxOfElements idx elementType n (nextId s)])
     (mkValue (OpResult (nextId s + n) 0) elementType) ∧
   ∀ k, k < n →
        descendingElements input elementType n !! k
        = Some (subindexOf input elementType (n - 1 - k))).
Proof.
  intros Hop Hname Hoperands Hty lowered.
  assert (∀ created repl,
            visitExpr_SubaccessOp opts opId (setInserted s [])
            = Ok (true, replaced (emit (setInserted s []) created) opId repl) →
            lowered created repl) as Hlowered.
  { intros created repl Hvisit. unfold lowered.
    rewrite (lowerOp_erases _ _ _ _ _
               (replaced (emit (setInserted s []) created) opId repl)).
    - rewrite afterErase_replaced_emit. simpl. by rewrite emit_inserted.
    - unfold dispatchVisitor, mbind, M_bind, getOp. simpl.
      by rewrite Hop, Hname. }
  destruct (visitExpr_SubaccessOp_cases opts (setInserted s []) opId op
              input idx elementType n Hop Hoperands Hty)
    as (Hzero & Hconst & Hmux).
  split; [|split].
  - intros Hn. apply Hlowered. by apply Hzero.
  - intros Hn value Hc c.
    destruct (Hconst Hn value Hc) as [Hin Hout].
    split; [|split].
    + intros Hrange. unfold c, toUnsigned. by apply Z.mod_small.
    + intros Hrange. apply Hlowered. by apply Hin.
    + intros Hrange. unfold lowerOp, mbind, M_bind, setInsertionPoint.
      unfold dispatchVisitor, mbind, M_bind, getOp. simpl.
      rewrite Hop, Hname. by rewrite (Hout Hrange).
  - intros Hn Hsmall Hc. split.
    + apply Hlowered. by apply Hmux.
    + intros k Hk. by apply descendingElements_lookup.
Qed.

(** The read [vec[i]] of a vector of four elements by the wire [i]
    becomes the multiplexer of [vec[3]], [vec[2]], [vec[1]], [vec[0]]
    (in this order) keyed on [i]; the read of a vector of three
    elements at the constant [UInt<2>(3)] stops the pass. *)
Lemma subaccess_read_lowered_witness :
  let vec := mkValue (OpResult 0 0) exampleVector in
  let i := mkValue (OpResult 1 0) (UIntType 2) in
  (∃ s',
    lowerOp noLowerBlock exampleOptions "Top" 2 exampleReadStore
    = Ok ((true, [4; 5; 6; 7; 8]), s') ∧
    ops s' !! 2 = None ∧
    (opName <$> ops s' !! 4) = Some (SubindexOp 3) ∧
    (opName <$> ops s' !! 5) = Some (SubindexOp 2) ∧
    (opName <$> ops s' !! 6) = Some (SubindexOp 1) ∧
    (opName <$> ops s' !! 7) = Some (SubindexOp 0) ∧
    ops s' !! 8
    = Some (mkOperation MultibitMuxOp
              [i; mkValue (OpResult 4 0) uint1; mkValue (OpResult 5 0) uint1;
               mkValue (OpResult 6 0) uint1; mkValue (OpResult 7 0) uint1]
              [uint1] [] noAttrs) ∧
    (operands <$> ops s' !! 3) = Some [mkValue (OpResult 8 0) uint1]) ∧
  lowerOp noLowerBlock exampleOptions "Top" 2 exampleConstantReadStore
  = Fatal "Failed to infer result type(s).".
Proof.
  intros vec i. split.
  - destruct (subaccess_read_lowered noLowerBlock exampleOptions "Top"
                exampleReadStore 2
                (mkOperation SubaccessOp [vec; i] [uint1] [] noAttrs)
                vec i uint1 4 eq_refl eq_refl eq_refl eq_refl)
      as (_ & _ & Hmux).
    destruct (Hmux ltac:(done) ltac:(done) eq_refl) as [Hrun _].
    eexists. split; [exact Hrun|].
    repeat split; vm_compute; reflexivity.
  - destruct (subaccess_read_lowered noLowerBlock exampleOptions "Top"
                exampleConstantReadStore 2
                (mkOperation SubaccessOp
                   [mkValue (OpResult 0 0) (FVectorType uint1 3);
                    mkValue (OpResult 1 0) (UIntType 2)] [uint1] [] noAttrs)
                (mkValue (OpResult 0 0) (FVectorType uint1 3))
                (mkValue (OpResult 1 0) (UIntType 2)) uint1 3
                eq_refl eq_refl eq_refl eq_refl)
      as (_ & Hconst & _).
    destruct (Hconst ltac:(done) 3%Z eq_refl) as (_ & _ & Hout).
    apply Hout. vm_compute. discriminate.
Defined.

(** ** Rewiring of the consumers *)

Lemma setOps_setOps s m m' : setOps (setOps s m) m' = setOps s m'.
Proof. done. Qed.

Lemma setOps_ops s : setOps s (ops s) = s.
Proof. by destruct s. Qed.

Lemma processUser_leaf mapping user repl t :
  leafFor mapping user.2 = Some repl →
  processUser mapping user t
  = Ok ((), setOps t (delete user.1
                        (replaceUses (OpResult user.1 0) repl <$> ops t))).
Proof.
  unfold leafFor, staticAccessorIndex, processUser.
  destruct (opName user.2); simpl; try done; intros ->; done.
Qed.

Lemma processUser_other mapping user t :
  staticAccessorIndex user.2 = None →
  processUser mapping user t = Fatal "Unknown aggregate user".
Proof.
  unfold staticAccessorIndex, processUser. by destruct (opName user.2).
Qed.

Lemma forEachM_processUser mapping l t :
  Forall (λ user, is_Some (leafFor mapping user.2)) l →
  forEachM (processUser mapping) l t
  = Ok ((), setOps t (foldl (stepUser mapping) (ops t) l)).
Proof.
  intros Hall. revert t. induction Hall as [|user l [repl Hrepl] Hl IH];
    intros t; simpl.
  - by rewrite setOps_ops.
  - unfold mbind, M_bind. rewrite (processUser_leaf _ _ repl) by done.
    rewrite IH. cbn [foldl ops setOps]. unfold stepUser at 3.
    rewrite Hrepl. done.
Qed.

Lemma forEachM_processUser_fatal mapping l t :
  Forall (λ user, is_Some (staticAccessorIndex user.2) →
                  is_Some (leafFor mapping user.2)) l →
  Exists (λ user, staticAccessorIndex user.2 = None) l →
  forEachM (processUser mapping) l t = Fatal "Unknown aggregate user".
Proof.
  intros Hall Hex. revert t.
  induction l as [|user l IH]; intros t; [by apply Exists_nil in Hex|].
  apply Forall_cons in Hall as [Huser Hall]. simpl. unfold mbind, M_bind.
  destruct (staticAccessorIndex user.2) as [i|] eqn:Hidx.
  - destruct Huser as [repl Hrepl]; [done|].
    rewrite (processUser_leaf _ _ repl) by done.
    apply IH; [done|]. apply Exists_cons in Hex as [Hex|Hex]; [congruence|done].
  - by rewrite processUser_other.
Qed.

Lemma substUsers_not_user mapping l v :
  (∀ user, user ∈ l → valueDef v ≠ OpResult user.1 0) →
  substUsers mapping l v = v.
Proof.
  induction l as [|user l IH]; intros Hv; [done|]. simpl.
  rewrite decide_False by (apply Hv; left). apply IH.
  intros user' Hin. apply Hv. by right.
Qed.

Lemma substUsers_user mapping l v id user :
  NoDup l.*1 → (id, user) ∈ l → valueDef v = OpResult id 0 →
  substUsers mapping l v = default v (leafFor mapping user).
Proof.
  intros Hnodup Hin Hv. induction l as [|[id' user'] l IH]; [by inversion Hin|].
  simpl in *. apply NoDup_cons in Hnodup as [Hid' Hnodup].
  apply elem_of_cons in Hin as [Heq|Hin].
  - simplify_eq. by rewrite decide_True.
  - rewrite decide_False; [by apply IH|].
    intros Heq. rewrite Hv in Heq. simplify_eq.
    apply Hid'. apply list_elem_of_fmap. by exists (id', user).
Qed.

Lemma foldl_stepUser_lookup mapping l store k :
  NoDup l.*1 →
  Forall (λ user, is_Some (leafFor mapping user.2)) l →
  (∀ user user' repl, user ∈ l → user' ∈ l →
     leafFor mapping user.2 = Some repl → valueDef repl ≠ OpResult user'.1 0) →
  foldl (stepUser mapping) store l !! k
  = if decide (k ∈ l.*1) then None
    else (λ op, setOperands op (substUsers mapping l <$> operands op)) <$>
         store !! k.
Proof.
  revert store. induction l as [|[id user] l IH]; intros store Hnodup Hall Hfresh.
  - cbn [foldl]. destruct (decide (k ∈ [].*1)) as [Hk|_]; [by inversion Hk|].
    destruct (store !! k) as [[]|]; simpl; [|done].
    unfold setOperands. simpl. by rewrite list_fmap_id.
  - simpl in Hnodup. apply NoDup_cons in Hnodup as [Hid Hnodup].
    apply Forall_cons in Hall as [[repl Hrepl] Hall].
    cbn [foldl]. rewrite IH; [|done|done|]; last first.
    { intros u u' r Hu Hu'. apply Hfresh; by right. }
    unfold stepUser. cbn [fst snd fmap list_fmap]. simpl in Hrepl.
    rewrite Hrepl.
    destruct (decide (k ∈ l.*1)) as [Hk|Hk].
    { rewrite decide_True; [done|]. by right. }
    destruct (decide (k = id)) as [->|Hne].
    { rewrite decide_True by left. by rewrite lookup_delete_eq. }
    rewrite decide_False by (intros [?|?]%elem_of_cons; done).
    rewrite lookup_delete_ne by done. rewrite lookup_fmap.
    destruct (store !! k) as [op|]; simpl; [|done].
    unfold setOperands, replaceUses. simpl. do 2 f_equal.
    rewrite <-list_fmap_compose. apply list_fmap_ext. intros _ v _. simpl.
    destruct (decide (valueDef v = OpResult id 0)) as [Hv|Hv]; [|done].
    rewrite Hrepl. simpl.
    apply substUsers_not_user. intros user' Hin.
    apply (Hfresh (id, user) user' repl); [left|by right|done].
Qed.

Lemma getUsers_elem s val id user :
  (id, user) ∈ getUsers s val ↔ ops s !! id = Some user ∧ consumes val user.
Proof.
  unfold getUsers. rewrite list_elem_of_filter, elem_of_map_to_list.
  unfold consumes. simpl. tauto.
Qed.

Lemma getUsers_NoDup s val : NoDup (getUsers s val).*1.
Proof.
  unfold getUsers. apply NoDup_fmap_fst.
  - intros id u1 u2 [_ H1]%list_elem_of_filter [_ H2]%list_elem_of_filter.
    apply elem_of_map_to_list in H1, H2. congruence.
  - apply NoDup_filter, NoDup_map_to_list.
Qed.

Lemma substUsers_getUsers s val mapping v :
  substUsers mapping (getUsers s val) v = rewire (ops s) val mapping v.
Proof.
  unfold rewire. destruct (valueDef v) as [arg|id [|res]] eqn:Hv.
  - apply substUsers_not_user. intros user _. congruence.
  - destruct (ops s !! id) as [user|] eqn:Huser.
    + destruct (decide (consumes val user)) as [Hc|Hc].
      * apply (substUsers_user _ _ _ id); [apply getUsers_NoDup| |done].
        by apply getUsers_elem.
      * apply substUsers_not_user. intros [id' user'] Hin Heq.
        rewrite Hv in Heq. simplify_eq/=.
        apply getUsers_elem in Hin as [? ?]. congruence.
    + apply substUsers_not_user. intros [id' user'] Hin Heq.
      rewrite Hv in Heq. simplify_eq/=.
      apply getUsers_elem in Hin as [? ?]. congruence.
  - apply substUsers_not_user. intros user _. congruence.
Qed.

(** When all the consumers are static accessors with a new leaf of
    their own, [processUsers] ends with the rewired store. *)
Lemma processUsers_rewired s val mapping :
  (∀ id user, ops s !! id = Some user → consumes val user →
              is_Some (leafFor mapping user)) →
  (∀ repl id user, repl ∈ mapping → ops s !! id = Some user →
                   consumes val user → valueDef repl ≠ OpResult id 0) →
  processUsers val mapping s = Ok ((), rewired s val mapping).
Proof.
  intros Hleaf Hfresh. unfold processUsers, mbind, M_bind, getState.
  assert (Forall (λ user, is_Some (leafFor mapping user.2))
            (getUsers s val)) as Hall.
  { apply Forall_forall. intros [id user] [? ?]%getUsers_elem. eauto. }
  rewrite forEachM_processUser by done. do 2 f_equal.
  unfold rewired. f_equal. apply map_eq. intros k.
  rewrite foldl_stepUser_lookup; [|apply getUsers_NoDup|done|]; last first.
  { intros [id user] [id' user'] repl _ [? ?]%getUsers_elem Hrepl.
    simpl in *. eapply Hfresh; [|done..].
    unfold leafFor in Hrepl. destruct (staticAccessorIndex user); [|done].
    simpl in Hrepl. by eapply list_elem_of_lookup_2. }
  rewrite lookup_fmap, map_lookup_filter.
  destruct (ops s !! k) as [op|] eqn:Hop; simpl.
  - destruct (decide (consumes val op)) as [Hc|Hc].
    + rewrite decide_True; last first.
      { apply list_elem_of_fmap. exists (k, op). split; [done|].
        by apply getUsers_elem. }
      by rewrite option_guard_False by (simpl; tauto).
    + rewrite decide_False; last first.
      { intros ([k' op'] & -> & [? ?]%getUsers_elem)%list_elem_of_fmap.
        simpl in *. congruence. }
      rewrite option_guard_True by done. simpl. do 2 f_equal.
      apply list_fmap_ext. intros _ v _. apply substUsers_getUsers.
  - by destruct (decide (k ∈ (getUsers s val).*1)).
Qed.

Lemma processUsers_unknown_user s val mapping :
  (∀ id user, ops s !! id = Some user → consumes val user →
              is_Some (staticAccessorIndex user) →
              is_Some (leafFor mapping user)) →
  (∃ id user, ops s !! id = Some user ∧ consumes val user ∧
              staticAccessorIndex user = None) →
  processUsers val mapping s = Fatal "Unknown aggregate user".
Proof.
  intros Hleaf (id & user & Huser & Hc & Hother).
  unfold processUsers, mbind, M_bind, getState.
  apply forEachM_processUser_fatal.
  - apply Forall_forall. intros [id' user'] [? ?]%getUsers_elem. eauto.
  - apply Exists_exists. exists (id, user). split; [|done].
    by apply getUsers_elem.
Qed.

Lemma rewired_consumer s val mapping id user :
  ops s !! id = Some user → consumes val user →
  ops (rewired s val mapping) !! id = None.
Proof.
  intros Huser Hc. unfold rewired. simpl.
  rewrite lookup_fmap, map_lookup_filter, Huser. simpl.
  by rewrite option_guard_False by (simpl; tauto).
Qed.

Lemma rewire_accessor s val mapping id user repl ty :
  ops s !! id = Some user → consumes val user →
  leafFor mapping user = Some repl →
  rewire (ops s) val mapping (mkValue (OpResult id 0) ty) = repl.
Proof.
  intros Huser Hc Hrepl. unfold rewire. simpl.
  by rewrite Huser, decide_True, Hrepl.
Qed.

(** C9: [processUsers val mapping], run on a store in which every
    static field or index accessor that consumes [val] selects an element
    with a new leaf in [mapping] (and no new leaf is itself such a
    consumer): if all the consumers of [val] are static field or index
    accessors, it ends without a fatal error in the store [rewired], in
    which every consumer is deleted and every use of the result of a
    consumer is replaced by the new leaf of the element it selects; if
    some consumer of [val] is of another kind, it ends in the fatal error
    [Unknown aggregate user]. *)
Theorem processUsers_rewires_accessors s val mapping :
  accessorsInRange val mapping (ops s) →
  leavesFresh val mapping (ops s) →
  (allStaticAccessors val (ops s) →
   processUsers val mapping s = Ok ((), rewired s val mapping)) ∧
  (∀ id user, ops s !! id = Some user → consumes val user →
              staticAccessorIndex user = None →
              processUsers val mapping s = Fatal "Unknown aggregate user").
Proof.
  intros Hrange Hfresh. split.
  - intros Hall. apply processUsers_rewired.
    + intros id user Huser Hc. apply (Hrange id user Huser Hc).
      apply (Hall id user Huser Hc).
    + intros repl id user Hrepl Huser Hc.
      pose proof (Hfresh id user Huser Hc) as Hleaves.
      rewrite Forall_forall in Hleaves. by apply Hleaves.
  - intros id user Huser Hc Hother. apply processUsers_unknown_user.
    + intros id' user' Huser' Hc'. apply (Hrange id' user' Huser' Hc').
    + by exists id, user.
Qed.

(** The accessors [w.a] and [w.b] are deleted and the connect of the two
    becomes a connect of [w_a] and [w_b]; with a node that reads the
    whole of [w], the fatal error. *)
Lemma processUsers_rewires_accessors_witness :
  (∃ s',
     processUsers (OpResult 0 0) exampleLeaves exampleUsersStore
     = Ok ((), s') ∧
     ops s' !! 1 = None ∧ ops s' !! 2 = None ∧
     (operands <$> ops s' !! 3)
     = Some [mkValue (OpResult 4 0) uint1; mkValue (OpResult 5 0) uint1] ∧
     ops s' !! 0 = Some (exampleWire "w" exampleBundle)) ∧
  processUsers (OpResult 0 0) exampleLeaves exampleOtherUserStore
  = Fatal "Unknown aggregate user".
Proof.
  split.
  - destruct (processUsers_rewires_accessors exampleUsersStore (OpResult 0 0)
                exampleLeaves) as [Hrun _].
    + apply (bool_decide_unpack _). vm_compute. exact I.
    + apply (bool_decide_unpack _). vm_compute. exact I.
    + eexists. split.
      * apply Hrun. apply (bool_decide_unpack _). vm_compute. exact I.
      * repeat split; vm_compute; reflexivity.
  - destruct (processUsers_rewires_accessors exampleOtherUserStore
                (OpResult 0 0) exampleLeaves) as [_ Hfatal].
    + apply (bool_decide_unpack _). vm_compute. exact I.
    + apply (bool_decide_unpack _). vm_compute. exact I.
    + apply (Hfatal 6 exampleNode); [reflexivity| |reflexivity].
      apply (bool_decide_unpack _). vm_compute. exact I.
Defined.

(** ** Dynamic vector writes *)

Lemma emit_setInserted s l created :
  emit (setInserted s l) created
  = setInserted (emit s created) (l ++ seq (nextId s) (length created)).
Proof.
  revert s l. induction created as [|op c IH]; intros s l.
  - simpl. by rewrite app_nil_r.
  - cbn [emit foldl]. change (withOp (setInserted s l) op)
      with (setInserted (withOp s op) (l ++ [nextId s])).
    fold (emit (setInserted (withOp s op) (l ++ [nextId s])) c).
    rewrite IH. fold (emit (withOp s op) c). simpl.
    by rewrite <-app_assoc.
Qed.

Lemma setInserted_setInserted s l l' :
  setInserted (setInserted s l) l' = setInserted s l'.
Proof. done. Qed.

Lemma Log2_64_Ceil_fits (k n : nat) :
  k < n → (Z.of_nat n ≤ 2 ^ 64)%Z →
  (Z.of_nat k mod 2 ^ Z.of_N (Z.to_N (Log2_64_Ceil (Z.of_nat n))))%Z
  = Z.of_nat k.
Proof.
  intros Hk Hn. unfold Log2_64_Ceil, countLeadingZeros64.
  rewrite (Z.mod_small (Z.of_nat n - 1)) by lia.
  destruct (bool_decide_reflect (Z.of_nat n - 1 = 0)%Z) as [Hone|Hmore].
  - replace (64 - 64)%Z with 0%Z by lia. simpl.
    apply Z.mod_small. lia.
  - pose proof (Z.log2_nonneg (Z.of_nat n - 1)) as Hlog.
    rewrite Z2N.id by lia.
    apply Z.mod_small. split; [lia|].
    destruct (Z.log2_spec (Z.of_nat n - 1)) as [_ Hup]; [lia|].
    replace (64 - (64 - (Z.log2 (Z.of_nat n - 1) + 1)))%Z
      with (Z.succ (Z.log2 (Z.of_nat n - 1))) by lia.
    lia.
Qed.

Lemma cloneAccess_withOp id op rhs ty s :
  ops s !! id = Some op →
  accessType (opName op) (getType rhs) = Some ty →
  (opName op = SubaccessOp → is_Some (operands op !! 1)) →
  cloneAccess id rhs s
  = Ok (mkValue (OpResult (nextId s) 0) ty, withOp s (cloneOf op rhs ty)).
Proof.
  intros Hop Hty Harity. unfold cloneAccess, mbind, M_bind, getOp.
  rewrite Hop. unfold cloneOf.
  destruct (opName op) as [| |i|i| | | | | | | | | | |] eqn:Hname; try done;
    simpl in Hty.
  - unfold createSubfieldOp. destruct (getType rhs) as [| elements |]; try done.
    destruct (elements !! i) as [elt|]; [|done]. simpl in Hty.
    simplify_eq. done.
  - unfold createSubindexOp. destruct (getType rhs) as [| | elt n]; try done.
    destruct (bool_decide (i < n)); [|done]. simplify_eq. done.
  - destruct Harity as [idx Hidx]; [done|].
    unfold getOperand. rewrite Hidx. simpl.
    unfold createSubaccessOp. destruct (getType rhs) as [| | elt n]; try done.
    simplify_eq. rewrite createValue_withOp. do 3 f_equal.
    destruct (operands op) as [|? [|? ?]]; simplify_eq/=; done.
Qed.

Lemma clones_length base ty path ty' :
  pathType ty path = Some ty' → length (clones base ty path) = length path.
Proof.
  revert base ty. induction path as [|op path IH]; intros base ty Hty; [done|].
  simpl in *. destruct (accessType (opName op) ty) as [ty1|]; [|done].
  simpl in *. f_equal. by apply IH.
Qed.

Lemma pathType_app ty path1 path2 :
  pathType ty (path1 ++ path2) = ty' ← pathType ty path1; pathType ty' path2.
Proof.
  revert ty. induction path1 as [|op path1 IH]; intros ty; [done|].
  simpl. destruct (accessType (opName op) ty); simpl; [apply IH|done].
Qed.

Lemma clones_lookup base ty path j op tyIn tyOut :
  path !! j = Some op →
  pathType ty (take j path) = Some tyIn →
  accessType (opName op) tyIn = Some tyOut →
  clones base ty path !! j
  = Some (cloneOf op (mkValue (OpResult (base + j) 0) tyIn) tyOut).
Proof.
  revert base ty j. induction path as [|op' path IH]; intros base ty j Hj Hin Hout;
    [done|].
  destruct j as [|j]; simpl in *.
  - simplify_eq. rewrite Hout. simpl. by rewrite Nat.add_0_r.
  - destruct (accessType (opName op') ty) as [ty1|]; [|done]. simpl in *.
    rewrite (IH (S base) ty1 j) by done. do 4 f_equal. lia.
Qed.

Lemma pathType_lookup ty path ty' j op :
  pathType ty path = Some ty' → path !! j = Some op →
  ∃ tyIn tyOut, pathType ty (take j path) = Some tyIn ∧
                accessType (opName op) tyIn = Some tyOut.
Proof.
  intros Hty Hj. rewrite <-(take_drop_middle _ _ _ Hj), pathType_app in Hty.
  destruct (pathType ty (take j path)) as [tyIn|]; [|done].
  simpl in Hty.
  destruct (accessType (opName op) tyIn) as [tyOut|] eqn:Hout; [|done].
  eauto.
Qed.

(** The loop of [lowerSAWritePath] that recreates the write path. *)
Lemma foldEachM_cloneAccess path pathOps :
  Forall2 (λ id op, opName op = SubaccessOp → is_Some (operands op !! 1))
    path pathOps →
  ∀ s base ty ty',
    Forall2 (λ id op, ops s !! id = Some op ∧ id < nextId s) path pathOps →
    pathType ty pathOps = Some ty' →
    nextId s = S base →
    foldEachM (λ leaf accessor, cloneAccess accessor leaf)
      (mkValue (OpResult base 0) ty) path s
    = Ok (mkValue (OpResult (base + length path) 0) ty',
          emit s (clones base ty pathOps)).
Proof.
  induction 1 as [|id op path pathOps Harity _ IH];
    intros s base ty ty' Hlive Hty Hnext.
  - simpl in *. simplify_eq. by rewrite Nat.add_0_r.
  - apply Forall2_cons in Hlive as [[Hop Hid] Hlive]. simpl in Hty.
    destruct (accessType (opName op) ty) as [ty1|] eqn:Hty1; [|done].
    simpl in Hty. cbn [foldEachM clones]. rewrite Hty1.
    unfold mbind at 1, M_bind at 1.
    rewrite (cloneAccess_withOp id op _ ty1) by done.
    rewrite Hnext.
    rewrite (IH (withOp s (cloneOf op (mkValue (OpResult base 0) ty) ty1))
               (S base) ty1 ty'); [| |done|simpl; lia].
    + simpl. do 4 f_equal. lia.
    + eapply Forall2_impl; [exact Hlive|]. intros id' op' [Hop' Hid']. simpl.
      split; [|lia]. rewrite lookup_insert_ne by lia. done.
Qed.

Lemma Forall2_rev {A B} (P : A → B → Prop) l k :
  Forall2 P l k → Forall2 P (rev l) (rev k).
Proof. rewrite !rev_alt. apply Forall2_reverse. Qed.

Lemma withOp_setInserted s l op :
  withOp (setInserted s l) op = setInserted (withOp s op) (l ++ [nextId s]).
Proof. done. Qed.

Section dynamic_write.
Variables (op : Operation) (src idx input : Value).
Variables (elementType destType : FIRRTLType) (n : nat).
Variables (below : list nat) (belowOps : list Operation).

Hypothesis Hsrc : operands op !! 1 = Some src.
Hypothesis Hinput : getType input = FVectorType elementType n.
Hypothesis Hsize : (Z.of_nat n ≤ 2 ^ 64)%Z.
Hypothesis Harity :
  Forall2 (λ id op, opName op = SubaccessOp → is_Some (operands op !! 1))
    below belowOps.
Hypothesis Htyped : pathType elementType (rev belowOps) = Some destType.

Lemma stable_emit t created :
  stable below belowOps t → stable below belowOps (emit t created).
Proof.
  intros Hstable. eapply Forall2_impl; [exact Hstable|].
  intros id op' [Hop Hid]. simpl in *.
  rewrite emit_lookup_old, emit_nextId by done. split; [done|lia].
Qed.

Lemma writeBody_emit t k :
  k < n → stable below belowOps t →
  (leaf ← createSubindexOp input k;
   leaf ← foldEachM (λ leaf accessor, cloneAccess accessor leaf) leaf
            (rev below);
   src ← getOperand op 1;
   emitConnect leaf src) t
  = Ok ((),
        emit t
          (subindexOf input elementType k ::
           clones (nextId t) elementType (rev belowOps) ++
           [mkOperation ConnectOp
              [mkValue (OpResult (nextId t + length belowOps) 0) destType;
               src] [] [] noAttrs])).
Proof.
  intros Hk Hstable.
  unfold mbind at 1, M_bind at 1. unfold createSubindexOp.
  rewrite Hinput, bool_decide_eq_true_2 by done.
  rewrite createValue_withOp. cbn beta iota.
  unfold mbind at 1, M_bind at 1.
  rewrite (foldEachM_cloneAccess (rev below) (rev belowOps)
             (Forall2_rev _ _ _ Harity) _ (nextId t) elementType destType);
    [|apply Forall2_rev|done|done].
  - cbn beta iota. unfold mbind at 1, M_bind at 1, getOperand.
    rewrite Hsrc. simpl. rewrite emitConnect_withOp.
    rewrite length_rev, (Forall2_length _ _ _ Harity).
    unfold subindexOf. rewrite emit_app. done.
  - eapply Forall2_impl; [exact Hstable|]. intros id op' [Hop Hid]. simpl.
    split; [|lia]. rewrite lookup_insert_ne by lia. done.
Qed.

Lemma writeElement_length b k :
  length (writeElement src idx input elementType destType n belowOps b k)
  = length belowOps + 5.
Proof.
  unfold writeElement. simpl. rewrite length_app.
  rewrite (clones_length _ _ _ destType) by done.
  rewrite length_rev. simpl. lia.
Qed.

Lemma writeElement_body b k :
  writeElement src idx input elementType destType n belowOps b k
  = [mkOperation (ConstantOp (Z.of_nat k)) []
       [UIntType (Z.to_N (Log2_64_Ceil (Z.of_nat n)))] [] noAttrs;
     mkOperation EQPrimOp
       [idx; mkValue (OpResult b 0)
               (UIntType (Z.to_N (Log2_64_Ceil (Z.of_nat n))))]
       [UIntType 1] [] noAttrs] ++
    (subindexOf input elementType k ::
     clones (S (S b)) elementType (rev belowOps) ++
     [mkOperation ConnectOp
        [mkValue (OpResult (S (S b) + length belowOps) 0) destType; src]
        [] [] noAttrs]) ++
    [mkOperation WhenOp [mkValue (OpResult (S b) 0) (UIntType 1)] []
       [seq (S (S b)) (S (length (clones (S (S b)) elementType (rev belowOps)
                                   ++ [mkOperation ConnectOp
        [mkValue (OpResult (S (S b) + length belowOps) 0) destType; src]
        [] [] noAttrs])))]
       noAttrs].
Proof.
  unfold writeElement. rewrite length_app.
  rewrite (clones_length _ _ _ destType) by done. rewrite length_rev.
  simpl. replace (b + 2) with (S (S b)) by lia.
  replace (b + 1) with (S b) by lia.
  replace (length belowOps + 1) with (S (length belowOps)) by lia.
  replace (length belowOps + 2) with (S (S (length belowOps))) by lia.
  rewrite <-app_assoc. done.
Qed.

Lemma writeStep_emit t k :
  k < n → stable below belowOps t →
  (constant ← createConstantOp (Z.to_N (Log2_64_Ceil (Z.of_nat n)))
                (Z.of_nat k);
   cond ← createEQPrimOp idx constant;
   createWhenOp cond
     (leaf ← createSubindexOp input k;
      leaf ← foldEachM (λ leaf accessor, cloneAccess accessor leaf) leaf
               (rev below);
      src ← getOperand op 1;
      emitConnect leaf src);;
   mret ()) t
  = Ok ((),
        setInserted
          (emit t (writeElement src idx input elementType destType n
                     belowOps (nextId t) k))
          (inserted t ++ writeElementTop (length belowOps) (nextId t))).
Proof.
  intros Hk Hstable. unfold createConstantOp, createEQPrimOp.
  rewrite Log2_64_Ceil_fits by done.
  unfold mbind at 1, M_bind at 1. rewrite createValue_withOp. cbn beta iota.
  unfold mbind at 1, M_bind at 1. rewrite createValue_withOp. cbn beta iota.
  unfold mbind at 1, M_bind at 1, createWhenOp.
  rewrite writeBody_emit; [|done|]; last first.
  { apply (stable_emit t [_; _]). done. }
  cbn beta iota. rewrite emit_setInserted, setInserted_setInserted.
  rewrite createOp_withOp. cbn beta iota. unfold mret, M_ret.
  rewrite withOp_setInserted. rewrite writeElement_body.
  rewrite !emit_app. cbn [inserted setInserted nextId withOp app].
  rewrite emit_nextId. cbn [emit foldl nextId withOp].
  do 3 f_equal.
  rewrite <-!app_assoc. unfold writeElementTop. cbn [app length].
  rewrite length_app, (clones_length _ _ _ destType) by done.
  rewrite length_rev. simpl. do 3 f_equal; [lia|]. f_equal. lia.
Qed.

Lemma writeLoop_emit base len : ∀ a t,
  a + len ≤ n → stable below belowOps t →
  nextId t = base + (length belowOps + 5) * a →
  forEachM
    (λ index,
       constant ← createConstantOp (Z.to_N (Log2_64_Ceil (Z.of_nat n)))
                    (Z.of_nat index);
       cond ← createEQPrimOp idx constant;
       createWhenOp cond
         (leaf ← createSubindexOp input index;
          leaf ← foldEachM (λ leaf accessor, cloneAccess accessor leaf) leaf
                   (rev below);
          src ← getOperand op 1;
          emitConnect leaf src);;
       mret ())
    (seq a len) t
  = Ok ((),
        setInserted
          (emit t (writeElements src idx input elementType destType n
                     belowOps base (seq a len)))
          (inserted t ++ writeElementsTop (length belowOps) base (seq a len))).
Proof.
  induction len as [|len IH]; intros a t Ha Hstable Hnext.
  - simpl. unfold mret, M_ret. rewrite app_nil_r. by destruct t.
  - cbn [seq forEachM]. unfold mbind at 1, M_bind at 1.
    rewrite writeStep_emit by (done || lia). cbn beta iota.
    rewrite IH; [|lia|by apply stable_emit|]; last first.
    { change (nextId (setInserted ?x ?l)) with (nextId x).
      rewrite emit_nextId, writeElement_length. lia. }
    rewrite emit_setInserted, setInserted_setInserted.
    unfold writeElements, writeElementsTop. cbn [fmap list_fmap concat].
    rewrite emit_app, <-Hnext. cbn [inserted setInserted].
    by rewrite <-app_assoc.
Qed.
End dynamic_write.

Lemma lowerSAWritePath_emit s op src sao saoId idx input elt destType n below
    belowOps :
  operands op !! 1 = Some src →
  ops s !! saoId = Some sao → opName sao = SubaccessOp →
  operands sao !! 0 = Some input → operands sao !! 1 = Some idx →
  getType input = FVectorType elt n →
  (Z.of_nat n ≤ 2 ^ 64)%Z →
  Forall2 (λ id op, opName op = SubaccessOp → is_Some (operands op !! 1))
    below belowOps →
  pathType elt (rev belowOps) = Some destType →
  stable below belowOps s →
  lowerSAWritePath op (below ++ [saoId]) s
  = Ok ((),
        setInserted
          (emit s (writeElements src idx input elt destType n belowOps
                     (nextId s) (seq 0 n)))
          (inserted s ++ writeElementsTop (length belowOps) (nextId s)
                           (seq 0 n))).
Proof.
  intros Hsrc Hsao Hname Hin Hidx Hty Hsize Harity Htyped Hstable.
  unfold lowerSAWritePath. rewrite last_snoc, removelast_last.
  unfold mbind at 1, M_bind at 1, getOp. rewrite Hsao.
  rewrite Hname, bool_decide_eq_true_2 by done. cbn [negb].
  unfold mbind at 1, M_bind at 1, getOperand at 1. rewrite Hin. simpl.
  unfold mbind at 1, M_bind at 1, getOperand at 1. rewrite Hidx. simpl.
  rewrite Hty. unfold mbind at 1, M_bind at 1. simpl.
  apply (writeLoop_emit op src idx input elt destType n below belowOps);
    try done; lia.
Qed.

Lemma deleteAll_lookup erased store id :
  deleteAll erased store !! id
  = if decide (id ∈ erased) then None else store !! id.
Proof.
  revert store. induction erased as [|e erased IH]; intros store.
  - by rewrite decide_False by apply not_elem_of_nil.
  - unfold deleteAll in *. simpl. rewrite IH.
    destruct (decide (id ∈ erased)) as [Hin|Hnotin].
    + rewrite decide_True by (by right). done.
    + destruct (decide (id = e)) as [->|Hne].
      * rewrite decide_True by left. apply lookup_delete_eq.
      * rewrite decide_False by (intros [?|?]%elem_of_cons; done).
        by apply lookup_delete_ne.
Qed.

(** The loop at the end of [processSAPath] erases a prefix of the path
    and stops at the first accessor that has a use left. *)
Lemma eraseUnused_prefix path : ∀ t,
  ∃ erased kept,
    path = erased ++ kept ∧
    eraseUnused path t = Ok ((), setOps t (deleteAll erased (ops t))) ∧
    ∀ id, head kept = Some id →
          use_empty (setOps t (deleteAll erased (ops t))) id = false.
Proof.
  induction path as [|id path IH]; intros t.
  - exists [], []. split; [done|]. split; [|done].
    simpl. unfold mret, M_ret. by destruct t.
  - simpl. unfold mbind at 1, M_bind at 1, getState.
    destruct (use_empty t id) eqn:Hdead.
    + destruct (IH (setOps t (delete id (ops t))))
        as (erased & kept & -> & Hrun & Hkept).
      exists (id :: erased), kept. split; [done|]. split; [|exact Hkept].
      unfold mbind, M_bind, eraseOp. exact Hrun.
    + exists [], (id :: path). split; [done|]. split.
      * unfold mret, M_ret. by destruct t.
      * intros id' [= <-]. simpl. by destruct t.
Qed.

Lemma concat_fmap_seq_lookup {B} (f : nat → list B) stride n k j :
  (∀ i, length (f i) = stride) → k < n → j < stride →
  concat (f <$> seq 0 n) !! (stride * k + j) = f k !! j.
Proof.
  intros Hlen Hk Hj. rewrite <-imap_const.
  apply (concat_imap_lookup (const f) (seq 0 n) stride k j k);
    [intros; apply Hlen|by apply lookup_seq_lt|done].
Qed.

Lemma concat_fmap_seq_length {B} (f : nat → list B) stride n :
  (∀ i, length (f i) = stride) →
  length (concat (f <$> seq 0 n)) = stride * n.
Proof.
  intros Hlen. rewrite <-imap_const.
  rewrite (concat_imap_length (const f) (seq 0 n) stride)
    by (intros; apply Hlen).
  by rewrite length_seq.
Qed.

Lemma use_empty_false s id :
  use_empty s id = false ↔
  ∃ uid user, ops s !! uid = Some user ∧ usesResultOf id user.
Proof.
  unfold use_empty. rewrite bool_decide_eq_false, map_not_Forall by apply _.
  split; intros (uid & user & Huser & Huses); exists uid, user;
    (split; [done|]).
  - by apply dec_stable.
  - tauto.
Qed.

Lemma AccessChain_uses store v path1 a b path2 :
  AccessChain store v (path1 ++ a :: b :: path2) →
  ∃ opa, store !! a = Some opa ∧ usesResultOf b opa.
Proof.
  intros Hchain.
  apply AccessChain_suffix in Hchain as (opa & v' & Hopa & Hv' & _ & Hchain).
  exists opa. split; [done|].
  inversion Hchain as [|? ? opb ? ? Hdef _ _ _]; subst.
  apply Exists_exists. exists v'. split; [by eapply list_elem_of_lookup_2|].
  unfold getDefiningOp in Hdef. destruct (valueDef v') as [|owner res]; [done|].
  destruct (store !! owner); simplify_eq/=. eauto.
Qed.

Lemma processSAPath_expands opId op path s :
  ops s !! opId = Some op → getSAWritePath op s = Ok (path, s) → path ≠ [] →
  processSAPath opId s
  = (lowerSAWritePath op path;; eraseOperands opId 0 2;;
     eraseUnused path;; mret true) s.
Proof.
  intros Hop Hpath Hne. unfold processSAPath.
  unfold mbind at 1, M_bind at 1, getOp. rewrite Hop.
  unfold mbind at 1, M_bind at 1. rewrite Hpath. by destruct path.
Qed.

(** The visit of a connect whose destination goes through the dynamic
    access [saoId]. *)
Lemma processSAPath_dynamic s opId op dest src below belowOps saoId above
    input idx elt n :
  ops s !! opId = Some op → opId < nextId s →
  operands op = [dest; src] →
  AccessChain (ops s) dest (below ++ saoId :: above) →
  dynamicAccess (ops s) saoId input idx elt n →
  Forall (staticAccess (ops s)) above →
  Forall2 (λ id bop, opName bop = SubaccessOp → is_Some (operands bop !! 1))
    below belowOps →
  stable below belowOps s →
  pathType elt (rev belowOps) = Some (getType dest) →
  (Z.of_nat n ≤ 2 ^ 64)%Z →
  ∃ erased kept s',
    below ++ [saoId] = erased ++ kept ∧
    processSAPath opId s = Ok (true, s') ∧
    ops s'
    = deleteAll erased
        (alter (λ op, setOperands op []) opId
           (ops (emit s (writeElements src idx input elt (getType dest) n
                           belowOps (nextId s) (seq 0 n))))) ∧
    nextId s' = nextId s + (length belowOps + 5) * n ∧
    inserted s'
    = inserted s ++ writeElementsTop (length belowOps) (nextId s) (seq 0 n) ∧
    visitor s' = visitor s ∧
    ∀ id, head kept = Some id → use_empty s' id = false.
Proof.
  intros Hop Hid Hoperands Hchain Hdyn Hstatic Harity Hstable Htyped Hsize.
  pose proof Hdyn as (sao & Hsao & Hname & Hin & Hidx & Hty & _).
  assert (operands op !! 0 = Some dest) as Hdest by (by rewrite Hoperands).
  assert (operands op !! 1 = Some src) as Hsrc by (by rewrite Hoperands).
  set (created := writeElements src idx input elt (getType dest) n belowOps
                    (nextId s) (seq 0 n)).
  set (t1 := setInserted (emit s created)
               (inserted s ++ writeElementsTop (length belowOps) (nextId s)
                                (seq 0 n))).
  set (t2 := setOps t1 (alter (λ op, setOperands op []) opId (ops t1))).
  destruct (eraseUnused_prefix (below ++ [saoId]) t2)
    as (erased & kept & Hsplit & Herase & Hkept).
  exists erased, kept, (setOps t2 (deleteAll erased (ops t2))).
  split; [done|].
  split; [|split; [|split; [|split; [|split; [|exact Hkept]]]]].
  all: try done.
  - rewrite (processSAPath_expands opId op (below ++ [saoId]));
      [|done| |by destruct below]; last first.
    { by apply (getSAWritePath_dynamic s op dest below saoId above input idx
                  elt n). }
    unfold mbind at 1, M_bind at 1.
    rewrite (lowerSAWritePath_emit s op src sao saoId idx input elt
               (getType dest) n below belowOps)
      by done.
    fold created. fold t1.
    unfold mbind at 1, M_bind at 1.
    assert (eraseOperands opId 0 2 t1 = Ok ((), t2)) as ->.
    { unfold eraseOperands, t2. do 3 f_equal.
      apply map_eq. intros id. destruct (decide (id = opId)) as [->|Hne].
      - rewrite !lookup_alter_eq. unfold t1. simpl.
        rewrite emit_lookup_old, Hop by done.
        simpl. by rewrite Hoperands.
      - by rewrite !lookup_alter_ne. }
    unfold mbind at 1, M_bind at 1. rewrite Herase. done.
  - simpl. rewrite emit_nextId. unfold created, writeElements.
    rewrite (concat_fmap_seq_length _ (length belowOps + 5)); [done|].
    intros i. by apply writeElement_length.
  - simpl. apply emit_visitor.
Qed.

Lemma writeElement_lookup_clone src idx input elt destType n belowOps b k j cl :
  clones (b + 2) elt (rev belowOps) !! j = Some cl →
  writeElement src idx input elt destType n belowOps b k !! (3 + j) = Some cl.
Proof.
  intros Hcl. unfold writeElement. cbv zeta.
  rewrite lookup_app_r by (simpl; lia). simpl.
  replace (j - 0) with j by lia. by apply lookup_app_l_Some.
Qed.

Lemma writeElement_lookup_tail src idx input elt destType n belowOps b k :
  pathType elt (rev belowOps) = Some destType →
  let m := length belowOps in
  writeElement src idx input elt destType n belowOps b k !! (3 + m)
  = Some (mkOperation ConnectOp
            [mkValue (OpResult (b + 2 + m) 0) destType; src] [] [] noAttrs) ∧
  writeElement src idx input elt destType n belowOps b k !! (4 + m)
  = Some (mkOperation WhenOp [mkValue (OpResult (b + 1) 0) (UIntType 1)] []
            [seq (b + 2) (m + 2)] noAttrs).
Proof.
  intros Htyped m. unfold writeElement. cbv zeta.
  assert (length (clones (b + 2) elt (rev belowOps)) = m) as Hlen
    by by rewrite (clones_length _ _ _ destType), length_rev.
  split.
  - rewrite lookup_app_r by (simpl; lia).
    rewrite lookup_app_r by (simpl; lia). rewrite Hlen.
    match goal with |- _ !! ?i = _ => replace i with 0 by (simpl; lia) end.
    done.
  - rewrite lookup_app_r by (simpl; lia).
    rewrite lookup_app_r by (simpl; lia). rewrite Hlen.
    match goal with |- _ !! ?i = _ => replace i with 1 by (simpl; lia) end.
    done.
Qed.

(** C6 (amended): for every connect (strict or not) of [src] to a
    destination that goes through the accessors [below], whatever they
    are, and then the dynamic access [saoId] into the vector [input] of
    [n] elements indexed by [idx], which is the outermost dynamic access
    of the destination (static accessors only stand between the vector
    and its root), the walk
    deletes the connect and creates, for each [k] in [0 .. n - 1] in
    turn, the constant [k], the equality test of [idx] against that
    constant, and one conditional block guarded by the test; the region
    of the block holds the static access to element [k] of [input], the
    clones of the accessors [below] on it (the one nearest to the vector
    first) and exactly one connect of [src] to the value reached.  No
    other operation is created; the [n] constants, tests and blocks
    stand where the connect stood.  Of the accessors of the write path,
    none is left without a use, and nothing else is touched. *)
Theorem dynamic_write_lowered
    (lowerBlock : list nat → M (list nat)) (opts : LowerTypesOptions)
    (module : string) (s : IRState) (opId : nat) (op : Operation)
    (dest src : Value) (below : list nat) (belowOps : list Operation)
    (saoId : nat) (above : list nat) (input idx : Value)
    (elementType : FIRRTLType) (n : nat) :
  ops s !! opId = Some op →
  opName op = ConnectOp ∨ opName op = StrictConnectOp →
  operands op = [dest; src] →
  AccessChain (ops s) dest (below ++ saoId :: above) →
  dynamicAccess (ops s) saoId input idx elementType n →
  Forall (staticAccess (ops s)) above →
  Forall2 (λ id bop, ops s !! id = Some bop ∧
                     (opName bop = SubaccessOp →
                      is_Some (operands bop !! 1))) below belowOps →
  pathType elementType (rev belowOps) = Some (getType dest) →
  wfIds s →
  (Z.of_nat n ≤ 2 ^ 64)%Z →
  let m := length below in
  let b k := nextId s + (m + 5) * k in
  let width := Z.to_N (Log2_64_Ceil (Z.of_nat n)) in
  ∃ s',
    lowerOp lowerBlock opts module opId s
    = Ok ((true, concat ((λ k, [b k; b k + 1; b k + m + 4]) <$> seq 0 n)),
          s') ∧
    nextId s' = nextId s + (m + 5) * n ∧
    ops s' !! opId = None ∧
    (∀ k, k < n →
       ops s' !! (b k)
       = Some (mkOperation (ConstantOp (Z.of_nat k)) [] [UIntType width] []
                 noAttrs) ∧
       ops s' !! (b k + 1)
       = Some (mkOperation EQPrimOp
                 [idx; mkValue (OpResult (b k) 0) (UIntType width)]
                 [UIntType 1] [] noAttrs) ∧
       ops s' !! (b k + 2) = Some (subindexOf input elementType k) ∧
       (∀ j bop, rev belowOps !! j = Some bop →
          ∃ tyIn tyOut,
            pathType elementType (take j (rev belowOps)) = Some tyIn ∧
            accessType (opName bop) tyIn = Some tyOut ∧
            ops s' !! (b k + 3 + j)
            = Some (cloneOf bop (mkValue (OpResult (b k + 2 + j) 0) tyIn)
                      tyOut)) ∧
       ops s' !! (b k + 3 + m)
       = Some (mkOperation ConnectOp
                 [mkValue (OpResult (b k + 2 + m) 0) (getType dest); src]
                 [] [] noAttrs) ∧
       ops s' !! (b k + 4 + m)
       = Some (mkOperation WhenOp
                 [mkValue (OpResult (b k + 1) 0) (UIntType 1)] []
                 [seq (b k + 2) (m + 2)] noAttrs)) ∧
    (∀ id, id ∈ below ++ [saoId] →
           ops s' !! id = None ∨ use_empty s' id = false) ∧
    (∀ id, id < nextId s → id ≠ opId → id ∉ below ++ [saoId] →
           ops s' !! id = ops s !! id).
Proof.
  intros Hop Hname Hoperands Hchain Hdyn Hstatic Hbelow Htyped Hwf Hsize
    m b width.
  assert (stable below belowOps s) as Hstable.
  { eapply Forall2_impl; [exact Hbelow|]. intros id bop [Hbop _]. simpl.
    split; [done|]. by apply (Hwf id bop). }
  assert (Forall2 (λ (id : nat) bop, opName bop = SubaccessOp →
                                     is_Some (operands bop !! 1))
            below belowOps) as Harity.
  { eapply Forall2_impl; [exact Hbelow|]. by intros id bop [_ ?]. }
  assert (length belowOps = m) as Hm
    by (symmetry; by eapply Forall2_length).
  assert (opId < nextId s) as Hid by by apply (Hwf opId op).
  assert (∀ id, id ∈ below ++ [saoId] → id < nextId s) as Hold.
  { intros id Hin.
    assert (id ∈ below ++ saoId :: above) as Hin'.
    { rewrite cons_middle, app_assoc. apply elem_of_app. by left. }
    destruct (AccessChain_live _ _ _ _ Hchain Hin') as [aop Haop].
    by apply (Hwf id aop). }
  assert (opId ∉ below ++ [saoId]) as Hconnect.
  { intros Hin. apply list_elem_of_split in Hin as (l1 & l2 & Hsplit).
    rewrite cons_middle, app_assoc, Hsplit, <-app_assoc in Hchain.
    simpl in Hchain.
    apply AccessChain_suffix in Hchain as (aop & _ & Haop & _ & Hacc & _).
    rewrite Hop in Haop. simplify_eq. by destruct Hname as [Hn|Hn];
      rewrite Hn in Hacc. }
  assert (NoDup (below ++ [saoId])) as Hnodup.
  { pose proof (AccessChain_NoDup _ _ _ Hchain) as Hnd.
    rewrite cons_middle, app_assoc in Hnd. by apply NoDup_app in Hnd as [? _]. }
  destruct (processSAPath_dynamic (setInserted s []) opId op dest src below
              belowOps saoId above input idx elementType n)
    as (erased & kept & s1 & Hsplit & Hrun & Hops & Hnext & Hins & Hvis
        & Hkept); try done.
  change (nextId (setInserted s [])) with (nextId s) in *.
  destruct (emit_setInserted_ops s []
              (writeElements src idx input elementType (getType dest) n
                 belowOps (nextId s) (seq 0 n))) as (Hemit & _ & _).
  rewrite Hemit in Hops. clear Hemit. rewrite Hm in *.
  set (created := writeElements src idx input elementType (getType dest) n
                    belowOps (nextId s) (seq 0 n)) in *.
  assert (dispatchVisitor lowerBlock opts module opId (setInserted s [])
          = Ok (true, s1)) as Hvisit.
  { unfold dispatchVisitor. unfold mbind at 1, M_bind at 1, getOp.
    change (ops (setInserted s [])) with (ops s). rewrite Hop.
    destruct Hname as [-> | ->].
    - unfold visitStmt_ConnectOp. unfold mbind at 1, M_bind at 1.
      by rewrite Hrun.
    - unfold visitStmt_StrictConnectOp. unfold mbind at 1, M_bind at 1.
      by rewrite Hrun. }
  assert (∀ id, id ∈ erased → id ∈ below ++ [saoId]) as Herased.
  { intros id Hin. rewrite Hsplit. apply elem_of_app. by left. }
  assert (∀ id, id ≠ opId → id ∉ erased →
                ops (afterErase s1 opId) !! id = ops (emit s created) !! id)
    as Hkeep.
  { intros id Hne Hnot. simpl. rewrite lookup_delete_ne by done.
    rewrite Hops, deleteAll_lookup, decide_False by done.
    by rewrite lookup_alter_ne. }
  assert (∀ k j o, k < n →
            writeElement src idx input elementType (getType dest) n belowOps
              (b k) k !! j = Some o →
            ops (afterErase s1 opId) !! (b k + j) = Some o) as Hnew.
  { intros k j o Hk Hj.
    pose proof (lookup_lt_Some _ _ _ Hj) as Hlt.
    rewrite (writeElement_length src idx input elementType (getType dest) n
               belowOps Htyped), Hm in Hlt.
    rewrite Hkeep; [|unfold b; lia|]; last first.
    { intros Hin. apply Herased, Hold in Hin. unfold b in Hin. lia. }
    unfold b. rewrite <-Nat.add_assoc. apply emit_lookup_new.
    unfold created, writeElements. rewrite Hm.
    rewrite (concat_fmap_seq_lookup _ (m + 5) n k j); [done| |done|done].
    intros i.
    by rewrite (writeElement_length src idx input elementType (getType dest)
                  n belowOps Htyped), Hm. }
  exists (afterErase s1 opId). split; [|split; [|split; [|split; [|split]]]].
  - rewrite (lowerOp_erases _ _ _ _ _ s1) by done. rewrite Hins.
    unfold writeElementsTop, writeElementTop. done.
  - simpl. exact Hnext.
  - simpl. apply lookup_delete_eq.
  - intros k Hk.
    destruct (writeElement_lookup_tail src idx input elementType
                (getType dest) n belowOps (b k) k Htyped) as [Hcon Hwhen].
    rewrite Hm in Hcon, Hwhen.
    split; [|split; [|split; [|split; [|split]]]].
    + rewrite <-(Nat.add_0_r (b k)) at 1. by apply (Hnew k 0).
    + by apply (Hnew k 1).
    + by apply (Hnew k 2).
    + intros j bop Hj.
      destruct (pathType_lookup _ _ _ _ _ Htyped Hj)
        as (tyIn & tyOut & HtyIn & HtyOut).
      exists tyIn, tyOut. split; [done|]. split; [done|].
      rewrite <-Nat.add_assoc. apply (Hnew k (3 + j)); [done|].
      apply writeElement_lookup_clone.
      by rewrite (clones_lookup _ _ _ _ bop tyIn tyOut).
    + rewrite <-Nat.add_assoc. by apply (Hnew k (3 + m)).
    + rewrite <-Nat.add_assoc. by apply (Hnew k (4 + m)).
  - intros id Hin.
    destruct (decide (id ∈ erased)) as [Hdel|Hlive].
    { left. simpl. rewrite lookup_delete_ne by (intros ->; done).
      by rewrite Hops, deleteAll_lookup, decide_True. }
    right. apply use_empty_false.
    rewrite Hsplit in Hin, Hnodup.
    apply elem_of_app in Hin as [Hin|Hin]; [done|].
    apply NoDup_app in Hnodup as (_ & Hdisjoint & Hnodup).
    apply list_elem_of_split in Hin as (l1 & l2 & Hk).
    destruct l1 as [|first l1 _] using rev_ind.
    + simpl in Hk.
      assert (use_empty s1 id = false) as Hused
        by (apply Hkept; by rewrite Hk).
      apply use_empty_false in Hused as (uid & user & Huser & Huses).
      exists uid, user. split; [|done]. simpl.
      rewrite lookup_delete_ne; [done|]. intros <-.
      rewrite Hops, deleteAll_lookup in Huser.
      destruct (decide (opId ∈ erased)); [done|].
      rewrite lookup_alter_eq in Huser.
      destruct (ops (emit s created) !! opId); simplify_eq/=.
      by apply Exists_nil in Huses.
    + rewrite cons_middle, app_assoc, Hsplit, Hk in Hchain.
      rewrite <-!app_assoc in Hchain. simpl in Hchain.
      rewrite app_assoc in Hchain.
      apply AccessChain_uses in Hchain as (opa & Hopa & Huses).
      exists first, opa. split; [|done].
      assert (first ∈ kept) as Hfirst.
      { rewrite Hk. apply elem_of_app. left. apply elem_of_app. right.
        apply list_elem_of_singleton. done. }
      assert (first ∈ below ++ [saoId]) as Hpath.
      { rewrite Hsplit. apply elem_of_app. by right. }
      rewrite Hkeep.
      * rewrite emit_lookup_old; [done|]. by apply Hold.
      * intros ->. done.
      * intros Hin. by apply (Hdisjoint first).
  - intros id Hlt Hne Hnot. rewrite Hkeep; [|done|].
    + by apply emit_lookup_old.
    + intros Hin. by apply Hnot, Herased.
Qed.

(** The connect of [x] to [vec[i].b], [vec] having two elements, becomes
    two conditional blocks: under [i == 0] the connect of [x] to
    [vec[0].b] and under [i == 1] the connect of [x] to [vec[1].b]; the
    connect and the two accessors of its destination are deleted. *)
Lemma dynamic_write_lowered_witness :
  let vec := mkValue (OpResult 0 0) exampleWriteVector in
  let i := mkValue (OpResult 1 0) (UIntType 1) in
  let x := mkValue (OpResult 4 0) uint1 in
  let test id := mkValue (OpResult id 0) (UIntType 1) in
  ∃ s',
    lowerOp noLowerBlock exampleOptions "Top" 5 exampleWriteStore
    = Ok ((true, [6; 7; 11; 12; 13; 17]), s') ∧
    ops s' !! 5 = None ∧ ops s' !! 3 = None ∧ ops s' !! 2 = None ∧
    (opName <$> ops s' !! 6) = Some (ConstantOp 0) ∧
    ops s' !! 7
    = Some (mkOperation EQPrimOp [i; test 6] [UIntType 1] [] noAttrs) ∧
    ops s' !! 8 = Some (subindexOf vec exampleBundle 0) ∧
    ops s' !! 9
    = Some (mkOperation (SubfieldOp 1)
              [mkValue (OpResult 8 0) exampleBundle] [uint1] [] noAttrs) ∧
    ops s' !! 10
    = Some (mkOperation ConnectOp [mkValue (OpResult 9 0) uint1; x] [] []
              noAttrs) ∧
    ops s' !! 11
    = Some (mkOperation WhenOp [test 7] [] [[8; 9; 10]] noAttrs) ∧
    (opName <$> ops s' !! 12) = Some (ConstantOp 1) ∧
    ops s' !! 14 = Some (subindexOf vec exampleBundle 1) ∧
    ops s' !! 17
    = Some (mkOperation WhenOp [test 13] [] [[14; 15; 16]] noAttrs).
Proof.
  intros vec i x test.
  pose (sao := mkOperation SubaccessOp [vec; i] [exampleBundle] [] noAttrs).
  pose (field := mkOperation (SubfieldOp 1)
                   [mkValue (OpResult 2 0) exampleBundle] [uint1] [] noAttrs).
  destruct (dynamic_write_lowered noLowerBlock exampleOptions "Top"
              exampleWriteStore 5
              (mkOperation ConnectOp [mkValue (OpResult 3 0) uint1; x] [] []
                 noAttrs)
              (mkValue (OpResult 3 0) uint1) x [3] [field] 2 [] vec i
              exampleBundle 2)
    as (s' & Hrun & _ & Herased & Hwrites & _ & _).
  - reflexivity.
  - by left.
  - reflexivity.
  - apply (AccessChain_step _ _ 3 field (mkValue (OpResult 2 0) exampleBundle));
      [reflexivity..|].
    apply (AccessChain_step _ _ 2 sao vec); [reflexivity..|].
    apply AccessChain_end. intros id op Hdef. vm_compute in Hdef.
    by inversion Hdef.
  - exists sao. repeat split. by left.
  - constructor.
  - repeat constructor. intros Hname. discriminate Hname.
  - reflexivity.
  - apply (bool_decide_unpack _). vm_compute. exact I.
  - simpl. lia.
  - destruct (Hwrites 0 ltac:(lia)) as (Hc0 & He0 & Hs0 & Hcl0 & Hcon0 & Hw0).
    destruct (Hwrites 1 ltac:(lia)) as (Hc1 & _ & Hs1 & _ & _ & Hw1).
    destruct (Hcl0 0 field eq_refl) as (tyIn & tyOut & HtyIn & HtyOut & Hf0).
    simpl in HtyIn. injection HtyIn as <-. simpl in HtyOut.
    injection HtyOut as <-.
    exists s'. split; [exact Hrun|]. split; [exact Herased|].
    assert (ops s' !! 3 = None ∧ ops s' !! 2 = None) as [Hd3 Hd2].
    { pose proof Hrun as Heval. vm_compute in Heval.
      injection Heval as <-. split; reflexivity. }
    split; [exact Hd3|]. split; [exact Hd2|].
    split; [exact (f_equal (fmap opName) Hc0)|].
    split; [exact He0|]. split; [exact Hs0|].
    split; [exact Hf0|]. split; [exact Hcon0|]. split; [exact Hw0|].
    split; [exact (f_equal (fmap opName) Hc1)|].
    split; [exact Hs1|exact Hw1].
Defined.

(** C6 (counterexample): the connect of [x] to [v[i][j]], [v] being a
    vector of three vectors of two elements.  The destination is itself
    the dynamic access by [j] into the vector [v[i]] of two elements,
    with no accessor between the two.  The visit of the connect creates
    three conditional blocks, not two, and they are guarded by the
    tests of [i], not of [j], against the constants 0, 1 and 2; the
    region of block [k] holds the static access [v[k]], the dynamic
    access by [j] into it and the connect of [x] to the latter.  The
    walk over the whole block keeps the three blocks where the connect
    stood and expands the connect of each into two blocks guarded by the
    tests of [j]: nine conditional blocks in all. *)
Lemma dynamic_write_keyed_on_outermost_index :
  let s := exampleNestedWriteStore in
  let v := mkValue (OpResult 0 0) exampleMatrix in
  let i := mkValue (OpResult 1 0) (UIntType 2) in
  let j := mkValue (OpResult 2 0) (UIntType 1) in
  let x := mkValue (OpResult 5 0) uint1 in
  let row id := mkValue (OpResult id 0) (FVectorType uint1 2) in
  let dest := mkValue (OpResult 4 0) uint1 in
  let const id := mkValue (OpResult id 0) (UIntType 2) in
  let test id := mkValue (OpResult id 0) (UIntType 1) in
  (operands <$> ops s !! 6) = Some [dest; x] ∧
  getDefiningOp (ops s) dest
  = Some (4, mkOperation SubaccessOp [row 3; j] [uint1] [] noAttrs) ∧
  dynamicAccess (ops s) 4 (row 3) j uint1 2 ∧
  ∃ s',
    lowerOp noLowerBlock exampleOptions "Top" 6 s
    = Ok ((true, [7; 8; 12; 13; 14; 18; 19; 20; 24]), s') ∧
    (opName <$> ops s' !! 7) = Some (ConstantOp 0) ∧
    (opName <$> ops s' !! 13) = Some (ConstantOp 1) ∧
    (opName <$> ops s' !! 19) = Some (ConstantOp 2) ∧
    ops s' !! 8
    = Some (mkOperation EQPrimOp [i; const 7] [UIntType 1] [] noAttrs) ∧
    ops s' !! 14
    = Some (mkOperation EQPrimOp [i; const 13] [UIntType 1] [] noAttrs) ∧
    ops s' !! 20
    = Some (mkOperation EQPrimOp [i; const 19] [UIntType 1] [] noAttrs) ∧
    ops s' !! 12
    = Some (mkOperation WhenOp [test 8] [] [[9; 10; 11]] noAttrs) ∧
    ops s' !! 18
    = Some (mkOperation WhenOp [test 14] [] [[15; 16; 17]] noAttrs) ∧
    ops s' !! 24
    = Some (mkOperation WhenOp [test 20] [] [[21; 22; 23]] noAttrs) ∧
    ops s' !! 9 = Some (subindexOf v (FVectorType uint1 2) 0) ∧
    ops s' !! 10
    = Some (mkOperation SubaccessOp [row 9; j] [uint1] [] noAttrs) ∧
    ops s' !! 11
    = Some (mkOperation ConnectOp [mkValue (OpResult 10 0) uint1; x] [] []
              noAttrs) ∧
    length (filter (λ p, opName p.2 = WhenOp) (map_to_list (ops s'))) = 3 ∧
    Forall (λ p, opName p.2 = EQPrimOp → operands p.2 !! 0 = Some i)
      (map_to_list (ops s')) ∧
    ∃ block t,
      lowerBlock 200 exampleOptions "Top" [0; 1; 2; 3; 4; 5; 6] s
      = Ok (block, t) ∧
      filter (λ id, opName <$> ops t !! id = Some WhenOp) block
      = [12; 18; 24] ∧
      length (filter (λ p, opName p.2 = WhenOp) (map_to_list (ops t))) = 9.
Proof.
  intros s v i j x row dest const test.
  split; [reflexivity|]. split; [reflexivity|]. split.
  { eexists. repeat split. by left. }
  eexists. split; [vm_compute; reflexivity|].
  repeat (split; [vm_compute; reflexivity|]).
  split; [apply (bool_decide_unpack _); vm_compute; exact I|].
  eexists _, _. split; [vm_compute; reflexivity|].
  split; vm_compute; reflexivity.
Qed.

(** ** Update of the hierarchical paths *)

Lemma updateNLASymbol_Some oldSym newSym anno :
  refersTo oldSym anno →
  updateNLASymbol oldSym newSym anno
  = Some (<["circt.nonlocal" := FlatSymbolRefAttr newSym]> anno).
Proof.
  unfold refersTo, updateNLASymbol. intros ->. by rewrite decide_True.
Qed.

Lemma updateNLASymbol_None oldSym newSym anno :
  ¬ refersTo oldSym anno → updateNLASymbol oldSym newSym anno = None.
Proof.
  unfold refersTo, updateNLASymbol. intros Hno.
  destruct (getAsFlatSymbolRef anno "circt.nonlocal") as [sym|]; [|done].
  rewrite decide_False; [done|]. congruence.
Qed.

(** The annotations that do not refer to the old path stay, in order;
    those that refer to it follow, redirected to the new path. *)
Lemma redirectAnnotations_refersTo oldSym newSym annotations :
  redirectAnnotations oldSym newSym annotations
  = filter (λ anno, ¬ refersTo oldSym anno) annotations ++
    (insert "circt.nonlocal" (FlatSymbolRefAttr newSym) <$>
     filter (refersTo oldSym) annotations).
Proof.
  unfold redirectAnnotations. f_equal.
  - apply list_filter_iff. intros anno. split.
    + intros Hnone Hrefers.
      by rewrite (updateNLASymbol_Some _ newSym) in Hnone.
    + apply updateNLASymbol_None.
  - induction annotations as [|anno l IH]; [done|].
    rewrite filter_cons. csimpl.
    destruct (decide (refersTo oldSym anno)) as [Hrefers|Hno].
    + rewrite updateNLASymbol_Some by done. csimpl. by rewrite IH.
    + by rewrite updateNLASymbol_None.
Qed.

Lemma lookupTarget_storeTarget target ent c target' :
  lookupTarget (storeTarget target ent c) target'
  = if decide (target = target') then Some ent else lookupTarget c target'.
Proof.
  destruct (decide (target = target')) as [<-|Hne].
  - destruct target; simpl; apply lookup_insert_eq.
  - destruct target as [op|module portNo], target' as [op'|module' portNo'];
      simpl; try done; apply lookup_insert_ne; congruence.
Qed.

Lemma lookupTarget_tables c c' target :
  opTargets c' = opTargets c → portTargets c' = portTargets c →
  lookupTarget c' target = lookupTarget c target.
Proof. intros Hop Hport. destruct target; simpl; congruence. Qed.

Lemma splitPathStep_first path st target ent :
  oldSym st = None →
  lookupTarget (splitCircuit st) target = Some ent →
  let pushed := removelast (newNamepath st) ++ [targetRef ent] in
  splitPathStep path st target
  = Ok (mkSplitState
          (registerPath (mkHierPathOp (sym_name path) pushed)
             (storeTarget target
                (redirectEntity (sym_name path) (sym_name path) ent)
                (nlaErase path (splitCircuit st))))
          pushed (Some (sym_name path))).
Proof.
  intros Hold Hent pushed. unfold splitPathStep. rewrite Hold.
  rewrite (lookupTarget_tables (splitCircuit st)) by done.
  by rewrite Hent.
Qed.

Lemma splitPathStep_next path st target ent old :
  oldSym st = Some old →
  lookupTarget (splitCircuit st) target = Some ent →
  let pushed := removelast (newNamepath st) ++ [targetRef ent] in
  let fresh := fresh_string_of_set old (circtNamespace (splitCircuit st)) in
  splitPathStep path st target
  = Ok (mkSplitState
          (registerPath (mkHierPathOp fresh pushed)
             (storeTarget target (redirectEntity old fresh ent)
                (newName old (splitCircuit st)).2))
          pushed (Some old)).
Proof.
  intros Hold Hent pushed fresh. unfold splitPathStep. rewrite Hold.
  unfold newName. cbn zeta.
  rewrite (lookupTarget_tables (splitCircuit st)) by done.
  by rewrite Hent.
Qed.

Lemma storeTarget_tables target ent c :
  nlaTable (storeTarget target ent c) = nlaTable c ∧
  symTbl (storeTarget target ent c) = symTbl c ∧
  circtNamespace (storeTarget target ent c) = circtNamespace c.
Proof. by destruct target. Qed.

Lemma redirectEntity_ref old nm ent :
  targetRef (redirectEntity old nm ent) = targetRef ent.
Proof. done. Qed.

Lemma redirectedBy_ref old target newRefs : ∀ names ent,
  targetRef (redirectedBy old target newRefs names ent) = targetRef ent.
Proof.
  unfold redirectedBy.
  induction newRefs as [|t rest IH]; intros names ent; [done|].
  destruct names as [|nm names]; [done|]. simpl.
  rewrite IH. by destruct (decide (t = target)).
Qed.

Lemma redirectedBy_absent old target newRefs : ∀ names ent,
  target ∉ newRefs → redirectedBy old target newRefs names ent = ent.
Proof.
  unfold redirectedBy.
  induction newRefs as [|t rest IH]; intros names ent Hnot; [done|].
  destruct names as [|nm names]; [done|].
  apply not_elem_of_cons in Hnot as [Hne Hnot]. simpl.
  rewrite decide_False by done. by apply IH.
Qed.

Lemma redirectedBy_once old target newRefs : ∀ names ent i nm,
  newRefs !! i = Some target → names !! i = Some nm →
  (∀ j, newRefs !! j = Some target → j = i) →
  redirectedBy old target newRefs names ent = redirectEntity old nm ent.
Proof.
  unfold redirectedBy.
  induction newRefs as [|t rest IH]; intros names ent i nm Hi Hnm Honce;
    [done|].
  destruct names as [|nm' names]; [done|]. simpl.
  destruct i as [|i]; simpl in Hi, Hnm.
  - simplify_eq. rewrite decide_True by done.
    apply (redirectedBy_absent old target rest names).
    intros Hin. apply list_elem_of_lookup in Hin as [j Hj].
    by specialize (Honce (S j) Hj).
  - rewrite decide_False.
    + apply (IH names ent i nm Hi Hnm). intros j Hj.
      specialize (Honce (S j) Hj). lia.
    + intros ->. by specialize (Honce 0 eq_refl).
Qed.

(** The iterations of the loop over the new targets after the first
    one. *)
Lemma splitPathLoop_next path old prefix : ∀ newRefs ents st,
  oldSym st = Some old →
  removelast (newNamepath st) = prefix →
  Forall2 (λ target ent,
             ∃ e, lookupTarget (splitCircuit st) target = Some e ∧
                  targetRef e = targetRef ent) newRefs ents →
  ∃ names st',
    splitPathLoop path st newRefs = Ok st' ∧
    length names = length newRefs ∧
    NoDup names ∧
    (∀ nm, nm ∈ names → nm ∉ circtNamespace (splitCircuit st)) ∧
    let newPaths :=
      zip_with (λ nm ent, mkHierPathOp nm (prefix ++ [targetRef ent]))
        names ents in
    nlaTable (splitCircuit st')
    = foldl (λ t p, nlaAdd p t) (nlaTable (splitCircuit st)) newPaths ∧
    symTbl (splitCircuit st')
    = foldl (λ t p, <[sym_name p := p]> t) (symTbl (splitCircuit st))
        newPaths ∧
    (∀ target,
       lookupTarget (splitCircuit st') target
       = redirectedBy old target newRefs names
           <$> lookupTarget (splitCircuit st) target).
Proof.
  induction newRefs as [|target rest IH]; intros ents st Hold Hprefix Hents.
  - apply Forall2_nil_inv_l in Hents as ->. exists [], st.
    split; [done|]. split; [done|]. split; [constructor|].
    split; [by intros nm Hin; apply elem_of_nil in Hin|].
    simpl. split; [done|]. split; [done|].
    intros target. unfold redirectedBy. simpl.
    by destruct (lookupTarget (splitCircuit st) target).
  - apply Forall2_cons_inv_l in Hents
      as (ent & ents' & (e & He & Href) & Hents & ->).
    set (fresh := fresh_string_of_set old (circtNamespace (splitCircuit st))).
    set (pushed := removelast (newNamepath st) ++ [targetRef e]).
    set (st1 := mkSplitState
                  (registerPath (mkHierPathOp fresh pushed)
                     (storeTarget target (redirectEntity old fresh e)
                        (newName old (splitCircuit st)).2))
                  pushed (Some old)).
    assert (splitPathStep path st target = Ok st1) as Hstep
      by by apply splitPathStep_next.
    assert (∀ target',
              lookupTarget (splitCircuit st1) target'
              = if decide (target = target')
                then Some (redirectEntity old fresh e)
                else lookupTarget (splitCircuit st) target') as Hst1.
    { intros target'. unfold st1. simpl.
      rewrite (lookupTarget_tables
                 (storeTarget target (redirectEntity old fresh e)
                    (newName old (splitCircuit st)).2)) by done.
      rewrite lookupTarget_storeTarget.
      destruct (decide (target = target')); [done|].
      by apply lookupTarget_tables. }
    destruct (IH ents' st1)
      as (names & st' & Hrun & Hlen & Hnd & Hfresh & Hnla & Hsym & Htargets);
      [done| | |].
    { unfold st1, pushed. simpl. by rewrite removelast_last. }
    { eapply Forall2_impl; [exact Hents|]. intros target' ent'.
      intros (e' & He' & Href'). rewrite Hst1.
      destruct (decide (target = target')) as [<-|Hne]; [|eauto].
      exists (redirectEntity old fresh e). split; [done|].
      rewrite He in He'. by injection He' as ->. }
    destruct (storeTarget_tables target (redirectEntity old fresh e)
                (newName old (splitCircuit st)).2) as (Hnla1 & Hsym1 & Hspace1).
    assert (circtNamespace (splitCircuit st1)
            = {[fresh]} ∪ circtNamespace (splitCircuit st)) as Hspace
      by (unfold st1, registerPath; cbn [splitCircuit circtNamespace];
          by rewrite Hspace1).
    exists (fresh :: names), st'. simpl. rewrite Hstep.
    split; [done|]. split; [by rewrite Hlen|]. split.
    { constructor; [|done]. intros Hin. apply Hfresh in Hin.
      apply Hin. rewrite Hspace. apply elem_of_union_l.
      by apply elem_of_singleton. }
    split.
    { intros nm [->|Hin]%elem_of_cons.
      - apply fresh_string_of_set_fresh.
      - apply Hfresh in Hin. intros Hnm. apply Hin. rewrite Hspace.
        by apply elem_of_union_r. }
    split.
    { rewrite Hnla. unfold st1, pushed, registerPath.
      cbn [splitCircuit nlaTable zip_with foldl].
      by rewrite Hnla1, Hprefix, Href. }
    split.
    { rewrite Hsym. unfold st1, pushed, registerPath.
      cbn [splitCircuit symTbl zip_with foldl sym_name].
      by rewrite Hsym1, Hprefix, Href. }
    intros target'. rewrite Htargets, Hst1. unfold redirectedBy. simpl.
    destruct (decide (target = target')) as [<-|Hne].
    + by rewrite He.
    + by destruct (lookupTarget (splitCircuit st) target').
Qed.

Lemma insertPaths_lookup_out (paths : list HierPathOp)
    (table : gmap string HierPathOp) nm :
  nm ∉ sym_name <$> paths →
  foldl (λ t p, <[sym_name p := p]> t) table paths !! nm = table !! nm.
Proof.
  revert table. induction paths as [|p paths IH]; intros table Hnm; [done|].
  rewrite fmap_cons in Hnm. apply not_elem_of_cons in Hnm as [Hne Hnm].
  simpl. rewrite IH by done. by apply lookup_insert_ne.
Qed.

Lemma insertPaths_lookup_in (paths : list HierPathOp)
    (table : gmap string HierPathOp) p :
  NoDup (sym_name <$> paths) → p ∈ paths →
  foldl (λ t p, <[sym_name p := p]> t) table paths !! sym_name p = Some p.
Proof.
  revert table. induction paths as [|q paths IH]; intros table Hnodup Hin;
    [by apply elem_of_nil in Hin|].
  rewrite fmap_cons in Hnodup. apply NoDup_cons in Hnodup as [Hq Hnodup].
  simpl. apply elem_of_cons in Hin as [->|Hin].
  - rewrite insertPaths_lookup_out by done. apply lookup_insert_eq.
  - by apply IH.
Qed.

Lemma splitPaths_names path names ents :
  length names = length ents →
  sym_name <$> splitPaths path names ents = names.
Proof.
  intros Hlen. unfold splitPaths. apply fmap_zip_with_l; [done|lia].
Qed.

Lemma nlaLookup_insert table module paths m :
  nlaLookup (<[module := paths]> table) m
  = if decide (m = module) then paths else nlaLookup table m.
Proof.
  unfold nlaLookup. destruct (decide (m = module)) as [->|Hne].
  - by rewrite lookup_insert_eq.
  - by rewrite lookup_insert_ne.
Qed.

Lemma nlaLookup_foldl_add p mods : ∀ table m p',
  p' ∈ nlaLookup
         (foldl (λ t module, <[module := nlaLookup t module ++ [p]]> t)
            table mods) m
  ↔ p' ∈ nlaLookup table m ∨ (p' = p ∧ m ∈ mods).
Proof.
  induction mods as [|module mods IH]; intros table m p'.
  - simpl. split; [by left|]. intros [?|[_ Hin]]; [done|].
    by apply elem_of_nil in Hin.
  - simpl. rewrite IH, nlaLookup_insert, elem_of_cons.
    destruct (decide (m = module)) as [->|Hne].
    + rewrite elem_of_app, list_elem_of_singleton. tauto.
    + tauto.
Qed.

Lemma nlaLookup_register paths : ∀ table m p',
  p' ∈ nlaLookup (foldl (λ t p, nlaAdd p t) table paths) m
  ↔ p' ∈ nlaLookup table m ∨ (p' ∈ paths ∧ m ∈ pathModules p').
Proof.
  induction paths as [|p paths IH]; intros table m p'.
  - simpl. split; [by left|]. intros [?|[Hin _]]; [done|].
    by apply elem_of_nil in Hin.
  - simpl. rewrite IH. unfold nlaAdd at 1. rewrite nlaLookup_foldl_add.
    rewrite elem_of_cons. unfold pathModules. split.
    + intros [[?|[-> ?]]|[? ?]]; eauto.
    + intros [?|[[->|?] ?]]; eauto.
Qed.

Lemma nlaLookup_erase path table m p' :
  p' ∈ nlaLookup (filter (λ p, p ≠ path) <$> table) m
  ↔ p' ∈ nlaLookup table m ∧ p' ≠ path.
Proof.
  unfold nlaLookup. rewrite lookup_fmap.
  destruct (table !! m) as [paths|]; simpl.
  - rewrite list_elem_of_filter. tauto.
  - split; [by intros ?%elem_of_nil|by intros [?%elem_of_nil _]].
Qed.

Lemma foldOutcome_fixed {A B} (f : B → A → Outcome B) (b : B) (l : list A) :
  Forall (λ x, f b x = Ok b) l → foldOutcome f b l = Ok b.
Proof.
  induction 1 as [|x l Hx Hl IH]; [done|]. simpl. by rewrite Hx.
Qed.

Lemma updatePath_other oldRef newRefs c path :
  last (namepath path) ≠ Some oldRef →
  updatePath oldRef newRefs c path = Ok c.
Proof. intros Hne. unfold updatePath. by rewrite bool_decide_eq_true_2. Qed.

(** The update of one path that ends at [oldRef]. *)
Lemma updatePath_split (c : Circuit) (path : HierPathOp)
    (oldRef : Attribute) (newRefs : list AnnoTarget) (ents : list Entity) :
  last (namepath path) = Some oldRef →
  newRefs ≠ [] →
  Forall2 (λ target ent, lookupTarget c target = Some ent) newRefs ents →
  sym_name path ∈ circtNamespace c →
  ∃ names c',
    updatePath oldRef newRefs c path = Ok c' ∧
    length names = length newRefs ∧
    head names = Some (sym_name path) ∧
    NoDup names ∧
    (∀ nm, nm ∈ tail names → nm ∉ circtNamespace c) ∧
    let newPaths := splitPaths path names ents in
    length newPaths = length newRefs ∧
    (∀ p m, p ∈ nlaLookup (nlaTable c') m ↔
            (p ∈ nlaLookup (nlaTable c) m ∧ p ≠ path) ∨
            (p ∈ newPaths ∧ m ∈ pathModules p)) ∧
    (∀ p, p ∈ newPaths → symTbl c' !! sym_name p = Some p) ∧
    (∀ nm, nm ∉ names → symTbl c' !! nm = symTbl c !! nm) ∧
    (∀ target,
       lookupTarget c' target
       = redirectedBy (sym_name path) target newRefs names
           <$> lookupTarget c target).
Proof.
  intros Hlast Hne Hents Hname.
  destruct newRefs as [|target rest]; [done|].
  apply Forall2_cons_inv_l in Hents as (ent & ents' & Hent & Hents & ->).
  set (old := sym_name path).
  set (prefix := removelast (namepath path)).
  set (pushed := prefix ++ [targetRef ent]).
  set (st0 := mkSplitState c (namepath path) None).
  set (st1 := mkSplitState
                (registerPath (mkHierPathOp old pushed)
                   (storeTarget target (redirectEntity old old ent)
                      (nlaErase path c)))
                pushed (Some old)).
  assert (splitPathStep path st0 target = Ok st1) as Hstep
    by by apply splitPathStep_first.
  destruct (storeTarget_tables target (redirectEntity old old ent)
              (nlaErase path c)) as (Hnla1 & Hsym1 & Hspace1).
  assert (∀ target',
            lookupTarget (splitCircuit st1) target'
            = if decide (target = target')
              then Some (redirectEntity old old ent)
              else lookupTarget c target') as Hst1.
  { intros target'. unfold st1. cbn [splitCircuit].
    rewrite (lookupTarget_tables
               (storeTarget target (redirectEntity old old ent)
                  (nlaErase path c))) by done.
    rewrite lookupTarget_storeTarget.
    destruct (decide (target = target')); [done|].
    by apply lookupTarget_tables. }
  destruct (splitPathLoop_next path old prefix rest ents' st1)
    as (names & st' & Hrun & Hlen & Hnd & Hfresh & Hnla & Hsym & Htargets);
    [done| | |].
  { unfold st1, pushed. simpl. by rewrite removelast_last. }
  { eapply Forall2_impl; [exact Hents|]. intros target' ent' Hent'.
    rewrite Hst1. destruct (decide (target = target')) as [<-|Hne'];
      [|by exists ent'].
    exists (redirectEntity old old ent). split; [done|].
    rewrite Hent in Hent'. by injection Hent' as ->. }
  assert (circtNamespace (splitCircuit st1) = circtNamespace c) as Hspace
    by (unfold st1, registerPath; cbn [splitCircuit circtNamespace];
        by rewrite Hspace1).
  rewrite Hspace in Hfresh.
  assert (length ents' = length rest) as Hlen'
    by (symmetry; by eapply Forall2_length).
  assert (NoDup (old :: names)) as Hnames.
  { constructor; [|done]. intros Hin. by apply Hfresh in Hin. }
  assert (splitPaths path (old :: names) (ent :: ents')
          = mkHierPathOp old pushed ::
            zip_with (λ nm ent, mkHierPathOp nm (prefix ++ [targetRef ent]))
              names ents') as Hpaths by done.
  assert (nlaTable (splitCircuit st')
          = foldl (λ t p, nlaAdd p t) (nlaTable (nlaErase path c))
              (splitPaths path (old :: names) (ent :: ents'))) as Hnla'.
  { rewrite Hpaths, Hnla. unfold st1, registerPath.
    cbn [splitCircuit nlaTable foldl]. by rewrite Hnla1. }
  assert (symTbl (splitCircuit st')
          = foldl (λ t p, <[sym_name p := p]> t) (symTbl (nlaErase path c))
              (splitPaths path (old :: names) (ent :: ents'))) as Hsym'.
  { rewrite Hpaths, Hsym. unfold st1, registerPath.
    cbn [splitCircuit symTbl foldl sym_name]. by rewrite Hsym1. }
  assert (sym_name <$> splitPaths path (old :: names) (ent :: ents')
          = old :: names) as Hsplit
    by (apply splitPaths_names; simpl; lia).
  exists (old :: names), (splitCircuit st').
  split.
  { unfold updatePath. rewrite bool_decide_eq_false_2 by (by intros []).
    fold st0. simpl. by rewrite Hstep, Hrun. }
  split; [simpl; lia|]. split; [done|]. split; [done|].
  split; [exact Hfresh|]. cbv zeta.
  split; [unfold splitPaths; rewrite length_zip_with; simpl; lia|].
  split.
  { intros p m. rewrite Hnla', nlaLookup_register. simpl.
    by rewrite nlaLookup_erase. }
  split.
  { intros p Hin. rewrite Hsym'. apply insertPaths_lookup_in; [|done].
    by rewrite Hsplit. }
  split.
  { intros nm Hnm. rewrite Hsym', insertPaths_lookup_out by by rewrite Hsplit.
    simpl. apply lookup_delete_ne. intros <-. apply Hnm. left. }
  intros target'. rewrite Htargets, Hst1. unfold redirectedBy. simpl.
  destruct (decide (target = target')) as [<-|Hne'].
  - by rewrite Hent.
  - by destruct (lookupTarget c target').
Qed.

Lemma foldOutcome_around {A B} (f : B → A → Outcome B) (b b' : B)
    (l1 l2 : list A) (x : A) :
  Forall (λ y, f b y = Ok b) l1 → f b x = Ok b' →
  Forall (λ y, f b' y = Ok b') l2 →
  foldOutcome f b (l1 ++ x :: l2) = Ok b'.
Proof.
  intros H1 Hx H2. induction H1 as [|y l Hy Hl IH]; simpl.
  - rewrite Hx. by apply foldOutcome_fixed.
  - by rewrite Hy.
Qed.

Lemma splitPaths_last path names ents p :
  p ∈ splitPaths path names ents →
  ∃ ent, ent ∈ ents ∧ last (namepath p) = Some (targetRef ent).
Proof.
  unfold splitPaths. intros Hin.
  apply elem_of_zip_with in Hin as (nm & ent & -> & _ & Hent).
  exists ent. split; [done|]. simpl. by rewrite last_snoc.
Qed.

(** C4: the update of the hierarchical paths for a path
    [path] that goes through [module] and ends at the inner reference
    [sym] of [module], which lowering has split into the [N] targets
    [newRefs] ([N >= 1], the targets live), [path] being the only path
    that ends at a renamed reference and no new target being renamed
    itself:
    - [N] paths are made, named [names], with the elements of [path] but
      the last, which is the inner reference to the target;
    - the first one has the name of [path], the other ones have names
      that were not in use, all distinct;
    - in the table of paths, [path] is erased from the list of every
      module and every new path is added to the list of every module it
      goes through; in the symbol table, the name of [path] now stands
      for the first new path and every other new name for its path;
    - the annotations of a target are redirected from the name of
      [path] to the name of the new path at every entry of [newRefs]
      that is the target, in turn; so on a target that is listed once,
      as entry [i], the annotations that refer to the name of [path]
      are redirected to the name of the new path [i] (and put after the
      other ones);
    - no other target is touched: an annotation that refers to the name
      of [path] from elsewhere keeps referring to it. *)
Theorem hierarchical_path_split
    (renames : gmap (string * string) (list AnnoTarget)) (c : Circuit)
    (module sym : string) (path : HierPathOp)
    (newRefs : list AnnoTarget) (ents : list Entity) :
  renames !! (module, sym) = Some newRefs →
  path ∈ nlaLookup (nlaTable c) module →
  NoDup (nlaLookup (nlaTable c) module) →
  last (namepath path) = Some (InnerRefAttr module sym) →
  (∀ m s refs p,
     renames !! (m, s) = Some refs → p ∈ nlaLookup (nlaTable c) m →
     last (namepath p) = Some (InnerRefAttr m s) → p = path) →
  Forall (λ ent, renames !! (entModule ent, entSym ent) = None) ents →
  newRefs ≠ [] →
  Forall2 (λ target ent, lookupTarget c target = Some ent) newRefs ents →
  sym_name path ∈ circtNamespace c →
  ∃ names c',
    updateHierPaths renames c = Ok c' ∧
    length names = length newRefs ∧
    head names = Some (sym_name path) ∧
    NoDup names ∧
    (∀ nm, nm ∈ tail names → nm ∉ circtNamespace c) ∧
    let newPaths := splitPaths path names ents in
    length newPaths = length newRefs ∧
    (∀ p m, p ∈ nlaLookup (nlaTable c') m ↔
            (p ∈ nlaLookup (nlaTable c) m ∧ p ≠ path) ∨
            (p ∈ newPaths ∧ m ∈ pathModules p)) ∧
    (∀ p, p ∈ newPaths → symTbl c' !! sym_name p = Some p) ∧
    (∀ nm, nm ∉ names → symTbl c' !! nm = symTbl c !! nm) ∧
    (∀ target,
       lookupTarget c' target
       = redirectedBy (sym_name path) target newRefs names
           <$> lookupTarget c target) ∧
    (∀ i target ent nm,
       newRefs !! i = Some target → ents !! i = Some ent →
       names !! i = Some nm →
       (∀ j, newRefs !! j = Some target → j = i) →
       lookupTarget c' target
       = Some (mkEntity (entModule ent) (entSym ent)
                 (filter (λ anno, ¬ refersTo (sym_name path) anno)
                    (entAnnotations ent) ++
                  (insert "circt.nonlocal" (FlatSymbolRefAttr nm) <$>
                   filter (refersTo (sym_name path)) (entAnnotations ent))))) ∧
    (∀ target, target ∉ newRefs → lookupTarget c' target = lookupTarget c target).
Proof.
  intros Hrename Hpath Hnodup Hlast Honly Hnew Hne Hents Hname.
  destruct (updatePath_split c path (InnerRefAttr module sym) newRefs ents)
    as (names & c' & Hrun & Hlen & Hhead & Hnd & Hfresh & Hcount & Hnla & Hsym
        & Hkeep & Htargets); [done..|].
  cbv zeta in Hnla, Hsym.
  assert (updateRename c (module, sym, newRefs) = Ok c') as Hthis.
  { unfold updateRename.
    apply list_elem_of_split in Hpath as (l1 & l2 & Hsplit).
    rewrite Hsplit in Hnodup |- *.
    apply NoDup_app in Hnodup as (_ & Hl1 & Hl2).
    apply NoDup_cons in Hl2 as [Hl2 _].
    assert (∀ p, p ∈ l1 ∨ p ∈ l2 → p ≠ path) as Hother.
    { intros p [Hin|Hin] ->; [by apply (Hl1 path); [|left]|done]. }
    assert (∀ p, p ∈ l1 ∨ p ∈ l2 →
                 last (namepath p) ≠ Some (InnerRefAttr module sym)) as Hends.
    { intros p Hin Hp. apply (Hother p Hin).
      apply (Honly module sym newRefs p); [done| |done].
      rewrite Hsplit, elem_of_app, elem_of_cons. tauto. }
    apply foldOutcome_around; [|done|].
    - apply Forall_forall. intros p Hin. apply updatePath_other.
      apply Hends. by left.
    - apply Forall_forall. intros p Hin. apply updatePath_other.
      apply Hends. by right. }
  assert (∀ m s refs b,
            renames !! (m, s) = Some refs → (m, s) ≠ (module, sym) →
            b = c ∨ b = c' → updateRename b (m, s, refs) = Ok b) as Hrest.
  { intros m s refs b Hms Hkey Hb. unfold updateRename.
    apply foldOutcome_fixed, Forall_forall. intros p Hin.
    apply updatePath_other. intros Hp.
    assert (p ∈ nlaLookup (nlaTable c) m → False) as Hold.
    { intros Hin'. pose proof (Honly m s refs p Hms Hin' Hp) as ->.
      rewrite Hlast in Hp. by simplify_eq. }
    destruct Hb as [-> | ->]; [done|].
    apply Hnla in Hin as [[Hin _]|[Hin _]]; [done|].
    apply splitPaths_last in Hin as (ent & Hent & Hent').
    rewrite Hp in Hent'. unfold targetRef in Hent'. simplify_eq.
    rewrite Forall_forall in Hnew. specialize (Hnew ent Hent). congruence. }
  assert (updateHierPaths renames c = Ok c') as Hall.
  { unfold updateHierPaths.
    pose proof (NoDup_map_to_list renames) as Hnd'.
    assert ((module, sym, newRefs) ∈ map_to_list renames) as Hin
      by by apply elem_of_map_to_list.
    apply list_elem_of_split in Hin as (l1 & l2 & Hsplit).
    rewrite Hsplit in Hnd' |- *.
    assert (∀ x, x ∈ l1 ∨ x ∈ l2 →
                 renames !! x.1 = Some x.2 ∧ x.1 ≠ (module, sym)) as Hother.
    { intros [[m s] refs] Hx. simpl.
      assert (renames !! (m, s) = Some refs) as Hms.
      { apply elem_of_map_to_list. rewrite Hsplit, elem_of_app, elem_of_cons.
        tauto. }
      split; [done|]. intros [= -> ->].
      rewrite Hrename in Hms. injection Hms as <-.
      apply NoDup_app in Hnd' as (_ & Hl1 & Hl2).
      apply NoDup_cons in Hl2 as [Hl2 _].
      destruct Hx as [Hx|Hx]; [by apply (Hl1 _ Hx); left|done]. }
    apply foldOutcome_around; [|done|].
    - apply Forall_forall. intros [[m s] refs] Hx.
      destruct (Hother (m, s, refs)) as [Hms Hkey]; [by left|].
      apply Hrest; auto.
    - apply Forall_forall. intros [[m s] refs] Hx.
      destruct (Hother (m, s, refs)) as [Hms Hkey]; [by right|].
      apply Hrest; auto. }
  exists names, c'. split; [done|]. split; [done|]. split; [done|].
  split; [done|]. split; [done|]. cbv zeta. split; [done|].
  split; [done|]. split; [done|]. split; [done|]. split; [done|]. split.
  - intros i target ent nm Hi Hi' Hnm Honce. rewrite Htargets.
    apply Forall2_lookup_lr with (i := i) (x := target) (y := ent) in Hents;
      [|done..].
    rewrite Hents. simpl.
    rewrite (redirectedBy_once _ _ _ _ _ i nm) by done.
    unfold redirectEntity. by rewrite redirectAnnotations_refersTo.
  - intros target Hnot. rewrite Htargets.
    destruct (lookupTarget c target) as [ent|]; [|done]. simpl.
    by rewrite redirectedBy_absent.
Qed.

(** The path [nla] to the wire [w], lowered to [w_a] and [w_b], becomes
    the path [nla] to [w_a] and a path with a fresh name to [w_b]; the
    annotation of [w_b] refers to the latter.  And with the
    preserve-aggregate switch on, the wire [w] of type
    [{a : {x : UInt<1>, y : UInt<1>}, b : flip UInt<1>}] is lowered to
    [w_a], which is preserved, and [w_b]; only [w_b] is filed as a
    target of the inner symbol [w], so that [nla] becomes the path to
    [w_b], no path leads to [w_a], and the annotation of [w_a] still
    refers to [nla]. *)
Lemma hierarchical_path_split_witness :
  let renames : gmap (string * string) (list AnnoTarget) :=
    {[ ("Child", "w") := [OpAnnoTarget 0; OpAnnoTarget 1] ]} in
  let preserved : gmap (string * string) (list AnnoTarget) :=
    {[ ("Child", "w") := [OpAnnoTarget 2] ]} in
  let pathTo sym nm :=
    mkHierPathOp nm [InnerRefAttr "Top" "child"; InnerRefAttr "Child" sym] in
  (∃ c' fresh,
     updateHierPaths renames exampleCircuit = Ok c' ∧
     (fresh ∉ circtNamespace exampleCircuit) ∧
     symTbl c' !! "nla" = Some (pathTo "w_a" "nla") ∧
     symTbl c' !! fresh = Some (pathTo "w_b" fresh) ∧
     lookupTarget c' (OpAnnoTarget 0)
     = Some (mkEntity "Child" "w_a" [exampleNonLocal "nla"]) ∧
     lookupTarget c' (OpAnnoTarget 1)
     = Some (mkEntity "Child" "w_b" [exampleNonLocal fresh])) ∧
  (∃ s',
     lowerBlock 4 preservingOptions "Child" [0] exampleAnnotatedStore
     = Ok ([1; 2], s') ∧
     (resultTypes <$> ops s' !! 1) = Some [exampleInner] ∧
     (resultTypes <$> ops s' !! 2) = Some [uint1] ∧
     innerRefRenames (visitor s') = preserved ∧
     entityOf "Child" <$> ops s' = opTargets examplePreservedCircuit) ∧
  (∃ c',
     updateHierPaths preserved examplePreservedCircuit = Ok c' ∧
     symTbl c' !! "nla" = Some (pathTo "w_b" "nla") ∧
     (∀ p m, p ∈ nlaLookup (nlaTable c') m → p = pathTo "w_b" "nla") ∧
     lookupTarget c' (OpAnnoTarget 2)
     = Some (mkEntity "Child" "w_b" [exampleNonLocal "nla"]) ∧
     lookupTarget c' (OpAnnoTarget 1)
     = Some (mkEntity "Child" "w_a" [exampleNonLocal "nla"])).
Proof.
  intros renames preserved pathTo.
  pose (entA := mkEntity "Child" "w_a" [exampleNonLocal "nla"]).
  pose (entB := mkEntity "Child" "w_b" [exampleNonLocal "nla"]).
  assert (∀ c m p,
            nlaTable c = nlaTable exampleCircuit →
            p ∈ nlaLookup (nlaTable c) m → p = examplePath) as Hpaths.
  { intros c m p ->. unfold nlaLookup, exampleCircuit. cbn [nlaTable].
    destruct (_ !! m) as [l|] eqn:Hm; simpl; [|by intros ?%elem_of_nil].
    apply lookup_insert_Some in Hm as [[_ <-]|[_ Hm]];
      [by intros ?%list_elem_of_singleton|].
    apply lookup_singleton_Some in Hm as [_ <-].
    by intros ?%list_elem_of_singleton. }
  split; [|split].
  - destruct (hierarchical_path_split renames exampleCircuit "Child" "w"
                examplePath [OpAnnoTarget 0; OpAnnoTarget 1] [entA; entB])
      as (names & c' & Hrun & Hlen & Hhead & _ & Hfresh & _ & _ & Hsym & _
          & _ & Htargets & _).
    + reflexivity.
    + apply (bool_decide_unpack _). vm_compute. exact I.
    + apply (bool_decide_unpack _). vm_compute. exact I.
    + reflexivity.
    + intros m s refs p _ Hp _. by apply (Hpaths exampleCircuit m).
    + repeat constructor.
    + discriminate.
    + repeat constructor.
    + apply (bool_decide_unpack _). vm_compute. exact I.
    + destruct names as [|first [|fresh [|? ?]]]; try discriminate Hlen.
      injection Hhead as ->.
      exists c', fresh. split; [exact Hrun|].
      split; [apply Hfresh; simpl; left|].
      split; [apply (Hsym (mkHierPathOp "nla" _)); left|].
      split; [apply (Hsym (mkHierPathOp fresh _)); right; left|].
      split.
      * rewrite (Htargets 0 (OpAnnoTarget 0) entA "nla"); [reflexivity..|].
        by intros [|[|[|j]]] Hj.
      * rewrite (Htargets 1 (OpAnnoTarget 1) entB fresh); [reflexivity..|].
        by intros [|[|[|j]]] Hj.
  - eexists. split; [vm_compute; reflexivity|].
    split; [vm_compute; reflexivity|]. split; [vm_compute; reflexivity|].
    split; vm_compute; reflexivity.
  - destruct (hierarchical_path_split preserved examplePreservedCircuit
                "Child" "w" examplePath [OpAnnoTarget 2] [entB])
      as (names & c' & Hrun & Hlen & Hhead & _ & _ & _ & Hnla & Hsym & _
          & _ & Htargets & Hothers).
    + reflexivity.
    + apply (bool_decide_unpack _). vm_compute. exact I.
    + apply (bool_decide_unpack _). vm_compute. exact I.
    + reflexivity.
    + intros m s refs p _ Hp _. by apply (Hpaths examplePreservedCircuit m).
    + repeat constructor.
    + discriminate.
    + repeat constructor.
    + apply (bool_decide_unpack _). vm_compute. exact I.
    + destruct names as [|first [|? ?]]; try discriminate Hlen.
      injection Hhead as ->.
      exists c'. split; [exact Hrun|].
      split; [apply (Hsym (mkHierPathOp "nla" _)); left|].
      split; [|split].
      * intros p m Hp. apply Hnla in Hp as [[Hp Hne]|[Hp _]].
        -- exfalso. apply Hne. by apply (Hpaths examplePreservedCircuit m).
        -- by apply list_elem_of_singleton in Hp.
      * rewrite (Htargets 0 (OpAnnoTarget 2) entB "nla"); [reflexivity..|].
        by intros [|[|j]] Hj.
      * rewrite Hothers; [reflexivity|].
        intros Hin. apply list_elem_of_singleton in Hin. discriminate.
Defined.

(** * Further properties *)

(** ** The annotation filter *)

Lemma sameButFieldIDs_refl anno : sameButFieldIDs anno anno.
Proof. by intros key _ _. Qed.

Lemma updateAnnotationFieldID_members attr fieldID :
  sameButFieldIDs (updateAnnotationFieldID attr fieldID) attr.
Proof.
  unfold updateAnnotationFieldID.
  destruct (bool_decide (fieldID = 0)); [apply sameButFieldIDs_refl|].
  destruct (isAnnotationSensitiveToFieldID attr); simpl;
    [|apply sameButFieldIDs_refl].
  intros key _ Hkey. by apply lookup_insert_ne.
Qed.

Lemma retainedFor_members field opAttr :
  retainedFor field opAttr = [] ∨
  ∃ anno, retainedFor field opAttr = [anno] ∧ sameButFieldIDs anno opAttr.
Proof.
  unfold retainedFor, filterAnnotation.
  destruct (getAsInteger opAttr "circt.fieldID") as [id|]; simpl.
  - repeat (case_match; simpl); try (by left); right; eexists;
      (split; [reflexivity|]); intros key Hcirct Hfield.
    + by apply lookup_delete_ne.
    + rewrite lookup_insert_ne by done. by apply lookup_delete_ne.
    + by apply lookup_delete_ne.
  - right. eexists. split; [reflexivity|].
    apply updateAnnotationFieldID_members.
Qed.

(** The annotations [filterAnnotations] returns for a field are some of
    the annotations of the lowered value, in their order, each changed
    at most in its members [circt.fieldID] and [fieldID]: the filter
    never adds, reorders or duplicates an annotation and never touches
    another member (the class, the non-local path, the payload). *)
Theorem filterAnnotations_keeps_members
    (annotations : option (list Annotation)) (srcType : FIRRTLType)
    (field : FlatBundleFieldEntry) (needsSym : bool) (sym : string) :
  ∃ kept,
    kept `sublist_of` default [] annotations ∧
    Forall2 sameButFieldIDs
      (filterAnnotations annotations srcType field needsSym sym).1 kept.
Proof.
  destruct annotations as [annotations|]; [|by exists []].
  rewrite filterAnnotations_retained. simpl.
  induction annotations as [|opAttr l (kept & Hsub & Hall)].
  - exists []. split; [done|constructor].
  - simpl. destruct (retainedFor_members field opAttr)
      as [->|(anno & -> & Hsame)].
    + exists kept. split; [by apply sublist_cons_r; left|done].
    + exists (opAttr :: kept). split; [by apply sublist_skip|].
      by constructor.
Qed.

(** ** Preservable types *)

Lemma Reaches_trans ty1 ty2 ty3 :
  Reaches ty1 ty2 → Reaches ty2 ty3 → Reaches ty1 ty3.
Proof.
  induction 1 as [ty|es e ty Hin Hr IH|t n ty Hn Hr IH]; intros H23; [done|..].
  - eapply Reaches_field; [done|]. by apply IH.
  - apply Reaches_element; [done|]. by apply IH.
Qed.

Lemma isPassive_component ty ty' :
  isPassive ty = true → Reaches ty ty' → isPassive ty' = true.
Proof.
  intros Hp Hr. induction Hr as [ty|es e ty Hin Hr IH|t n ty Hn Hr IH];
    [done|..].
  - apply IH. apply isPassive_bundle in Hp. rewrite Forall_forall in Hp.
    by destruct (Hp e Hin).
  - by apply IH.
Qed.

Lemma containsAnalog_component ty ty' :
  containsAnalog ty = false → Reaches ty ty' → containsAnalog ty' = false.
Proof.
  intros Hc Hr. induction Hr as [ty|es e ty Hin Hr IH|t n ty Hn Hr IH];
    [done|..].
  - apply IH. apply containsAnalog_bundle in Hc. rewrite Forall_forall in Hc.
    by apply Hc.
  - by apply IH.
Qed.

(** Every component of a preservable type is preservable: an aggregate
    that is kept intact never holds a flipped, analog or zero-width part
    that would have to be lowered if it stood alone. *)
Theorem isPreservableAggregateType_hereditary (ty ty' : FIRRTLType) :
  isPreservableAggregateType ty = true → Reaches ty ty' →
  isPreservableAggregateType ty' = true.
Proof.
  unfold isPreservableAggregateType. intros Hty Hr.
  apply andb_true_iff in Hty as [Hty Hzero].
  apply andb_true_iff in Hty as [Hpassive Hanalog].
  apply negb_true_iff in Hanalog, Hzero.
  rewrite (isPassive_component ty ty') by done.
  rewrite (containsAnalog_component ty ty') by done. simpl.
  apply negb_true_iff. destruct (hasZeroBitWidth ty') eqn:Hz; [|done].
  apply hasZeroBitWidth_reaches in Hz as (leaf & Hleaf & Hnode).
  assert (hasZeroBitWidth ty = true) as Hcontra; [|congruence].
  apply hasZeroBitWidth_reaches. exists leaf. split; [|done].
  by eapply Reaches_trans.
Qed.

Lemma isPreservableAggregateType_hereditary_witness :
  isPreservableAggregateType exampleOuter = true ∧
  Reaches exampleOuter uint1 ∧
  isPreservableAggregateType uint1 = true.
Proof.
  assert (Reaches exampleOuter uint1) as Hr.
  { eapply Reaches_field; [apply list_elem_of_here|]. simpl.
    apply Reaches_element; [done|apply Reaches_refl]. }
  split; [reflexivity|]. split; [exact Hr|].
  by apply (isPreservableAggregateType_hereditary exampleOuter uint1).
Defined.

(** ** Producers that stay *)

(** [lowerProducer] leaves the producer in place (answers [false])
    exactly when the type of its result is ground or, the
    preserve-aggregate switch being on, preservable, and then it changes
    nothing.  The decision reads the switch alone: neither the module nor
    the public-types switch takes part in it. *)
Theorem lowerProducer_intact
    (opts : LowerTypesOptions) (module : string) (opId : nat)
    (clone : FlatBundleFieldEntry → list Annotation → M nat)
    (s : IRState) (op : Operation) (ty : FIRRTLType) :
  ops s !! opId = Some op → resultTypes op !! 0 = Some ty →
  (intactType opts ty →
   lowerProducer opts module opId clone s = Ok (false, s)) ∧
  (∀ s', lowerProducer opts module opId clone s = Ok (false, s') →
         intactType opts ty).
Proof.
  intros Hop Hty.
  assert (lowerProducer opts module opId clone s
          = (let '(peeled, fieldTypes) :=
               peelType ty [] (preserveAggregate opts) in
             if negb peeled then mret false
             else
               let loweredName := default "" (nameAttr (attrs op)) in
               let loweredSymName := default "" (innerSymAttr (attrs op)) in
               let loweredSymName :=
                 if isEmpty loweredSymName then loweredName
                 else loweredSymName in
               loweredSymName ←
                 (if isEmpty loweredSymName then uniqueName
                  else mret loweredSymName);
               lowered ← mapEachM
                           (lowerField module op clone ty loweredName
                              loweredSymName)
                           fieldTypes;
               processUsers (OpResult opId 0) lowered;;
               mret true) s) as ->.
  { unfold lowerProducer. unfold mbind at 1, M_bind at 1, getOp.
    by rewrite Hop, Hty. }
  pose proof (peelType_intact ty [] (preserveAggregate opts)) as Hintact.
  destruct (peelType ty [] (preserveAggregate opts)) as [peeled fields].
  simpl in Hintact. unfold intactType. destruct peeled; simpl.
  - split.
    + intros Hin. apply Hintact in Hin. discriminate.
    + intros s' Hrun.
      apply bind_Ok_inv in Hrun as (sym & s1 & _ & Hrun).
      apply bind_Ok_inv in Hrun as (lowered & s2 & _ & Hrun).
      apply bind_Ok_inv in Hrun as ([] & s3 & _ & Hrun).
      by apply ret_Ok_inv in Hrun as [? _].
  - split; [done|]. intros s' _. by apply Hintact.
Qed.

(** A wire of the passive type [{a : UInt<1>, b : UInt<1>}] in a public
    module, with both switches on: the wire stays. *)
Lemma lowerProducer_intact_witness :
  let opts := mkLowerTypesOptions true true in
  let s := exampleConnectStore ConnectOp examplePassive in
  visitDecl_WireOp opts "Top" 0 s = Ok (false, s).
Proof.
  intros opts s.
  destruct (lowerProducer_intact opts "Top" 0
              (λ field annotations,
                 createOp (mkOperation WireOp [] [type field] []
                             (cloneAttrs annotations)))
              s (exampleWire "w" examplePassive) examplePassive
              eq_refl eq_refl) as [Hstay _].
  apply Hstay. right. split; reflexivity.
Defined.

(** ** Generated names *)

(** [uniqueName] returns the name [__GEN_] followed by the decimal
    digits of the counter, advances the counter by one and touches
    nothing else, and the names of two different counter values differ:
    no name is generated twice in a run of the visitor. *)
Theorem uniqueName_never_repeats (s t : IRState) :
  uniqueIdx (visitor s) ≠ uniqueIdx (visitor t) →
  ∃ name name' s' t',
    uniqueName s = Ok (name, s') ∧ uniqueName t = Ok (name', t') ∧
    name = "__GEN_" +:+ pretty (uniqueIdx (visitor s)) ∧
    name' = "__GEN_" +:+ pretty (uniqueIdx (visitor t)) ∧
    name ≠ name' ∧
    uniqueIdx (visitor s') = S (uniqueIdx (visitor s)) ∧
    ops s' = ops s ∧ nextId s' = nextId s ∧ inserted s' = inserted s ∧
    innerRefRenames (visitor s') = innerRefRenames (visitor s) ∧
    origSymbols (visitor s') = origSymbols (visitor s).
Proof.
  intros Hne. eexists _, _, _, _. split; [reflexivity|].
  split; [reflexivity|]. split; [reflexivity|]. split; [reflexivity|].
  split; [|done].
  intros Heq. apply Hne. simpl in Heq. by simplify_eq.
Qed.

(** The first two names generated from a fresh visitor are [__GEN_0]
    and [__GEN_1]. *)
Lemma uniqueName_never_repeats_witness :
  ∃ name name' s' t',
    uniqueName exampleUsersStore = Ok (name, s') ∧
    uniqueName s' = Ok (name', t') ∧ name ≠ name' ∧
    name = "__GEN_0" ∧ name' = "__GEN_1".
Proof.
  destruct (uniqueName exampleUsersStore) as [[name s']| |] eqn:Hfirst;
    try discriminate Hfirst.
  destruct (uniqueName_never_repeats exampleUsersStore s')
    as (n1 & n2 & s1 & t1 & H1 & H2 & Hn1 & Hn2 & Hne & _).
  - injection Hfirst as _ <-. simpl. lia.
  - exists n1, n2, s', t1. rewrite Hfirst in H1. injection H1 as <- _.
    split; [reflexivity|]. split; [exact H2|]. split; [exact Hne|].
    injection Hfirst as Hname Hs'. subst s'. split.
    + rewrite Hn1. vm_compute. reflexivity.
    + rewrite Hn2. vm_compute. reflexivity.
Defined.

(** ** Renamed inner symbols *)

Lemma unionSets_leader classes v1 v2 :
  findLeader (unionSets classes v1 v2) v1 = findLeader classes v1 ∧
  findLeader (unionSets classes v1 v2) v2 = findLeader classes v1.
Proof.
  unfold unionSets. cbv zeta.
  set (l1 := findLeader classes v1). set (l2 := findLeader classes v2).
  destruct (decide (l1 = l2)) as [Heq|Hne]; unfold findLeader.
  - rewrite lookup_insert_eq. split; [done|].
    destruct (decide (v2 = v1)) as [->|Hv]; [by rewrite lookup_insert_eq|].
    by rewrite lookup_insert_ne, lookup_insert_eq by done.
  - rewrite !lookup_fmap, lookup_insert_eq. simpl.
    rewrite decide_False by done. split; [done|].
    destruct (decide (v2 = v1)) as [Hv|Hv]; [by subst; subst l1 l2|].
    rewrite lookup_insert_ne, lookup_insert_eq by done. simpl.
    by rewrite decide_True.
Qed.


(** ** Dead accessors *)

Lemma use_empty_submap s s' id :
  (∀ k op, ops s' !! k = Some op → ops s !! k = Some op) →
  use_empty s id = true → use_empty s' id = true.
Proof.
  unfold use_empty. rewrite !bool_decide_eq_true. intros Hsub Hall k op Hk.
  apply (Hall k op). by apply Hsub.
Qed.

(** The loop that ends [processSAPath] always runs to its end; it only
    erases operations, all of them on the path it is given, and none of
    the operations it erases has a use left: it never leaves a dangling
    use behind and never touches an operation off the path. *)
Theorem eraseUnused_no_dangling_use (path : list nat) (s : IRState) :
  ∃ s',
    eraseUnused path s = Ok ((), s') ∧
    nextId s' = nextId s ∧ inserted s' = inserted s ∧
    visitor s' = visitor s ∧
    (∀ id op, ops s' !! id = Some op → ops s !! id = Some op) ∧
    (∀ id, is_Some (ops s !! id) → ops s' !! id = None →
           id ∈ path ∧ use_empty s' id = true).
Proof.
  revert s. induction path as [|first path IH]; intros s.
  - exists s. split; [done|]. repeat (split; [done|]).
    intros id [op Hop] Hnone. congruence.
  - simpl. unfold mbind at 1, M_bind at 1, getState.
    destruct (use_empty s first) eqn:Hdead.
    + destruct (IH (setOps s (delete first (ops s))))
        as (s' & Hrun & Hnext & Hins & Hvis & Hsub & Hgone).
      exists s'. split; [exact Hrun|].
      split; [done|]. split; [done|]. split; [done|]. split.
      * intros id op Hop. apply Hsub in Hop. simpl in Hop.
        by apply lookup_delete_Some in Hop as [_ ?].
      * intros id Hlive Hnone. destruct (decide (id = first)) as [->|Hne].
        { split; [left|]. apply (use_empty_submap s); [|done].
          intros k op Hk. apply Hsub in Hk. simpl in Hk.
          by apply lookup_delete_Some in Hk as [_ ?]. }
        destruct (Hgone id) as [Hin Hempty]; [|done|].
        { simpl. by rewrite lookup_delete_ne. }
        split; [by right|done].
    + exists s. split; [done|]. repeat (split; [done|]).
      intros id [op Hop] Hnone. congruence.
Qed.

(** ** The walk over a lowered block *)

Lemma lowerBlockFrom_settled opts module worklist : ∀ fuel done s,
  Forall (settled opts (ops s)) worklist →
  Forall (λ id, is_Some (ops s !! id)) done →
  length worklist < fuel →
  lowerBlockFrom fuel opts module worklist done s
  = Ok (rev worklist ++ done,
        match worklist with [] => s | _ => setInserted s [] end).
Proof.
  induction worklist as [|iop rest IH]; intros fuel done s Hall Hlive Hfuel.
  - destruct fuel as [|fuel]; [simpl in Hfuel; lia|]. simpl.
    unfold mbind, M_bind, getState, mret, M_ret. do 2 f_equal.
    induction Hlive as [|id l Hid Hl IHl]; [done|].
    rewrite filter_cons_True by done. by rewrite IHl.
  - destruct fuel as [|fuel]; [simpl in Hfuel; lia|].
    apply Forall_cons in Hall as [Hiop Hrest]. cbn [lowerBlockFrom].
    unfold mbind at 1, M_bind at 1, getState.
    destruct Hiop as (op & Hop & Hkind). rewrite Hop.
    unfold mbind at 1, M_bind at 1.
    rewrite lowerOp_settled by by exists op.
    cbn [rev app]. rewrite (IH fuel (iop :: done) (setInserted s []));
      [|done|by constructor|simpl in Hfuel; lia].
    rewrite <-app_assoc. simpl. by destruct rest.
Qed.

(** The walk leaves untouched a block that is lowered already: when
    every operation of the block is one the walk has nothing to do for,
    [lowerBlock] gives back the same block, in the same order, over the
    same store, and a number of visits one above the length of the block
    is enough for it to end. *)
Theorem lowerBlock_settled
    (opts : LowerTypesOptions) (module : string) (block : list nat)
    (s : IRState) :
  Forall (settled opts (ops s)) block →
  ∃ s',
    lowerBlock (S (length block)) opts module block s = Ok (block, s') ∧
    ops s' = ops s ∧ nextId s' = nextId s ∧ visitor s' = visitor s.
Proof.
  intros Hall. unfold lowerBlock.
  rewrite (lowerBlockFrom_settled opts module (rev block));
    [|by apply Forall_rev|constructor|rewrite length_rev; lia].
  rewrite rev_involutive, app_nil_r. eexists. split; [reflexivity|].
  by destruct (rev block).
Qed.

(** Two wires of ground type and the connect of one to the other. *)
Lemma lowerBlock_settled_witness :
  let s := exampleConnectStore ConnectOp uint1 in
  ∃ s', lowerBlock 4 exampleOptions "Top" [0; 1; 2] s = Ok ([0; 1; 2], s') ∧
        ops s' = ops s.
Proof.
  intros s.
  destruct (lowerBlock_settled exampleOptions "Top" [0; 1; 2] s)
    as (s' & Hrun & Hops & _).
  - repeat constructor.
    + eexists. split; [reflexivity|]. exists uint1. split; [reflexivity|].
      by left.
    + eexists. split; [reflexivity|]. exists uint1. split; [reflexivity|].
      by left.
    + eexists. split; [reflexivity|].
      exists (mkValue (OpResult 0 0) uint1), (mkValue (OpResult 1 0) uint1), [].
      split; [reflexivity|]. split; [|split; [constructor|reflexivity]].
      apply AccessChain_end. intros id op Hdef. vm_compute in Hdef.
      by inversion Hdef.
  - by exists s'.
Defined.

(** ** Hierarchical paths that stay *)

(** The update of the hierarchical paths leaves the circuit as it is
    when no path that goes through the module of a renamed inner
    reference ends at that reference, whatever the renames are: a path
    that ends elsewhere is never split, renamed or re-registered, and no
    name is taken from the name space. *)
Theorem updateHierPaths_other_paths
    (renames : gmap (string * string) (list AnnoTarget)) (c : Circuit) :
  (∀ module sym newRefs path,
     renames !! (module, sym) = Some newRefs →
     path ∈ nlaLookup (nlaTable c) module →
     last (namepath path) ≠ Some (InnerRefAttr module sym)) →
  updateHierPaths renames c = Ok c.
Proof.
  intros Hother. unfold updateHierPaths. apply foldOutcome_fixed.
  apply Forall_forall. intros [[module sym] newRefs] Hin.
  apply elem_of_map_to_list in Hin. unfold updateRename.
  apply foldOutcome_fixed, Forall_forall. intros path Hpath.
  apply updatePath_other. by eapply Hother.
Qed.

(** The path [nla] ends at the wire [w] of [Child]; a rename of the wire
    [v] of [Child] leaves it alone. *)
Lemma updateHierPaths_other_paths_witness :
  updateHierPaths {[ ("Child", "v") := [OpAnnoTarget 0] ]} exampleCircuit
  = Ok exampleCircuit.
Proof.
  apply updateHierPaths_other_paths.
  intros module sym newRefs path Hrename Hpath.
  apply lookup_singleton_Some in Hrename as [[= <- <-] _].
  vm_compute in Hpath. apply list_elem_of_singleton in Hpath as ->.
  discriminate.
Defined.

(** A rename without a target ([LowerTypes] deleted an inner symbol) is
    a fatal assertion failure exactly when a path through the module
    ends at the renamed reference; otherwise it changes nothing. *)
Theorem updateRename_no_target (c : Circuit) (module sym : string) :
  let oldRef := InnerRefAttr module sym in
  let ends path := last (namepath path) = Some oldRef in
  (Exists ends (nlaLookup (nlaTable c) module) →
   updateRename c (module, sym, [])
   = Fatal "LowerTypes should not delete InnerRefAttrs") ∧
  (¬ Exists ends (nlaLookup (nlaTable c) module) →
   updateRename c (module, sym, []) = Ok c).
Proof.
  intros oldRef ends. unfold updateRename.
  induction (nlaLookup (nlaTable c) module) as [|path paths [IHex IHno]].
  - split; [by intros ?%Exists_nil|done].
  - simpl. unfold updatePath at 1 3.
    destruct (decide (ends path)) as [Hends|Hother].
    + rewrite bool_decide_eq_false_2 by (by intros ?).
      split; [done|]. intros Hno. exfalso. apply Hno. by left.
    + rewrite bool_decide_eq_true_2 by done. split.
      * intros [?|?]%Exists_cons; [done|]. by apply IHex.
      * intros Hno. apply IHno. intros Hex. apply Hno. by right.
Qed.

(** ** Lowering of a wire *)

Lemma updateAttrs_if (c : bool) id f t X :
  ops t !! id = Some X →
  (if c then updateAttrs id f else mret ()) t
  = Ok ((), setOps t (<[id := if c then setAttrs X (f (attrs X)) else X]>
                        (ops t))).
Proof.
  intros HX. destruct c.
  - unfold updateAttrs, updateOp. do 3 f_equal.
    rewrite <-(insert_id (ops t) id X) at 1 by done.
    by rewrite alter_insert_eq.
  - unfold mret, M_ret. rewrite insert_id by done. by rewrite setOps_ops.
Qed.

Lemma append_not_empty (base rest : string) :
  isEmpty base = false → isEmpty (base +:+ rest) = false.
Proof.
  unfold isEmpty. intros Hbase. apply bool_decide_eq_false in Hbase.
  apply bool_decide_eq_false. by destruct base.
Qed.

Lemma baseSymName_not_empty op v : isEmpty (baseSymName op v) = false.
Proof.
  unfold baseSymName. cbv zeta.
  destruct (isEmpty (if isEmpty (default "" (innerSymAttr (attrs op)))
                     then default "" (nameAttr (attrs op))
                     else default "" (innerSymAttr (attrs op)))) eqn:Hsym;
    [|done].
  by apply bool_decide_eq_false.
Qed.

(** One iteration of the loop of [lowerProducer], when [clone] creates
    the declaration [id] in the store [s0]. *)
Lemma lowerField_created module op clone srcType symBase field s s0 id nm
    args :
  isEmpty symBase = false →
  clone field
    (filterAnnotations (annotationsAttr (attrs op)) srcType field false
       (symBase +:+ suffix field)).1 s
  = Ok (id, s0) →
  ops s0 !! id
  = Some (mkOperation nm args [type field] []
            (cloneAttrs
               (filterAnnotations (annotationsAttr (attrs op)) srcType field
                  false (symBase +:+ suffix field)).1)) →
  ∃ s1,
    lowerField module op clone srcType (default "" (nameAttr (attrs op)))
      symBase field s
    = Ok (mkValue (OpResult id 0) (type field), s1) ∧
    ops s1
    = <[id := mkOperation nm args [type field] []
                (loweredAttrs op srcType symBase field)]> (ops s0) ∧
    nextId s1 = nextId s0 ∧
    inserted s1 = inserted s0.
Proof.
  intros Hbase Hclone Hcreated. unfold lowerField, loweredAttrs. cbv zeta.
  rewrite Hbase.
  pose proof (append_not_empty symBase (suffix field) Hbase) as Hsym.
  destruct (filterAnnotations (annotationsAttr (attrs op)) srcType field
              false (symBase +:+ suffix field)) as [annos needsSym].
  cbn [fst snd] in *.
  unfold mbind at 1, M_bind at 1. rewrite Hclone. cbn beta iota.
  set (X0 := mkOperation nm args [type field] [] (cloneAttrs annos)) in *.
  unfold mbind at 1, M_bind at 1.
  rewrite (updateAttrs_if _ id _ _ X0) by done.
  cbn beta iota.
  set (X1 := if negb _ then _ else X0).
  set (t1 := setOps _ _).
  assert (ops t1 !! id = Some X1) as H1 by apply lookup_insert_eq.
  unfold mbind at 1, M_bind at 1.
  assert ((match nameKindAttr (attrs op) with
           | Some kind =>
               updateAttrs id
                 (λ a, mkOpAttrs (nameAttr a) (Some kind) (innerSymAttr a)
                         (annotationsAttr a))
           | None => mret ()
           end) t1
          = Ok ((), setOps t1
                      (<[id := setAttrs X1
                                 (mkOpAttrs (nameAttr (attrs X1))
                                    (Some (default DroppableName
                                             (nameKindAttr (attrs op))))
                                    (innerSymAttr (attrs X1))
                                    (annotationsAttr (attrs X1)))]>
                         (ops t1)))) as ->.
  { destruct (nameKindAttr (attrs op)) as [kind|].
    - by rewrite (updateAttrs_if true id _ t1 X1).
    - rewrite (updateAttrs_if false id (λ a, a) t1 X1) by done.
      do 4 f_equal. subst X1 X0. by destruct (negb _). }
  cbn beta iota. unfold t1 at 2. cbn [ops setOps]. rewrite insert_insert_eq.
  set (X2 := setAttrs X1 _). set (t2 := setOps t1 _).
  assert (ops t2 !! id = Some X2) as H2 by apply lookup_insert_eq.
  set (wire := mkOperation nm args [type field] [] _).
  assert (∃ s1,
            (if needsSym || bool_decide (is_Some (innerSymAttr (attrs op)))
             then
               updateAttrs id
                 (λ a, mkOpAttrs (nameAttr a) (nameKindAttr a)
                         (Some (symBase +:+ suffix field))
                         (annotationsAttr a));;
               (if isEmpty (symBase +:+ suffix field)
                then fatal "!loweredSymName.empty()" else mret ());;
               match innerSymAttr (attrs op) with
               | Some innerSym =>
                   recordRename module innerSym (symBase +:+ suffix field)
                     (isGround (type field)) id
               | None => mret ()
               end
             else mret ()) t2 = Ok ((), s1) ∧
            ops s1 = <[id := wire]> (ops s0) ∧ nextId s1 = nextId s0 ∧
            inserted s1 = inserted s0) as (s1 & Hs1 & Hops & Hn & Hi).
  { assert (<[id := wire]> (ops s0)
            = <[id := if needsSym ||
                         bool_decide (is_Some (innerSymAttr (attrs op)))
                      then setAttrs X2
                             (mkOpAttrs (nameAttr (attrs X2))
                                (nameKindAttr (attrs X2))
                                (Some (symBase +:+ suffix field))
                                (annotationsAttr (attrs X2)))
                      else X2]> (ops t2)) as Hfinal.
    { unfold t2, t1. cbn [ops setOps]. rewrite !insert_insert_eq. f_equal.
      subst wire X2 X1 X0.
      destruct (isEmpty (default "" (nameAttr (attrs op)))) eqn:Hb.
      - destruct (needsSym || _); reflexivity.
      - rewrite (append_not_empty _ (suffix field) Hb).
        destruct (needsSym || _); reflexivity. }
    rewrite Hfinal.
    destruct (needsSym || bool_decide (is_Some (innerSymAttr (attrs op)))).
    - unfold mbind at 1, M_bind at 1.
      rewrite (updateAttrs_if true id _ t2 X2) by done. cbn beta iota.
      rewrite Hsym. unfold mbind at 1, M_bind at 1, mret at 1, M_ret at 1.
      destruct (innerSymAttr (attrs op)) as [innerSym|].
      + eexists. split; [reflexivity|]. done.
      + eexists. split; [reflexivity|]. done.
    - eexists. split; [reflexivity|]. rewrite insert_id by done. done. }
  unfold mbind at 1, M_bind at 1. rewrite Hs1. cbn beta iota.
  exists s1. split; [|done].
  unfold mbind, M_bind, getOp. rewrite Hops, lookup_insert_eq. done.
Qed.

(** One iteration of the loop of [lowerProducer] for a wire. *)
Lemma lowerField_wire module op srcType symBase field s :
  isEmpty symBase = false →
  ∃ s1,
    lowerField module op
      (λ field annotations,
         createOp (mkOperation WireOp [] [type field] []
                     (cloneAttrs annotations)))
      srcType (default "" (nameAttr (attrs op))) symBase field s
    = Ok (mkValue (OpResult (nextId s) 0) (type field), s1) ∧
    ops s1 = <[nextId s := loweredWire op srcType symBase field]> (ops s) ∧
    nextId s1 = S (nextId s) ∧
    inserted s1 = inserted s ++ [nextId s].
Proof.
  intros Hbase.
  destruct (lowerField_created module op
              (λ field annotations,
                 createOp (mkOperation WireOp [] [type field] []
                             (cloneAttrs annotations)))
              srcType symBase field s
              (withOp s (mkOperation WireOp [] [type field] []
                           (cloneAttrs
                              (filterAnnotations (annotationsAttr (attrs op))
                                 srcType field false
                                 (symBase +:+ suffix field)).1)))
              (nextId s) WireOp [] Hbase)
    as (s1 & Hrun & Hops & Hnext & Hins).
  - apply createOp_withOp.
  - apply lookup_insert_eq.
  - exists s1. split; [done|]. split; [|done].
    rewrite Hops. apply insert_insert_eq.
Qed.

Lemma emit_ops_ext t t' created :
  ops t = ops t' → nextId t = nextId t' →
  ops (emit t created) = ops (emit t' created) ∧
  nextId (emit t created) = nextId (emit t' created).
Proof.
  revert t t'. induction created as [|op l IH]; intros t t' Hops Hnext; [done|].
  simpl. apply IH; simpl; by rewrite ?Hops, ?Hnext.
Qed.

Lemma fieldValues_cons base field fields :
  fieldValues base (field :: fields)
  = mkValue (OpResult base 0) (type field) :: fieldValues (S base) fields.
Proof.
  unfold fieldValues. rewrite imap_cons, Nat.add_0_r. f_equal.
  apply imap_ext. intros i f _. simpl. do 2 f_equal. lia.
Qed.

Lemma fieldValues_lookup base fields i :
  fieldValues base fields !! i
  = (λ field, mkValue (OpResult (base + i) 0) (type field)) <$> fields !! i.
Proof. unfold fieldValues. by rewrite list_lookup_imap. Qed.

Lemma mapEachM_lowerField_wire module op srcType symBase fields : ∀ s,
  isEmpty symBase = false →
  ∃ s1,
    mapEachM
      (lowerField module op
         (λ field annotations,
            createOp (mkOperation WireOp [] [type field] []
                        (cloneAttrs annotations)))
         srcType (default "" (nameAttr (attrs op))) symBase)
      fields s
    = Ok (fieldValues (nextId s) fields, s1) ∧
    ops s1 = ops (emit s (loweredWire op srcType symBase <$> fields)) ∧
    nextId s1 = nextId s + length fields ∧
    inserted s1 = inserted s ++ seq (nextId s) (length fields).
Proof.
  induction fields as [|field fields IH]; intros s Hbase.
  - exists s. simpl. rewrite Nat.add_0_r, app_nil_r. done.
  - destruct (lowerField_wire module op srcType symBase field s Hbase)
      as (s1 & Hrun1 & Hops1 & Hnext1 & Hins1).
    destruct (IH s1 Hbase) as (s2 & Hrun2 & Hops2 & Hnext2 & Hins2).
    exists s2. cbn [mapEachM]. unfold mbind at 1, M_bind at 1.
    rewrite Hrun1. cbn beta iota. unfold mbind at 1, M_bind at 1.
    rewrite Hrun2. cbn beta iota. rewrite fieldValues_cons, Hnext1.
    split; [done|]. split; [|split].
    + rewrite Hops2. simpl.
      by apply (emit_ops_ext s1
                  (withOp s (loweredWire op srcType symBase field))).
    + rewrite Hnext2, Hnext1. simpl. lia.
    + rewrite Hins2, Hins1, Hnext1, <-app_assoc. done.
Qed.

Lemma rewired_other s val mapping id op :
  ops s !! id = Some op → ¬ consumes val op →
  ops (rewired s val mapping) !! id
  = Some (setOperands op (rewire (ops s) val mapping <$> operands op)).
Proof.
  intros Hop Hno. unfold rewired. simpl.
  rewrite lookup_fmap, map_lookup_filter, Hop. simpl.
  by rewrite option_guard_True.
Qed.

Lemma baseSymName_step op s :
  ∃ s1,
    (if isEmpty
          (if isEmpty (default "" (innerSymAttr (attrs op)))
           then default "" (nameAttr (attrs op))
           else default "" (innerSymAttr (attrs op)))
     then uniqueName
     else mret (if isEmpty (default "" (innerSymAttr (attrs op)))
                then default "" (nameAttr (attrs op))
                else default "" (innerSymAttr (attrs op)))) s
    = Ok (baseSymName op (visitor s), s1) ∧
    ops s1 = ops s ∧ nextId s1 = nextId s ∧ inserted s1 = inserted s.
Proof.
  unfold baseSymName.
  destruct (isEmpty (if isEmpty (default "" (innerSymAttr (attrs op)))
                     then default "" (nameAttr (attrs op))
                     else default "" (innerSymAttr (attrs op)))).
  - eexists. split; [reflexivity|done].
  - eexists. split; [reflexivity|done].
Qed.

Lemma lowerOp_wire lb opts module opId s op ty fields :
  ops s !! opId = Some op → opName op = WireOp →
  resultTypes op !! 0 = Some ty →
  peelType ty [] (preserveAggregate opts) = (true, fields) →
  wfIds s →
  map_Forall (λ _ user, consumes (OpResult opId 0) user →
                        is_Some (staticAccessorIndex user ≫= (fields !!.)))
    (ops s) →
  ∃ s1,
    lowerOp lb opts module opId s
    = Ok ((true, seq (nextId s) (length fields)),
          afterErase
            (rewired s1 (OpResult opId 0) (fieldValues (nextId s) fields))
            opId) ∧
    ops s1
    = ops (emit s (loweredWire op ty (baseSymName op (visitor s)) <$> fields)) ∧
    nextId s1 = nextId s + length fields.
Proof.
  intros Hop Hname Hty Hpeel Hwf Husers.
  destruct (baseSymName_step op (setInserted s []))
    as (s0 & Hrun0 & Hops0 & Hnext0 & Hins0).
  simpl in Hops0, Hnext0, Hins0.
  change (visitor (setInserted s [])) with (visitor s) in Hrun0.
  destruct (mapEachM_lowerField_wire module op ty
              (baseSymName op (visitor s)) fields s0
              (baseSymName_not_empty op (visitor s)))
    as (s1 & Hrun1 & Hops1 & Hnext1 & Hins1).
  rewrite Hnext0 in Hrun1, Hnext1, Hins1. rewrite Hins0 in Hins1.
  assert (ops s1
          = ops (emit s (loweredWire op ty (baseSymName op (visitor s))
                           <$> fields))) as Hstore.
  { rewrite Hops1. by apply emit_ops_ext. }
  exists s1. split; [|done].
  assert (processUsers (OpResult opId 0) (fieldValues (nextId s) fields) s1
          = Ok ((), rewired s1 (OpResult opId 0)
                      (fieldValues (nextId s) fields))) as Husers1.
  { apply processUsers_rewired.
    - intros id user Huser Hc. rewrite Hstore in Huser.
      apply emit_lookup_inv in Huser as [Huser|(j & -> & Hj)].
      + specialize (Husers id user Huser Hc). simpl in Husers.
        unfold leafFor. destruct (staticAccessorIndex user) as [i|]; simpl in *;
          [|by destruct Husers].
        rewrite fieldValues_lookup. destruct Husers as [f ->]. by eexists.
      + rewrite list_lookup_fmap in Hj.
        destruct (fields !! j); simplify_eq/=.
        unfold consumes in Hc. simpl in Hc. by apply elem_of_nil in Hc.
    - intros repl id user Hin Huser Hc Heq. rewrite Hstore in Huser.
      apply list_elem_of_lookup in Hin as [i Hi].
      rewrite fieldValues_lookup in Hi.
      destruct (fields !! i); simplify_eq/=.
      apply emit_lookup_inv in Huser as [Huser|(j & Hj & Hnew)].
      + apply Hwf in Huser. simpl in Huser. lia.
      + rewrite list_lookup_fmap in Hnew.
        destruct (fields !! j); simplify_eq/=.
        unfold consumes in Hc. simpl in Hc. by apply elem_of_nil in Hc. }
  rewrite (lowerOp_erases lb opts module opId s
             (rewired s1 (OpResult opId 0) (fieldValues (nextId s) fields))).
  - simpl. rewrite Hins1. done.
  - unfold dispatchVisitor. unfold mbind at 1, M_bind at 1, getOp.
    simpl. rewrite Hop, Hname. unfold visitDecl_WireOp, lowerProducer.
    unfold mbind at 1, M_bind at 1, getOp. simpl. rewrite Hop, Hty, Hpeel.
    cbn [negb]. cbv iota. unfold mbind at 1, M_bind at 1.
    rewrite Hrun0. cbn beta iota. unfold mbind at 1, M_bind at 1.
    rewrite Hrun1. cbn beta iota. unfold mbind at 1, M_bind at 1.
    rewrite Husers1. done.
Qed.

(** [lowerBlock]'s step on a wire whose type [peelType] decomposes into
    [fields], in a store where every consumer of the wire is a static
    field or index accessor of one of the fields: the step succeeds and
    asks for the erasure of the wire; the [i]-th field gets, at the
    fresh identity [nextId s + i], the wire [loweredWire] of the type of
    the field, named by the name of the wire and the suffix of the
    field; the wire and its accessors are gone; every other operation
    stays, with each use of the result of an accessor replaced by the
    new wire of the field it selects. *)
Theorem wire_lowered_per_field lb opts module opId s op ty fields :
  ops s !! opId = Some op → opName op = WireOp →
  resultTypes op !! 0 = Some ty →
  peelType ty [] (preserveAggregate opts) = (true, fields) →
  wfIds s →
  map_Forall (λ _ user, consumes (OpResult opId 0) user →
                        is_Some (staticAccessorIndex user ≫= (fields !!.)))
    (ops s) →
  ∃ s',
    lowerOp lb opts module opId s
    = Ok ((true, seq (nextId s) (length fields)), s') ∧
    nextId s' = nextId s + length fields ∧
    ops s' !! opId = None ∧
    (∀ i field, fields !! i = Some field →
       ops s' !! (nextId s + i)
       = Some (loweredWire op ty (baseSymName op (visitor s)) field)) ∧
    (∀ id user, ops s !! id = Some user → consumes (OpResult opId 0) user →
       ops s' !! id = None) ∧
    (∀ id user, ops s !! id = Some user → id ≠ opId →
       ¬ consumes (OpResult opId 0) user →
       ops s' !! id
       = Some (setOperands user
                 (rewire (ops s) (OpResult opId 0)
                    (fieldValues (nextId s) fields) <$> operands user))).
Proof.
  intros Hop Hname Hty Hpeel Hwf Husers.
  destruct (lowerOp_wire lb opts module opId s op ty fields)
    as (s1 & Hrun & Hstore & Hnext); [done..|].
  eexists. split; [exact Hrun|].
  assert (∀ id user, ops s !! id = Some user → ops s1 !! id = Some user)
    as Hold.
  { intros id user Huser. rewrite Hstore, emit_lookup_old; [done|].
    by apply Hwf in Huser. }
  assert (∀ id user, ops s1 !! id = Some user →
            consumes (OpResult opId 0) user → ops s !! id = Some user)
    as Hconsumer.
  { intros id user Huser Hc. rewrite Hstore in Huser.
    apply emit_lookup_inv in Huser as [Huser|(j & -> & Hj)]; [done|].
    rewrite list_lookup_fmap in Hj. destruct (fields !! j); simplify_eq/=.
    unfold consumes in Hc. simpl in Hc. by apply elem_of_nil in Hc. }
  split; [done|]. split; [apply lookup_delete_eq|]. split; [|split].
  - intros i field Hfield. unfold afterErase. cbn [ops]. rewrite lookup_delete_ne; last first.
    { apply Hwf in Hop. simpl in Hop. lia. }
    assert (ops s1 !! (nextId s + i)
            = Some (loweredWire op ty (baseSymName op (visitor s)) field))
      as Hnew.
    { rewrite Hstore. apply emit_lookup_new.
      by rewrite list_lookup_fmap, Hfield. }
    rewrite (rewired_other _ _ _ _ _ Hnew); [done|].
    unfold consumes. simpl. apply not_elem_of_nil.
  - intros id user Huser Hc. unfold afterErase. cbn [ops].
    destruct (decide (id = opId)) as [->|Hne]; [apply lookup_delete_eq|].
    rewrite lookup_delete_ne by done.
    by eapply rewired_consumer; [apply Hold|].
  - intros id user Huser Hne Hnc. unfold afterErase. cbn [ops].
    rewrite lookup_delete_ne by done.
    rewrite (rewired_other _ _ _ _ _ (Hold _ _ Huser) Hnc). do 2 f_equal.
    apply list_fmap_ext. intros _ v _. unfold rewire.
    destruct (valueDef v) as [|k [|r]]; try done.
    destruct (ops s1 !! k) as [user1|] eqn:Huser1.
    + destruct (decide (consumes (OpResult opId 0) user1)) as [Hc|Hc].
      * by rewrite (Hconsumer _ _ Huser1 Hc), decide_True.
      * destruct (ops s !! k) as [user0|] eqn:Huser0; [|done].
        apply Hold in Huser0. simplify_eq. by rewrite decide_False.
    + destruct (ops s !! k) as [user0|] eqn:Huser0; [|done].
      apply Hold in Huser0. congruence.
Qed.

(** The wire [w] of [exampleUsersStore] is replaced by the wires [w_a]
    and [w_b] at the identities [6] and [7], which the connect of [w.a]
    and [w.b] then uses. *)
Lemma wire_lowered_per_field_witness :
  ∃ s',
    lowerOp (λ block, mret block) exampleOptions "Top" 0 exampleUsersStore
    = Ok ((true, [6; 7]), s') ∧
    ops s' !! 0 = None ∧ ops s' !! 1 = None ∧ ops s' !! 2 = None ∧
    (nameAttr ∘ attrs <$> ops s' !! 6) = Some (Some "w_a") ∧
    (nameAttr ∘ attrs <$> ops s' !! 7) = Some (Some "w_b") ∧
    (operands <$> ops s' !! 3)
    = Some [mkValue (OpResult 6 0) uint1; mkValue (OpResult 7 0) uint1].
Proof.
  destruct (wire_lowered_per_field (λ block, mret block) exampleOptions "Top"
              0 exampleUsersStore (exampleWire "w" exampleBundle)
              exampleBundle
              (peelType exampleBundle [] false).2)
    as (s' & Hrun & _ & Hgone & Hnew & Hacc & Hother).
  - reflexivity.
  - reflexivity.
  - reflexivity.
  - reflexivity.
  - apply (bool_decide_unpack _). vm_compute. exact I.
  - apply (bool_decide_unpack _). vm_compute. exact I.
  - exists s'. split; [exact Hrun|]. split; [exact Hgone|].
    split; [|split; [|split; [|split]]].
    + apply (Hacc 1 _ eq_refl). apply (bool_decide_unpack _). vm_compute.
      exact I.
    + apply (Hacc 2 _ eq_refl). apply (bool_decide_unpack _). vm_compute.
      exact I.
    + exact (f_equal (fmap (nameAttr ∘ attrs)) (Hnew 0 _ eq_refl)).
    + exact (f_equal (fmap (nameAttr ∘ attrs)) (Hnew 1 _ eq_refl)).
    + refine (f_equal (fmap operands) (Hother 3 _ eq_refl _ _)); [lia|].
      apply (bool_decide_unpack _). vm_compute. exact I.
Defined.

(** ** The ports of an external module *)

Lemma addArg_child module insertPt insertPtOffset field oldArg s :
  insertPtOffset + 1 ≤ insertPt →
  ∃ s1,
    addArg module insertPt insertPtOffset (portType oldArg) field oldArg s
    = Ok (childPort oldArg field, s1) ∧
    ops s1 = ops s.
Proof.
  intros Hpt. unfold addArg, childPort.
  assert ((match portSym oldArg with
           | Some sym => negb (isEmpty sym)
           | None => false
           end) = negb (isEmpty (default "" (portSym oldArg)))) as ->.
  { by destruct (portSym oldArg). }
  destruct (negb (isEmpty (default "" (portSym oldArg)))) eqn:Hsym.
  - destruct (filterAnnotations _ _ _ _ _) as [annos needsSym].
    unfold mbind, M_bind, recordPortRename. simpl.
    destruct (isGround (type field)).
    + rewrite decide_True by done. eexists. split; [reflexivity|done].
    + eexists. split; [reflexivity|done].
  - destruct (filterAnnotations _ _ _ _ _) as [annos needsSym].
    eexists. split; [reflexivity|done].
Qed.

Lemma insertAt_middle {A} (before after : list A) (x : A) :
  insertAt (length before) x (before ++ after) = before ++ x :: after.
Proof.
  unfold insertAt. by rewrite take_app_length, drop_app_length.
Qed.

Lemma lowerArg_fields module argsRemoved (pre rest : list PortInfo) port :
  argsRemoved ≤ length pre →
  ∀ fields k children s,
    length children = k →
    ∃ s1,
      foldEachM
        (λ newArgs (field : nat * FlatBundleFieldEntry),
           match newArgs !! length pre with
           | None => fatal "index out of range"
           | Some oldArg =>
               newValue ← addArg module (1 + length pre + field.1)
                            argsRemoved (portType port) field.2 oldArg;
               mret (insertAt (1 + length pre + field.1) newValue newArgs)
           end)
        (pre ++ port :: children ++ rest)
        (imap (λ i field, (k + i, field)) fields) s
      = Ok (pre ++ port :: (children ++ (childPort port <$> fields)) ++ rest,
            s1) ∧
      ops s1 = ops s.
Proof.
  intros Hremoved. induction fields as [|field fields IH];
    intros k children s Hk.
  - exists s. simpl. by rewrite app_nil_r.
  - rewrite imap_cons. cbn [foldEachM]. unfold mbind at 1, M_bind at 1.
    rewrite list_lookup_middle by done. cbn [fst snd].
    destruct (addArg_child module (1 + length pre + (k + 0)) argsRemoved
                field port s) as (s1 & Hadd & Hops1); [lia|].
    unfold mbind at 1, M_bind at 1. rewrite Hadd. cbn beta iota.
    unfold mret at 1, M_ret at 1. cbn beta iota.
    replace (insertAt (1 + length pre + (k + 0)) (childPort port field)
               (pre ++ port :: children ++ rest))
      with (pre ++ port :: (children ++ [childPort port field]) ++ rest);
      last first.
    { replace (pre ++ port :: children ++ rest)
        with ((pre ++ port :: children) ++ rest)
        by (by rewrite <-app_assoc).
      replace (1 + length pre + (k + 0)) with (length (pre ++ port :: children))
        by (rewrite length_app; simpl; lia).
      rewrite insertAt_middle, <-!app_assoc. done. }
    destruct (IH (S k) (children ++ [childPort port field]) s1)
      as (s2 & Hrun & Hops2).
    { rewrite length_app. simpl. lia. }
    exists s2. split; [|congruence].
    rewrite (imap_ext _ (λ i field, (S k + i, field))); last first.
    { intros i f _. simpl. f_equal. lia. }
    rewrite Hrun, fmap_cons.
    by rewrite <-(app_assoc children [childPort port field]).
Qed.

Lemma lowerArg_run opts module argsRemoved (pre rest : list PortInfo) port s :
  argsRemoved ≤ length pre →
  ∃ s1,
    lowerArg opts module (length pre) argsRemoved (pre ++ port :: rest) s
    = Ok (let peeled :=
            peelType (portType port) []
              (isModuleAllowedToPreserveAggregate opts module) in
          if peeled.1
          then (true, pre ++ port :: (childPort port <$> peeled.2) ++ rest)
          else (false, pre ++ port :: rest), s1) ∧
    ops s1 = ops s.
Proof.
  intros Hremoved. unfold lowerArg. rewrite list_lookup_middle by done.
  destruct (peelType (portType port) []
              (isModuleAllowedToPreserveAggregate opts module))
    as [[|] fields]; cbn [negb fst snd].
  - destruct (lowerArg_fields (moduleName module) argsRemoved pre rest port
                Hremoved fields 0 [] s eq_refl) as (s1 & Hrun & Hops).
    exists s1. split; [|done]. unfold mbind at 1, M_bind at 1.
    assert (foldEachM
              (λ newArgs (field : nat * FlatBundleFieldEntry),
                 match newArgs !! length pre with
                 | None => fatal "index out of range"
                 | Some oldArg =>
                     newValue ← addArg (moduleName module)
                                  (1 + length pre + field.1) argsRemoved
                                  (portType port) field.2 oldArg;
                     mret (insertAt (1 + length pre + field.1) newValue
                             newArgs)
                 end)
              (pre ++ port :: rest) (imap pair fields) s
            = Ok (pre ++ port :: (childPort port <$> fields) ++ rest, s1))
      as Hrun' by exact Hrun.
    by rewrite Hrun'.
  - by exists s.
Qed.

Lemma portNodes_app ports1 ports2 :
  portNodes (ports1 ++ ports2) = portNodes ports1 + portNodes ports2.
Proof. apply sum_list_with_app. Qed.

Lemma bundle_nodes port
    (entry : nat → BundleElement FIRRTLType → FlatBundleFieldEntry) elts :
  (∀ i elt, type (entry i elt) = eltType elt) →
  portNodes (childPort port <$> imap entry elts)
  = (fix go (elts : list (BundleElement FIRRTLType)) : nat :=
       match elts with
       | [] => 0
       | elt :: rest => typeNodes (eltType elt) + go rest
       end) elts.
Proof.
  revert entry. induction elts as [|elt elts IH]; intros entry Hentry; [done|].
  rewrite imap_cons, fmap_cons. unfold portNodes in *. cbn [sum_list_with].
  rewrite IH by (intros i e; apply Hentry).
  unfold compose at 1. simpl. by rewrite Hentry.
Qed.

Lemma vector_nodes port (entry : nat → FlatBundleFieldEntry) elementType
    (indices : list nat) :
  (∀ i, type (entry i) = elementType) →
  portNodes (childPort port <$> map entry indices)
  = length indices * typeNodes elementType.
Proof.
  intros Hentry. induction indices as [|i indices IH]; [done|].
  unfold portNodes in *. rewrite map_cons, fmap_cons. cbn [sum_list_with].
  rewrite IH. unfold compose at 1. simpl. by rewrite Hentry.
Qed.

Lemma peelType_nodes ty allowed fields port :
  peelType ty [] allowed = (true, fields) →
  portNodes (childPort port <$> fields) < typeNodes ty.
Proof.
  unfold peelType.
  destruct (allowed && isPreservableAggregateType ty); [done|].
  destruct ty as [kind width|elements|elementType n]; intros H;
    simplify_eq; cbn [app].
  - rewrite bundle_nodes by done. simpl. lia.
  - rewrite (vector_nodes _ _ elementType) by done.
    rewrite length_seq. simpl. lia.
Qed.

Lemma eraseArgs_middle args port rest marks :
  eraseArgs (args ++ port :: rest) (marks ++ [length args])
  = eraseArgs (args ++ rest) marks.
Proof.
  unfold eraseArgs. rewrite reverse_snoc. simpl. f_equal.
  induction args as [|arg args IH]; [done|]. simpl. by rewrite IH.
Qed.

Lemma lowerArgsFrom_run opts module : ∀ fuel todo pre argsRemoved marks s,
  portNodes todo < fuel → argsRemoved ≤ length pre →
  (∀ l, eraseArgs (pre ++ l) marks = eraseArgs pre marks ++ l) →
  ∃ leaves newArgs marks1 s1,
    Forall2 (Flattens (isModuleAllowedToPreserveAggregate opts module))
      todo leaves ∧
    Forall (λ port,
              (peelType (portType port) []
                 (isModuleAllowedToPreserveAggregate opts module)).1 = false)
      (concat leaves) ∧
    lowerArgsFrom fuel opts module (length pre) argsRemoved (pre ++ todo)
      marks s
    = Ok ((newArgs, marks1), s1) ∧
    ops s1 = ops s ∧
    eraseArgs newArgs marks1 = eraseArgs pre marks ++ concat leaves.
Proof.
  induction fuel as [|fuel IH]; intros todo pre argsRemoved marks s Hfuel
    Hremoved Herase; [lia|].
  destruct todo as [|port rest].
  - exists [], pre, marks, s. split; [constructor|]. split; [constructor|].
    cbn [lowerArgsFrom]. rewrite app_nil_r, decide_False by lia.
    split; [done|]. split; [done|]. simpl. by rewrite app_nil_r.
  - cbn [lowerArgsFrom]. rewrite decide_True; last first.
    { rewrite length_app. simpl. lia. }
    destruct (lowerArg_run opts module argsRemoved pre rest port s Hremoved)
      as (s1 & Hrun & Hops1).
    unfold mbind at 1, M_bind at 1. rewrite Hrun. clear Hrun.
    unfold portNodes in Hfuel. simpl in Hfuel.
    change (sum_list_with (typeNodes ∘ portType) rest) with (portNodes rest)
      in Hfuel.
    destruct (peelType (portType port) []
                (isModuleAllowedToPreserveAggregate opts module))
      as [[|] fields] eqn:Hpeel; cbn [fst snd]; cbn beta iota.
    + pose proof (peelType_nodes _ _ _ port Hpeel) as Hnodes.
      destruct (IH ((childPort port <$> fields) ++ rest) (pre ++ [port])
                  (S argsRemoved) (marks ++ [length pre]) s1)
        as (leaves & newArgs & marks1 & s2 & Hflat & Hintact & Hrun & Hops2 &
            Hresult).
      { rewrite portNodes_app. lia. }
      { rewrite length_app. simpl. lia. }
      { intros l. rewrite <-app_assoc. simpl.
        rewrite eraseArgs_middle, Herase.
        rewrite (eraseArgs_middle pre port [] marks), app_nil_r. done. }
      apply Forall2_app_inv_l in Hflat
        as (kidLeaves & restLeaves & Hkids & Hrest & ->).
      rewrite Forall2_fmap_l in Hkids.
      exists (concat kidLeaves :: restLeaves), newArgs, marks1, s2.
      rewrite concat_app in Hintact, Hresult.
      split.
      { constructor; [|done].
        apply (Flattens_peels _ _ fields); [done|exact Hkids]. }
      split; [done|]. split; [|split; [congruence|]].
      * rewrite <-Hrun. rewrite length_app. simpl.
        replace (length pre + 1) with (S (length pre)) by lia.
        by rewrite <-app_assoc.
      * rewrite Hresult, (eraseArgs_middle pre port [] marks), app_nil_r.
        done.
    + destruct (IH rest (pre ++ [port]) argsRemoved marks s1)
        as (leaves & newArgs & marks1 & s2 & Hflat & Hintact & Hrun & Hops2 &
            Hresult).
      { pose proof (typeNodes_pos (portType port)). unfold compose in Hfuel.
        lia. }
      { rewrite length_app. simpl. lia. }
      { intros l. by rewrite <-app_assoc, !Herase, <-app_assoc. }
      exists ([port] :: leaves), newArgs, marks1, s2.
      split; [constructor; [apply Flattens_stays; by rewrite Hpeel|done]|].
      split; [constructor; [by rewrite Hpeel|done]|].
      split; [|split; [congruence|]].
      * rewrite <-Hrun. rewrite length_app. simpl.
        replace (length pre + 1) with (S (length pre)) by lia.
        by rewrite <-app_assoc.
      * rewrite Hresult, Herase, <-app_assoc. done.
Qed.

(** [visitDecl(FExtModuleOp)], given fuel above the number of type nodes
    of the ports, ends without a fatal error and leaves the operations
    alone; every port is replaced, in place, by the ports [Flattens]
    derives from it: itself when [peelType] leaves its type intact, else
    the ports of its fields in order, each decomposed in turn and named
    by the name of its parent and the suffix of the field, with the
    direction inverted for a flipped field.  No decomposable port is
    left. *)
Theorem extmodule_ports_flattened fuel opts extModule ports s :
  portNodes ports < fuel →
  let allowed := isModuleAllowedToPreserveAggregate opts extModule in
  ∃ leaves s1,
    Forall2 (Flattens allowed) ports leaves ∧
    visitDecl_FExtModuleOp fuel opts extModule ports s
    = Ok (mkPortAttrs (portDirection <$> concat leaves)
            (portName <$> concat leaves) (portType <$> concat leaves)
            ((λ port, default "" (portSym port)) <$> concat leaves)
            (portAnnotations <$> concat leaves), s1) ∧
    Forall (λ port, (peelType (portType port) [] allowed).1 = false)
      (concat leaves) ∧
    ops s1 = ops s.
Proof.
  intros Hfuel allowed.
  destruct (lowerArgsFrom_run opts extModule fuel ports [] 0 [] s)
    as (leaves & newArgs & marks & s1 & Hflat & Hintact & Hrun & Hops &
        Hresult); [done|done|done|].
  exists leaves, s1. split; [done|]. split; [|done].
  unfold visitDecl_FExtModuleOp, mbind, M_bind.
  simpl in Hrun. rewrite Hrun. cbn beta iota. by rewrite Hresult.
Qed.

(** The ports [p : {a : flip UInt<1>, b : UInt<1>}] and
    [q : UInt<1>\[2\]] become [p_a], [p_b], [q_0] and [q_1]; [p_a] has
    the direction opposite to the one of [p]. *)
Lemma extmodule_ports_flattened_witness :
  ∃ attrs s1,
    visitDecl_FExtModuleOp 8 exampleOptions exampleExtModule examplePorts
      exampleUsersStore
    = Ok (attrs, s1) ∧
    portNames attrs = ["p_a"; "p_b"; "q_0"; "q_1"] ∧
    portDirections attrs
    = [Direction.Out; Direction.In; Direction.Out; Direction.Out] ∧
    portSyms attrs = ["s_a"; "s_b"; ""; ""] ∧
    ops s1 = ops exampleUsersStore.
Proof.
  destruct (extmodule_ports_flattened 8 exampleOptions exampleExtModule
              examplePorts exampleUsersStore)
    as (leaves & s1 & _ & Hrun & _ & Hops).
  - vm_compute. lia.
  - eexists _, s1. split; [exact Hrun|].
    assert (∃ s0,
              visitDecl_FExtModuleOp 8 exampleOptions exampleExtModule
                examplePorts exampleUsersStore
              = Ok (mkPortAttrs
                      [Direction.Out; Direction.In; Direction.Out;
                       Direction.Out]
                      ["p_a"; "p_b"; "q_0"; "q_1"]
                      [uint1; uint1; uint1; uint1]
                      ["s_a"; "s_b"; ""; ""] [[]; []; []; []], s0))
      as [s0 Hvalue].
    { eexists. vm_compute. reflexivity. }
    rewrite Hvalue in Hrun. injection Hrun as Hd Hn _ Hs _ _.
    simpl. by rewrite <-Hd, <-Hn, <-Hs.
Defined.

(** ** Lowering of a node *)

Lemma peelType_allowed ty allowed fields :
  peelType ty [] allowed = (true, fields) →
  peelType ty [] false = (true, fields).
Proof.
  unfold peelType.
  by destruct (allowed && isPreservableAggregateType ty).
Qed.

Lemma nodeValues_lookup base fields i :
  nodeValues base fields !! i
  = (λ field, mkValue (OpResult (base + 2 * i + 1) 0) (type field))
    <$> fields !! i.
Proof. unfold nodeValues. by rewrite list_lookup_imap. Qed.

Lemma lowerField_node module opId op srcType symBase input field s :
  isEmpty symBase = false →
  ops s !! opId = Some op → operands op !! 0 = Some input →
  index field < numElements (getType input) →
  ∃ s1,
    lowerField module op
      (λ field annotations,
         op ← getOp opId;
         opInput ← getOperand op 0;
         input ← getSubWhatever opInput (index field);
         createOp (mkOperation NodeOp [input] [type field] []
                     (cloneAttrs annotations)))
      srcType (default "" (nameAttr (attrs op))) symBase field s
    = Ok (mkValue (OpResult (S (nextId s)) 0) (type field), s1) ∧
    ops s1
    = <[S (nextId s) :=
          mkOperation NodeOp [accessorValue (nextId s) input (index field)]
            [type field] [] (loweredAttrs op srcType symBase field)]>
        (<[nextId s := accessorOp input (index field)]> (ops s)) ∧
    nextId s1 = S (S (nextId s)) ∧
    inserted s1 = inserted s ++ [nextId s; S (nextId s)].
Proof.
  intros Hbase Hop Hinput Hindex.
  destruct (lowerField_created module op
              (λ field annotations,
                 op ← getOp opId;
                 opInput ← getOperand op 0;
                 input ← getSubWhatever opInput (index field);
                 createOp (mkOperation NodeOp [input] [type field] []
                             (cloneAttrs annotations)))
              srcType symBase field s
              (withOp (withOp s (accessorOp input (index field)))
                 (mkOperation NodeOp
                    [accessorValue (nextId s) input (index field)]
                    [type field] []
                    (cloneAttrs
                       (filterAnnotations (annotationsAttr (attrs op))
                          srcType field false
                          (symBase +:+ suffix field)).1)))
              (S (nextId s)) NodeOp
              [accessorValue (nextId s) input (index field)] Hbase)
    as (s1 & Hrun & Hops & Hnext & Hins).
  - unfold mbind at 1, M_bind at 1, getOp. rewrite Hop.
    unfold mbind at 1, M_bind at 1, getOperand. rewrite Hinput.
    unfold mret at 1, M_ret at 1. cbn beta iota.
    unfold mbind at 1, M_bind at 1.
    rewrite getSubWhatever_accessor by done. cbn beta iota.
    apply createOp_withOp.
  - apply lookup_insert_eq.
  - exists s1. split; [done|]. split; [|split].
    + rewrite Hops. simpl. apply insert_insert_eq.
    + by rewrite Hnext.
    + rewrite Hins. simpl. by rewrite <-app_assoc.
Qed.

Lemma mapEachM_lowerField_node module opId op srcType symBase input base :
  isEmpty symBase = false →
  operands op !! 0 = Some input → opId < base →
  ∀ fields k s,
    nextId s = base + 2 * k →
    ops s !! opId = Some op →
    Forall (λ field, index field < numElements (getType input)) fields →
    ∃ s1,
      mapEachM
        (lowerField module op
           (λ field annotations,
              op ← getOp opId;
              opInput ← getOperand op 0;
              input ← getSubWhatever opInput (index field);
              createOp (mkOperation NodeOp [input] [type field] []
                          (cloneAttrs annotations)))
           srcType (default "" (nameAttr (attrs op))) symBase)
        fields s
      = Ok (imap (λ i field,
                    mkValue (OpResult (base + 2 * (k + i) + 1) 0) (type field))
              fields, s1) ∧
      ops s1
      = ops (emit s (concat (imap (λ i, loweredNode op srcType symBase input
                                           base (k + i)) fields))) ∧
      nextId s1 = nextId s + 2 * length fields ∧
      inserted s1 = inserted s ++ seq (nextId s) (2 * length fields).
Proof.
  intros Hbase Hinput Hid.
  induction fields as [|field fields IH]; intros k s Hnext Hop Hindex.
  - exists s. simpl. by rewrite Nat.add_0_r, app_nil_r.
  - apply Forall_cons in Hindex as [Hfield Hindex].
    destruct (lowerField_node module opId op srcType symBase input field s
                Hbase Hop Hinput Hfield) as (s1 & Hrun1 & Hops1 & Hnext1 & Hins1).
    destruct (IH (S k) s1) as (s2 & Hrun2 & Hops2 & Hnext2 & Hins2).
    { rewrite Hnext1, Hnext. lia. }
    { rewrite Hops1, !lookup_insert_ne by lia. done. }
    { done. }
    exists s2. cbn [mapEachM]. unfold mbind at 1, M_bind at 1.
    rewrite Hrun1. cbn beta iota. unfold mbind at 1, M_bind at 1.
    rewrite Hrun2. cbn beta iota. split; [|split; [|split]].
    + unfold mret, M_ret. rewrite imap_cons. do 3 f_equal.
      * rewrite Hnext. do 2 f_equal. lia.
      * apply imap_ext. intros i f _. simpl. do 2 f_equal. lia.
    + rewrite Hops2, imap_cons. cbn [concat]. rewrite emit_app.
      rewrite (imap_ext (_ ∘ S) (λ i, loweredNode op srcType symBase input
                                        base (S k + i)))
        by (intros; simpl; f_equal; lia).
      apply emit_ops_ext.
      * rewrite Hops1. unfold loweredNode, emit. simpl.
        rewrite Hnext, Nat.add_0_r. done.
      * rewrite Hnext1. unfold loweredNode, emit. simpl. done.
    + rewrite Hnext2, Hnext1. simpl. lia.
    + rewrite Hins2, Hins1, Hnext1, <-app_assoc. simpl.
      do 3 f_equal. by rewrite Nat.add_succ_r.
Qed.

Lemma loweredNode_created op srcType symBase input base fields j created :
  concat (imap (loweredNode op srcType symBase input base) fields) !! j
  = Some created →
  ∃ i field r,
    fields !! i = Some field ∧ j = 2 * i + r ∧
    loweredNode op srcType symBase input base i field !! r = Some created.
Proof.
  intros Hj. pose proof (lookup_lt_Some _ _ _ Hj) as Hlt.
  rewrite (concat_imap_length _ _ 2) in Hlt by done.
  pose proof (Nat.div_mod_eq j 2) as Hdiv.
  pose proof (Nat.mod_upper_bound j 2) as Hmod.
  destruct (lookup_lt_is_Some_2 fields (j / 2)) as [field Hfield]; [lia|].
  exists (j / 2), field, (j mod 2). split; [done|]. split; [done|].
  rewrite Hdiv in Hj at 1.
  rewrite (concat_imap_lookup _ _ 2 _ _ field) in Hj; [done|done|done|lia].
Qed.

Lemma loweredNode_not_consumer op srcType symBase input base i field r
    created opId :
  loweredNode op srcType symBase input base i field !! r = Some created →
  valueDef input ≠ OpResult opId 0 → opId < base →
  ¬ consumes (OpResult opId 0) created.
Proof.
  intros Hr Hinput Hid. unfold loweredNode in Hr.
  destruct r as [|[|r]]; simplify_eq/=; unfold consumes; simpl.
  - rewrite list_elem_of_singleton. congruence.
  - rewrite list_elem_of_singleton. intros [=]. lia.
Qed.

Lemma lowerOp_node lb opts module opId s op ty input fields :
  ops s !! opId = Some op → opName op = NodeOp →
  operands op !! 0 = Some input → getType input = ty →
  resultTypes op !! 0 = Some ty →
  peelType ty [] (preserveAggregate opts) = (true, fields) →
  wfIds s →
  map_Forall (λ _ user, consumes (OpResult opId 0) user →
                        is_Some (staticAccessorIndex user ≫= (fields !!.)))
    (ops s) →
  valueDef input ≠ OpResult opId 0 →
  ∃ s1,
    lowerOp lb opts module opId s
    = Ok ((true, seq (nextId s) (2 * length fields)),
          afterErase
            (rewired s1 (OpResult opId 0) (nodeValues (nextId s) fields))
            opId) ∧
    ops s1
    = ops (emit s (concat (imap (loweredNode op ty
                                   (baseSymName op (visitor s)) input
                                   (nextId s)) fields))) ∧
    nextId s1 = nextId s + 2 * length fields.
Proof.
  intros Hop Hname Hinput Hity Hty Hpeel Hwf Husers Hself.
  pose proof (Hwf _ _ Hop) as Hid. simpl in Hid.
  destruct (baseSymName_step op (setInserted s []))
    as (s0 & Hrun0 & Hops0 & Hnext0 & Hins0).
  simpl in Hops0, Hnext0, Hins0.
  change (visitor (setInserted s [])) with (visitor s) in Hrun0.
  destruct (mapEachM_lowerField_node module opId op ty
              (baseSymName op (visitor s)) input (nextId s)
              (baseSymName_not_empty op (visitor s)) Hinput Hid fields 0 s0)
    as (s1 & Hrun1 & Hops1 & Hnext1 & Hins1).
  { rewrite Hnext0. lia. }
  { by rewrite Hops0. }
  { apply Forall_lookup. intros i field Hfield.
    pose proof (peelType_allowed _ _ _ Hpeel) as Hpeel0.
    destruct (peelType_field ty fields i field Hpeel0 Hfield) as (-> & _).
    apply lookup_lt_Some in Hfield.
    rewrite (peelType_length ty fields Hpeel0) in Hfield. by rewrite Hity. }
  rewrite Hnext0 in Hnext1, Hins1. rewrite Hins0 in Hins1.
  assert (ops s1
          = ops (emit s (concat (imap (loweredNode op ty
                                         (baseSymName op (visitor s)) input
                                         (nextId s)) fields)))) as Hstore.
  { rewrite Hops1.
    apply (emit_ops_ext s0 s
             (concat (imap (loweredNode op ty (baseSymName op (visitor s))
                              input (nextId s)) fields))); done. }
  exists s1. split; [|done].
  assert (processUsers (OpResult opId 0) (nodeValues (nextId s) fields) s1
          = Ok ((), rewired s1 (OpResult opId 0)
                      (nodeValues (nextId s) fields))) as Husers1.
  { apply processUsers_rewired.
    - intros id user Huser Hc. rewrite Hstore in Huser.
      apply emit_lookup_inv in Huser as [Huser|(j & -> & Hj)].
      + specialize (Husers id user Huser Hc). simpl in Husers.
        unfold leafFor. destruct (staticAccessorIndex user) as [i|]; simpl in *;
          [|by destruct Husers].
        rewrite nodeValues_lookup. destruct Husers as [f ->]. by eexists.
      + apply loweredNode_created in Hj as (i & field & r & _ & _ & Hr).
        by apply (loweredNode_not_consumer _ _ _ _ _ _ _ _ _ opId) in Hr.
    - intros repl id user Hin Huser Hc Heq. rewrite Hstore in Huser.
      apply list_elem_of_lookup in Hin as [i Hi].
      rewrite nodeValues_lookup in Hi.
      destruct (fields !! i); simplify_eq/=.
      apply emit_lookup_inv in Huser as [Huser|(j & Hj & Hnew)].
      + apply Hwf in Huser. simpl in Huser. lia.
      + apply loweredNode_created in Hnew as (i' & field & r & _ & _ & Hr).
        by apply (loweredNode_not_consumer _ _ _ _ _ _ _ _ _ opId) in Hr. }
  rewrite (lowerOp_erases lb opts module opId s
             (rewired s1 (OpResult opId 0) (nodeValues (nextId s) fields))).
  - simpl. rewrite Hins1. done.
  - unfold dispatchVisitor. unfold mbind at 1, M_bind at 1.
    unfold getOp at 1. cbn [ops setInserted]. rewrite Hop, Hname.
    unfold visitDecl_NodeOp, lowerProducer.
    unfold mbind at 1, M_bind at 1. unfold getOp at 1.
    cbn [ops setInserted]. rewrite Hop, Hty, Hpeel.
    cbn [negb]. cbv iota. unfold mbind at 1, M_bind at 1.
    rewrite Hrun0. cbn beta iota. unfold mbind at 1, M_bind at 1.
    rewrite Hrun1. cbn beta iota. unfold mbind at 1, M_bind at 1.
    change (imap (λ i field,
                    mkValue (OpResult (nextId s + 2 * (0 + i) + 1) 0)
                      (type field)) fields)
      with (nodeValues (nextId s) fields).
    rewrite Husers1. done.
Qed.

(** [lowerBlock]'s step on a node whose type [peelType] decomposes into
    [fields], in a store where every consumer of the node is a static
    field or index accessor of one of the fields and the input of the
    node does not derive from the node: the step succeeds and asks for
    the erasure of the node; the [i]-th field gets two fresh operations,
    the accessor of element [i] of the input of the node and a node of
    the type of the field that reads it, named by the name of the node
    and the suffix of the field; the node and its accessors are gone;
    every other operation stays, with each use of the result of an
    accessor replaced by the new node of the field it selects. *)
Theorem node_lowered_per_field lb opts module opId s op ty input fields :
  ops s !! opId = Some op → opName op = NodeOp →
  operands op !! 0 = Some input → getType input = ty →
  resultTypes op !! 0 = Some ty →
  peelType ty [] (preserveAggregate opts) = (true, fields) →
  wfIds s →
  map_Forall (λ _ user, consumes (OpResult opId 0) user →
                        is_Some (staticAccessorIndex user ≫= (fields !!.)))
    (ops s) →
  (∀ k user, valueDef input = OpResult k 0 → ops s !! k = Some user →
             ¬ consumes (OpResult opId 0) user) →
  ∃ s',
    lowerOp lb opts module opId s
    = Ok ((true, seq (nextId s) (2 * length fields)), s') ∧
    ops s' !! opId = None ∧
    (∀ i field, fields !! i = Some field →
       ops s' !! (nextId s + 2 * i) = Some (accessorOp input i) ∧
       ops s' !! (nextId s + 2 * i + 1)
       = Some (mkOperation NodeOp
                 [accessorValue (nextId s + 2 * i) input i] [type field] []
                 (loweredAttrs op ty (baseSymName op (visitor s)) field))) ∧
    (∀ id user, ops s !! id = Some user → consumes (OpResult opId 0) user →
       ops s' !! id = None) ∧
    (∀ id user, ops s !! id = Some user → id ≠ opId →
       ¬ consumes (OpResult opId 0) user →
       ops s' !! id
       = Some (setOperands user
                 (rewire (ops s) (OpResult opId 0)
                    (nodeValues (nextId s) fields) <$> operands user))).
Proof.
  intros Hop Hname Hinput Hity Hty Hpeel Hwf Husers Hacyclic.
  pose proof (Hwf _ _ Hop) as Hid. simpl in Hid.
  assert (valueDef input ≠ OpResult opId 0) as Hself.
  { intros Hdef. apply (Hacyclic opId op Hdef Hop). unfold consumes.
    apply list_elem_of_fmap. exists input. split; [done|].
    by eapply list_elem_of_lookup_2. }
  destruct (lowerOp_node lb opts module opId s op ty input fields)
    as (s1 & Hrun & Hstore & Hnext); [done..|].
  eexists. split; [exact Hrun|].
  assert (∀ id user, ops s !! id = Some user → ops s1 !! id = Some user)
    as Hold.
  { intros id user Huser. rewrite Hstore, emit_lookup_old; [done|].
    by apply Hwf in Huser. }
  assert (∀ id user, ops s1 !! id = Some user →
            consumes (OpResult opId 0) user → ops s !! id = Some user)
    as Hconsumer.
  { intros id user Huser Hc. rewrite Hstore in Huser.
    apply emit_lookup_inv in Huser as [Huser|(j & -> & Hj)]; [done|].
    apply loweredNode_created in Hj as (i & field & r & _ & _ & Hr).
    by apply (loweredNode_not_consumer _ _ _ _ _ _ _ _ _ opId) in Hr. }
  assert (∀ v, (∀ k user, valueDef v = OpResult k 0 →
                  ops s !! k = Some user →
                  ¬ consumes (OpResult opId 0) user) →
               rewire (ops s1) (OpResult opId 0)
                 (nodeValues (nextId s) fields) v = v) as Hkeep.
  { intros v Hv. unfold rewire.
    destruct (valueDef v) as [|k [|r]] eqn:Hdef; try done.
    destruct (ops s1 !! k) as [user|] eqn:Huser; [|done].
    destruct (decide (consumes (OpResult opId 0) user)) as [Hc|]; [|done].
    exfalso. by apply (Hv k user eq_refl (Hconsumer _ _ Huser Hc)). }
  split; [apply lookup_delete_eq|]. split; [|split].
  - intros i field Hfield. unfold afterErase. cbn [ops].
    rewrite !lookup_delete_ne by lia.
    pose proof (peelType_allowed _ _ _ Hpeel) as Hpeel0.
    destruct (peelType_field ty fields i field Hpeel0 Hfield) as (Hindex & _).
    assert (ops s1 !! (nextId s + 2 * i) = Some (accessorOp input i)) as Hacc.
    { rewrite Hstore, <-(Nat.add_0_r (2 * i)).
      rewrite Nat.add_assoc, <-(Nat.add_assoc (nextId s)).
      apply emit_lookup_new.
      rewrite (concat_imap_lookup _ _ 2 _ _ field) by (done || lia).
      unfold loweredNode. simpl. by rewrite Hindex. }
    assert (ops s1 !! (nextId s + 2 * i + 1)
            = Some (mkOperation NodeOp
                      [accessorValue (nextId s + 2 * i) input i]
                      [type field] []
                      (loweredAttrs op ty (baseSymName op (visitor s)) field)))
      as Hnode.
    { rewrite Hstore, <-(Nat.add_assoc (nextId s)).
      apply emit_lookup_new.
      rewrite (concat_imap_lookup _ _ 2 _ _ field) by (done || lia).
      unfold loweredNode. simpl. by rewrite Hindex. }
    split.
    + rewrite (rewired_other _ _ _ _ _ Hacc); last first.
      { unfold consumes. simpl. rewrite list_elem_of_singleton. congruence. }
      simpl. rewrite Hkeep by done. done.
    + rewrite (rewired_other _ _ _ _ _ Hnode); last first.
      { unfold consumes. simpl. rewrite list_elem_of_singleton.
        intros [=]. lia. }
      simpl. rewrite Hkeep; [done|].
      intros k user [= <-] Huser. apply Hwf in Huser. simpl in Huser. lia.
  - intros id user Huser Hc. unfold afterErase. cbn [ops].
    destruct (decide (id = opId)) as [->|Hne]; [apply lookup_delete_eq|].
    rewrite lookup_delete_ne by done.
    by eapply rewired_consumer; [apply Hold|].
  - intros id user Huser Hne Hnc. unfold afterErase. cbn [ops].
    rewrite lookup_delete_ne by done.
    rewrite (rewired_other _ _ _ _ _ (Hold _ _ Huser) Hnc). do 2 f_equal.
    apply list_fmap_ext. intros _ v _. unfold rewire.
    destruct (valueDef v) as [|k [|r]]; try done.
    destruct (ops s1 !! k) as [user1|] eqn:Huser1.
    + destruct (decide (consumes (OpResult opId 0) user1)) as [Hc|Hc].
      * by rewrite (Hconsumer _ _ Huser1 Hc), decide_True.
      * destruct (ops s !! k) as [user0|] eqn:Huser0; [|done].
        apply Hold in Huser0. simplify_eq. by rewrite decide_False.
    + destruct (ops s !! k) as [user0|] eqn:Huser0; [|done].
      apply Hold in Huser0. congruence.
Qed.

(** The node [n] of [exampleNodeStore] is replaced by the accessors
    [w.a] and [w.b] and by the nodes [n_a] and [n_b] that read them, at
    the identities [5] to [8]; the connect of [n.a] and [n.b] then uses
    the two nodes. *)
Lemma node_lowered_per_field_witness :
  ∃ s',
    lowerOp (λ block, mret block) exampleOptions "Top" 1 exampleNodeStore
    = Ok ((true, [5; 6; 7; 8]), s') ∧
    ops s' !! 1 = None ∧ ops s' !! 2 = None ∧ ops s' !! 3 = None ∧
    ops s' !! 5
    = Some (mkOperation (SubfieldOp 0) [mkValue (OpResult 0 0) exampleBundle]
              [uint1] [] noAttrs) ∧
    (nameAttr ∘ attrs <$> ops s' !! 6) = Some (Some "n_a") ∧
    (operands <$> ops s' !! 6) = Some [mkValue (OpResult 5 0) uint1] ∧
    (operands <$> ops s' !! 4)
    = Some [mkValue (OpResult 6 0) uint1; mkValue (OpResult 8 0) uint1].
Proof.
  destruct (node_lowered_per_field (λ block, mret block) exampleOptions "Top"
              1 exampleNodeStore
              (mkOperation NodeOp [mkValue (OpResult 0 0) exampleBundle]
                 [exampleBundle] []
                 (mkOpAttrs (Some "n") (Some InterestingName) None None))
              exampleBundle (mkValue (OpResult 0 0) exampleBundle)
              (peelType exampleBundle [] false).2)
    as (s' & Hrun & Hgone & Hnew & Hacc & Hother).
  - reflexivity.
  - reflexivity.
  - reflexivity.
  - reflexivity.
  - reflexivity.
  - reflexivity.
  - apply (bool_decide_unpack _). vm_compute. exact I.
  - apply (bool_decide_unpack _). vm_compute. exact I.
  - intros k user [= <-] Huser. vm_compute in Huser.
    injection Huser as <-. apply (bool_decide_unpack _). vm_compute. exact I.
  - exists s'. split; [exact Hrun|]. split; [exact Hgone|].
    destruct (Hnew 0 _ eq_refl) as [Hacc0 Hnode0].
    split; [|split; [|split; [|split; [|split]]]].
    + apply (Hacc 2 _ eq_refl). apply (bool_decide_unpack _). vm_compute.
      exact I.
    + apply (Hacc 3 _ eq_refl). apply (bool_decide_unpack _). vm_compute.
      exact I.
    + exact Hacc0.
    + exact (f_equal (fmap (nameAttr ∘ attrs)) Hnode0).
    + exact (f_equal (fmap operands) Hnode0).
    + refine (f_equal (fmap operands) (Hother 4 _ eq_refl _ _)); [lia|].
      apply (bool_decide_unpack _). vm_compute. exact I.
Defined.

(** ** The walk over a block with a wire to lower *)

Lemma lowerBlockFrom_settled_prefix opts module worklist :
  ∀ rest fuel done s,
    Forall (settled opts (ops s)) worklist →
    ∃ l,
      lowerBlockFrom (length worklist + fuel) opts module (worklist ++ rest)
        done s
      = lowerBlockFrom fuel opts module rest (rev worklist ++ done)
          (setInserted s l).
Proof.
  induction worklist as [|iop worklist IH]; intros rest fuel done s Hall.
  - exists (inserted s). by destruct s.
  - apply Forall_cons in Hall as [Hiop Hall].
    destruct (IH rest fuel (iop :: done) (setInserted s []) Hall) as [l Hrun].
    exists l. cbn [length Nat.add app lowerBlockFrom].
    unfold mbind at 1, M_bind at 1, getState.
    destruct Hiop as (op & Hop & Hkind). rewrite Hop.
    unfold mbind at 1, M_bind at 1.
    rewrite lowerOp_settled by by exists op.
    cbn [rev app]. rewrite Hrun, <-app_assoc, setInserted_setInserted.
    reflexivity.
Qed.

Lemma lowerBlockFrom_settled_filter opts module worklist fuel done s :
  Forall (settled opts (ops s)) worklist →
  length worklist < fuel →
  ∃ l,
    lowerBlockFrom fuel opts module worklist done s
    = Ok (rev worklist ++ filter (λ id, is_Some (ops s !! id)) done,
          setInserted s l).
Proof.
  intros Hall Hfuel.
  destruct (lowerBlockFrom_settled_prefix opts module worklist []
              (fuel - length worklist) done s Hall) as [l Hrun].
  exists l. rewrite app_nil_r in Hrun.
  replace (length worklist + (fuel - length worklist)) with fuel in Hrun
    by lia.
  rewrite Hrun.
  destruct (fuel - length worklist) as [|fuel'] eqn:Hleft; [lia|].
  cbn [lowerBlockFrom]. unfold mbind, M_bind, getState, mret, M_ret.
  do 2 f_equal. rewrite filter_app. f_equal.
  apply Forall_rev in Hall. revert Hall. generalize (rev worklist) as ids.
  induction 1 as [|id ids (op & Hop & _) _ IH]; [done|].
  rewrite filter_cons_True by (simpl; eauto). by rewrite IH.
Qed.

Lemma wireLowered_new s opId op srcType fields i field :
  ops s !! opId = Some op → wfIds s → fields !! i = Some field →
  wireLowered s opId op srcType fields !! (nextId s + i)
  = Some (loweredWire op srcType (baseSymName op (visitor s)) field).
Proof.
  intros Hop Hwf Hfield. unfold wireLowered.
  rewrite lookup_delete_ne; last first.
  { apply Hwf in Hop. simpl in Hop. lia. }
  assert (ops (emit s (loweredWire op srcType (baseSymName op (visitor s))
                         <$> fields)) !! (nextId s + i)
          = Some (loweredWire op srcType (baseSymName op (visitor s)) field))
    as Hnew.
  { apply emit_lookup_new. by rewrite list_lookup_fmap, Hfield. }
  rewrite (rewired_other _ _ _ _ _ Hnew); [done|].
  unfold consumes. simpl. apply not_elem_of_nil.
Qed.

(** [lowerBlock] on a block whose only operation to lower is a wire:
    the wire [opId] has a type that [peelType] decomposes into [fields]
    of types that stay, its consumers are static accessors of its
    fields, the operations [post] below it have nothing to be done for,
    and neither have the operations [pre] above it once the wire is
    lowered.  Given fuel for one visit per operation and per field and
    one more, the walk ends with the block in which the wires of the
    fields, in field order, stand in the place of the wire and the
    accessors of the wire are gone, over the store [wireLowered]. *)
Theorem lowerBlock_lowers_wire fuel opts module pre post opId s op ty fields :
  ops s !! opId = Some op → opName op = WireOp →
  resultTypes op !! 0 = Some ty →
  peelType ty [] (preserveAggregate opts) = (true, fields) →
  Forall (λ field, intactType opts (type field)) fields →
  wfIds s →
  map_Forall (λ _ user, consumes (OpResult opId 0) user →
                        is_Some (staticAccessorIndex user ≫= (fields !!.)))
    (ops s) →
  Forall (settled opts (ops s)) post →
  Forall (settled opts (wireLowered s opId op ty fields)) pre →
  length (pre ++ opId :: post) + length fields < fuel →
  ∃ s',
    lowerBlock fuel opts module (pre ++ opId :: post) s
    = Ok (pre ++ seq (nextId s) (length fields) ++
          filter (λ id, is_Some (wireLowered s opId op ty fields !! id)) post,
          s') ∧
    ops s' = wireLowered s opId op ty fields.
Proof.
  intros Hop Hname Hty Hpeel Hintact Hwf Husers Hpost Hpre Hfuel.
  rewrite length_app in Hfuel. simpl in Hfuel.
  assert (∃ k, fuel = length (rev post) + S (S (length fields + length pre + k)))
    as [k ->].
  { exists (fuel - (length post + S (S (length fields + length pre)))).
    rewrite length_rev. lia. }
  unfold lowerBlock. rewrite rev_app_distr. simpl. rewrite <-app_assoc. simpl.
  destruct (lowerBlockFrom_settled_prefix opts module (rev post)
              (opId :: rev pre) (S (S (length fields + length pre + k))) [] s)
    as [l ->]; [by apply Forall_rev|].
  rewrite app_nil_r, rev_involutive.
  rewrite (lowerBlockFrom_visit _ _ _ _ _ _ _ op) by done.
  destruct (lowerOp_wire
              (λ block,
                 lowerBlockFrom (S (length fields + length pre + k)) opts
                   module (rev block) [])
              opts module opId (setInserted s l) op ty fields)
    as (s1 & Hrun & Hstore & _); [done..|].
  cbn [visitor nextId setInserted] in Hrun, Hstore.
  unfold mbind at 1, M_bind at 1. rewrite Hrun. cbn beta iota.
  cbn [nextId setInserted].
  set (s2 := afterErase _ opId).
  assert (ops s2 = wireLowered s opId op ty fields) as Hs2.
  { unfold s2, wireLowered, afterErase, rewired. cbn [ops setOps].
    rewrite Hstore.
    destruct (emit_setInserted_ops s l
                (loweredWire op ty (baseSymName op (visitor s)) <$> fields))
      as (-> & _ & _).
    done. }
  destruct (lowerBlockFrom_settled_filter opts module
              (rev (seq (nextId s) (length fields)) ++ rev pre)
              (S (length fields + length pre + k)) post s2) as [l' ->].
  - rewrite Hs2. apply Forall_app. split; [|by apply Forall_rev].
    apply Forall_rev, Forall_forall. intros id Hid.
    apply elem_of_seq in Hid as [Hge Hlt].
    destruct (lookup_lt_is_Some_2 fields (id - nextId s)) as [field Hfield];
      [lia|].
    exists (loweredWire op ty (baseSymName op (visitor s)) field). split.
    + replace id with (nextId s + (id - nextId s)) at 1 by lia.
      by apply wireLowered_new.
    + simpl. exists (type field). split; [done|].
      rewrite Forall_forall in Hintact. apply Hintact.
      by eapply list_elem_of_lookup_2.
  - rewrite length_app, !length_rev, length_seq. lia.
  - exists (setInserted s2 l'). split; [|exact Hs2].
    rewrite rev_app_distr, !rev_involutive, Hs2, <-app_assoc. done.
Qed.

(** The block of [exampleUsersStore]: the wire [w], the accessors [w.a]
    and [w.b] and the connect of the two.  The walk ends with the wires
    [w_a] and [w_b], created at the identities [6] and [7], followed by
    the connect. *)
Lemma lowerBlock_lowers_wire_witness :
  ∃ s',
    lowerBlock 7 exampleOptions "Top" [0; 1; 2; 3] exampleUsersStore
    = Ok ([6; 7; 3], s') ∧
    (operands <$> ops s' !! 3)
    = Some [mkValue (OpResult 6 0) uint1; mkValue (OpResult 7 0) uint1].
Proof.
  destruct (lowerBlock_lowers_wire 7 exampleOptions "Top" [] [1; 2; 3] 0
              exampleUsersStore (exampleWire "w" exampleBundle) exampleBundle
              (peelType exampleBundle [] false).2)
    as (s' & Hrun & Hops).
  - reflexivity.
  - reflexivity.
  - reflexivity.
  - reflexivity.
  - repeat constructor.
  - apply (bool_decide_unpack _). vm_compute. exact I.
  - apply (bool_decide_unpack _). vm_compute. exact I.
  - repeat constructor.
    + eexists. split; [reflexivity|]. exact I.
    + eexists. split; [reflexivity|]. exact I.
    + eexists. split; [reflexivity|].
      exists (mkValue (OpResult 1 0) uint1), (mkValue (OpResult 2 0) uint1), [1].
      split; [reflexivity|]. split; [|split; [|reflexivity]].
      * eapply AccessChain_step; [reflexivity|reflexivity|reflexivity|].
        apply AccessChain_end. intros id op Hdef. vm_compute in Hdef.
        by inversion Hdef.
      * repeat constructor. eexists. split; [reflexivity|]. exact I.
  - constructor.
  - simpl. lia.
  - exists s'. split.
    + refine (eq_trans Hrun _). vm_compute. reflexivity.
    + rewrite Hops. vm_compute. reflexivity.
Defined.
